(** * state.js: a heap model of the statechart builder and its instances

    The TypeScript sources build a cyclic object graph (parents, regions,
    vertices, transitions) by mutation.  The model keeps that graph in a
    store of objects addressed by location; every method of the source is a
    computation in a state-and-failure monad over the store.  A failure
    stands for the [TypeError] that JavaScript raises when a property of
    the wrong kind of object is used. *)

From stdpp Require Import gmap strings list fin_maps.
From Stdlib Require Import ZArith.

Abbreviation loc := nat.

(** ** Values that can be passed as a message ([any] in the source) *)

Inductive Value : Type :=
  | VUndefined
  | VNull
  | VBoolean (b : bool)
  | VNumber (z : Z)
  | VString (s : string)
  | VObject (l : loc).

#[global] Instance Value_eq_dec : EqDecision Value.
Proof. solve_decision. Defined.

(** [a === b] on the values above: same tag and same payload; two objects
    are identical when they are the same location. *)
Definition strictEq (a b : Value) : bool := bool_decide (a = b).

(** ** Enumerations *)

Inductive PseudoStateKind : Type :=
  | Choice | DeepHistory | Initial | Junction | ShallowHistory.

Inductive TransitionKind : Type :=
  | External | Internal | Local.

#[global] Instance PseudoStateKind_eq_dec : EqDecision PseudoStateKind.
Proof. solve_decision. Defined.

#[global] Instance TransitionKind_eq_dec : EqDecision TransitionKind.
Proof. solve_decision. Defined.

(** [TransitionKind[k]]: the reverse mapping of a TypeScript enum. *)
Definition TransitionKind_name (k : TransitionKind) : string :=
  match k with
  | External => "External"
  | Internal => "Internal"
  | Local => "Local"
  end.

(** ** The state-and-failure monad *)

Definition StateErr (S A : Type) : Type := S → option (A * S).

Definition ret {S A} (a : A) : StateErr S A := λ s, Some (a, s).

Definition bind {S A B} (m : StateErr S A) (k : A → StateErr S B) : StateErr S B :=
  λ s, match m s with
       | Some (a, s') => k a s'
       | None => None
       end.

Definition throw {S A} : StateErr S A := λ _, None.

Notation "'let*' x := m 'in' k" := (bind m (λ x, k))
  (at level 10, x name, m at level 100, k at level 200).
Notation "'let*' ( x , y ) := m 'in' k" := (bind m (λ '(x, y), k))
  (at level 10, x name, y name, m at level 100, k at level 200).
Notation "m ;; k" := (bind m (λ _, k))
  (at level 100, k at level 200, right associativity).

Module Model.

Section WithCallbacks.

(** Callbacks handed in by user code are closures the model never looks
    into: [Behavior] for entry, exit and effect behaviour, [Action] for
    the compiled actions, [UserGuard] for guards given to [when]. *)
Context {Behavior Action UserGuard : Type}.

(** ** Objects *)

(** The guard of a transition is a closure.  The three closures the source
    itself creates are kept apart from the ones user code supplies. *)
Inductive Guard : Type :=
  | GTrue                        (* () => true *)
  | GIsSource (this : loc)       (* message => message === this.source *)
  | GFalse                       (* () => false *)
  | GUser (g : UserGuard).

Record StateMachineObj : Type := mkStateMachine {
  sm_name : string;
  sm_regions : list loc;
  sm_defaultRegion : option loc;
  clean : bool;
  onInitialise : list Action
}.

Record RegionObj : Type := mkRegion {
  r_name : string;
  r_parent : loc;
  r_qualifiedName : string;
  vertices : list loc
}.

(** The fields that [State] adds to [Vertex]. *)
Record StateFields : Type := mkStateFields {
  regions : list loc;
  defaultRegion : option loc;
  entryBehavior : list Behavior;
  exitBehavior : list Behavior
}.

(** The class of a vertex object: [Vertex] itself (the class is not
    abstract), [PseudoState] or [State]. *)
Inductive VertexClass : Type :=
  | PlainVertex
  | IsPseudoState (kind : PseudoStateKind)
  | IsState (fields : StateFields).

Record VertexObj : Type := mkVertex {
  v_name : string;
  v_parent : loc;
  v_qualifiedName : string;
  outgoing : list loc;
  incoming : list loc;
  v_class : VertexClass
}.

Record TransitionObj : Type := mkTransition {
  source : loc;
  target : option loc;
  kind : TransitionKind;
  guard : Guard;
  effectBehavior : list Behavior
}.

Record DictionaryInstanceObj : Type := mkDictionaryInstance {
  di_name : string;
  activeStateConfiguration : gmap string loc
}.

Inductive Obj : Type :=
  | OStateMachine (m : StateMachineObj)
  | ORegion (r : RegionObj)
  | OVertex (v : VertexObj)
  | OTransition (t : TransitionObj)
  | ODictionaryInstance (d : DictionaryInstanceObj).

(** ** The store and the console *)

Record World : Type := mkWorld {
  heap : gmap loc Obj;
  next : loc;                  (* the next location [new] hands out *)
  console : list string        (* lines written by [console.log], oldest first *)
}.

Abbreviation M := (StateErr World).

Definition log (line : string) : M unit :=
  λ w, Some (tt, mkWorld (heap w) (next w) (console w ++ [line])).

Definition lookup_obj (l : loc) : M Obj :=
  λ w, match heap w !! l with
       | Some o => Some (o, w)
       | None => None
       end.

Definition store_obj (l : loc) (o : Obj) : M unit :=
  λ w, Some (tt, mkWorld (<[l := o]> (heap w)) (next w) (console w)).

(** [new C(...)]: the object gets the next free location. *)
Definition alloc (mk : loc → Obj) : M loc :=
  λ w, Some (next w,
             mkWorld (<[next w := mk (next w)]> (heap w)) (S (next w)) (console w)).

(** Field access on an object of a given class. *)
Definition as_StateMachine (l : loc) : M StateMachineObj :=
  let* o := lookup_obj l in
  match o with OStateMachine m => ret m | _ => throw end.

Definition as_Region (l : loc) : M RegionObj :=
  let* o := lookup_obj l in
  match o with ORegion r => ret r | _ => throw end.

Definition as_Vertex (l : loc) : M VertexObj :=
  let* o := lookup_obj l in
  match o with OVertex v => ret v | _ => throw end.

Definition as_State (l : loc) : M (VertexObj * StateFields) :=
  let* v := as_Vertex l in
  match v_class v with IsState f => ret (v, f) | _ => throw end.

Definition as_Transition (l : loc) : M TransitionObj :=
  let* o := lookup_obj l in
  match o with OTransition t => ret t | _ => throw end.

Definition as_DictionaryInstance (l : loc) : M DictionaryInstanceObj :=
  let* o := lookup_obj l in
  match o with ODictionaryInstance d => ret d | _ => throw end.

(** Field updates. *)
Definition set_sm_regions (rs : list loc) (m : StateMachineObj) :=
  mkStateMachine (sm_name m) rs (sm_defaultRegion m) (clean m) (onInitialise m).
Definition set_sm_defaultRegion (r : option loc) (m : StateMachineObj) :=
  mkStateMachine (sm_name m) (sm_regions m) r (clean m) (onInitialise m).
Definition set_clean (b : bool) (m : StateMachineObj) :=
  mkStateMachine (sm_name m) (sm_regions m) (sm_defaultRegion m) b (onInitialise m).
Definition set_vertices (vs : list loc) (r : RegionObj) :=
  mkRegion (r_name r) (r_parent r) (r_qualifiedName r) vs.
Definition set_outgoing (ts : list loc) (v : VertexObj) :=
  mkVertex (v_name v) (v_parent v) (v_qualifiedName v) ts (incoming v) (v_class v).
Definition set_incoming (ts : list loc) (v : VertexObj) :=
  mkVertex (v_name v) (v_parent v) (v_qualifiedName v) (outgoing v) ts (v_class v).
Definition set_v_class (c : VertexClass) (v : VertexObj) :=
  mkVertex (v_name v) (v_parent v) (v_qualifiedName v) (outgoing v) (incoming v) c.
Definition set_regions (rs : list loc) (f : StateFields) :=
  mkStateFields rs (defaultRegion f) (entryBehavior f) (exitBehavior f).
Definition set_defaultRegion (r : option loc) (f : StateFields) :=
  mkStateFields (regions f) r (entryBehavior f) (exitBehavior f).
Definition set_entryBehavior (bs : list Behavior) (f : StateFields) :=
  mkStateFields (regions f) (defaultRegion f) bs (exitBehavior f).
Definition set_exitBehavior (bs : list Behavior) (f : StateFields) :=
  mkStateFields (regions f) (defaultRegion f) (entryBehavior f) bs.
Definition set_kind (k : TransitionKind) (t : TransitionObj) :=
  mkTransition (source t) (target t) k (guard t) (effectBehavior t).
Definition set_guard (g : Guard) (t : TransitionObj) :=
  mkTransition (source t) (target t) (kind t) g (effectBehavior t).
Definition set_effectBehavior (bs : list Behavior) (t : TransitionObj) :=
  mkTransition (source t) (target t) (kind t) (guard t) bs.
Definition set_activeStateConfiguration (c : gmap string loc)
    (d : DictionaryInstanceObj) :=
  mkDictionaryInstance (di_name d) c.

(** ** Element and NamedElement *)

Definition namespaceSeparator : string := ".".

(** [toString()] of an element: the name of a [StateMachine], the
    qualified name of a [NamedElement]. *)
Definition Element_toString (l : loc) : M string :=
  let* o := lookup_obj l in
  match o with
  | OStateMachine m => ret (sm_name m)
  | ORegion r => ret (r_qualifiedName r)
  | OVertex v => ret (v_qualifiedName v)
  | _ => throw
  end.

(** The [qualifiedName] field of a [NamedElement]. *)
Definition qualifiedName (l : loc) : M string :=
  let* o := lookup_obj l in
  match o with
  | ORegion r => ret (r_qualifiedName r)
  | OVertex v => ret (v_qualifiedName v)
  | _ => throw
  end.

(** The constructor of [NamedElement]; the parent is always an object, so
    the qualified name is the parent's string, the separator and the name.
    Returns the qualified name it has computed and logged. *)
Definition NamedElement_init (name : string) (parent : loc) : M string :=
  let* p := Element_toString parent in
  let qn := p +:+ namespaceSeparator +:+ name in
  log ("created " +:+ qn) ;;
  ret qn.

(** [getRoot()]: a [StateMachine] answers itself, a [NamedElement] asks its
    parent.  The recursion follows parent links in the store, so it is
    bounded by a number of steps. *)
Fixpoint getRoot_steps (n : nat) (h : gmap loc Obj) (l : loc) : option loc :=
  match n with
  | O => None
  | S n' =>
      match h !! l with
      | Some (OStateMachine _) => Some l
      | Some (ORegion r) => getRoot_steps n' h (r_parent r)
      | Some (OVertex v) => getRoot_steps n' h (v_parent v)
      | _ => None
      end
  end.

(** A chain of parents in a store of [next w] objects has at most [next w]
    members. *)
Definition getRoot (l : loc) : M loc :=
  λ w, match getRoot_steps (next w) (heap w) l with
       | Some m => Some (m, w)
       | None => None
       end.

(** [root.clean = b] *)
Definition write_clean (root : loc) (b : bool) : M unit :=
  let* m := as_StateMachine root in
  store_obj root (OStateMachine (set_clean b m)).

(** The statement [element.getRoot().clean = false], which every builder
    of the source ends with. *)
Definition invalidate (element : loc) : M unit :=
  let* root := getRoot element in
  write_clean root false.

(** Reading [element.getRoot().clean]. *)
Definition read_clean (element : loc) : M bool :=
  let* root := getRoot element in
  let* m := as_StateMachine root in
  ret (clean m).

(** Running a computation for its result only. *)
Definition query {A} (c : M A) (w : World) : option A := fst <$> c w.

(** ** Region *)

(** [this.parent.regions.push(this)]: only a [State] and a [StateMachine]
    have a [regions] array. *)
Definition push_region (parent r : loc) : M unit :=
  let* o := lookup_obj parent in
  match o with
  | OStateMachine m =>
      store_obj parent (OStateMachine (set_sm_regions (sm_regions m ++ [r]) m))
  | OVertex v =>
      match v_class v with
      | IsState f =>
          store_obj parent
            (OVertex (set_v_class (IsState (set_regions (regions f ++ [r]) f)) v))
      | _ => throw
      end
  | _ => throw
  end.

(** [new Region(name, parent)] *)
Definition Region_new (name : string) (parent : loc) : M loc :=
  let* qn := NamedElement_init name parent in
  let* this := alloc (λ _, ORegion (mkRegion name parent qn [])) in
  push_region parent this ;;
  invalidate this ;;
  ret this.

Definition Region_defaultName : string := "default".

(** ** Default regions *)

(** [State.getDefaultRegion] and [StateMachine.getDefaultRegion]:
    [this.defaultRegion || (this.defaultRegion = new Region("default", this))].
    The field is written after the constructor of the region has run, on
    the object as the constructor left it.  No other class has the method. *)
Definition getDefaultRegion (this : loc) : M loc :=
  let* o := lookup_obj this in
  match o with
  | OStateMachine m =>
      match sm_defaultRegion m with
      | Some r => ret r
      | None =>
          let* r := Region_new Region_defaultName this in
          let* m' := as_StateMachine this in
          store_obj this (OStateMachine (set_sm_defaultRegion (Some r) m')) ;;
          ret r
      end
  | OVertex v =>
      match v_class v with
      | IsState f =>
          match defaultRegion f with
          | Some r => ret r
          | None =>
              let* r := Region_new Region_defaultName this in
              let* (v', f') := as_State this in
              store_obj this
                (OVertex (set_v_class (IsState (set_defaultRegion (Some r) f')) v')) ;;
              ret r
          end
      | _ => throw
      end
  | _ => throw
  end.

(** ** Vertex, PseudoState, State *)

(** [parent instanceof Region] *)
Definition instanceof_Region (l : loc) : M bool :=
  let* o := lookup_obj l in
  ret (match o with ORegion _ => true | _ => false end).

(** [this.parent.vertices.push(this)] *)
Definition push_vertex (region v : loc) : M unit :=
  let* r := as_Region region in
  store_obj region (ORegion (set_vertices (vertices r ++ [v]) r)).

(** The constructor of [Vertex] from [super(name, region)] on, shared by
    its subclasses; [cls] carries the fields the subclass initialises after
    [super] returns. *)
Definition Vertex_super (cls : VertexClass) (name : string) (region : loc) : M loc :=
  let* qn := NamedElement_init name region in
  let* this := alloc (λ _, OVertex (mkVertex name region qn [] [] cls)) in
  push_vertex region this ;;
  invalidate this ;;
  ret this.

(** The constructor of [Vertex]: the argument of [super] is
    [parent instanceof Region ? parent : parent.getDefaultRegion()]. *)
Definition Vertex_init (cls : VertexClass) (name : string) (parent : loc) : M loc :=
  let* is_region := instanceof_Region parent in
  let* region := (if is_region then ret parent else getDefaultRegion parent) in
  Vertex_super cls name region.

(** The fields of the three classes as their constructors initialise them. *)
Definition initial_class (cls : VertexClass) : Prop :=
  match cls with
  | IsState f => f = mkStateFields [] None [] []
  | _ => True
  end.

Definition Vertex_new : string → loc → M loc := Vertex_init PlainVertex.

(** [new PseudoState(name, parent, kind = PseudoStateKind.Initial)] *)
Definition PseudoState_new (name : string) (parent : loc)
    (kind : option PseudoStateKind) : M loc :=
  Vertex_init (IsPseudoState (default Initial kind)) name parent.

(** [new State(name, parent)]: no regions, no default region, no behaviour. *)
Definition State_new (name : string) (parent : loc) : M loc :=
  Vertex_init (IsState (mkStateFields [] None [] [])) name parent.

Definition PseudoState_isHistory (this : loc) : M bool :=
  let* v := as_Vertex this in
  match v_class v with
  | IsPseudoState k =>
      ret (bool_decide (k = DeepHistory) || bool_decide (k = ShallowHistory))
  | _ => throw
  end.

Definition PseudoState_isInitial (this : loc) : M bool :=
  let* v := as_Vertex this in
  match v_class v with
  | IsPseudoState k =>
      if bool_decide (k = Initial) then ret true else PseudoState_isHistory this
  | _ => throw
  end.

Definition State_isFinal (this : loc) : M bool :=
  let* (v, _) := as_State this in
  ret (bool_decide (length (outgoing v) = 0)).

Definition State_isSimple (this : loc) : M bool :=
  let* (_, f) := as_State this in
  ret (bool_decide (length (regions f) = 0)).

Definition State_isComposite (this : loc) : M bool :=
  let* (_, f) := as_State this in
  ret (0 <? length (regions f)).

Definition State_isOrthogonal (this : loc) : M bool :=
  let* (_, f) := as_State this in
  ret (1 <? length (regions f)).

(** [state.exit(action)] *)
Definition State_exit (this : loc) (action : Behavior) : M loc :=
  let* (v, f) := as_State this in
  store_obj this
    (OVertex (set_v_class (IsState (set_exitBehavior (exitBehavior f ++ [action]) f)) v)) ;;
  invalidate this ;;
  ret this.

(** [state.enter(action)]: the source pushes onto [exitBehavior] here too. *)
Definition State_enter (this : loc) (action : Behavior) : M loc :=
  let* (v, f) := as_State this in
  store_obj this
    (OVertex (set_v_class (IsState (set_exitBehavior (exitBehavior f ++ [action]) f)) v)) ;;
  invalidate this ;;
  ret this.

(** [new StateMachine(name)]: a root with no regions, not clean. *)
Definition StateMachine_new (name : string) : M loc :=
  alloc (λ _, OStateMachine (mkStateMachine name [] None false [])).

(** ** Transition *)

(** [source instanceof PseudoState] *)
Definition instanceof_PseudoState (l : loc) : M bool :=
  let* o := lookup_obj l in
  ret (match o with
       | OVertex v => match v_class v with IsPseudoState _ => true | _ => false end
       | _ => false
       end).

Definition push_outgoing (vertex t : loc) : M unit :=
  let* v := as_Vertex vertex in
  store_obj vertex (OVertex (set_outgoing (outgoing v ++ [t]) v)).

Definition push_incoming (vertex t : loc) : M unit :=
  let* v := as_Vertex vertex in
  store_obj vertex (OVertex (set_incoming (incoming v ++ [t]) v)).

(** String conversion of an optional vertex inside a concatenation. *)
Definition optional_toString (v : option loc) : M string :=
  match v with
  | Some l => Element_toString l
  | None => ret "undefined"
  end.

(** [is_pseudo ? () => true : message => message === this.source] *)
Definition default_guard (is_pseudo : bool) (this : loc) : Guard :=
  if is_pseudo then GTrue else GIsSource this.

(** [new Transition(source, target?, kind = TransitionKind.External)] *)
Definition Transition_new (source : loc) (target : option loc)
    (kind : option TransitionKind) : M loc :=
  let* is_pseudo := instanceof_PseudoState source in
  let* this :=
    alloc (λ this, OTransition
             (mkTransition source target (default External kind)
                (default_guard is_pseudo this) [])) in
  push_outgoing source this ;;
  invalidate source ;;
  match target with
  | Some tg => push_incoming tg this
  | None =>
      let* t := as_Transition this in
      store_obj this (OTransition (set_kind Internal t))
  end ;;
  let* s := Element_toString source in
  let* tg := optional_toString target in
  log ("created transition from " +:+ s +:+ " to " +:+ tg) ;;
  ret this.

(** [vertex.to(target?, kind = TransitionKind.External)] *)
Definition Vertex_to (this : loc) (target : option loc)
    (kind : option TransitionKind) : M loc :=
  Transition_new this target (Some (default External kind)).

(** [transition.else()] *)
Definition Transition_else (this : loc) : M loc :=
  let* t := as_Transition this in
  store_obj this (OTransition (set_guard GFalse t)) ;;
  ret this.

(** [transition.when(guard)] *)
Definition Transition_when (this : loc) (g : UserGuard) : M loc :=
  let* t := as_Transition this in
  store_obj this (OTransition (set_guard (GUser g) t)) ;;
  ret this.

(** [transition.effect(action)] *)
Definition Transition_effect (this : loc) (action : Behavior) : M loc :=
  let* t := as_Transition this in
  store_obj this (OTransition (set_effectBehavior (effectBehavior t ++ [action]) t)) ;;
  invalidate (source t) ;;
  ret this.

Definition Transition_toString (this : loc) : M string :=
  let* t := as_Transition this in
  let* s := Element_toString (source t) in
  let* inner :=
    (if bool_decide (kind t = Internal) then ret s
     else let* tg := optional_toString (target t) in ret (s +:+ " -> " +:+ tg)) in
  ret (TransitionKind_name (kind t) +:+ "(" +:+ inner +:+ ")").

(** ** Instances *)

(** The interface [IInstance]: an object is given by its methods.
    [getCurrent] is a query on the store. *)
Record IInstance : Type := mkInstance {
  setCurrent : loc → loc → M unit;
  getCurrent : loc → World → option (option loc);
  instance_toString : World → option string
}.

(** [new DictionaryInstance(name)]; the configuration starts as [{}].  A
    qualified name always contains the separator, so no key ever meets a
    property inherited from [Object.prototype]. *)
Definition DictionaryInstance_new (name : string) : M loc :=
  alloc (λ _, ODictionaryInstance (mkDictionaryInstance name ∅)).

Definition DictionaryInstance_setCurrent (this region state : loc) : M unit :=
  let* d := as_DictionaryInstance this in
  let* key := qualifiedName region in
  store_obj this
    (ODictionaryInstance
       (set_activeStateConfiguration (<[key := state]> (activeStateConfiguration d)) d)).

Definition DictionaryInstance_getCurrent (this region : loc) : M (option loc) :=
  let* d := as_DictionaryInstance this in
  let* key := qualifiedName region in
  ret (activeStateConfiguration d !! key).

Definition DictionaryInstance_toString (this : loc) : M string :=
  let* d := as_DictionaryInstance this in
  ret (di_name d).

(** A [DictionaryInstance] object seen through the interface. *)
Definition DictionaryInstance (this : loc) : IInstance :=
  mkInstance (DictionaryInstance_setCurrent this)
             (λ region, query (DictionaryInstance_getCurrent this region))
             (query (DictionaryInstance_toString this)).

(** ** Completeness *)

(** [array.every(p)]: stops at the first element on which [p] is false. *)
Fixpoint every {A} (p : A → M bool) (xs : list A) : M bool :=
  match xs with
  | [] => ret true
  | x :: xs' => let* b := p x in if b then every p xs' else ret false
  end.

Definition Region_isComplete (this : loc) (instance : IInstance) : M bool :=
  as_Region this ;;
  λ w, match getCurrent instance this w with
       | Some (Some currentState) => State_isFinal currentState w
       | Some None => Some (false, w)
       | None => None
       end.

Definition State_isComplete (this : loc) (instance : IInstance) : M bool :=
  let* (_, f) := as_State this in
  every (λ region, Region_isComplete region instance) (regions f).

Definition StateMachine_isComplete (this : loc) (instance : IInstance) : M bool :=
  let* m := as_StateMachine this in
  every (λ region, Region_isComplete region instance) (sm_regions m).

(** ** Guards as functions *)

(** What a user-supplied guard answers is a parameter of the model. *)
Variable callUserGuard : UserGuard → Value → IInstance → World → option bool.

(** Calling [transition.guard(message, instance)]. *)
Definition Guard_call (g : Guard) (message : Value) (instance : IInstance)
    (w : World) : option bool :=
  match g with
  | GTrue => Some true
  | GIsSource this =>
      t ← query (as_Transition this) w;
      Some (strictEq message (VObject (source t)))
  | GFalse => Some false
  | GUser f => callUserGuard f message instance w
  end.

(** ** The visitor *)

(** [for (const x of xs) body(x)] *)
Fixpoint forEach {A} (body : A → M unit) (xs : list A) : M unit :=
  match xs with
  | [] => ret tt
  | x :: xs' => body x ;; forEach body xs'
  end.

Definition visitElement (element : loc) : M unit :=
  let* s := Element_toString element in
  log ("visiting " +:+ s).

Definition visitTransition (transition : loc) : M unit :=
  let* s := Transition_toString transition in
  log ("visiting " +:+ s).

(** The methods of [Visitor] that walk into children call [accept] on
    them; [accept] is the parameter [accept_child] here and the knot is
    tied in [accept] below. *)
Section VisitorMethods.

Variable accept_child : loc → M unit.

Definition visitRegion (region : loc) : M unit :=
  let* r := as_Region region in
  forEach accept_child (vertices r) ;;
  visitElement region.

Definition visitVertex (vertex : loc) : M unit :=
  let* v := as_Vertex vertex in
  forEach accept_child (outgoing v) ;;
  visitElement vertex.

Definition visitPseudoState (pseudoState : loc) : M unit :=
  visitVertex pseudoState.

Definition visitState (state : loc) : M unit :=
  let* (_, f) := as_State state in
  forEach accept_child (regions f) ;;
  visitVertex state.

Definition visitStateMachine (stateMachine : loc) : M unit :=
  let* m := as_StateMachine stateMachine in
  forEach accept_child (sm_regions m) ;;
  visitElement stateMachine.

End VisitorMethods.

(** [element.accept(visitor)] for a visitor that overrides nothing, as
    [InitialiseStateMachine] does: each class calls its own visit method.
    [n] bounds the depth of the walk. *)
Fixpoint accept (n : nat) (element : loc) : M unit :=
  match n with
  | O => throw
  | S n' =>
      let* o := lookup_obj element in
      match o with
      | OStateMachine _ => visitStateMachine (accept n') element
      | ORegion _ => visitRegion (accept n') element
      | OVertex v =>
          match v_class v with
          | PlainVertex => visitVertex (accept n') element
          | IsPseudoState _ => visitPseudoState (accept n') element
          | IsState _ => visitState (accept n') element
          end
      | OTransition _ => visitTransition element
      | ODictionaryInstance _ => throw
      end
  end.

(** A run of calls [instance.setCurrent(region, state)], one per pair. *)
Definition setCurrent_all (instance : IInstance) (calls : list (loc * loc)) : M unit :=
  forEach (λ call, setCurrent instance call.1 call.2) calls.

(** ** Initialising a model and an instance *)

(** What a compiled action does when it is run is a parameter too. *)
Variable runAction : Action → Value → IInstance → bool → M unit.

Definition invoke (actions : list Action) (message : Value)
    (instance : IInstance) (deepHistory : bool) : M unit :=
  forEach (λ action, runAction action message instance deepHistory) actions.

(** The branch of [initialise] taken without an instance: one visitor pass,
    then [clean = true].  A walk through a store of [next w] objects is at
    most [next w] deep. *)
Definition initialise_model (this : loc) : M unit :=
  let* s := Element_toString this in
  log ("initialise " +:+ s) ;;
  (λ w, accept (next w) this w) ;;
  let* m := as_StateMachine this in
  store_obj this (OStateMachine (set_clean true m)).

(** [model.initialise(instance?, autoInitialiseModel = true)]; the call
    [this.initialise()] inside the first branch is the second branch. *)
Definition StateMachine_initialise (this : loc) (instance : option IInstance)
    (autoInitialiseModel : option bool) : M unit :=
  match instance with
  | Some i =>
      let* m := as_StateMachine this in
      (if default true autoInitialiseModel && negb (clean m)
       then initialise_model this else ret tt) ;;
      let* s := (λ w, (λ x, (x, w)) <$> instance_toString i w) in
      log ("initialise " +:+ s) ;;
      let* m' := as_StateMachine this in
      invoke (onInitialise m') VUndefined i false
  | None => initialise_model this
  end.

(** ** Well-formed stores *)

(** What never changes about an object once it is constructed: its class
    and its [readonly] links. *)
Inductive VertexTag : Type := TVertex | TPseudoState | TState.

#[global] Instance VertexTag_eq_dec : EqDecision VertexTag.
Proof. solve_decision. Defined.

Inductive Shape : Type :=
  | ShStateMachine
  | ShRegion (parent : loc)
  | ShVertex (parent : loc) (tag : VertexTag)
  | ShTransition (source : loc)
  | ShDictionaryInstance.

#[global] Instance Shape_eq_dec : EqDecision Shape.
Proof. solve_decision. Defined.

Definition tag_of (c : VertexClass) : VertexTag :=
  match c with
  | PlainVertex => TVertex
  | IsPseudoState _ => TPseudoState
  | IsState _ => TState
  end.

Definition shape (o : Obj) : Shape :=
  match o with
  | OStateMachine _ => ShStateMachine
  | ORegion r => ShRegion (r_parent r)
  | OVertex v => ShVertex (v_parent v) (tag_of (v_class v))
  | OTransition t => ShTransition (source t)
  | ODictionaryInstance _ => ShDictionaryInstance
  end.

Definition shape_at (h : gmap loc Obj) (l : loc) : option Shape :=
  shape <$> h !! l.

(** The flag of a machine; no other object has one. *)
Definition clean_of (o : Obj) : option bool :=
  match o with
  | OStateMachine sm => Some (clean sm)
  | _ => None
  end.

(** The [regions] array of an object that has one. *)
Definition regions_of (o : Obj) : list loc :=
  match o with
  | OStateMachine sm => sm_regions sm
  | OVertex v => match v_class v with IsState f => regions f | _ => [] end
  | _ => []
  end.

(** The [defaultRegion] field of an object that has one. *)
Definition defaultRegion_of (o : Obj) : option loc :=
  match o with
  | OStateMachine sm => sm_defaultRegion sm
  | OVertex v => match v_class v with IsState f => defaultRegion f | _ => None end
  | _ => None
  end.

(** What a step may do to the objects it is not about: keep them, up to
    the flag of a machine. *)
Definition kept_up_to_clean (o o' : Obj) : Prop :=
  shape o' = shape o ∧ regions_of o' = regions_of o
  ∧ defaultRegion_of o' = defaultRegion_of o
  ∧ (clean_of o = None → o' = o).

(** [h'] knows every object of [h], and a flag that is [false] in [h] is
    [false] in [h']. *)
Definition flags_only_cleared (h h' : gmap loc Obj) : Prop :=
  ∀ x o, h !! x = Some o →
    ∃ o', h' !! x = Some o' ∧ (clean_of o = Some false → clean_of o' = Some false).

(** [h'] knows every object of [h], with the same shape. *)
Definition shapes_kept (h h' : gmap loc Obj) : Prop :=
  ∀ x s, shape_at h x = Some s → shape_at h' x = Some s.

(** Classes of objects, read off an optional shape: the classes that
    implement [Element], the ones that own regions ([StateMachine] and
    [State]), regions, vertices. *)
Definition is_element (s : option Shape) : Prop :=
  match s with
  | Some ShStateMachine | Some (ShRegion _) | Some (ShVertex _ _) => True
  | _ => False
  end.

Definition is_owner (s : option Shape) : Prop :=
  match s with
  | Some ShStateMachine | Some (ShVertex _ TState) => True
  | _ => False
  end.

Definition is_region (s : option Shape) : Prop :=
  match s with Some (ShRegion _) => True | _ => False end.

Definition is_vertex (s : option Shape) : Prop :=
  match s with Some (ShVertex _ _) => True | _ => False end.

Definition is_state (s : option Shape) : Prop :=
  match s with Some (ShVertex _ TState) => True | _ => False end.

Definition is_transition (s : option Shape) : Prop :=
  match s with Some (ShTransition _) => True | _ => False end.

Definition vertex_of (region : loc) (s : option Shape) : Prop :=
  match s with Some (ShVertex p _) => p = region | _ => False end.

(** The [regions] array of the owner at [l] holds regions whose parent is
    [l], and the default region, once there is one, is among them. *)
Definition owner_ok (h : gmap loc Obj) (l : loc) (rs : list loc)
    (d : option loc) : Prop :=
  Forall (λ r, shape_at h r = Some (ShRegion l)) rs
  ∧ match d with Some r => r ∈ rs | None => True end.

(** What the constructors establish for the object at [l]: a parent is an
    older object of the right class, and the arrays of children hold
    objects that name [l] as their parent or source. *)
Definition obj_ok (h : gmap loc Obj) (l : loc) (o : Obj) : Prop :=
  match o with
  | OStateMachine m => owner_ok h l (sm_regions m) (sm_defaultRegion m)
  | ORegion r =>
      r_parent r < l
      ∧ is_owner (shape_at h (r_parent r))
      ∧ Forall (λ v, vertex_of l (shape_at h v)) (vertices r)
  | OVertex v =>
      v_parent v < l
      ∧ is_region (shape_at h (v_parent v))
      ∧ Forall (λ t, shape_at h t = Some (ShTransition l)) (outgoing v)
      ∧ match v_class v with
        | IsState f => owner_ok h l (regions f) (defaultRegion f)
        | _ => True
        end
  | OTransition t =>
      source t < l
      ∧ is_vertex (shape_at h (source t))
      ∧ match target t with
        | Some tg => is_vertex (shape_at h tg)
        | None => True
        end
  | ODictionaryInstance _ => True
  end.

Definition wf (w : World) : Prop :=
  map_Forall (λ l o, l < next w ∧ obj_ok (heap w) l o) (heap w).

#[global] Instance is_element_dec s : Decision (is_element s).
Proof. destruct s as [[]|]; simpl; apply _. Defined.
#[global] Instance is_owner_dec s : Decision (is_owner s).
Proof. destruct s as [[| |? []| |]|]; simpl; apply _. Defined.
#[global] Instance is_region_dec s : Decision (is_region s).
Proof. destruct s as [[]|]; simpl; apply _. Defined.
#[global] Instance is_vertex_dec s : Decision (is_vertex s).
Proof. destruct s as [[]|]; simpl; apply _. Defined.
#[global] Instance is_state_dec s : Decision (is_state s).
Proof. destruct s as [[| |? []| |]|]; simpl; apply _. Defined.
#[global] Instance is_transition_dec s : Decision (is_transition s).
Proof. destruct s as [[]|]; simpl; apply _. Defined.
#[global] Instance vertex_of_dec region s : Decision (vertex_of region s).
Proof. destruct s as [[]|]; simpl; apply _. Defined.

#[global] Instance owner_ok_dec h l rs d : Decision (owner_ok h l rs d).
Proof. unfold owner_ok. destruct d; apply _. Defined.

#[global] Instance obj_ok_dec h l o : Decision (obj_ok h l o).
Proof. destruct o as [m|r|v|t|d]; simpl; [| | | |apply _].
  - apply _.
  - apply _.
  - destruct (v_class v); apply _.
  - destruct (target t); apply _.
Defined.

#[global] Instance wf_dec w : Decision (wf w).
Proof. unfold wf. apply _. Defined.

(** An instance that honours the types of the interface on the store [w]:
    for a region it answers, and what it answers is a [State]. *)
Definition instance_ok (w : World) (instance : IInstance) : Prop :=
  ∀ r, is_region (shape_at (heap w) r) →
    ∃ current, getCurrent instance r w = Some current
      ∧ match current with
        | Some s => is_state (shape_at (heap w) s)
        | None => True
        end.

(** ** Builder commands *)

(** The calls of the builder surface, as data: the constructors, the
    behaviour adders and the guard setters.  There is no [initialise]
    among them. *)
Inductive Command : Type :=
  | NewRegion (name : string) (parent : loc)
  | NewVertex (cls : VertexClass) (name : string) (parent : loc)
  | NewTransition (src : loc) (tgt : option loc) (k : option TransitionKind)
  | Enter (state : loc) (action : Behavior)
  | Exit (state : loc) (action : Behavior)
  | Effect (transition : loc) (action : Behavior)
  | When (transition : loc) (g : UserGuard)
  | Else (transition : loc).

Definition run (c : Command) : M unit :=
  match c with
  | NewRegion name parent => Region_new name parent ;; ret tt
  | NewVertex cls name parent => Vertex_init cls name parent ;; ret tt
  | NewTransition src tgt k => Transition_new src tgt k ;; ret tt
  | Enter state action => State_enter state action ;; ret tt
  | Exit state action => State_exit state action ;; ret tt
  | Effect transition action => Transition_effect transition action ;; ret tt
  | When transition g => Transition_when transition g ;; ret tt
  | Else transition => Transition_else transition ;; ret tt
  end.

Definition run_all (cs : list Command) : M unit := forEach run cs.

(** The commands that add structure: all but the guard setters. *)
Definition structural (c : Command) : bool :=
  match c with
  | When _ _ | Else _ => false
  | _ => true
  end.

(** The element a command works on: the parent, the source, the state. *)
Definition subject (c : Command) (w : World) : option loc :=
  match c with
  | NewRegion _ parent | NewVertex _ _ parent => Some parent
  | NewTransition src _ _ => Some src
  | Enter state _ | Exit state _ => Some state
  | Effect t _ | When t _ | Else t => source <$> query (as_Transition t) w
  end.

(** The arguments of a command have the classes its signature asks for. *)
Definition command_ok (w : World) (c : Command) : Prop :=
  match c with
  | NewRegion _ parent => is_owner (shape_at (heap w) parent)
  | NewVertex cls _ parent =>
      initial_class cls
      ∧ (is_region (shape_at (heap w) parent) ∨ is_owner (shape_at (heap w) parent))
  | NewTransition src tgt _ =>
      is_vertex (shape_at (heap w) src)
      ∧ match tgt with
        | Some tg => is_vertex (shape_at (heap w) tg)
        | None => True
        end
  | Enter state _ | Exit state _ => is_state (shape_at (heap w) state)
  | Effect t _ | When t _ | Else t => is_transition (shape_at (heap w) t)
  end.

(** Each command of a run has well-classed arguments when its turn comes. *)
Fixpoint commands_ok (w : World) (cs : list Command) : Prop :=
  match cs with
  | [] => True
  | c :: cs' => command_ok w c ∧ ∀ w', run c w = Some (tt, w') → commands_ok w' cs'
  end.

(** The world before anything is constructed. *)
Definition empty_world : World := mkWorld ∅ 0 [].

End WithCallbacks.

End Model.

(** Instance search decides these predicates by their own instances and
    does not look into them. *)
#[global] Typeclasses Opaque Model.is_element Model.is_owner Model.is_region
  Model.is_vertex Model.is_state Model.is_transition Model.vertex_of
  Model.owner_ok Model.obj_ok Model.wf Model.shape_at.

(** * state.ts: ancestors and activity

    [getAncestors] and [isActive] walk the parent links as [getRoot] does,
    so they get the same bound on the number of steps. *)

Module Hierarchy.

Import Model.

Section WithCallbacks.

Context {Behavior Action UserGuard : Type}.

Local Abbreviation World := (@Model.World Behavior Action UserGuard).
Local Abbreviation Obj := (@Model.Obj Behavior Action UserGuard).
Local Abbreviation IInstance := (@Model.IInstance Behavior Action UserGuard).

(** The field [parent] of a [NamedElement]; a [StateMachine] has none. *)
Definition parent_of (h : gmap loc Obj) (l : loc) : option loc :=
  match h !! l with
  | Some (ORegion r) => Some (r_parent r)
  | Some (OVertex v) => Some (v_parent v)
  | _ => None
  end.

(** [getAncestors()]: a [StateMachine] answers [[this]], a [NamedElement]
    answers [this.parent.getAncestors().concat(this)]. *)
Fixpoint getAncestors_steps (n : nat) (h : gmap loc Obj) (l : loc)
    : option (list loc) :=
  match n with
  | O => None
  | S n' =>
      match h !! l with
      | Some (OStateMachine _) => Some [l]
      | Some (ORegion r) =>
          (λ ancestors, ancestors ++ [l]) <$> getAncestors_steps n' h (r_parent r)
      | Some (OVertex v) =>
          (λ ancestors, ancestors ++ [l]) <$> getAncestors_steps n' h (v_parent v)
      | _ => None
      end
  end.

Definition getAncestors (l : loc) : StateErr World (list loc) :=
  λ w, (λ ancestors, (ancestors, w)) <$> getAncestors_steps (next w) (heap w) l.

(** [isActive(instance)]: [true] for a [StateMachine]; a [NamedElement]
    asks its parent; a [State] asks its parent and then, if the answer is
    [true], whether [instance.getCurrent(this.parent) === this]. *)
Fixpoint isActive_steps (n : nat) (instance : IInstance) (w : World) (l : loc)
    : option bool :=
  match n with
  | O => None
  | S n' =>
      match heap w !! l with
      | Some (OStateMachine _) => Some true
      | Some (ORegion r) => isActive_steps n' instance w (r_parent r)
      | Some (OVertex v) =>
          match v_class v with
          | IsState _ =>
              match isActive_steps n' instance w (v_parent v) with
              | Some true =>
                  (λ current, bool_decide (current = Some l))
                    <$> getCurrent instance (v_parent v) w
              | Some false => Some false
              | None => None
              end
          | _ => isActive_steps n' instance w (v_parent v)
          end
      | _ => None
      end
  end.

Definition isActive (l : loc) (instance : IInstance) : StateErr World bool :=
  λ w, (λ b, (b, w)) <$> isActive_steps (next w) instance w l.

(** The state [s] is the current state of the region it lies in. *)
Definition current_in_parent (instance : IInstance) (w : World) (s : loc) : Prop :=
  ∃ r, parent_of (heap w) s = Some r ∧ getCurrent instance r w = Some (Some s).

End WithCallbacks.

End Hierarchy.

(** * Relations between the store before and after a computation *)

Module Frame.

Import Model.

Section WithCallbacks.

Context {Behavior Action UserGuard : Type}.

Local Abbreviation World := (@Model.World Behavior Action UserGuard).
Local Abbreviation Obj := (@Model.Obj Behavior Action UserGuard).

(** Whenever the computation [c] returns, the stores before and after it
    are related by [R]. *)
Definition preserves {A} (R : World → World → Prop) (c : StateErr World A) : Prop :=
  ∀ w a w', c w = Some (a, w') → R w w'.

(** The computation only writes to the console. *)
Definition logs_only (w w' : World) : Prop :=
  heap w' = heap w ∧ next w' = next w ∧ ∃ lines, console w' = console w ++ lines.

(** What a visit of [e] leaves: the store as it was, and on the console the
    lines of what lies below [e], then the line of [e] itself. *)
Definition visited (e : loc) (w w' : World) : Prop :=
  heap w' = heap w ∧ next w' = next w
  ∧ ∃ lines s,
      console w' = console w ++ lines ++ ["visiting " +:+ s]
      ∧ (query (Element_toString e) w = Some s
         ∨ query (Transition_toString e) w = Some s).

(** Run on the store of [w], whatever the console holds, [c] returns,
    leaves the store as it is and appends the lines [out]. *)
Definition emits (c : StateErr World unit) (w : World) (out : list string) : Prop :=
  ∀ lines, c (mkWorld (heap w) (next w) lines)
           = Some (tt, mkWorld (heap w) (next w) (lines ++ out)).

(** No object lies at or beyond the location [new] hands out next. *)
Definition fresh (w : World) : Prop := ∀ x, next w ≤ x → heap w !! x = None.

(** An object and a later version of it: the same class, the same name,
    qualified name and links, each array at least as long as before with
    the old entries in front.  An instance is the same. *)
Definition class_extends (c c' : @VertexClass Behavior) : Prop :=
  match c, c' with
  | PlainVertex, PlainVertex => True
  | IsPseudoState k, IsPseudoState k' => k' = k
  | IsState f, IsState f' =>
      regions f `prefix_of` regions f'
      ∧ entryBehavior f `prefix_of` entryBehavior f'
      ∧ exitBehavior f `prefix_of` exitBehavior f'
  | _, _ => False
  end.

Definition extends (o o' : Obj) : Prop :=
  match o, o' with
  | OStateMachine m, OStateMachine m' =>
      sm_name m' = sm_name m
      ∧ sm_regions m `prefix_of` sm_regions m'
      ∧ onInitialise m' = onInitialise m
  | ORegion r, ORegion r' =>
      r_name r' = r_name r ∧ r_parent r' = r_parent r
      ∧ r_qualifiedName r' = r_qualifiedName r
      ∧ vertices r `prefix_of` vertices r'
  | OVertex v, OVertex v' =>
      v_name v' = v_name v ∧ v_parent v' = v_parent v
      ∧ v_qualifiedName v' = v_qualifiedName v
      ∧ outgoing v `prefix_of` outgoing v'
      ∧ incoming v `prefix_of` incoming v'
      ∧ class_extends (v_class v) (v_class v')
  | OTransition t, OTransition t' =>
      source t' = source t ∧ target t' = target t
      ∧ effectBehavior t `prefix_of` effectBehavior t'
  | ODictionaryInstance d, ODictionaryInstance d' => d' = d
  | _, _ => False
  end.

(** The step allocates nothing: every object is a later version of itself. *)
Definition updates (w w' : World) : Prop :=
  next w' = next w ∧ ∀ x, option_Forall2 extends (heap w !! x) (heap w' !! x).

(** The step may allocate: the objects there were are later versions of
    themselves, and what is new lies at the locations handed out since. *)
Definition grows (w w' : World) : Prop :=
  fresh w →
  fresh w' ∧ next w ≤ next w'
  ∧ ∀ x, x < next w → option_Forall2 extends (heap w !! x) (heap w' !! x).

(** A step keeps the store free beyond [next] and the [defaultRegion]
    field of every object as it is. *)
Definition keeps_defaults (w w' : World) : Prop :=
  fresh w →
  fresh w'
  ∧ ∀ x o, heap w !! x = Some o →
      ∃ o', heap w' !! x = Some o' ∧ defaultRegion_of o' = defaultRegion_of o.

(** A step keeps the store free beyond [next] and every default region
    that is recorded. *)
Definition records_defaults (w w' : World) : Prop :=
  fresh w →
  fresh w'
  ∧ ∀ x o r, heap w !! x = Some o → defaultRegion_of o = Some r →
      ∃ o', heap w' !! x = Some o' ∧ defaultRegion_of o' = Some r.

(** A command that stands for a call the source allows: a vertex comes
    with the fields its constructor gives it. *)
Definition proper (c : @Command Behavior UserGuard) : Prop :=
  match c with
  | NewVertex cls _ _ => initial_class cls
  | _ => True
  end.

(** [toString()] and [name] of the element at [l], read off the store. *)
Definition toString_of (h : gmap loc Obj) (l : loc) : option string :=
  match h !! l with
  | Some (OStateMachine m) => Some (sm_name m)
  | Some (ORegion r) => Some (r_qualifiedName r)
  | Some (OVertex v) => Some (v_qualifiedName v)
  | _ => None
  end.

Definition name_of (h : gmap loc Obj) (l : loc) : option string :=
  match h !! l with
  | Some (OStateMachine m) => Some (sm_name m)
  | Some (ORegion r) => Some (r_name r)
  | Some (OVertex v) => Some (v_name v)
  | _ => None
  end.

(** What the constructor of [NamedElement] establishes: the qualified name
    is the string of the parent, the separator and the name. *)
Definition named (h : gmap loc Obj) (o : Obj) : Prop :=
  match o with
  | ORegion r =>
      (λ p, p +:+ namespaceSeparator +:+ r_name r) <$> toString_of h (r_parent r)
      = Some (r_qualifiedName r)
  | OVertex v =>
      (λ p, p +:+ namespaceSeparator +:+ v_name v) <$> toString_of h (v_parent v)
      = Some (v_qualifiedName v)
  | _ => True
  end.

Definition names_ok (w : World) : Prop :=
  map_Forall (λ _ o, named (heap w) o) (heap w).

#[global] Instance named_dec h o : Decision (named h o).
Proof. destruct o; simpl; apply _. Defined.

#[global] Instance names_ok_dec w : Decision (names_ok w).
Proof. unfold names_ok. apply _. Defined.

(** A step keeps the store free beyond [next] and the names in order. *)
Definition keeps_names (w w' : World) : Prop :=
  fresh w ∧ names_ok w → fresh w' ∧ names_ok w'.

(** The arrays of the object at [l], empty where it has none. *)
Definition regions_at (h : gmap loc Obj) (l : loc) : list loc :=
  from_option regions_of [] (h !! l).

Definition vertices_at (h : gmap loc Obj) (l : loc) : list loc :=
  match h !! l with Some (ORegion r) => vertices r | _ => [] end.

Definition outgoing_at (h : gmap loc Obj) (l : loc) : list loc :=
  match h !! l with Some (OVertex v) => outgoing v | _ => [] end.

Definition incoming_at (h : gmap loc Obj) (l : loc) : list loc :=
  match h !! l with Some (OVertex v) => incoming v | _ => [] end.

(** What a visit of the object at [l] walks through. *)
Definition children_at (h : gmap loc Obj) (l : loc) : list loc :=
  match h !! l with
  | Some (OStateMachine m) => sm_regions m
  | Some (ORegion r) => vertices r
  | Some (OVertex v) =>
      match v_class v with
      | IsState f => regions f ++ outgoing v
      | _ => outgoing v
      end
  | _ => []
  end.

(** What the constructors establish for the object at [l], seen from
    below: it is in the array of its parent, of its source and of its
    target. *)
Definition listed (h : gmap loc Obj) (l : loc) (o : Obj) : Prop :=
  match o with
  | ORegion r => l ∈ regions_at h (r_parent r)
  | OVertex v => l ∈ vertices_at h (v_parent v)
  | OTransition t =>
      l ∈ outgoing_at h (source t)
      ∧ match target t with
        | Some tg => l ∈ incoming_at h tg
        | None => True
        end
  | _ => True
  end.

Definition all_listed (w : World) : Prop :=
  map_Forall (listed (heap w)) (heap w).

#[global] Instance listed_dec h l o : Decision (listed h l o).
Proof. destruct o as [| | |t|]; simpl; try apply _. destruct (target t); apply _. Defined.

#[global] Instance all_listed_dec w : Decision (all_listed w).
Proof. unfold all_listed. apply _. Defined.

(** A step keeps the store free beyond [next] and every object listed. *)
Definition keeps_listed (w w' : World) : Prop :=
  fresh w ∧ all_listed w → fresh w' ∧ all_listed w'.

End WithCallbacks.

End Frame.

#[global] Typeclasses Opaque Frame.named Frame.names_ok Frame.listed
  Frame.all_listed.


(** * Vertex.ts: evaluation of a message at a vertex

    The older [fsm] module.  Only [Vertex] is at hand: [select] is the
    method its subclasses override, [Transition] and its array [traverse]
    of compiled actions belong to files that are not, so they are
    parameters here, as is the store they live in. *)

Module Fsm.

Section Vertex.

Context {W Vertex Transition Instance Action : Type}.

(** [this.select(message, instance)] as the class of [this] defines it. *)
Variable select : Vertex → Value → Instance → StateErr W (option Transition).

(** The array [transition.traverse] as the store holds it. *)
Variable traverse : Transition → W → list Action.

(** Calling an action. *)
Variable call : Action → Value → Instance → bool → StateErr W unit.

(** [Vertex.select] itself: [return;] *)
Definition Vertex_select (this : Vertex) (message : Value) (instance : Instance)
    : StateErr W (option Transition) :=
  ret None.

(** [transition.traverse[i](message, instance, false)]; calling
    [undefined] fails. *)
Definition call_traverse (transition : Transition) (i : nat) (message : Value)
    (instance : Instance) : StateErr W unit :=
  λ w, match traverse transition w !! i with
       | Some action => call action message instance false w
       | None => None
       end.

(** [for (; i < l; i++) ...] with [remaining = l - i] rounds to go. *)
Fixpoint traverse_loop (remaining : nat) (transition : Transition) (i : nat)
    (message : Value) (instance : Instance) : StateErr W unit :=
  match remaining with
  | O => ret tt
  | S remaining' =>
      call_traverse transition i message instance ;;
      traverse_loop remaining' transition (S i) message instance
  end.

Definition evaluate (this : Vertex) (message : Value) (instance : Instance)
    : StateErr W bool :=
  let* transition := select this message instance in
  match transition with
  | None => ret false
  | Some t =>
      let* l := (λ w, Some (length (traverse t w), w)) in
      traverse_loop l t 0 message instance ;;
      ret true
  end.

(** Running a list of actions one after the other. *)
Fixpoint run_actions (actions : list Action) (message : Value)
    (instance : Instance) : StateErr W unit :=
  match actions with
  | [] => ret tt
  | a :: actions' =>
      call a message instance false ;; run_actions actions' message instance
  end.

(** The actions leave the array [t.traverse] as it is. *)
Definition traverse_stable (t : Transition) (message : Value) (instance : Instance)
    : Prop :=
  ∀ a w w', call a message instance false w = Some (tt, w') →
            traverse t w' = traverse t w.

End Vertex.

End Fsm.

(** * Two small models

    Callbacks are named by strings here. *)

Module Demo.

Import Model.

Abbreviation World := (@Model.World string string string).
Abbreviation IInstance := (@Model.IInstance string string string).

Definition world_after {A} (script : StateErr World A) : World :=
  match script empty_world with
  | Some (_, w) => w
  | None => empty_world
  end.

(** One machine: an initial pseudo state and the states [a] and [b] in the
    default region, transitions [initial -> a], [a -> b] and an internal
    one on [a], and one instance.  The objects get the locations [0] to
    [8] in the order of construction, the default region being [1]. *)
Definition build : StateErr World unit :=
  let* m := StateMachine_new "m" in
  let* initial := PseudoState_new "initial" m None in
  let* a := State_new "a" m in
  let* b := State_new "b" m in
  Vertex_to initial (Some a) None ;;
  Vertex_to a (Some b) None ;;
  Vertex_to a None (Some External) ;;
  DictionaryInstance_new "i" ;;
  ret tt.

Definition built : World := world_after build.

Definition m : loc := 0.
Definition region : loc := 1.
Definition initial : loc := 2.
Definition a : loc := 3.
Definition b : loc := 4.
Definition a_to_b : loc := 6.
Definition i : loc := 8.

(** More building on that model: a state [c] under the machine, a guard
    and an effect on the transition from [a] to [b], a region in [b]. *)
Definition more : list (@Command string string) :=
  [ NewVertex (IsState (mkStateFields [] None [] [])) "c" m;
    When a_to_b "isEvent";
    Effect a_to_b "log";
    NewRegion "inner" b ].

(** The same model with [b] as the current state of the default region. *)
Definition configured : World :=
  world_after (build ;; setCurrent (DictionaryInstance i) region b).

(** The same model after [m.initialise()]. *)
Definition compiled : World := world_after (build ;; initialise_model m).

(** Two machines with the same name, each with a region [r]; the second
    one has a state more.  One instance.  Locations: first machine [0],
    its region [1], its state [2]; second machine [3], its region [4], its
    states [5] and [6]; the instance [7]. *)
Definition build_twins : StateErr World unit :=
  let* m1 := StateMachine_new "m" in
  let* r1 := Region_new "r" m1 in
  State_new "s" r1 ;;
  let* m2 := StateMachine_new "m" in
  let* r2 := Region_new "r" m2 in
  State_new "s" r2 ;;
  State_new "t" r2 ;;
  DictionaryInstance_new "i" ;;
  ret tt.

Definition twins : World := world_after build_twins.

(** User guards and compiled actions do nothing in these models. *)
Definition callUserGuard (g : string) (message : Value) (instance : IInstance)
    (w : World) : option bool := Some true.

Definition runAction (action : string) (message : Value) (instance : IInstance)
    (deepHistory : bool) : StateErr World unit := ret tt.

End Demo.

(** A transition with two actions that write their names to a log. *)
Module FsmDemo.

Definition select (v : nat) (message : Value) (instance : unit)
    : StateErr (list string) (option nat) :=
  if bool_decide (message = VString "go") then ret (Some 0) else ret None.

Definition traverse (t : nat) (w : list string) : list string := ["exit"; "enter"].

Definition call (action : string) (message : Value) (instance : unit)
    (deepHistory : bool) : StateErr (list string) unit :=
  λ w, Some (tt, w ++ [action]).

End FsmDemo.

(** The first model grown by a region [inner] in the state [b] and a state
    [c] in that region, with [b] and [c] as the current states of their
    regions.  The new objects get the locations [9] and [10]. *)
Module DemoNested.

Import Model.

Definition build : StateErr Demo.World unit :=
  Demo.build ;;
  let* inner := Region_new "inner" Demo.b in
  let* c := State_new "c" inner in
  setCurrent (DictionaryInstance Demo.i) Demo.region Demo.b ;;
  setCurrent (DictionaryInstance Demo.i) inner c.

Definition built : Demo.World := Demo.world_after build.

Definition inner : loc := 9.
Definition c : loc := 10.

End DemoNested.

(** Actions that change the array they are run from: one appends an
    action to it, one empties it.  The store is the array and a log. *)
Module FsmArrayDemo.

Definition select (v : nat) (message : Value) (instance : unit)
    : StateErr (list string * list string) (option nat) :=
  ret (Some 0).

Definition traverse (t : nat) (w : list string * list string) : list string := w.1.

Definition call_appending (action : string) (message : Value) (instance : unit)
    (deepHistory : bool) : StateErr (list string * list string) unit :=
  λ w, Some (tt, (w.1 ++ ["late"], w.2 ++ [action])).

Definition call_clearing (action : string) (message : Value) (instance : unit)
    (deepHistory : bool) : StateErr (list string * list string) unit :=
  λ w, Some (tt, ([], w.2 ++ [action])).

End FsmArrayDemo.

(** * Facts about the builder (state.ts) *)

Arguments String.append : simpl never.

Lemma bind_unfold {S A B} (c : StateErr S A) (k : A → StateErr S B) s :
  bind c k s = match c s with Some (a, s') => k a s' | None => None end.
Proof. done. Qed.

(** Runs the monadic steps whose outcome is determined by the goal. *)
Ltac mrun :=
  repeat (rewrite ?bind_unfold;
          unfold ret, throw, Model.lookup_obj, Model.as_StateMachine,
            Model.as_Region, Model.as_Vertex, Model.as_State,
            Model.as_Transition, Model.as_DictionaryInstance, Model.log,
            Model.alloc, Model.store_obj;
          simpl;
          repeat match goal with
                 | H : ?x = Some _ |- context [?x] => rewrite H
                 end).

Section ModelFacts.

Import Model.

Context {Behavior Action UserGuard : Type}.

Local Abbreviation World := (@Model.World Behavior Action UserGuard).
Local Abbreviation Obj := (@Model.Obj Behavior Action UserGuard).

Implicit Types (w : World) (h : gmap loc Obj) (o : Obj) (l m : loc).

(** ** Shapes under updates of the store *)

Lemma shape_at_Some h l s :
  shape_at h l = Some s ↔ ∃ o, h !! l = Some o ∧ shape o = s.
Proof.
  unfold shape_at. destruct (h !! l) as [o|]; simpl.
  - split; [intros [= <-]; eauto | intros (o' & [= <-] & <-); done].
  - split; [done | intros (o' & ? & _); done].
Qed.

Lemma shape_at_lookup h l o : h !! l = Some o → shape_at h l = Some (shape o).
Proof. unfold shape_at. by intros ->. Qed.

Lemma shape_at_insert h l o x :
  shape_at (<[l := o]> h) x = if decide (l = x) then Some (shape o) else shape_at h x.
Proof.
  unfold shape_at. rewrite lookup_insert. by destruct (decide (l = x)).
Qed.

(** Overwriting an object by one of the same shape changes no shape. *)
Lemma shape_at_overwrite h l o o' x :
  h !! l = Some o → shape o' = shape o →
  shape_at (<[l := o']> h) x = shape_at h x.
Proof.
  intros Hl Hs. rewrite shape_at_insert. destruct (decide (l = x)) as [<-|]; [|done].
  unfold shape_at. by rewrite Hl, Hs.
Qed.

Lemma shapes_kept_refl h : shapes_kept h h.
Proof. by intros x s. Qed.

Lemma shapes_kept_trans h1 h2 h3 :
  shapes_kept h1 h2 → shapes_kept h2 h3 → shapes_kept h1 h3.
Proof. intros H12 H23 x s Hx. eauto. Qed.

Lemma shapes_kept_overwrite h l o o' :
  h !! l = Some o → shape o' = shape o → shapes_kept h (<[l := o']> h).
Proof. intros Hl Hs x s. by rewrite (shape_at_overwrite h l o o' x). Qed.

Lemma shapes_kept_fresh h l o :
  h !! l = None → shapes_kept h (<[l := o]> h).
Proof.
  intros Hl x s Hx. rewrite shape_at_insert.
  destruct (decide (l = x)) as [<-|]; [|done].
  unfold shape_at in Hx. by rewrite Hl in Hx.
Qed.

Lemma flags_only_cleared_refl h : flags_only_cleared h h.
Proof. intros x o Hx. eauto. Qed.

Lemma flags_only_cleared_trans h1 h2 h3 :
  flags_only_cleared h1 h2 → flags_only_cleared h2 h3 → flags_only_cleared h1 h3.
Proof.
  intros H12 H23 x o Hx. destruct (H12 x o Hx) as (o2 & Hx2 & Hc2).
  destruct (H23 x o2 Hx2) as (o3 & Hx3 & Hc3). eauto.
Qed.

Lemma flags_only_cleared_overwrite h l o o' :
  h !! l = Some o → clean_of o' = clean_of o →
  flags_only_cleared h (<[l := o']> h).
Proof.
  intros Hl Hc x ox Hx. rewrite lookup_insert.
  destruct (decide (l = x)) as [<-|]; [|eauto].
  rewrite Hl in Hx. injection Hx as <-. exists o'. split; [done|congruence].
Qed.

Lemma flags_only_cleared_fresh h l o :
  h !! l = None → flags_only_cleared h (<[l := o]> h).
Proof.
  intros Hl x ox Hx. rewrite lookup_insert.
  destruct (decide (l = x)) as [<-|]; [congruence|eauto].
Qed.

(** A property of optional shapes that no absent object has survives
    every change of the store that keeps shapes. *)
Lemma shapes_kept_at (P : option Shape → Prop) h h' x :
  ¬ P None → shapes_kept h h' → P (shape_at h x) → P (shape_at h' x).
Proof.
  intros HN Hk HP. destruct (shape_at h x) as [s|] eqn:E; [|done].
  by rewrite (Hk _ _ E).
Qed.

Lemma obj_ok_mono h h' l o :
  shapes_kept h h' → obj_ok h l o → obj_ok h' l o.
Proof.
  intros Hk.
  assert (∀ (P : option Shape → Prop) x,
            ¬ P None → P (shape_at h x) → P (shape_at h' x)) as Hat.
  { intros P x HN. by apply shapes_kept_at. }
  assert (∀ rs d, owner_ok h l rs d → owner_ok h' l rs d) as Hown.
  { intros rs d [H ?]. split; [|done]. eapply Forall_impl; eauto. }
  destruct o as [sm|r|v|t|d]; simpl; [| | | |done].
  - apply Hown.
  - clear Hown. intros (Hlt & Hown & Hv). split_and!; [done| |].
    + apply (Hat is_owner); [simpl; tauto | done].
    + eapply Forall_impl; [done|]. intros x.
      apply (Hat (vertex_of l)). simpl; tauto.
  - intros (Hlt & Hp & Ht & Hc). split_and!; [done| | |].
    + apply (Hat is_region); [simpl; tauto | done].
    + eapply Forall_impl; eauto.
    + destruct (v_class v); [done|done|]. by apply Hown.
  - intros (Hlt & Hs & Ht). split_and!; [done|revert Hs; apply (Hat is_vertex); simpl; tauto|].
    destruct (target t); [|done]. revert Ht. apply (Hat is_vertex). simpl; tauto.
Qed.

(** ** Preservation of well-formedness by the two ways a store changes *)

Lemma wf_lt w l o : wf w → heap w !! l = Some o → l < next w.
Proof. intros Hwf Hl. by apply Hwf in Hl as [? _]. Qed.

Lemma wf_obj_ok w l o : wf w → heap w !! l = Some o → obj_ok (heap w) l o.
Proof. intros Hwf Hl. by apply Hwf in Hl as [_ ?]. Qed.

Lemma wf_fresh w l : wf w → next w ≤ l → heap w !! l = None.
Proof.
  intros Hwf Hle. destruct (heap w !! l) as [o|] eqn:E; [|done].
  apply (wf_lt _ _ _ Hwf) in E. lia.
Qed.

Lemma wf_overwrite w l o o' c :
  wf w → heap w !! l = Some o → shape o' = shape o →
  obj_ok (heap w) l o' →
  wf (mkWorld (<[l := o']> (heap w)) (next w) c).
Proof.
  intros Hwf Hl Hs Hok x ox. simpl. rewrite lookup_insert.
  pose proof (shapes_kept_overwrite _ _ _ _ Hl Hs) as Hk.
  destruct (decide (l = x)) as [<-|Hne].
  - intros [= <-]. split; [by eapply wf_lt|]. by eapply obj_ok_mono.
  - intros Hx. split; [by eapply wf_lt|].
    eapply obj_ok_mono; [done|]. by apply wf_obj_ok.
Qed.

Lemma wf_alloc w o c :
  wf w → obj_ok (<[next w := o]> (heap w)) (next w) o →
  wf (mkWorld (<[next w := o]> (heap w)) (S (next w)) c).
Proof.
  intros Hwf Hok x ox. simpl. rewrite lookup_insert.
  pose proof (shapes_kept_fresh _ _ o (wf_fresh w _ Hwf (le_n _))) as Hk.
  destruct (decide (next w = x)) as [<-|Hne].
  - intros [= <-]. split; [lia | done].
  - intros Hx. split; [apply (wf_lt _ _ _ Hwf) in Hx; lia|].
    eapply obj_ok_mono; [done|]. by apply wf_obj_ok.
Qed.

Lemma wf_empty : wf (@empty_world Behavior Action UserGuard).
Proof. intros l o. unfold empty_world; simpl. by rewrite lookup_empty. Qed.

(** ** The root of an element *)

Lemma getRoot_steps_machine n h l m :
  getRoot_steps n h l = Some m → ∃ sm, h !! m = Some (OStateMachine sm).
Proof.
  revert l. induction n as [|n IH]; intros l; simpl; [done|].
  destruct (h !! l) as [[sm|r|v|t|d]|] eqn:E; try done; eauto.
  intros [= <-]. eauto.
Qed.

(** The walk to the root reads shapes only. *)
Lemma getRoot_steps_ext n h h' l :
  (∀ x, shape_at h x = shape_at h' x) →
  getRoot_steps n h l = getRoot_steps n h' l.
Proof.
  intros Hs. revert l. induction n as [|n IH]; intros l; simpl; [done|].
  specialize (Hs l). unfold shape_at in Hs.
  destruct (h !! l) as [[]|], (h' !! l) as [[]|]; simpl in Hs; try done;
    injection Hs as ->; auto.
Qed.

(** In a well-formed store the walk from [l] ends within [l + 1] steps:
    every parent is an older element. *)
Lemma getRoot_steps_total w n l :
  wf w → l < n → is_element (shape_at (heap w) l) →
  ∃ m, getRoot_steps n (heap w) l = Some m ∧ m ≤ l.
Proof.
  intros Hwf. revert l. induction n as [|n IH]; intros l Hlt Hel; [lia|].
  unfold shape_at in Hel. simpl.
  destruct (heap w !! l) as [o|] eqn:Ho; [|done].
  pose proof (wf_obj_ok _ _ _ Hwf Ho) as Hok.
  destruct o as [sm|r|v|t|d]; simpl in *; try done.
  - eauto.
  - destruct Hok as (Hp & Hown & _).
    destruct (IH (r_parent r)) as (m & Hm & Hle); [lia| |exists m; split; [done|lia]].
    by destruct (shape_at (heap w) (r_parent r)) as [[| |? []| |]|].
  - destruct Hok as (Hp & Hreg & _).
    destruct (IH (v_parent v)) as (m & Hm & Hle); [lia| |exists m; split; [done|lia]].
    by destruct (shape_at (heap w) (v_parent v)) as [[]|].
Qed.

Lemma getRoot_steps_mono n n' h l m :
  getRoot_steps n h l = Some m → n ≤ n' → getRoot_steps n' h l = Some m.
Proof.
  revert n' l. induction n as [|n IH]; intros n' l; simpl; [done|].
  intros H Hle. destruct n' as [|n']; [lia|]. simpl.
  destruct (h !! l) as [[sm|r|v|t|d]|]; try done; apply IH; (done || lia).
Qed.

(** What [read_clean] answers is decided by shapes and by the flags of
    the machines. *)
Lemma query_read_clean w l :
  query (read_clean l) w =
    m ← getRoot_steps (next w) (heap w) l;
    o ← heap w !! m;
    clean_of o.
Proof.
  unfold query, read_clean, getRoot. mrun.
  destruct (getRoot_steps (next w) (heap w) l) as [m|] eqn:E; simpl; [|done].
  destruct (getRoot_steps_machine _ _ _ _ E) as [sm Hsm]. by mrun.
Qed.

Lemma read_clean_overwrite w x o o' c l :
  heap w !! x = Some o → shape o' = shape o → clean_of o' = clean_of o →
  query (read_clean l) (mkWorld (<[x := o']> (heap w)) (next w) c)
  = query (read_clean l) w.
Proof.
  intros Hx Hs Hc. rewrite !query_read_clean. simpl.
  rewrite <- (getRoot_steps_ext _ (heap w)); [|intros y; symmetry; by eapply shape_at_overwrite].
  destruct (getRoot_steps (next w) (heap w) l) as [m|]; simpl; [|done].
  rewrite lookup_insert. destruct (decide (x = m)) as [<-|]; [|done].
  rewrite Hx. simpl. done.
Qed.

Lemma read_clean_ext w w' l :
  heap w' = heap w → next w' = next w →
  query (read_clean l) w' = query (read_clean l) w.
Proof. intros Hh Hn. by rewrite !query_read_clean, Hh, Hn. Qed.

Lemma wf_ext w w' : heap w' = heap w → next w' = next w → wf w → wf w'.
Proof. unfold wf. by intros -> ->. Qed.

(** ** [element.getRoot().clean = false] *)

(** The statement succeeds on every element of a well-formed store.  It
    writes one field of one machine: afterwards the flag reads [false],
    every object that is not a machine is as it was, and a machine differs
    from what it was in its flag at most. *)
Lemma invalidate_spec w l :
  wf w → is_element (shape_at (heap w) l) →
  ∃ w', invalidate l w = Some (tt, w')
    ∧ wf w' ∧ next w' = next w ∧ console w' = console w
    ∧ query (read_clean l) w' = Some false
    ∧ (∀ x, shape_at (heap w') x = shape_at (heap w) x)
    ∧ (∀ x o, heap w !! x = Some o → clean_of o = None → heap w' !! x = Some o)
    ∧ (∀ x sm, heap w !! x = Some (OStateMachine sm) →
         ∃ b, heap w' !! x = Some (OStateMachine (set_clean b sm)))
    ∧ flags_only_cleared (heap w) (heap w').
Proof.
  intros Hwf Hel.
  assert (l < next w) as Hlt.
  { unfold shape_at in Hel. destruct (heap w !! l) eqn:E; [|done]. by eapply wf_lt. }
  destruct (getRoot_steps_total w (next w) l Hwf Hlt Hel) as (m & Hm & _).
  destruct (getRoot_steps_machine _ _ _ _ Hm) as [sm Hsm].
  eexists. split.
  { unfold invalidate, getRoot, write_clean. by mrun. }
  simpl. split_and!; try done.
  - eapply wf_overwrite; [done..|]. by apply (wf_obj_ok _ _ _ Hwf Hsm).
  - rewrite query_read_clean. simpl.
    rewrite <- (getRoot_steps_ext _ (heap w)); [|intros y; symmetry; by eapply shape_at_overwrite].
    rewrite Hm. simpl. by rewrite lookup_insert_eq.
  - intros x. by eapply shape_at_overwrite.
  - intros x o Hx Hc. rewrite lookup_insert_ne; [done|]. intros <-. by rewrite Hsm in Hx; injection Hx as <-.
  - intros x sm' Hx. rewrite lookup_insert. destruct (decide (m = x)) as [<-|]; [|exists (clean sm'); by destruct sm'].
    rewrite Hsm in Hx. injection Hx as <-. eauto.
  - intros x o Hx. rewrite lookup_insert. destruct (decide (m = x)) as [<-|]; [|eauto].
    eauto.
Qed.

(** ** Constructors *)

Lemma StateMachine_new_spec w name :
  wf w →
  ∃ w', StateMachine_new name w = Some (next w, w')
    ∧ wf w' ∧ next w' = S (next w)
    ∧ shapes_kept (heap w) (heap w')
    ∧ heap w' !! next w = Some (OStateMachine (mkStateMachine name [] None false [])).
Proof.
  intros Hwf. eexists. split; [reflexivity|]. simpl. split_and!; try done.
  - apply wf_alloc; [done|]. simpl. by split.
  - apply shapes_kept_fresh. by apply wf_fresh.
  - by rewrite lookup_insert_eq.
Qed.

Lemma owner_ok_push h l rs d r :
  owner_ok h l rs d → shape_at h r = Some (ShRegion l) →
  owner_ok h l (rs ++ [r]) d.
Proof.
  intros [Hrs Hd] Hr. split.
  - apply Forall_app. split; [done|]. by constructor.
  - destruct d; [|done]. apply elem_of_app. by left.
Qed.

(** [new Region(name, parent)] under a [State] or a [StateMachine]. *)
Lemma Region_new_spec w name parent :
  wf w → is_owner (shape_at (heap w) parent) →
  ∃ w' pname po po',
    Region_new name parent w = Some (next w, w')
    ∧ wf w' ∧ next w' = S (next w)
    ∧ shapes_kept (heap w) (heap w')
    ∧ query (Element_toString parent) w = Some pname
    ∧ heap w' !! next w
      = Some (ORegion (mkRegion name parent (pname +:+ "." +:+ name) []))
    ∧ query (read_clean (next w)) w' = Some false
    ∧ heap w !! parent = Some po ∧ heap w' !! parent = Some po'
    ∧ regions_of po' = regions_of po ++ [next w]
    ∧ defaultRegion_of po' = defaultRegion_of po
    ∧ flags_only_cleared (heap w) (heap w').
Proof.
  intros Hwf Hown.
  assert (∃ po pname, heap w !! parent = Some po
            ∧ query (Element_toString parent) w = Some pname
            ∧ is_owner (Some (shape po))) as (po & pname & Hpo & Hname & Hown').
  { unfold shape_at in Hown. destruct (heap w !! parent) as [po|] eqn:E; [|done].
    unfold query, Element_toString. mrun.
    destruct po as [sm|r|v|t|d]; try done; eauto. }
  pose proof (wf_lt _ _ _ Hwf Hpo) as Hlt.
  pose proof (wf_fresh _ _ Hwf (le_n _)) as Hfresh.
  set (n := next w) in *.
  set (reg := ORegion (mkRegion name parent (pname +:+ "." +:+ name) []) : Obj).
  set (c1 := console w ++ ["created " +:+ pname +:+ "." +:+ name]).
  set (w2 := mkWorld (<[n := reg]> (heap w)) (S n) c1).
  assert (wf w2) as Hwf2.
  { apply (wf_alloc w reg c1); [done|]. simpl. split_and!; [done| |constructor].
    rewrite shape_at_insert. destruct (decide _); [lia|done]. }
  (* the parent with the region pushed *)
  assert (∃ po', shape po' = shape po
            ∧ regions_of po' = regions_of po ++ [n]
            ∧ defaultRegion_of po' = defaultRegion_of po
            ∧ clean_of po' = clean_of po
            ∧ push_region parent n w2
              = Some (tt, mkWorld (<[parent := po']> (heap w2)) (S n) c1)
            ∧ obj_ok (heap w2) parent po') as (po' & Hsh & Hregs & Hdef & Hcl & Hpush & Hok').
  { pose proof (wf_obj_ok _ _ _ Hwf Hpo) as Hok.
    apply (obj_ok_mono _ (heap w2)) in Hok; [|by apply shapes_kept_fresh].
    assert (shape_at (heap w2) n = Some (ShRegion parent)) as Hn.
    { simpl. rewrite shape_at_insert. by destruct (decide _). }
    unfold push_region. mrun. rewrite lookup_insert_ne by lia. rewrite Hpo.
    destruct po as [sm|r|v|t|d]; try done.
    - eexists. split_and!; [| | | |reflexivity|]; try done.
      simpl in *. by apply owner_ok_push.
    - simpl in Hown'. destruct v as [vn vp vq vo vi [| |f]]; try done. simpl in *.
      eexists. split_and!; [| | | |reflexivity|]; try done.
      simpl. destruct Hok as (? & ? & ? & ?). split_and!; try done.
      by apply owner_ok_push. }
  set (w3 := mkWorld (<[parent := po']> (heap w2)) (S n) c1) in *.
  assert (heap w2 !! parent = Some po) as Hpo2.
  { simpl. by rewrite lookup_insert_ne by lia. }
  assert (wf w3) as Hwf3 by (by apply (wf_overwrite w2 parent po po' c1)).
  destruct (invalidate_spec w3 n Hwf3) as (w' & Hinv & Hwf' & Hnext & Hcons & Hclean & Hshape & Hframe & Hmach & Hflags).
  { simpl. rewrite shape_at_insert. destruct (decide _); [lia|].
    rewrite shape_at_insert. by destruct (decide _). }
  assert (∃ po'', heap w' !! parent = Some po''
            ∧ regions_of po'' = regions_of po'
            ∧ defaultRegion_of po'' = defaultRegion_of po') as (po'' & Hpo'' & Hregs'' & Hdef'').
  { assert (heap w3 !! parent = Some po') as H3 by (simpl; by rewrite lookup_insert_eq).
    destruct po' as [sm| | | |] eqn:E.
    - destruct (Hmach _ _ H3) as [b Hb]. eexists. split; [done|]. done.
    - eexists. split; [by apply Hframe|done].
    - eexists. split; [by apply Hframe|done].
    - eexists. split; [by apply Hframe|done].
    - eexists. split; [by apply Hframe|done]. }
  exists w', pname, po, po''.
  split.
  { unfold Region_new, NamedElement_init. unfold query in Hname.
    destruct (Element_toString parent w) as [[pn wn]|] eqn:Ets; [|done].
    simpl in Hname. injection Hname as ->.
    assert (wn = w) as ->.
    { unfold Element_toString in Ets. revert Ets. mrun.
      destruct po as [| | | |]; simpl; congruence. }
    mrun. unfold namespaceSeparator. fold n reg c1 w2. rewrite Hpush.
    by mrun. }
  split_and!; try done.
  - intros x s Hx. rewrite Hshape. simpl.
    eapply (shapes_kept_overwrite _ parent po po'); [done..|].
    eapply shapes_kept_fresh; done.
  - apply Hframe; [|done]. simpl. rewrite lookup_insert_ne by lia. by rewrite lookup_insert_eq.
  - congruence.
  - congruence.
  - eapply flags_only_cleared_trans; [|exact Hflags]. simpl.
    eapply flags_only_cleared_trans; [by apply flags_only_cleared_fresh|].
    by apply (flags_only_cleared_overwrite _ parent po po').
Qed.

(** ** Default regions *)

(** Once the field is set, [getDefaultRegion] answers it and touches
    nothing. *)
Lemma getDefaultRegion_recorded w this po r :
  heap w !! this = Some po → is_owner (Some (shape po)) →
  defaultRegion_of po = Some r →
  getDefaultRegion this w = Some (r, w).
Proof.
  intros Hpo Hown Hd. unfold getDefaultRegion. mrun.
  destruct po as [sm|?|v|?|?]; simpl in *; try done.
  - by rewrite Hd.
  - destruct (v_class v) as [| |f]; simpl in *; try done. by rewrite Hd.
Qed.

(** The first call constructs the region, the later ones find it. *)
Lemma getDefaultRegion_spec w this :
  wf w → is_owner (shape_at (heap w) this) →
  ∃ r w' po po',
    getDefaultRegion this w = Some (r, w')
    ∧ wf w' ∧ shapes_kept (heap w) (heap w')
    ∧ heap w !! this = Some po ∧ heap w' !! this = Some po'
    ∧ defaultRegion_of po' = Some r ∧ r ∈ regions_of po'
    ∧ shape_at (heap w') r = Some (ShRegion this)
    ∧ ((defaultRegion_of po = Some r ∧ w' = w)
       ∨ (defaultRegion_of po = None ∧ r = next w ∧ next w' = S (next w)
          ∧ (∃ qn, heap w' !! r
                   = Some (ORegion (mkRegion Region_defaultName this qn [])))
          ∧ regions_of po' = regions_of po ++ [r]
          ∧ query (read_clean r) w' = Some false))
    ∧ flags_only_cleared (heap w) (heap w').
Proof.
  intros Hwf Hown.
  assert (∃ po, heap w !! this = Some po ∧ is_owner (Some (shape po)))
    as (po & Hpo & Hown').
  { unfold shape_at in Hown. destruct (heap w !! this) as [po|]; [eauto|done]. }
  pose proof (wf_obj_ok _ _ _ Hwf Hpo) as Hok.
  destruct (defaultRegion_of po) as [r|] eqn:Hd.
  - (* already recorded *)
    exists r, w, po, po.
    assert (r ∈ regions_of po ∧ shape_at (heap w) r = Some (ShRegion this)) as [Hin Hr].
    { destruct po as [sm|?|v|?|?]; simpl in *; try done.
      - destruct Hok as [Hall Hdef]. rewrite Hd in Hdef. split; [done|].
        by eapply (proj1 (Forall_forall _ _) Hall).
      - destruct (v_class v) as [| |f]; simpl in *; try done.
        destruct Hok as (_ & _ & _ & Hall & Hdef). rewrite Hd in Hdef. split; [done|].
        by eapply (proj1 (Forall_forall _ _) Hall). }
    split_and!; try done;
      [by eapply getDefaultRegion_recorded|apply shapes_kept_refl|by left
      |apply flags_only_cleared_refl].
  - (* constructed now *)
    destruct (Region_new_spec w Region_defaultName this Hwf Hown)
      as (w1 & pname & po0 & po1 & Hnew & Hwf1 & Hnext1 & Hkept1 & _ & Hreg & Hclean
          & Hpo0 & Hpo1 & Hregs & Hdef1 & Hflags1).
    rewrite Hpo in Hpo0. injection Hpo0 as <-.
    pose proof (wf_obj_ok _ _ _ Hwf1 Hpo1) as Hok1.
    assert (shape po1 = shape po) as Hsh.
    { pose proof (Hkept1 this _ (shape_at_lookup _ _ _ Hpo)) as H.
      rewrite (shape_at_lookup _ _ _ Hpo1) in H. congruence. }
    assert (this < next w) as Hlt by (by eapply wf_lt).
    assert (∃ po2, shape po2 = shape po1 ∧ clean_of po2 = clean_of po1
              ∧ regions_of po2 = regions_of po1
              ∧ defaultRegion_of po2 = Some (next w)
              ∧ obj_ok (heap w1) this po2
              ∧ getDefaultRegion this w
                = Some (next w, mkWorld (<[this := po2]> (heap w1)) (next w1) (console w1)))
      as (po2 & Hsh2 & Hcl2 & Hregs2 & Hdef2 & Hok2 & Hget).
    { unfold getDefaultRegion. mrun.
      destruct po as [sm|?|v|?|?]; simpl in *; try done.
      - rewrite Hd. mrun. destruct po1 as [sm1|?|?|?|?]; try done. simpl in *.
        eexists. split_and!; [| | | | |reflexivity]; try done.
        simpl. destruct Hok1 as [? _]. split; [done|].
        rewrite Hregs. apply elem_of_app. right. by apply list_elem_of_singleton.
      - destruct (v_class v) as [| |f] eqn:Hcls; simpl in *; try done.
        rewrite Hd. mrun. destruct po1 as [?|?|v1|?|?]; try done. simpl in *.
        destruct (v_class v1) as [| |f1] eqn:Hcls1; simpl in *; try done.
        eexists. split_and!; [| | | | |reflexivity]; try done.
        simpl. destruct Hok1 as (? & ? & ? & ? & _). split_and!; try done.
        split; [done|].
        rewrite Hregs. apply elem_of_app. right. by apply list_elem_of_singleton. }
    eexists _, _, po, po2. split; [exact Hget|]. simpl.
    assert (next w ≠ this) by lia.
    split_and!; try done.
    + by eapply wf_overwrite.
    + eapply shapes_kept_trans; [done|]. by eapply shapes_kept_overwrite.
    + by rewrite lookup_insert_eq.
    + rewrite Hregs2, Hregs. apply elem_of_app. right. by apply list_elem_of_singleton.
    + rewrite (shape_at_overwrite _ _ po1 po2) by done. by rewrite (shape_at_lookup _ _ _ Hreg).
    + right. split_and!; try done.
      * eexists. rewrite lookup_insert_ne by done. done.
      * congruence.
      * by rewrite (read_clean_overwrite w1 this po1 po2).
    + eapply flags_only_cleared_trans; [done|].
      by apply (flags_only_cleared_overwrite _ this po1 po2).
Qed.

(** ** Vertices *)

Lemma invalidate_kept w w' l x o :
  (∀ x o, heap w !! x = Some o → clean_of o = None → heap w' !! x = Some o) →
  (∀ x sm, heap w !! x = Some (OStateMachine sm) →
     ∃ b, heap w' !! x = Some (OStateMachine (set_clean b sm))) →
  heap w !! x = Some o →
  ∃ o', heap w' !! x = Some o' ∧ kept_up_to_clean o o'.
Proof.
  intros Hframe Hmach Hx. destruct (clean_of o) eqn:E.
  - destruct o as [sm| | | |]; try done. destruct (Hmach _ _ Hx) as [b' Hb].
    eexists. split; [done|]. by split_and!.
  - exists o. split; [by apply Hframe|done].
Qed.

(** The constructor of [Vertex] once the region is known. *)
Lemma Vertex_super_spec w cls name region ro :
  wf w → initial_class cls → heap w !! region = Some (ORegion ro) →
  ∃ w' ro',
    Vertex_super cls name region w = Some (next w, w')
    ∧ wf w' ∧ next w' = S (next w)
    ∧ shapes_kept (heap w) (heap w')
    ∧ heap w' !! next w
      = Some (OVertex (mkVertex name region
                         (r_qualifiedName ro +:+ "." +:+ name) [] [] cls))
    ∧ query (read_clean (next w)) w' = Some false
    ∧ heap w' !! region = Some (ORegion ro')
    ∧ vertices ro' = vertices ro ++ [next w]
    ∧ r_parent ro' = r_parent ro
    ∧ (∀ x o, heap w !! x = Some o → x ≠ region →
         ∃ o', heap w' !! x = Some o' ∧ kept_up_to_clean o o')
    ∧ flags_only_cleared (heap w) (heap w').
Proof.
  intros Hwf Hcls Hr.
  pose proof (wf_lt _ _ _ Hwf Hr) as Hlt.
  pose proof (wf_fresh _ _ Hwf (le_n _)) as Hfresh.
  pose proof (wf_obj_ok _ _ _ Hwf Hr) as Hok.
  set (n := next w) in *.
  set (vx := OVertex (mkVertex name region (r_qualifiedName ro +:+ "." +:+ name)
                        [] [] cls) : Obj).
  set (c1 := console w ++ ["created " +:+ r_qualifiedName ro +:+ "." +:+ name]).
  set (w2 := mkWorld (<[n := vx]> (heap w)) (S n) c1).
  assert (wf w2) as Hwf2.
  { apply (wf_alloc w vx c1); [done|]. simpl.
    rewrite shape_at_insert. destruct (decide _); [lia|].
    rewrite (shape_at_lookup _ _ _ Hr). split_and!; try done.
    destruct cls as [| |f]; [done|done|]. simpl in Hcls. by subst f. }
  set (ro' := set_vertices (vertices ro ++ [n]) ro).
  set (w3 := mkWorld (<[region := ORegion ro']> (heap w2)) (S n) c1).
  assert (heap w2 !! region = Some (ORegion ro)) as Hr2.
  { simpl. by rewrite lookup_insert_ne by lia. }
  assert (wf w3) as Hwf3.
  { apply (wf_overwrite w2 region (ORegion ro) (ORegion ro') c1); try done.
    apply (obj_ok_mono _ (heap w2)) in Hok; [|by apply shapes_kept_fresh].
    simpl in *. destruct Hok as (? & ? & ?). split_and!; try done.
    apply Forall_app. split; [done|]. constructor; [|constructor].
    rewrite shape_at_insert. by destruct (decide _). }
  destruct (invalidate_spec w3 n Hwf3)
    as (w' & Hinv & Hwf' & Hnext & Hcons & Hclean & Hshape & Hframe & Hmach & Hflags).
  { simpl. rewrite shape_at_insert. destruct (decide _); [lia|].
    rewrite shape_at_insert. by destruct (decide _). }
  exists w', ro'. split.
  { unfold Vertex_super, NamedElement_init, Element_toString, push_vertex. mrun.
    unfold namespaceSeparator. fold n vx. rewrite lookup_insert_ne by lia.
    mrun. unfold w3, w2, ro', c1 in Hinv. simpl in Hinv. by rewrite Hinv. }
  split_and!; try done.
  - intros x s Hx. rewrite Hshape. simpl.
    eapply (shapes_kept_overwrite _ region (ORegion ro) (ORegion ro')); [done..|].
    eapply shapes_kept_fresh; done.
  - apply Hframe; [|done]. simpl. rewrite lookup_insert_ne by lia. by rewrite lookup_insert_eq.
  - apply Hframe; [|done]. simpl. by rewrite lookup_insert_eq.
  - intros x o Hx Hne. eapply invalidate_kept; [done..|]. simpl.
    rewrite lookup_insert_ne by done. rewrite lookup_insert_ne; [done|].
    intros <-. by rewrite Hfresh in Hx.
  - eapply flags_only_cleared_trans; [|exact Hflags]. simpl.
    eapply flags_only_cleared_trans; [by apply flags_only_cleared_fresh|].
    by apply (flags_only_cleared_overwrite _ region (ORegion ro) (ORegion ro')).
Qed.

(** [new Vertex(name, parent)] and its subclasses: the vertex goes into
    [parent] when that is a region and into the default region of
    [parent] when that is a state or a state machine. *)
Lemma Vertex_init_spec w cls name parent :
  wf w → initial_class cls →
  is_region (shape_at (heap w) parent) ∨ is_owner (shape_at (heap w) parent) →
  ∃ region w1 ro v w' ro',
    ((is_region (shape_at (heap w) parent) ∧ region = parent ∧ w1 = w)
     ∨ (is_owner (shape_at (heap w) parent)
        ∧ getDefaultRegion parent w = Some (region, w1)
        ∧ r_parent ro = parent))
    ∧ heap w1 !! region = Some (ORegion ro)
    ∧ Vertex_init cls name parent w = Some (v, w')
    ∧ v = next w1 ∧ wf w'
    ∧ shapes_kept (heap w) (heap w')
    ∧ heap w' !! v
      = Some (OVertex (mkVertex name region
                         (r_qualifiedName ro +:+ "." +:+ name) [] [] cls))
    ∧ query (read_clean v) w' = Some false
    ∧ heap w' !! region = Some (ORegion ro')
    ∧ vertices ro' = vertices ro ++ [v]
    ∧ r_parent ro' = r_parent ro
    ∧ (∀ x o, heap w1 !! x = Some o → x ≠ region →
         ∃ o', heap w' !! x = Some o' ∧ kept_up_to_clean o o')
    ∧ flags_only_cleared (heap w) (heap w').
Proof.
  intros Hwf Hcls [Hreg|Hown].
  - unfold shape_at in Hreg. destruct (heap w !! parent) as [po|] eqn:Hpo; [|done].
    destruct po as [?|ro|?|?|?]; try done.
    destruct (Vertex_super_spec w cls name parent ro Hwf Hcls Hpo)
      as (w' & ro' & Hsup & Hwf' & Hnext & Hkept & Hv & Hclean & Hr' & Hvs & Hpar
          & Hframe & Hflags).
    exists parent, w, ro, (next w), w', ro'. split_and!; try done.
    + left. unfold shape_at. by rewrite Hpo.
    + unfold Vertex_init, instanceof_Region. by mrun.
  - destruct (getDefaultRegion_spec w parent Hwf Hown)
      as (r & w1 & po & po' & Hget & Hwf1 & Hkept1 & Hpo & Hpo' & Hdef & Hin & Hr & _
          & Hflags1).
    apply shape_at_Some in Hr as (o & Ho & Hsh).
    destruct o as [?|ro|?|?|?]; try done. injection Hsh as Hsh.
    destruct (Vertex_super_spec w1 cls name r ro Hwf1 Hcls Ho)
      as (w' & ro' & Hsup & Hwf' & Hnext & Hkept & Hv & Hclean & Hr' & Hvs & Hpar
          & Hframe & Hflags).
    exists r, w1, ro, (next w1), w', ro'. split_and!; try done.
    + by right.
    + unfold Vertex_init, instanceof_Region. mrun.
      destruct po as [?|?|?|?|?]; simpl; try (by mrun).
      unfold shape_at in Hown. by rewrite Hpo in Hown.
    + by eapply shapes_kept_trans.
    + by eapply flags_only_cleared_trans.
Qed.

(** ** Behaviour of states *)

Lemma State_exit_spec w this v f action :
  wf w → heap w !! this = Some (OVertex v) → v_class v = IsState f →
  ∃ w',
    State_exit this action w = Some (this, w')
    ∧ wf w' ∧ next w' = next w ∧ console w' = console w
    ∧ shapes_kept (heap w) (heap w')
    ∧ heap w' !! this
      = Some (OVertex (set_v_class
                         (IsState (set_exitBehavior (exitBehavior f ++ [action]) f)) v))
    ∧ query (read_clean this) w' = Some false
    ∧ (∀ x o, heap w !! x = Some o → x ≠ this →
         ∃ o', heap w' !! x = Some o' ∧ kept_up_to_clean o o')
    ∧ flags_only_cleared (heap w) (heap w').
Proof.
  intros Hwf Hv Hcls.
  pose proof (wf_obj_ok _ _ _ Hwf Hv) as Hok.
  set (v' := OVertex (set_v_class
                (IsState (set_exitBehavior (exitBehavior f ++ [action]) f)) v) : Obj).
  set (w1 := mkWorld (<[this := v']> (heap w)) (next w) (console w)).
  assert (shape v' = shape (OVertex v : Obj)) as Hsh by (simpl; by rewrite Hcls).
  assert (wf w1) as Hwf1.
  { apply (wf_overwrite w this (OVertex v) v'); try done.
    simpl in *. by rewrite Hcls in Hok. }
  destruct (invalidate_spec w1 this Hwf1)
    as (w' & Hinv & Hwf' & Hnext & Hcons & Hclean & Hshape & Hframe & Hmach & Hflags).
  { simpl. rewrite shape_at_insert. by destruct (decide _). }
  exists w'. split.
  { unfold State_exit. mrun. rewrite Hcls. mrun.
    unfold w1, v' in Hinv. simpl in Hinv. by rewrite Hinv. }
  split_and!; try done.
  - intros x s Hx. rewrite Hshape. by eapply (shapes_kept_overwrite _ this (OVertex v) v').
  - apply Hframe; [|done]. simpl. by rewrite lookup_insert_eq.
  - intros x o Hx Hne. eapply invalidate_kept; [done..|]. simpl.
    by rewrite lookup_insert_ne.
  - eapply flags_only_cleared_trans; [|exact Hflags]. simpl.
    by apply (flags_only_cleared_overwrite _ this (OVertex v) v').
Qed.

(** [enter] is [exit] under another name: the two bodies are the same. *)
Lemma State_enter_is_exit this (action : Behavior) :
  @State_enter Behavior Action UserGuard this action = State_exit this action.
Proof. reflexivity. Qed.

(** What [enter] does on any state: the action goes to the end of
    [exitBehavior] and [entryBehavior] is left as it was. *)
Lemma State_enter_appends_to_exitBehavior w this v f action :
  wf w → heap w !! this = Some (OVertex v) → v_class v = IsState f →
  ∃ w' v' f',
    State_enter this action w = Some (this, w')
    ∧ heap w' !! this = Some (OVertex v') ∧ v_class v' = IsState f'
    ∧ entryBehavior f' = entryBehavior f
    ∧ exitBehavior f' = exitBehavior f ++ [action].
Proof.
  intros Hwf Hv Hcls. rewrite State_enter_is_exit.
  destruct (State_exit_spec w this v f action Hwf Hv Hcls)
    as (w' & Hrun & _ & _ & _ & _ & Hobj & _).
  by eexists w', _, _.
Qed.

(** ** Transitions *)

Lemma is_vertex_inv h l :
  is_vertex (shape_at h l) → ∃ v, h !! l = Some (OVertex v).
Proof.
  unfold shape_at. destruct (h !! l) as [[?|?|v|?|?]|]; simpl; try done. eauto.
Qed.

Lemma is_state_inv h l :
  is_state (shape_at h l) →
  ∃ v f, h !! l = Some (OVertex v) ∧ v_class v = IsState f.
Proof.
  unfold shape_at. destruct (h !! l) as [[?|?|v|?|?]|]; simpl; try done.
  destruct (v_class v) eqn:E; simpl; try done. eauto.
Qed.

Lemma instanceof_PseudoState_vertex w l v :
  heap w !! l = Some (OVertex v) →
  instanceof_PseudoState l w
  = Some (bool_decide (tag_of (v_class v) = TPseudoState), w).
Proof.
  intros Hl. unfold instanceof_PseudoState. mrun. by destruct (v_class v).
Qed.

(** [new Transition(source, target, kind)] between vertices. *)
Lemma Transition_new_spec w src target kind sv :
  wf w → heap w !! src = Some (OVertex sv) →
  match target with Some tg => is_vertex (shape_at (heap w) tg) | None => True end →
  ∃ w' sv',
    Transition_new src target kind w = Some (next w, w')
    ∧ wf w' ∧ next w' = S (next w)
    ∧ shapes_kept (heap w) (heap w')
    ∧ heap w' !! next w
      = Some (OTransition
                (mkTransition src target
                   (match target with
                    | Some _ => default External kind
                    | None => Internal
                    end)
                   (default_guard (bool_decide (tag_of (v_class sv) = TPseudoState))
                      (next w))
                   []))
    ∧ query (read_clean src) w' = Some false
    ∧ heap w' !! src = Some (OVertex sv')
    ∧ outgoing sv' = outgoing sv ++ [next w]
    ∧ v_class sv' = v_class sv
    ∧ match target with
      | Some tg =>
          ∃ tv tv', heap w !! tg = Some (OVertex tv)
            ∧ heap w' !! tg = Some (OVertex tv')
            ∧ incoming tv' = incoming tv ++ [next w]
      | None => incoming sv' = incoming sv
      end
    ∧ flags_only_cleared (heap w) (heap w').
Proof.
  intros Hwf Hsrc Htg.
  pose proof (wf_lt _ _ _ Hwf Hsrc) as Hlt.
  pose proof (wf_fresh _ _ Hwf (le_n _)) as Hfresh.
  pose proof (wf_obj_ok _ _ _ Hwf Hsrc) as Hok.
  set (n := next w) in *.
  set (g := default_guard (bool_decide (tag_of (v_class sv) = TPseudoState)) n
            : @Guard UserGuard).
  set (tr := mkTransition src target (default External kind) g ([] : list Behavior)).
  set (w1 := mkWorld (<[n := OTransition tr]> (heap w)) (S n) (console w)).
  assert (shapes_kept (heap w) (heap w1)) as Hk1 by (by apply shapes_kept_fresh).
  assert (wf w1) as Hwf1.
  { apply (wf_alloc w (OTransition tr)); [done|]. simpl. split_and!.
    - done.
    - apply (shapes_kept_at is_vertex _ _ _ (λ x, x) Hk1).
      by rewrite (shape_at_lookup _ _ _ Hsrc).
    - destruct target as [tg|]; [|done].
      by apply (shapes_kept_at is_vertex _ _ _ (λ x, x) Hk1). }
  set (sv1 := set_outgoing (outgoing sv ++ [n]) sv).
  set (w2 := mkWorld (<[src := OVertex sv1]> (heap w1)) (S n) (console w)).
  assert (heap w1 !! src = Some (OVertex sv)) as Hsrc1.
  { simpl. by rewrite lookup_insert_ne by lia. }
  assert (shapes_kept (heap w1) (heap w2)) as Hk2.
  { by apply (shapes_kept_overwrite _ src (OVertex sv) (OVertex sv1)). }
  assert (wf w2) as Hwf2.
  { apply (wf_overwrite w1 src (OVertex sv) (OVertex sv1)); try done.
    apply (obj_ok_mono _ (heap w1)) in Hok; [|done].
    simpl in *. destruct Hok as (? & ? & ? & ?). split_and!; try done.
    apply Forall_app. split; [done|]. constructor; [|constructor].
    rewrite shape_at_insert. by destruct (decide _). }
  destruct (invalidate_spec w2 src Hwf2)
    as (w3 & Hinv & Hwf3 & Hnext3 & Hcons3 & Hclean3 & Hshape3 & Hframe3 & Hmach3 & Hflags3).
  { simpl. rewrite shape_at_insert. by destruct (decide _). }
  assert (heap w3 !! src = Some (OVertex sv1)) as Hsrc3.
  { apply Hframe3; [|done]. simpl. by rewrite lookup_insert_eq. }
  assert (heap w3 !! n = Some (OTransition tr)) as Hn3.
  { apply Hframe3; [|done]. simpl. rewrite lookup_insert_ne by lia.
    by rewrite lookup_insert_eq. }
  assert (shapes_kept (heap w) (heap w3)) as Hk3.
  { intros x s Hx. rewrite Hshape3. eauto. }
  (* the last write: the target's [incoming], or the kind *)
  assert (∃ x o o', heap w3 !! x = Some o ∧ shape o' = shape o
            ∧ clean_of o = None ∧ clean_of o' = None
            ∧ obj_ok (heap w3) x o'
            ∧ (let w4 := mkWorld (<[x := o']> (heap w3)) (S n) (console w) in
               Transition_new src target kind w
               = Some (n, mkWorld (heap w4) (S n)
                            (console w ++
                             [match query (optional_toString target) w4 with
                              | Some s => "created transition from "
                                          +:+ v_qualifiedName sv +:+ " to " +:+ s
                              | None => ""
                              end]))
               ∧ heap w4 !! n
                 = Some (OTransition
                           (mkTransition src target
                              (match target with
                               | Some _ => default External kind
                               | None => Internal
                               end) g []))
               ∧ ∃ sv', heap w4 !! src = Some (OVertex sv')
                   ∧ outgoing sv' = outgoing sv ++ [n]
                   ∧ v_class sv' = v_class sv
                   ∧ match target with
                     | Some tg =>
                         ∃ tv tv', heap w !! tg = Some (OVertex tv)
                           ∧ heap w4 !! tg = Some (OVertex tv')
                           ∧ incoming tv' = incoming tv ++ [n]
                     | None => incoming sv' = incoming sv
                     end))
    as (x & o & o' & Hx & Hsh & Hc & Hc' & Hok' & Hrun & Hn4 & sv' & Hsrc4 & Hout & Hcls & Htgt).
  { assert (Transition_new src target kind w
            = (match target with
               | Some tg => push_incoming tg n
               | None =>
                   let* t := as_Transition n in
                   store_obj n (OTransition (set_kind Internal t))
               end ;;
               let* s := Element_toString src in
               let* tg := optional_toString target in
               log ("created transition from " +:+ s +:+ " to " +:+ tg) ;;
               ret n) w3) as ->.
    { unfold Transition_new. rewrite bind_unfold.
      rewrite (instanceof_PseudoState_vertex _ _ _ Hsrc).
      unfold push_outgoing. mrun. fold n g tr. rewrite lookup_insert_ne by lia.
      mrun. unfold w2, w1, sv1 in Hinv. simpl in Hinv. by rewrite Hinv. }
    destruct target as [tg|].
    - (* a target: it is a vertex, also after the steps so far *)
      destruct (is_vertex_inv _ _ Htg) as [tv Htv].
      assert (∃ tv3, heap w3 !! tg = Some (OVertex tv3) ∧ incoming tv3 = incoming tv
                ∧ obj_ok (heap w3) tg (OVertex tv3)
                ∧ shape (OVertex tv3 : Obj) = shape (OVertex tv : Obj))
        as (tv3 & Htv3 & Hinc & Hoktv & Hshtv).
      { destruct (decide (tg = src)) as [->|Hne].
        - exists sv1. rewrite Hsrc in Htv. injection Htv as <-.
          split_and!; try done. by apply (wf_obj_ok _ _ _ Hwf3).
        - exists tv. assert (heap w3 !! tg = Some (OVertex tv)) as H3.
          { apply Hframe3; [|done]. simpl. rewrite lookup_insert_ne by done.
            rewrite lookup_insert_ne; [done|]. intros <-. by rewrite Hfresh in Htv. }
          split_and!; try done. by apply (wf_obj_ok _ _ _ Hwf3). }
      exists tg, (OVertex tv3), (OVertex (set_incoming (incoming tv3 ++ [n]) tv3)).
      split_and!; try done. simpl.
      assert (n ≠ tg) as Hntg.
      { intros <-. by rewrite Hfresh in Htv. }
      split_and!.
      + unfold push_incoming, Element_toString, optional_toString, query. mrun.
        rewrite Hnext3, Hcons3. simpl.
        destruct (decide (tg = src)) as [->|Hne].
        * rewrite Hsrc3 in Htv3. injection Htv3 as <-.
          repeat (mrun; rewrite ?lookup_insert_eq). done.
        * repeat (mrun; rewrite ?lookup_insert_eq;
                  rewrite ?(lookup_insert_ne _ tg src) by done). done.
      + rewrite lookup_insert_ne by done. done.
      + destruct (decide (tg = src)) as [->|Hne].
        * rewrite Hsrc3 in Htv3. injection Htv3 as <-.
          eexists. rewrite lookup_insert_eq. split_and!; try done.
          exists tv, (set_incoming (incoming sv1 ++ [n]) sv1).
          split_and!; try done. simpl. rewrite Hsrc in Htv. by injection Htv as <-.
        * exists sv1. rewrite lookup_insert_ne by done. split_and!; try done.
          exists tv, (set_incoming (incoming tv3 ++ [n]) tv3).
          rewrite lookup_insert_eq. split_and!; try done. simpl. by rewrite Hinc.
    - (* no target: the kind becomes [Internal] *)
      exists n, (OTransition tr), (OTransition (set_kind Internal tr)).
      split_and!; try done.
      { simpl. pose proof (wf_obj_ok _ _ _ Hwf3 Hn3) as H. done. }
      simpl. split_and!.
      + unfold Element_toString, optional_toString, query. mrun.
        rewrite Hnext3, Hcons3. simpl.
        rewrite (lookup_insert_ne _ n src) by lia. rewrite Hsrc3. by mrun.
      + by rewrite lookup_insert_eq.
      + exists sv1. rewrite lookup_insert_ne by lia. done. }
  simpl in Hrun, Hn4, Hsrc4, Htgt.
  eexists _, sv'. split; [exact Hrun|]. simpl.
  split_and!; try done.
  - eapply wf_ext; [| |by apply (wf_overwrite w3 x o o' (console w))]; done.
  - eapply shapes_kept_trans; [done|]. by eapply shapes_kept_overwrite.
  - rewrite <- Hclean3.
    rewrite <- (read_clean_overwrite w3 x o o' (console w) src) by (done || congruence).
    by apply read_clean_ext.
  - eapply flags_only_cleared_trans;
      [|apply (flags_only_cleared_overwrite _ x o o'); [done|congruence]].
    eapply flags_only_cleared_trans; [|exact Hflags3]. simpl.
    eapply flags_only_cleared_trans; [by apply flags_only_cleared_fresh|].
    by apply (flags_only_cleared_overwrite _ src (OVertex sv) (OVertex sv1)).
Qed.

Lemma Transition_guard_spec w this tr (g : @Guard UserGuard) :
  wf w → heap w !! this = Some (OTransition tr) →
  let w' := mkWorld (<[this := OTransition (set_guard g tr)]> (heap w))
              (next w) (console w) in
  wf w' ∧ (∀ l, query (read_clean l) w' = query (read_clean l) w)
  ∧ (∀ x, x ≠ this → heap w' !! x = heap w !! x)
  ∧ shapes_kept (heap w) (heap w')
  ∧ flags_only_cleared (heap w) (heap w').
Proof.
  intros Hwf Ht. simpl. split_and!.
  - apply (wf_overwrite w this (OTransition tr)); try done.
    by apply (wf_obj_ok _ _ _ Hwf Ht).
  - intros l. by apply (read_clean_overwrite w this (OTransition tr)).
  - intros x Hx. by rewrite lookup_insert_ne.
  - by apply (shapes_kept_overwrite _ this (OTransition tr)).
  - by apply (flags_only_cleared_overwrite _ this (OTransition tr)).
Qed.

Lemma Transition_effect_spec w this tr action :
  wf w → heap w !! this = Some (OTransition tr) →
  ∃ w',
    Transition_effect this action w = Some (this, w')
    ∧ wf w' ∧ next w' = next w ∧ console w' = console w
    ∧ shapes_kept (heap w) (heap w')
    ∧ heap w' !! this
      = Some (OTransition (set_effectBehavior (effectBehavior tr ++ [action]) tr))
    ∧ query (read_clean (source tr)) w' = Some false
    ∧ (∀ x o, heap w !! x = Some o → x ≠ this →
         ∃ o', heap w' !! x = Some o' ∧ kept_up_to_clean o o')
    ∧ flags_only_cleared (heap w) (heap w').
Proof.
  intros Hwf Ht.
  pose proof (wf_obj_ok _ _ _ Hwf Ht) as Hok.
  set (t' := OTransition (set_effectBehavior (effectBehavior tr ++ [action]) tr) : Obj).
  set (w1 := mkWorld (<[this := t']> (heap w)) (next w) (console w)).
  assert (wf w1) as Hwf1 by (by apply (wf_overwrite w this (OTransition tr) t')).
  assert (shapes_kept (heap w) (heap w1)) as Hk1.
  { by apply (shapes_kept_overwrite _ this (OTransition tr) t'). }
  destruct (invalidate_spec w1 (source tr) Hwf1)
    as (w' & Hinv & Hwf' & Hnext & Hcons & Hclean & Hshape & Hframe & Hmach & Hflags).
  { destruct Hok as (_ & Hs & _).
    apply (shapes_kept_at is_vertex _ _ _ (λ x, x) Hk1) in Hs.
    by destruct (shape_at (heap w1) (source tr)) as [[]|]. }
  exists w'. split.
  { unfold Transition_effect. mrun.
    unfold w1, t' in Hinv. simpl in Hinv. by rewrite Hinv. }
  split_and!; try done.
  - intros x s Hx. rewrite Hshape. by apply Hk1.
  - apply Hframe; [|done]. simpl. by rewrite lookup_insert_eq.
  - intros x o Hx Hne. eapply invalidate_kept; [done..|]. simpl.
    by rewrite lookup_insert_ne.
  - eapply flags_only_cleared_trans; [|exact Hflags]. simpl.
    by apply (flags_only_cleared_overwrite _ this (OTransition tr) t').
Qed.

(** The flag of a region's root is the flag of its parent's root. *)
Lemma read_clean_parent w r ro :
  heap w !! r = Some (ORegion ro) →
  ∀ b, query (read_clean r) w = Some b →
       query (read_clean (r_parent ro)) w = Some b.
Proof.
  intros Hr b. rewrite !query_read_clean.
  destruct (next w) as [|n]; simpl; [done|]. rewrite Hr.
  destruct (getRoot_steps n (heap w) (r_parent ro)) as [m|] eqn:E; [|done].
  apply (getRoot_steps_mono _ (S n)) in E; [|lia]. simpl in E. by rewrite E.
Qed.

(** ** Runs of builder commands *)

(** The walk to the root follows the same links in a store that has kept
    the shapes. *)
Lemma getRoot_steps_kept n n' h h' l m m' :
  shapes_kept h h' →
  getRoot_steps n h l = Some m → getRoot_steps n' h' l = Some m' → m = m'.
Proof.
  intros Hk. revert n' l. induction n as [|n IH]; intros n' l; simpl; [done|].
  destruct n' as [|n']; simpl; [done|].
  destruct (h !! l) as [o|] eqn:Hl; [|done].
  pose proof (Hk l _ (shape_at_lookup _ _ _ Hl)) as Hl'.
  apply shape_at_Some in Hl' as (o' & -> & Hsh).
  destruct o as [?|r|v|?|?], o' as [?|r'|v'|?|?]; simpl in Hsh; try done.
  - congruence.
  - injection Hsh as ->. apply IH.
  - injection Hsh as -> _. apply IH.
Qed.

Lemma getRoot_steps_element n h l m :
  getRoot_steps n h l = Some m → is_element (shape_at h l).
Proof.
  destruct n as [|n]; simpl; [done|]. unfold shape_at.
  by destruct (h !! l) as [[?|?|?|?|?]|].
Qed.

(** A flag that reads [false] keeps reading [false] as long as shapes are
    kept and flags are only cleared. *)
Lemma read_clean_stays_false w w' e :
  wf w' → shapes_kept (heap w) (heap w') →
  flags_only_cleared (heap w) (heap w') →
  query (read_clean e) w = Some false → query (read_clean e) w' = Some false.
Proof.
  intros Hwf' Hk Hflags. rewrite !query_read_clean.
  destruct (getRoot_steps (next w) (heap w) e) as [m|] eqn:Hm; [|done]. simpl.
  destruct (heap w !! m) as [o|] eqn:Ho; [|done]. simpl. intros Hc.
  pose proof (getRoot_steps_element _ _ _ _ Hm) as Hel.
  apply (shapes_kept_at is_element _ _ _ (λ x, x) Hk) in Hel.
  assert (e < next w') as Hlt.
  { unfold shape_at in Hel. destruct (heap w' !! e) eqn:E; [by eapply wf_lt|done]. }
  destruct (getRoot_steps_total w' (next w') e Hwf' Hlt Hel) as (m' & Hm' & _).
  rewrite Hm'. simpl.
  rewrite <- (getRoot_steps_kept _ _ _ _ _ _ _ Hk Hm Hm').
  destruct (Hflags m o Ho) as (o' & -> & Hc'). simpl. by apply Hc'.
Qed.

(** The flag of a vertex's root is the flag of its region's root. *)
Lemma read_clean_parent_vertex w v vo :
  heap w !! v = Some (OVertex vo) →
  ∀ b, query (read_clean v) w = Some b →
       query (read_clean (v_parent vo)) w = Some b.
Proof.
  intros Hv b. rewrite !query_read_clean.
  destruct (next w) as [|n]; simpl; [done|]. rewrite Hv.
  destruct (getRoot_steps n (heap w) (v_parent vo)) as [m|] eqn:E; [|done].
  apply (getRoot_steps_mono _ (S n)) in E; [|lia]. simpl in E. by rewrite E.
Qed.

(** A command with well-classed arguments succeeds; it keeps the store
    well-formed and the shapes, never sets a flag, and, when it adds
    structure, leaves the flag of the root of its subject [false]. *)
Lemma run_spec w c :
  wf w → command_ok w c →
  ∃ w', run c w = Some (tt, w')
    ∧ wf w' ∧ shapes_kept (heap w) (heap w')
    ∧ flags_only_cleared (heap w) (heap w')
    ∧ (structural c = true →
       ∀ e, subject c w = Some e → query (read_clean e) w' = Some false).
Proof.
  intros Hwf Hok. destruct c as [name parent|cls name parent|src tgt k|state action
                                 |state action|t action|t g|t]; simpl in Hok.
  - destruct (Region_new_spec w name parent Hwf Hok)
      as (w' & ? & ? & ? & Hrun & Hwf' & _ & Hk & _ & Hobj & Hclean & _ & _ & _ & _ & Hf).
    exists w'. simpl. rewrite bind_unfold, Hrun. split_and!; try done.
    intros _ e [= <-]. by apply (read_clean_parent w' (next w) _ Hobj).
  - destruct Hok as [Hcls Hparent].
    destruct (Vertex_init_spec w cls name parent Hwf Hcls Hparent)
      as (region & w1 & ro & v & w' & ro' & Hres & _ & Hrun & _ & Hwf' & Hk & Hobj
          & Hclean & Hro' & _ & Hpar & _ & Hf).
    exists w'. simpl. rewrite bind_unfold, Hrun. split_and!; try done.
    intros _ e [= <-].
    apply (read_clean_parent_vertex w' v _ Hobj) in Hclean. simpl in Hclean.
    destruct Hres as [(_ & -> & _)|(_ & _ & Hparent')]; [done|].
    apply (read_clean_parent w' region _ Hro') in Hclean. congruence.
  - destruct Hok as [Hsrc Htg]. destruct (is_vertex_inv _ _ Hsrc) as [sv Hsv].
    destruct (Transition_new_spec w src tgt k sv Hwf Hsv Htg)
      as (w' & ? & Hrun & Hwf' & _ & Hk & _ & Hclean & _ & _ & _ & _ & Hf).
    exists w'. simpl. rewrite bind_unfold, Hrun. split_and!; try done.
    by intros _ e [= <-].
  - destruct (is_state_inv _ _ Hok) as (v & f & Hv & Hcls).
    destruct (State_exit_spec w state v f action Hwf Hv Hcls)
      as (w' & Hrun & Hwf' & _ & _ & Hk & _ & Hclean & _ & Hf).
    exists w'. simpl. rewrite State_enter_is_exit, bind_unfold, Hrun.
    split_and!; try done. by intros _ e [= <-].
  - destruct (is_state_inv _ _ Hok) as (v & f & Hv & Hcls).
    destruct (State_exit_spec w state v f action Hwf Hv Hcls)
      as (w' & Hrun & Hwf' & _ & _ & Hk & _ & Hclean & _ & Hf).
    exists w'. simpl. rewrite bind_unfold, Hrun.
    split_and!; try done. by intros _ e [= <-].
  - assert (∃ tr, heap w !! t = Some (OTransition tr)) as [tr Ht].
    { unfold shape_at in Hok. destruct (heap w !! t) as [[?|?|?|?|?]|]; try done. eauto. }
    destruct (Transition_effect_spec w t tr action Hwf Ht)
      as (w' & Hrun & Hwf' & _ & _ & Hk & _ & Hclean & _ & Hf).
    exists w'. simpl. rewrite bind_unfold, Hrun. split_and!; try done.
    intros _ e. unfold query. mrun. by intros [= <-].
  - assert (∃ tr, heap w !! t = Some (OTransition tr)) as [tr Ht].
    { unfold shape_at in Hok. destruct (heap w !! t) as [[?|?|?|?|?]|]; try done. eauto. }
    destruct (Transition_guard_spec w t tr (GUser g) Hwf Ht) as (Hwf' & _ & _ & Hk & Hf).
    eexists. simpl. unfold Transition_when. mrun. split_and!; done.
  - assert (∃ tr, heap w !! t = Some (OTransition tr)) as [tr Ht].
    { unfold shape_at in Hok. destruct (heap w !! t) as [[?|?|?|?|?]|]; try done. eauto. }
    destruct (Transition_guard_spec w t tr GFalse Hwf Ht) as (Hwf' & _ & _ & Hk & Hf).
    eexists. simpl. unfold Transition_else. mrun. split_and!; done.
Qed.

(** A run of commands never brings a cleared flag back. *)
Lemma run_all_keeps_cleared cs : ∀ w e,
  wf w → commands_ok w cs → query (read_clean e) w = Some false →
  ∃ w', run_all cs w = Some (tt, w') ∧ wf w' ∧ query (read_clean e) w' = Some false.
Proof.
  induction cs as [|c cs IH]; intros w e Hwf Hok Hclean; simpl.
  - by exists w.
  - destruct Hok as [Hc Hrest].
    destruct (run_spec w c Hwf Hc) as (w1 & Hrun & Hwf1 & Hk & Hf & _).
    unfold run_all. simpl. rewrite bind_unfold, Hrun.
    apply IH; [done|by apply Hrest|]. by eapply read_clean_stays_false.
Qed.

(** ** The claims about the builder *)

Variable callUserGuard :
  UserGuard → Value → @IInstance Behavior Action UserGuard → World → option bool.

(** C2: in a well-formed store, constructing a Region, a Vertex (of any of
    the three classes) or a Transition, and appending an entry, exit or
    effect behaviour, each succeeds and leaves the [clean] flag of the root
    state machine [false].  And the flag stays [false] through every run
    of builder commands that follows such a mutation: where it reads
    [true], nothing has been added since the last [initialise]. *)
Theorem structural_mutation_clears_clean w :
  wf w →
  (∀ name parent, is_owner (shape_at (heap w) parent) →
     ∃ r w', Region_new name parent w = Some (r, w')
       ∧ wf w' ∧ query (read_clean r) w' = Some false)
  ∧ (∀ cls name parent, initial_class cls →
       is_region (shape_at (heap w) parent) ∨ is_owner (shape_at (heap w) parent) →
       ∃ v w', Vertex_init cls name parent w = Some (v, w')
         ∧ wf w' ∧ query (read_clean v) w' = Some false)
  ∧ (∀ src target kind, is_vertex (shape_at (heap w) src) →
       match target with
       | Some tg => is_vertex (shape_at (heap w) tg)
       | None => True
       end →
       ∃ t w', Transition_new src target kind w = Some (t, w')
         ∧ wf w' ∧ query (read_clean src) w' = Some false)
  ∧ (∀ this action, is_state (shape_at (heap w) this) →
       ∃ w', State_enter this action w = Some (this, w')
         ∧ wf w' ∧ query (read_clean this) w' = Some false)
  ∧ (∀ this action, is_state (shape_at (heap w) this) →
       ∃ w', State_exit this action w = Some (this, w')
         ∧ wf w' ∧ query (read_clean this) w' = Some false)
  ∧ (∀ this action tr, heap w !! this = Some (OTransition tr) →
       ∃ w', Transition_effect this action w = Some (this, w')
         ∧ wf w' ∧ query (read_clean (source tr)) w' = Some false)
  ∧ (∀ c cs e, commands_ok w (c :: cs) → structural c = true →
       subject c w = Some e →
       ∃ w', run_all (c :: cs) w = Some (tt, w')
         ∧ wf w' ∧ query (read_clean e) w' = Some false).
Proof.
  intros Hwf. split_and!.
  - intros name parent Hown.
    destruct (Region_new_spec w name parent Hwf Hown)
      as (w' & ? & ? & ? & Hrun & Hwf' & _ & _ & _ & _ & Hclean & _).
    eauto.
  - intros cls name parent Hcls Hparent.
    destruct (Vertex_init_spec w cls name parent Hwf Hcls Hparent)
      as (? & ? & ? & v & w' & ? & _ & _ & Hrun & _ & Hwf' & _ & _ & Hclean & _).
    eauto.
  - intros src target kind Hsrc Htg.
    destruct (is_vertex_inv _ _ Hsrc) as [sv Hsv].
    destruct (Transition_new_spec w src target kind sv Hwf Hsv Htg)
      as (w' & ? & Hrun & Hwf' & _ & _ & _ & Hclean & _).
    eauto.
  - intros this action Hst. destruct (is_state_inv _ _ Hst) as (v & f & Hv & Hcls).
    destruct (State_exit_spec w this v f action Hwf Hv Hcls)
      as (w' & Hrun & Hwf' & _ & _ & _ & _ & Hclean & _).
    rewrite State_enter_is_exit. eauto.
  - intros this action Hst. destruct (is_state_inv _ _ Hst) as (v & f & Hv & Hcls).
    destruct (State_exit_spec w this v f action Hwf Hv Hcls)
      as (w' & Hrun & Hwf' & _ & _ & _ & _ & Hclean & _).
    eauto.
  - intros this action tr Ht.
    destruct (Transition_effect_spec w this tr action Hwf Ht)
      as (w' & Hrun & Hwf' & _ & _ & _ & _ & Hclean & _).
    eauto.
  - intros c cs e [Hc Hrest] Hstructural Hsubject.
    destruct (run_spec w c Hwf Hc) as (w1 & Hrun & Hwf1 & _ & _ & Hclean).
    unfold run_all. simpl. rewrite bind_unfold, Hrun.
    apply run_all_keeps_cleared; [done|by apply Hrest|by apply Hclean].
Qed.

(** C3: right after [new Transition(source, ...)], calling the guard of the
    new transition answers [true] for every message and instance when the
    source is a PseudoState, and answers whether the message is the source
    vertex itself when the source is a State. *)
Theorem default_guard_of_new_transition w src target kind sv :
  wf w → heap w !! src = Some (OVertex sv) →
  match target with Some tg => is_vertex (shape_at (heap w) tg) | None => True end →
  ∃ t w' tr,
    Transition_new src target kind w = Some (t, w')
    ∧ heap w' !! t = Some (OTransition tr)
    ∧ (∀ k, v_class sv = IsPseudoState k →
         ∀ message instance,
           Guard_call callUserGuard (guard tr) message instance w' = Some true)
    ∧ (∀ f, v_class sv = IsState f →
         ∀ message instance,
           Guard_call callUserGuard (guard tr) message instance w'
           = Some (strictEq message (VObject src))
           ∧ (strictEq message (VObject src) = true ↔ message = VObject src)).
Proof.
  intros Hwf Hsv Htg.
  destruct (Transition_new_spec w src target kind sv Hwf Hsv Htg)
    as (w' & sv' & Hrun & _ & _ & _ & Ht & _).
  eexists _, w', _. split_and!; [exact Hrun|exact Ht|..].
  - intros k Hk message instance. simpl. by rewrite Hk.
  - intros f Hf message instance. simpl. rewrite Hf. simpl.
    unfold query. mrun. split; [done|]. unfold strictEq.
    by rewrite bool_decide_eq_true.
Qed.

(** C4: a transition constructed without a target has kind [Internal]
    whatever kind was asked for; with a target it has the kind asked for
    ([External] when none was) and is appended to the target's
    [incoming]. *)
Theorem transition_kind_and_incoming w src target kind sv :
  wf w → heap w !! src = Some (OVertex sv) →
  match target with Some tg => is_vertex (shape_at (heap w) tg) | None => True end →
  ∃ t w' tr,
    Transition_new src target kind w = Some (t, w')
    ∧ heap w' !! t = Some (OTransition tr)
    ∧ Model.source tr = src ∧ Model.target tr = target
    ∧ match target with
      | None => Model.kind tr = Internal
      | Some tg =>
          Model.kind tr = default External kind
          ∧ ∃ tv tv', heap w !! tg = Some (OVertex tv)
              ∧ heap w' !! tg = Some (OVertex tv')
              ∧ incoming tv' = incoming tv ++ [t]
      end.
Proof.
  intros Hwf Hsv Htg.
  destruct (Transition_new_spec w src target kind sv Hwf Hsv Htg)
    as (w' & sv' & Hrun & _ & _ & _ & Ht & _ & _ & _ & _ & Hinc & _).
  eexists _, w', _. split_and!; [exact Hrun|exact Ht|done|done|].
  destruct target as [tg|]; simpl; [|done]. split; [done|]. exact Hinc.
Qed.

(** C9: [when(guard)] and [else()] replace the guard of the transition and
    nothing else.  After [when(g)] the guard stored in the transition is
    [g], and calling it answers what [g] answers; after [else()] it is the
    function that answers [false] to every message.  The source, the
    target, the kind and the effect behaviour of the transition are what
    they were, every other object is untouched, and the [clean] flag read
    from any element is what it was.  [effect(action)] puts the action at
    the end of [effectBehavior], keeps the guard and the other fields of
    the transition and every object that is not a state machine, and
    leaves the flag of the root of the source [false]. *)
Theorem guard_setters_keep_clean_effect_clears w this tr :
  wf w → heap w !! this = Some (OTransition tr) →
  (∀ g, ∃ w' tr',
      Transition_when this g w = Some (this, w')
      ∧ heap w' !! this = Some (OTransition tr')
      ∧ guard tr' = GUser g
      ∧ (∀ message instance,
           Guard_call callUserGuard (guard tr') message instance w'
           = callUserGuard g message instance w')
      ∧ source tr' = source tr ∧ target tr' = target tr ∧ kind tr' = kind tr
      ∧ effectBehavior tr' = effectBehavior tr
      ∧ (∀ x, x ≠ this → heap w' !! x = heap w !! x)
      ∧ (∀ l, query (read_clean l) w' = query (read_clean l) w))
  ∧ (∃ w' tr',
      Transition_else this w = Some (this, w')
      ∧ heap w' !! this = Some (OTransition tr')
      ∧ guard tr' = GFalse
      ∧ (∀ message instance,
           Guard_call callUserGuard (guard tr') message instance w' = Some false)
      ∧ source tr' = source tr ∧ target tr' = target tr ∧ kind tr' = kind tr
      ∧ effectBehavior tr' = effectBehavior tr
      ∧ (∀ x, x ≠ this → heap w' !! x = heap w !! x)
      ∧ (∀ l, query (read_clean l) w' = query (read_clean l) w))
  ∧ (∀ action, ∃ w' tr',
      Transition_effect this action w = Some (this, w')
      ∧ heap w' !! this = Some (OTransition tr')
      ∧ effectBehavior tr' = effectBehavior tr ++ [action]
      ∧ guard tr' = guard tr
      ∧ source tr' = source tr ∧ target tr' = target tr ∧ kind tr' = kind tr
      ∧ (∀ x o, heap w !! x = Some o → x ≠ this → clean_of o = None →
           heap w' !! x = Some o)
      ∧ query (read_clean (source tr)) w' = Some false).
Proof.
  intros Hwf Ht. split_and!.
  - intros g. destruct (Transition_guard_spec w this tr (GUser g) Hwf Ht) as (_ & Hc & Hf & _).
    eexists _, (set_guard (GUser g) tr).
    split_and!; [unfold Transition_when; by mrun| |done..|exact Hf|exact Hc].
    simpl. by rewrite lookup_insert_eq.
  - destruct (Transition_guard_spec w this tr GFalse Hwf Ht) as (_ & Hc & Hf & _).
    eexists _, (set_guard GFalse tr).
    split_and!; [unfold Transition_else; by mrun| |done..|exact Hf|exact Hc].
    simpl. by rewrite lookup_insert_eq.
  - intros action.
    destruct (Transition_effect_spec w this tr action Hwf Ht)
      as (w' & Hrun & _ & _ & _ & _ & Ht' & Hclean & Hframe & _).
    exists w', (set_effectBehavior (effectBehavior tr ++ [action]) tr).
    split_and!; try done.
    intros x o Hx Hne Hnone. destruct (Hframe x o Hx Hne) as (o' & Ho' & _ & _ & _ & Heq).
    by rewrite Ho', (Heq Hnone).
Qed.

(** ** Completeness *)

Lemma State_isFinal_spec w s v f :
  heap w !! s = Some (OVertex v) → v_class v = IsState f →
  State_isFinal s w = Some (bool_decide (outgoing v = []), w).
Proof.
  intros Hs Hcls. unfold State_isFinal. mrun. rewrite Hcls. mrun.
  do 2 f_equal. apply bool_decide_ext. by destruct (outgoing v).
Qed.

Lemma State_isFinal_pure w s b w' : State_isFinal s w = Some (b, w') → w' = w.
Proof.
  unfold State_isFinal. mrun.
  destruct (heap w !! s) as [[?|?|v|?|?]|]; simpl; try done.
  destruct (v_class v); simpl; try done. congruence.
Qed.

Lemma Region_isComplete_unfold w r ro (inst : @IInstance Behavior Action UserGuard) :
  heap w !! r = Some (ORegion ro) →
  Region_isComplete r inst w
  = match getCurrent inst r w with
    | Some (Some currentState) => State_isFinal currentState w
    | Some None => Some (false, w)
    | None => None
    end.
Proof. intros Hr. unfold Region_isComplete. by mrun. Qed.

Lemma Region_isComplete_pure w r (inst : @IInstance Behavior Action UserGuard) b w' :
  Region_isComplete r inst w = Some (b, w') → w' = w.
Proof.
  unfold Region_isComplete. mrun.
  destruct (heap w !! r) as [[?|?|?|?|?]|]; simpl; try done.
  destruct (getCurrent inst r w) as [[s|]|]; try done; [|congruence].
  apply State_isFinal_pure.
Qed.

(** [every] over a predicate that leaves the store alone. *)
Lemma every_true_iff {A} (p : A → StateErr World bool) xs w :
  (∀ x b w', p x w = Some (b, w') → w' = w) →
  every p xs w = Some (true, w) ↔ ∀ x, x ∈ xs → p x w = Some (true, w).
Proof.
  intros Hpure. induction xs as [|x xs IH]; simpl.
  - split; [intros _ x Hx; by apply not_elem_of_nil in Hx | done].
  - rewrite bind_unfold. split.
    + destruct (p x w) as [[b w']|] eqn:E; [|done].
      pose proof (Hpure _ _ _ E) as ->. destruct b; [|done].
      intros Hrest y Hy. apply elem_of_cons in Hy as [->|Hy]; [done|].
      by apply IH.
    + intros Hall. rewrite (Hall x) by (apply elem_of_cons; by left).
      apply IH. intros y Hy. apply Hall. apply elem_of_cons. by right.
Qed.

Lemma every_total {A} (p : A → StateErr World bool) xs w :
  (∀ x, x ∈ xs → ∃ b, p x w = Some (b, w)) →
  ∃ b, every p xs w = Some (b, w).
Proof.
  induction xs as [|x xs IH]; simpl; intros Hall; [by eexists|].
  rewrite bind_unfold.
  destruct (Hall x) as [b Hb]; [apply elem_of_cons; by left|]. rewrite Hb.
  destruct b; [|by eexists].
  apply IH. intros y Hy. apply Hall. apply elem_of_cons. by right.
Qed.

Lemma Region_isComplete_total w r (inst : @IInstance Behavior Action UserGuard) :
  instance_ok w inst → is_region (shape_at (heap w) r) →
  ∃ b, Region_isComplete r inst w = Some (b, w).
Proof.
  intros Hinst Hr. destruct (Hinst r Hr) as (cur & Hcur & Hty).
  unfold shape_at in Hr. destruct (heap w !! r) as [[?|ro|?|?|?]|] eqn:E; try done.
  rewrite (Region_isComplete_unfold _ _ _ _ E), Hcur.
  destruct cur as [s|]; [|by eexists].
  destruct (is_state_inv _ _ Hty) as (v & f & Hv & Hcls).
  rewrite (State_isFinal_spec _ _ _ _ Hv Hcls). by eexists.
Qed.

(** C5: a State is final iff it has no outgoing transitions; a Region is
    complete iff the instance has a current state for it and that state is
    final; a State is complete iff all its regions are, which a state
    without regions is; a StateMachine is complete iff all its regions
    are.  For an instance that honours the interface the three tests
    succeed on every well-formed store and leave it as it is. *)
Theorem completeness_of_regions_states_machines w
    (inst : @IInstance Behavior Action UserGuard) :
  (∀ s v f, heap w !! s = Some (OVertex v) → v_class v = IsState f →
     State_isFinal s w = Some (bool_decide (outgoing v = []), w))
  ∧ (∀ r ro, heap w !! r = Some (ORegion ro) →
       Region_isComplete r inst w = Some (true, w)
       ↔ ∃ s, getCurrent inst r w = Some (Some s)
              ∧ State_isFinal s w = Some (true, w))
  ∧ (∀ s v f, heap w !! s = Some (OVertex v) → v_class v = IsState f →
       (State_isComplete s inst w = Some (true, w)
        ↔ ∀ r, r ∈ regions f → Region_isComplete r inst w = Some (true, w))
       ∧ (regions f = [] → State_isComplete s inst w = Some (true, w)))
  ∧ (∀ m sm, heap w !! m = Some (OStateMachine sm) →
       StateMachine_isComplete m inst w = Some (true, w)
       ↔ ∀ r, r ∈ sm_regions sm → Region_isComplete r inst w = Some (true, w))
  ∧ (wf w → instance_ok w inst →
       (∀ r, is_region (shape_at (heap w) r) →
          ∃ b, Region_isComplete r inst w = Some (b, w))
       ∧ (∀ s, is_state (shape_at (heap w) s) →
            ∃ b, State_isComplete s inst w = Some (b, w))
       ∧ (∀ m sm, heap w !! m = Some (OStateMachine sm) →
            ∃ b, StateMachine_isComplete m inst w = Some (b, w))).
Proof.
  assert (∀ x b w', Region_isComplete x inst w = Some (b, w') → w' = w) as Hpure.
  { intros x b w'. apply Region_isComplete_pure. }
  split_and!.
  - apply State_isFinal_spec.
  - intros r ro Hr. rewrite (Region_isComplete_unfold _ _ _ _ Hr).
    destruct (getCurrent inst r w) as [[s|]|]; split; try done.
    + intros H. eauto.
    + by intros (s' & [= <-] & H).
    + by intros (s' & [=] & _).
    + by intros (s' & [=] & _).
  - intros s v f Hs Hcls.
    assert (State_isComplete s inst w
            = every (λ region, Region_isComplete region inst) (regions f) w) as ->.
    { unfold State_isComplete. mrun. rewrite Hcls. by mrun. }
    split; [by apply every_true_iff|]. by intros ->.
  - intros m sm Hm.
    assert (StateMachine_isComplete m inst w
            = every (λ region, Region_isComplete region inst) (sm_regions sm) w) as ->.
    { unfold StateMachine_isComplete. by mrun. }
    by apply every_true_iff.
  - intros Hwf Hinst. split_and!.
    + intros r Hr. by apply Region_isComplete_total.
    + intros s Hs. destruct (is_state_inv _ _ Hs) as (v & f & Hv & Hcls).
      assert (State_isComplete s inst w
              = every (λ region, Region_isComplete region inst) (regions f) w) as ->.
      { unfold State_isComplete. mrun. rewrite Hcls. by mrun. }
      apply every_total. intros r Hr. apply Region_isComplete_total; [done|].
      pose proof (wf_obj_ok _ _ _ Hwf Hv) as Hok. simpl in Hok. rewrite Hcls in Hok.
      destruct Hok as (_ & _ & _ & Hall & _).
      by rewrite (proj1 (Forall_forall _ _) Hall r Hr).
    + intros m sm Hm.
      assert (StateMachine_isComplete m inst w
              = every (λ region, Region_isComplete region inst) (sm_regions sm) w) as ->.
      { unfold StateMachine_isComplete. by mrun. }
      apply every_total. intros r Hr. apply Region_isComplete_total; [done|].
      pose proof (wf_obj_ok _ _ _ Hwf Hm) as [Hall _].
      by rewrite (proj1 (Forall_forall _ _) Hall r Hr).
Qed.

(** ** The visitor pass and [initialise] *)

(** A loop whose body only writes to the console only writes to the
    console. *)
Lemma forEach_console {A} (body : A → StateErr World unit) xs h n :
  (∀ x, x ∈ xs → ∀ c, ∃ c', body x (mkWorld h n c) = Some (tt, mkWorld h n c')) →
  ∀ c, ∃ c', forEach body xs (mkWorld h n c) = Some (tt, mkWorld h n c').
Proof.
  induction xs as [|x xs IH]; intros Hbody c; simpl; [by eexists|].
  rewrite bind_unfold.
  destruct (Hbody x (list_elem_of_here _ _) c) as [c1 ->].
  apply IH. intros y Hy. apply Hbody. by apply list_elem_of_further.
Qed.

Lemma Element_toString_total w l c :
  is_element (shape_at (heap w) l) →
  ∃ s, Element_toString l (mkWorld (heap w) (next w) c)
       = Some (s, mkWorld (heap w) (next w) c).
Proof.
  unfold shape_at, Element_toString. mrun.
  destruct (heap w !! l) as [[?|?|?|?|?]|]; simpl; try done; by eexists.
Qed.

Lemma visitElement_total w l c :
  is_element (shape_at (heap w) l) →
  ∃ c', visitElement l (mkWorld (heap w) (next w) c)
        = Some (tt, mkWorld (heap w) (next w) c').
Proof.
  intros Hel. destruct (Element_toString_total w l c Hel) as [s Hs].
  unfold visitElement. rewrite bind_unfold, Hs. by eexists.
Qed.

Lemma is_vertex_element s : is_vertex s → is_element s.
Proof. by destruct s as [[]|]. Qed.

Lemma visitTransition_total w t tr c :
  wf w → heap w !! t = Some (OTransition tr) →
  ∃ c', visitTransition t (mkWorld (heap w) (next w) c)
        = Some (tt, mkWorld (heap w) (next w) c').
Proof.
  intros Hwf Ht. destruct (wf_obj_ok _ _ _ Hwf Ht) as (_ & Hsrc & Htg).
  destruct (Element_toString_total w (source tr) c (is_vertex_element _ Hsrc)) as [s Hs].
  unfold visitTransition, Transition_toString. mrun.
  destruct (bool_decide (kind tr = Internal)); mrun; [by eexists|].
  destruct (target tr) as [tg|]; simpl; [|by eexists].
  destruct (Element_toString_total w tg c (is_vertex_element _ Htg)) as [s' Hs'].
  rewrite Hs'. by eexists.
Qed.

(** The walk from [l] succeeds when it may go as deep as there are
    locations above [l]; it writes to the console only. *)
Lemma accept_total w n l :
  wf w → l < next w → next w - l ≤ n →
  is_element (shape_at (heap w) l) ∨ is_transition (shape_at (heap w) l) →
  ∀ c, ∃ c', accept n l (mkWorld (heap w) (next w) c)
             = Some (tt, mkWorld (heap w) (next w) c').
Proof.
  intros Hwf. revert l. induction n as [|n IH]; intros l Hlt Hn Hsh c; [lia|].
  assert (∀ xs : list loc,
            Forall (λ x, l < x ∧
                         (is_element (shape_at (heap w) x)
                          ∨ is_transition (shape_at (heap w) x))) xs →
            ∀ c, ∃ c', forEach (accept n) xs (mkWorld (heap w) (next w) c)
                       = Some (tt, mkWorld (heap w) (next w) c')) as Hloop.
  { intros xs Hxs. apply forEach_console. intros x Hx.
    destruct (proj1 (Forall_forall _ _) Hxs x Hx) as [Hlx Hshx].
    assert (x < next w) as Hxn.
    { unfold shape_at in Hshx. destruct (heap w !! x) eqn:E; [by eapply wf_lt|].
      by destruct Hshx. }
    apply IH; [done|lia|done]. }
  (* children are younger than their parent *)
  assert (∀ x p, shape_at (heap w) x = Some (ShRegion p) → p < x) as Hreg.
  { intros x p Hx. apply shape_at_Some in Hx as (o & Ho & Hs).
    destruct o as [?|ro|?|?|?]; try done. injection Hs as <-.
    by destruct (wf_obj_ok _ _ _ Hwf Ho) as (? & _). }
  assert (∀ x p tag, shape_at (heap w) x = Some (ShVertex p tag) → p < x) as Hver.
  { intros x p tag Hx. apply shape_at_Some in Hx as (o & Ho & Hs).
    destruct o as [?|?|v|?|?]; try done. injection Hs as <- _.
    by destruct (wf_obj_ok _ _ _ Hwf Ho) as (? & _). }
  assert (∀ x p, shape_at (heap w) x = Some (ShTransition p) → p < x) as Htr.
  { intros x p Hx. apply shape_at_Some in Hx as (o & Ho & Hs).
    destruct o as [?|?|?|t|?]; try done. injection Hs as <-.
    by destruct (wf_obj_ok _ _ _ Hwf Ho) as (? & _). }
  assert (∀ xs, Forall (λ r, shape_at (heap w) r = Some (ShRegion l)) xs →
            ∀ c, ∃ c', forEach (accept n) xs (mkWorld (heap w) (next w) c)
                       = Some (tt, mkWorld (heap w) (next w) c')) as Hregions.
  { intros xs Hxs. apply Hloop. eapply Forall_impl; [done|]. simpl.
    intros x Hx. split; [by eapply Hreg|]. left. by rewrite Hx. }
  assert (is_element (shape_at (heap w) l) →
          ∀ v, heap w !! l = Some (OVertex v) →
          ∀ c, ∃ c', visitVertex (accept n) l (mkWorld (heap w) (next w) c)
                     = Some (tt, mkWorld (heap w) (next w) c')) as Hvertex.
  { intros Hel v Hl c0. destruct (wf_obj_ok _ _ _ Hwf Hl) as (_ & _ & Hout & _).
    unfold visitVertex. mrun.
    destruct (Hloop (outgoing v)) with (c := c0) as [c1 ->].
    { eapply Forall_impl; [done|]. simpl.
      intros x Hx. split; [by eapply Htr|]. right. by rewrite Hx. }
    by apply visitElement_total. }
  simpl. rewrite bind_unfold. unfold lookup_obj. simpl.
  destruct (heap w !! l) as [o|] eqn:Hl.
  2:{ unfold shape_at in Hsh. rewrite Hl in Hsh. by destruct Hsh. }
  assert (is_element (shape_at (heap w) l) ∨ ∃ t, o = OTransition t) as Hcls.
  { rewrite (shape_at_lookup _ _ _ Hl) in *.
    destruct o; simpl in *; eauto; by destruct Hsh. }
  pose proof (wf_obj_ok _ _ _ Hwf Hl) as Hok.
  destruct o as [sm|ro|v|t|d].
  - (* StateMachine *)
    destruct Hcls as [Hel|[? ?]]; [|done].
    unfold visitStateMachine. mrun. destruct Hok as [Hall _].
    destruct (Hregions _ Hall c) as [c1 ->]. by apply visitElement_total.
  - (* Region *)
    destruct Hcls as [Hel|[? ?]]; [|done].
    unfold visitRegion. mrun. destruct Hok as (_ & _ & Hall).
    destruct (Hloop (vertices ro)) with (c := c) as [c1 ->].
    { eapply Forall_impl; [done|]. simpl. intros x Hx.
      destruct (shape_at (heap w) x) as [[| |p tag| |]|] eqn:E; try done.
      simpl in Hx. subst p. split; [by eapply Hver|by left]. }
    by apply visitElement_total.
  - (* Vertex, PseudoState, State *)
    destruct Hcls as [Hel|[? ?]]; [|done].
    destruct (v_class v) as [|k|f] eqn:Ecls.
    + by eapply Hvertex.
    + unfold visitPseudoState. by eapply Hvertex.
    + unfold visitState. mrun. rewrite Ecls. mrun.
      simpl in Hok. rewrite Ecls in Hok. destruct Hok as (_ & _ & _ & Hall & _).
      destruct (Hregions _ Hall c) as [c1 ->]. by eapply Hvertex.
  - (* Transition *)
    by eapply visitTransition_total.
  - (* not an element *)
    rewrite (shape_at_lookup _ _ _ Hl) in Hsh. by destruct Hsh.
Qed.

Variable runAction :
  Action → Value → @IInstance Behavior Action UserGuard → bool → StateErr World unit.

(** The model-only branch of [initialise] succeeds on a well-formed store
    and writes one field: the [clean] flag of the machine. *)
Lemma initialise_model_spec w this sm :
  wf w → heap w !! this = Some (OStateMachine sm) →
  ∃ c', initialise_model this w
        = Some (tt, mkWorld (<[this := OStateMachine (set_clean true sm)]> (heap w))
                      (next w) c').
Proof.
  intros Hwf Hm. pose proof (wf_lt _ _ _ Hwf Hm) as Hlt.
  unfold initialise_model, Element_toString. mrun.
  destruct (accept_total w (next w) this Hwf Hlt) with
    (c := console w ++ ["initialise " +:+ sm_name sm]) as [c' Hacc].
  { lia. } { left. by rewrite (shape_at_lookup _ _ _ Hm). }
  rewrite Hacc. mrun. by eexists.
Qed.

(** C6: on a well-formed store the model-only [initialise] succeeds and
    changes one thing in the store, the [clean] flag, which it sets; run
    again it succeeds and leaves the store exactly as the first run left
    it (the visitor walks the graph again and writes its lines to the
    console, nothing else).  On the store so obtained [initialise] with an
    instance runs no model pass: it logs one line and invokes the
    [onInitialise] actions. *)
Theorem initialise_model_idempotent w this sm :
  wf w → heap w !! this = Some (OStateMachine sm) →
  ∃ w1 w2,
    StateMachine_initialise runAction this None None w = Some (tt, w1)
    ∧ heap w1 = <[this := OStateMachine (set_clean true sm)]> (heap w)
    ∧ next w1 = next w
    ∧ query (read_clean this) w1 = Some true
    ∧ StateMachine_initialise runAction this None None w1 = Some (tt, w2)
    ∧ heap w2 = heap w1 ∧ next w2 = next w1
    ∧ (∀ instance auto name,
         instance_toString instance w1 = Some name →
         StateMachine_initialise runAction this (Some instance) auto w1
         = (log ("initialise " +:+ name) ;;
            invoke runAction (onInitialise sm) VUndefined instance false) w1).
Proof.
  intros Hwf Hm.
  destruct (initialise_model_spec w this sm Hwf Hm) as [c1 H1].
  set (sm1 := set_clean true sm) in *.
  set (w1 := mkWorld (<[this := OStateMachine sm1]> (heap w)) (next w) c1) in *.
  assert (heap w1 !! this = Some (OStateMachine sm1)) as Hm1.
  { simpl. by rewrite lookup_insert_eq. }
  assert (wf w1) as Hwf1.
  { apply (wf_overwrite w this (OStateMachine sm) (OStateMachine sm1)); try done.
    by apply (wf_obj_ok _ _ _ Hwf Hm). }
  destruct (initialise_model_spec w1 this sm1 Hwf1 Hm1) as [c2 H2].
  eexists w1, _. split_and!; [exact H1|done|done| |exact H2| |done|].
  - rewrite query_read_clean. simpl.
    pose proof (wf_lt _ _ _ Hwf Hm) as Hlt.
    destruct (next w) as [|n]; [lia|]. simpl. rewrite lookup_insert_eq. simpl.
    rewrite lookup_insert_eq. reflexivity.
  - simpl. by rewrite insert_insert_eq.
  - intros instance auto name Hname. subst w1 sm1. simpl in *.
    unfold StateMachine_initialise. mrun. rewrite ?lookup_insert_eq. simpl.
    rewrite andb_false_r. mrun. by rewrite ?lookup_insert_eq.
Qed.

(** ** The dictionary instance *)

Lemma qualifiedName_pure w l qn w' : qualifiedName l w = Some (qn, w') → w' = w.
Proof.
  unfold qualifiedName. mrun.
  destruct (heap w !! l) as [[?|?|?|?|?]|]; simpl; congruence.
Qed.

Lemma query_qualifiedName w l :
  query (qualifiedName l) w
  = match heap w !! l with
    | Some (ORegion r) => Some (r_qualifiedName r)
    | Some (OVertex v) => Some (v_qualifiedName v)
    | _ => None
    end.
Proof.
  unfold query, qualifiedName. mrun.
  by destruct (heap w !! l) as [[?|?|?|?|?]|].
Qed.

Lemma query_getCurrent w i d region qn :
  heap w !! i = Some (ODictionaryInstance d) →
  query (qualifiedName region) w = Some qn →
  query (DictionaryInstance_getCurrent i region) w
  = Some (activeStateConfiguration d !! qn).
Proof.
  intros Hi Hqn. unfold query in *. unfold DictionaryInstance_getCurrent. mrun.
  destruct (qualifiedName region w) as [[q w']|] eqn:E; [|done].
  pose proof (qualifiedName_pure _ _ _ _ E) as ->. simpl in Hqn.
  by injection Hqn as ->.
Qed.

Lemma query_getCurrent_unfold w i region :
  query (DictionaryInstance_getCurrent i region) w
  = match heap w !! i with
    | Some (ODictionaryInstance d) =>
        match query (qualifiedName region) w with
        | Some qn => Some (activeStateConfiguration d !! qn)
        | None => None
        end
    | _ => None
    end.
Proof.
  unfold query. unfold DictionaryInstance_getCurrent. mrun.
  destruct (heap w !! i) as [[?|?|?|?|d]|] eqn:Hi; simpl; try done.
  rewrite bind_unfold.
  destruct (qualifiedName region w) as [[qn w']|] eqn:E; simpl; [|done].
  by pose proof (qualifiedName_pure _ _ _ _ E) as ->.
Qed.

(** [setCurrent] writes one key of one dictionary. *)
Lemma setCurrent_spec w i d region state qn :
  heap w !! i = Some (ODictionaryInstance d) →
  query (qualifiedName region) w = Some qn →
  DictionaryInstance_setCurrent i region state w
  = Some (tt, mkWorld
                (<[i := ODictionaryInstance
                          (set_activeStateConfiguration
                             (<[qn := state]> (activeStateConfiguration d)) d)]>
                   (heap w))
                (next w) (console w)).
Proof.
  intros Hi Hqn. unfold query in *. unfold DictionaryInstance_setCurrent. mrun.
  destruct (qualifiedName region w) as [[q w']|] eqn:E; [|done].
  pose proof (qualifiedName_pure _ _ _ _ E) as ->. simpl in Hqn.
  by injection Hqn as ->.
Qed.

Lemma setCurrent_all_spec w i d calls w' :
  heap w !! i = Some (ODictionaryInstance d) →
  setCurrent_all (DictionaryInstance i) calls w = Some (tt, w') →
  (∀ l, query (qualifiedName l) w' = query (qualifiedName l) w)
  ∧ ∃ d', heap w' !! i = Some (ODictionaryInstance d')
     ∧ ∀ qn, (∀ call, call ∈ calls → query (qualifiedName call.1) w ≠ Some qn) →
             activeStateConfiguration d' !! qn = activeStateConfiguration d !! qn.
Proof.
  revert w d. unfold setCurrent_all.
  induction calls as [|[r s] calls IH]; intros w d Hi; simpl.
  - intros [= <-]. split; [done|]. eauto.
  - rewrite bind_unfold.
    destruct (query (qualifiedName r) w) as [qn|] eqn:Hqn.
    2:{ unfold DictionaryInstance_setCurrent. mrun. unfold query in Hqn.
        by destruct (qualifiedName r w) as [[]|]. }
    rewrite (setCurrent_spec w i d r s qn Hi Hqn).
    set (d1 := set_activeStateConfiguration (<[qn := s]> (activeStateConfiguration d)) d).
    set (w1 := mkWorld (<[i := ODictionaryInstance d1]> (heap w)) (next w) (console w)).
    intros Hrest.
    assert (∀ l, query (qualifiedName l) w1 = query (qualifiedName l) w) as Hq1.
    { intros l. rewrite !query_qualifiedName. simpl. rewrite lookup_insert.
      destruct (decide (i = l)) as [<-|]; [by rewrite Hi|done]. }
    destruct (IH w1 d1) as (Hq & d' & Hd' & Hkeys); [by (simpl; rewrite lookup_insert_eq)|done|].
    split; [intros l; by rewrite Hq|].
    exists d'. split; [done|]. intros key Hkey.
    rewrite Hkeys.
    + simpl. rewrite lookup_insert_ne; [done|]. intros ->.
      by apply (Hkey (r, s)); [apply list_elem_of_here|].
    + intros call Hcall. rewrite Hq1. apply Hkey. by apply list_elem_of_further.
Qed.

(** A dictionary that holds states honours the interface. *)
Lemma DictionaryInstance_ok w i d :
  heap w !! i = Some (ODictionaryInstance d) →
  map_Forall (λ _ s, is_state (shape_at (heap w) s)) (activeStateConfiguration d) →
  instance_ok w (DictionaryInstance i).
Proof.
  intros Hi Hd r Hr. simpl. rewrite query_getCurrent_unfold, Hi, query_qualifiedName.
  unfold shape_at in Hr.
  destruct (heap w !! r) as [[?|ro|?|?|?]|]; try done.
  eexists. split; [done|].
  destruct (activeStateConfiguration d !! r_qualifiedName ro) as [s|] eqn:E; [|done].
  by apply (Hd _ _ E).
Qed.

(** C7, as the code has it: a [DictionaryInstance] keeps its entries under
    the qualified name of the region.  After [setCurrent(r, s)] the
    instance answers [s] for every region with the qualified name of [r],
    whatever model it belongs to, and answers what it answered before for
    every region with another qualified name; no other instance object is
    touched; and a new instance answers nothing for a region whose
    qualified name no call of [setCurrent] has used. *)
Theorem dictionary_keyed_by_qualified_name w i d :
  heap w !! i = Some (ODictionaryInstance d) →
  (∀ region state qn,
     query (qualifiedName region) w = Some qn →
     ∃ w', setCurrent (DictionaryInstance i) region state w = Some (tt, w')
       ∧ (∀ l, query (qualifiedName l) w' = query (qualifiedName l) w)
       ∧ (∀ r', query (qualifiedName r') w = Some qn →
            getCurrent (DictionaryInstance i) r' w' = Some (Some state))
       ∧ (∀ r' qn', query (qualifiedName r') w = Some qn' → qn' ≠ qn →
            getCurrent (DictionaryInstance i) r' w'
            = getCurrent (DictionaryInstance i) r' w)
       ∧ (∀ i' r', i' ≠ i →
            getCurrent (DictionaryInstance i') r' w'
            = getCurrent (DictionaryInstance i') r' w))
  ∧ (∀ name fresh w0 calls w1 region qn,
       DictionaryInstance_new name w = Some (fresh, w0) →
       setCurrent_all (DictionaryInstance fresh) calls w0 = Some (tt, w1) →
       query (qualifiedName region) w1 = Some qn →
       (∀ call, call ∈ calls → query (qualifiedName call.1) w1 ≠ Some qn) →
       getCurrent (DictionaryInstance fresh) region w1 = Some None).
Proof.
  intros Hi. split.
  - intros region state qn Hqn. eexists. split; [by apply setCurrent_spec|].
    set (d1 := set_activeStateConfiguration
                 (<[qn := state]> (activeStateConfiguration d)) d).
    set (w1 := mkWorld (<[i := ODictionaryInstance d1]> (heap w)) (next w) (console w)).
    assert (∀ l, query (qualifiedName l) w1 = query (qualifiedName l) w) as Hq1.
    { intros l. rewrite !query_qualifiedName. simpl. rewrite lookup_insert.
      destruct (decide (i = l)) as [<-|]; [by rewrite Hi|done]. }
    assert (heap w1 !! i = Some (ODictionaryInstance d1)) as Hi1.
    { simpl. by rewrite lookup_insert_eq. }
    split_and!; [done|..].
    + intros r' Hr'. simpl.
      rewrite (query_getCurrent w1 i d1 r' qn Hi1) by (by rewrite Hq1).
      simpl. by rewrite lookup_insert_eq.
    + intros r' qn' Hr' Hne. simpl.
      rewrite (query_getCurrent w1 i d1 r' qn' Hi1) by (by rewrite Hq1).
      rewrite (query_getCurrent w i d r' qn' Hi Hr').
      simpl. by rewrite lookup_insert_ne.
    + intros i' r' Hne. simpl. rewrite !query_getCurrent_unfold, Hq1. simpl.
      by rewrite lookup_insert_ne.
  - intros name fresh w0 calls w1 region qn Hnew Hcalls Hqn Hnever.
    unfold DictionaryInstance_new, alloc in Hnew. injection Hnew as <- <-.
    set (d0 := mkDictionaryInstance name ∅) in *.
    destruct (setCurrent_all_spec _ (next w) d0 calls w1 (lookup_insert_eq _ _ _) Hcalls)
      as (Hq & d' & Hd' & Hkeys).
    simpl. rewrite (query_getCurrent w1 (next w) d' region qn Hd' Hqn).
    rewrite Hkeys; [done|]. intros call Hcall. rewrite <- Hq. by apply Hnever.
Qed.

End ModelFacts.

(** * Facts about evaluation at a vertex (Vertex.ts) *)

Section FsmFacts.

Import Fsm.

Context {W Vertex Transition Instance Action : Type}.

Variable select : Vertex → Value → Instance → StateErr W (option Transition).
Variable traverse : Transition → W → list Action.
Variable call : Action → Value → Instance → bool → StateErr W unit.

(** The counting loop from index [i] runs the actions from index [i] on,
    one after the other. *)
Lemma traverse_loop_spec t message instance :
  traverse_stable traverse call t message instance →
  ∀ todo ran w,
    traverse t w = ran ++ todo →
    traverse_loop traverse call (length todo) t (length ran) message instance w
    = run_actions call todo message instance w.
Proof.
  intros Hstable todo. induction todo as [|a todo IH]; intros ran w Hw; simpl; [done|].
  rewrite !bind_unfold. unfold call_traverse. rewrite Hw.
  rewrite lookup_app_r by lia. rewrite Nat.sub_diag. simpl.
  destruct (call a message instance false w) as [[[] w']|] eqn:E; [|done].
  specialize (IH (ran ++ [a]) w'). rewrite length_app in IH. simpl in IH.
  rewrite Nat.add_1_r in IH. apply IH.
  rewrite (Hstable _ _ _ E), Hw. by rewrite <- app_assoc.
Qed.

(** C8: when [select] finds no transition, [evaluate] answers [false] and
    the store is as [select] left it: no action has run.  When [select]
    finds the transition [t], [evaluate] runs the actions of [t.traverse],
    each once, in the order of the array, with the message, the instance
    and [false], and answers [true].  The [select] of [Vertex] itself
    finds none. *)
Theorem evaluate_runs_selected_transition this message instance w :
  (∀ w1, select this message instance w = Some (None, w1) →
     evaluate select traverse call this message instance w = Some (false, w1))
  ∧ (∀ t w1, select this message instance w = Some (Some t, w1) →
       traverse_stable traverse call t message instance →
       evaluate select traverse call this message instance w
       = (run_actions call (traverse t w1) message instance ;; ret true) w1)
  ∧ evaluate Vertex_select traverse call this message instance w = Some (false, w).
Proof.
  split_and!.
  - intros w1 Hsel. unfold evaluate. by rewrite bind_unfold, Hsel.
  - intros t w1 Hsel Hstable. unfold evaluate. rewrite bind_unfold, Hsel.
    rewrite !bind_unfold.
    pose proof (traverse_loop_spec t message instance Hstable (traverse t w1) [] w1
                  eq_refl) as Hloop.
    simpl in Hloop. by rewrite Hloop.
  - done.
Qed.

End FsmFacts.

(** * Actions that change the array of actions (Vertex.ts) *)

Section FsmArrayFacts.

Import Fsm.

Context {W Vertex Transition Instance Action : Type}.

Variable select : Vertex → Value → Instance → StateErr W (option Transition).
Variable traverse : Transition → W → list Action.
Variable call : Action → Value → Instance → bool → StateErr W unit.

(** The counting loop over a part of the array, when actions may append. *)
Lemma traverse_loop_prefix t message instance :
  (∀ a w w', call a message instance false w = Some (tt, w') →
             ∃ extra, traverse t w' = traverse t w ++ extra) →
  ∀ todo ran rest w,
    traverse t w = ran ++ todo ++ rest →
    traverse_loop traverse call (length todo) t (length ran) message instance w
    = run_actions call todo message instance w.
Proof.
  intros Hgrows todo. induction todo as [|a todo IH]; intros ran rest w Hw; simpl; [done|].
  rewrite !bind_unfold. unfold call_traverse. rewrite Hw.
  rewrite lookup_app_r by lia. rewrite Nat.sub_diag. simpl.
  destruct (call a message instance false w) as [[[] w']|] eqn:E; [|done].
  destruct (Hgrows _ _ _ E) as [extra Hw'].
  specialize (IH (ran ++ [a]) (rest ++ extra) w'). rewrite length_app in IH.
  simpl in IH. rewrite Nat.add_1_r in IH. apply IH.
  rewrite Hw', Hw. by rewrite <- !app_assoc.
Qed.

(** X23: [evaluate] reads the length of [transition.traverse] once, before
    the loop.  When the actions only ever append to that array, the
    actions that were in it when [select] returned are run, each once and
    in order, and [evaluate] answers [true]; what is appended meanwhile is
    not run. *)
Theorem evaluate_runs_actions_present_at_start this message instance w t w1 :
  select this message instance w = Some (Some t, w1) →
  (∀ a w w', call a message instance false w = Some (tt, w') →
             ∃ extra, traverse t w' = traverse t w ++ extra) →
  evaluate select traverse call this message instance w
  = (run_actions call (traverse t w1) message instance ;; ret true) w1.
Proof.
  intros Hsel Hgrows. unfold evaluate. rewrite bind_unfold, Hsel. rewrite !bind_unfold.
  pose proof (traverse_loop_prefix t message instance Hgrows (traverse t w1) [] [] w1)
    as Hloop.
  simpl in Hloop. rewrite Hloop; [done|]. by rewrite app_nil_r.
Qed.

(** X24: the same loop when an action takes entries away.  If the array
    had at least two actions when [select] returned and the first one
    leaves it with at most one, [evaluate] throws: the entry at index 1 is
    [undefined] when its turn comes. *)
Theorem evaluate_throws_when_array_shrinks this message instance w t w1 a w2 :
  select this message instance w = Some (Some t, w1) →
  traverse t w1 !! 0 = Some a → 1 < length (traverse t w1) →
  call a message instance false w1 = Some (tt, w2) →
  traverse t w2 !! 1 = None →
  evaluate select traverse call this message instance w = None.
Proof.
  intros Hsel Ha Hlen Hcall Hgone. unfold evaluate. rewrite bind_unfold, Hsel.
  rewrite !bind_unfold.
  destruct (length (traverse t w1)) as [|[|n]] eqn:Hl; [lia|lia|].
  simpl. rewrite !bind_unfold. unfold call_traverse at 1. rewrite Ha, Hcall.
  rewrite !bind_unfold. unfold call_traverse at 1. by rewrite Hgone.
Qed.

End FsmArrayFacts.

(** * More facts about the model (state.ts) *)

Section MoreModelFacts.

Import Model Hierarchy Frame.

Context {Behavior Action UserGuard : Type}.

Local Abbreviation World := (@Model.World Behavior Action UserGuard).
Local Abbreviation Obj := (@Model.Obj Behavior Action UserGuard).
Local Abbreviation IInstance := (@Model.IInstance Behavior Action UserGuard).
Local Abbreviation logs_only := (@Frame.logs_only Behavior Action UserGuard).
Local Abbreviation updates := (@Frame.updates Behavior Action UserGuard).
Local Abbreviation grows := (@Frame.grows Behavior Action UserGuard).
Local Abbreviation keeps_names := (@Frame.keeps_names Behavior Action UserGuard).
Local Abbreviation keeps_listed := (@Frame.keeps_listed Behavior Action UserGuard).
Local Abbreviation keeps_defaults := (@Frame.keeps_defaults Behavior Action UserGuard).
Local Abbreviation records_defaults :=
  (@Frame.records_defaults Behavior Action UserGuard).

Implicit Types (w : World) (h : gmap loc Obj) (o : Obj) (l m : loc).

Lemma is_element_lookup h l :
  is_element (shape_at h l) →
  (∃ sm, h !! l = Some (OStateMachine sm))
  ∨ (∃ r, h !! l = Some (ORegion r))
  ∨ (∃ v, h !! l = Some (OVertex v)).
Proof.
  unfold shape_at. destruct (h !! l) as [[]|]; simpl; try done; eauto.
Qed.

Lemma is_owner_element s : is_owner s → is_element s.
Proof. by destruct s as [[| |? []| |]|]. Qed.

Lemma is_region_element s : is_region s → is_element s.
Proof. by destruct s as [[]|]. Qed.

(** The parent of a named element of a well-formed store is an older
    element. *)
Lemma parent_of_older w l p :
  wf w → parent_of (heap w) l = Some p →
  p < l ∧ is_element (shape_at (heap w) p).
Proof.
  intros Hwf. unfold parent_of.
  destruct (heap w !! l) as [[sm|r|v|t|d]|] eqn:Hl; try done; intros [= <-];
    pose proof (wf_obj_ok _ _ _ Hwf Hl) as Hok; simpl in Hok.
  - destruct Hok as (Hlt & Hown & _). split; [done|]. by apply is_owner_element.
  - destruct Hok as (Hlt & Hreg & _). split; [done|]. by apply is_region_element.
Qed.

Lemma getAncestors_steps_spec w : ∀ n l,
  wf w → l < n → is_element (shape_at (heap w) l) →
  ∃ ancestors m,
    getAncestors_steps n (heap w) l = Some ancestors
    ∧ getRoot_steps n (heap w) l = Some m
    ∧ head ancestors = Some m ∧ last ancestors = Some l
    ∧ ∀ i a b, ancestors !! i = Some a → ancestors !! S i = Some b →
        parent_of (heap w) b = Some a ∧ a < b.
Proof.
  induction n as [|n IH]; intros l Hwf Hlt Hel; [lia|].
  assert (∀ p, parent_of (heap w) l = Some p →
            ∃ ancestors m,
              ((λ ancestors, ancestors ++ [l]) <$> getAncestors_steps n (heap w) p)
              = Some ancestors
              ∧ getRoot_steps n (heap w) p = Some m
              ∧ head ancestors = Some m ∧ last ancestors = Some l
              ∧ ∀ i a b, ancestors !! i = Some a → ancestors !! S i = Some b →
                  parent_of (heap w) b = Some a ∧ a < b) as Hstep.
  { intros p Hp. destruct (parent_of_older _ _ _ Hwf Hp) as [Hpl Hpel].
    assert (p < n) as Hpn by lia.
    destruct (IH p Hwf Hpn Hpel) as (ps & m & -> & Hroot & Hhead & Hlast & Hchain).
    exists (ps ++ [l]), m. split; [done|]. split; [done|].
    destruct ps as [|x ps]; [done|]. split; [done|].
    split; [by rewrite last_snoc|].
    intros i a b Ha Hb.
    destruct (decide (S i < length (x :: ps))) as [Hin|Hout].
    - rewrite lookup_app_l in Ha by lia. rewrite lookup_app_l in Hb by lia. eauto.
    - apply lookup_lt_Some in Hb as Hlen. rewrite length_app in Hlen. simpl in Hlen.
      assert (S i = length (x :: ps)) as Hi by (simpl in *; lia).
      rewrite lookup_app_r in Hb by lia. rewrite Hi, Nat.sub_diag in Hb.
      injection Hb as <-.
      rewrite lookup_app_l in Ha by lia.
      rewrite last_lookup in Hlast. simpl in Hlast, Hi.
      assert (i = length ps) as -> by lia.
      rewrite Hlast in Ha. injection Ha as <-. done. }
  simpl. unfold parent_of in Hstep.
  destruct (is_element_lookup _ _ Hel) as [[sm Hl]|[[r Hl]|[v Hl]]]; rewrite Hl in *.
  - exists [l], l. split_and!; try done.
  - by apply Hstep.
  - by apply Hstep.
Qed.

(** X1: in a well-formed store [getAncestors] and [getRoot] return on every
    element; the array of ancestors starts with the root state machine,
    ends with the element itself, and each entry is the parent of the next
    one (and an older object, so no element occurs twice). *)
Theorem getAncestors_from_root_to_element w e :
  wf w → is_element (shape_at (heap w) e) →
  ∃ ancestors m,
    getAncestors e w = Some (ancestors, w)
    ∧ getRoot e w = Some (m, w)
    ∧ head ancestors = Some m ∧ last ancestors = Some e
    ∧ ∀ i a b, ancestors !! i = Some a → ancestors !! S i = Some b →
        parent_of (heap w) b = Some a ∧ a < b.
Proof.
  intros Hwf Hel.
  assert (e < next w) as Hlt.
  { destruct (is_element_lookup _ _ Hel) as [[? Hl]|[[? Hl]|[? Hl]]];
      by eapply wf_lt. }
  destruct (getAncestors_steps_spec w (next w) e Hwf Hlt Hel)
    as (ancestors & m & Hanc & Hroot & Hrest).
  exists ancestors, m. unfold getAncestors, getRoot. rewrite Hanc, Hroot. done.
Qed.

(** X2: in a well-formed store the root of an element is a state machine
    no younger than the element; it is its own root, and it is the root of
    the element's parent as well. *)
Theorem getRoot_shared_with_parent w e :
  wf w → is_element (shape_at (heap w) e) →
  ∃ m sm,
    getRoot e w = Some (m, w)
    ∧ heap w !! m = Some (OStateMachine sm) ∧ m ≤ e
    ∧ getRoot m w = Some (m, w)
    ∧ ∀ p, parent_of (heap w) e = Some p → getRoot p w = Some (m, w).
Proof.
  intros Hwf Hel.
  assert (e < next w) as Hlt.
  { destruct (is_element_lookup _ _ Hel) as [[? Hl]|[[? Hl]|[? Hl]]];
      by eapply wf_lt. }
  destruct (getRoot_steps_total w (next w) e Hwf Hlt Hel) as (m & Hroot & Hle).
  destruct (getRoot_steps_machine _ _ _ _ Hroot) as [sm Hsm].
  exists m, sm. unfold getRoot. rewrite Hroot.
  split; [done|]. split; [done|]. split; [done|].
  destruct (next w) as [|k] eqn:Hnext; [lia|]. split.
  - simpl. by rewrite Hsm.
  - intros p Hp. unfold parent_of in Hp. simpl in Hroot.
    destruct (heap w !! e) as [[| r | v | |]|]; try done; injection Hp as <-.
    + by rewrite (getRoot_steps_mono _ (S k) _ _ _ Hroot) by lia.
    + by rewrite (getRoot_steps_mono _ (S k) _ _ _ Hroot) by lia.
Qed.

(** ** Activity *)

Lemma isActive_steps_mono (inst : IInstance) w : ∀ n n' l b,
  isActive_steps n inst w l = Some b → n ≤ n' → isActive_steps n' inst w l = Some b.
Proof.
  induction n as [|n IH]; intros n' l b Hrun Hle; [done|].
  destruct n' as [|n']; [lia|]. simpl in *.
  destruct (heap w !! l) as [[sm|r|v|t|d]|]; try done.
  - apply IH; [done|lia].
  - destruct (v_class v); try (apply IH; [done|lia]).
    destruct (isActive_steps n inst w (v_parent v)) as [[]|] eqn:Hp; try done.
    + by rewrite (IH n' _ _ Hp) by lia.
    + by rewrite (IH n' _ _ Hp) by lia.
Qed.

(** A state that [isActive] finds active is the current state of its
    region, and the region is active. *)
Lemma isActive_steps_state (inst : IInstance) w n s v f :
  heap w !! s = Some (OVertex v) → v_class v = IsState f →
  isActive_steps (S n) inst w s = Some true →
  isActive_steps n inst w (v_parent v) = Some true
  ∧ getCurrent inst (v_parent v) w = Some (Some s).
Proof.
  intros Hs Hcls. simpl. rewrite Hs, Hcls.
  destruct (isActive_steps n inst w (v_parent v)) as [[]|]; try done.
  destruct (getCurrent inst (v_parent v) w) as [cur|]; [|done]. simpl.
  intros [= Hcur]. apply bool_decide_eq_true in Hcur. by subst.
Qed.

Lemma isActive_steps_spec (inst : IInstance) w : ∀ n l,
  wf w → instance_ok w inst → l < n → is_element (shape_at (heap w) l) →
  ∃ ancestors b,
    getAncestors_steps n (heap w) l = Some ancestors
    ∧ isActive_steps n inst w l = Some b
    ∧ (b = true ↔ ∀ s, s ∈ ancestors → is_state (shape_at (heap w) s) →
                    current_in_parent inst w s).
Proof.
  induction n as [|n IH]; intros l Hwf Hinst Hlt Hel; [lia|].
  (* an element that is not a state answers what its parent answers *)
  assert (∀ p, parent_of (heap w) l = Some p → ¬ is_state (shape_at (heap w) l) →
            ∃ ancestors b,
              ((λ ancestors, ancestors ++ [l]) <$> getAncestors_steps n (heap w) p)
              = Some ancestors
              ∧ isActive_steps n inst w p = Some b
              ∧ (b = true ↔ ∀ s, s ∈ ancestors → is_state (shape_at (heap w) s) →
                              current_in_parent inst w s)) as Hpass.
  { intros p Hp Hnot. destruct (parent_of_older _ _ _ Hwf Hp) as [Hpl Hpel].
    assert (p < n) as Hpn by lia.
    destruct (IH p Hwf Hinst Hpn Hpel) as (ps & b & -> & Hact & Hiff).
    exists (ps ++ [l]), b. split; [done|]. split; [done|].
    rewrite Hiff. split.
    - intros Hall s Hs Hst. apply elem_of_app in Hs as [Hs|Hs]; [by apply Hall|].
      apply list_elem_of_singleton in Hs. by subst.
    - intros Hall s Hs. apply Hall. apply elem_of_app. by left. }
  simpl. unfold parent_of in Hpass.
  destruct (is_element_lookup _ _ Hel) as [[sm Hl]|[[r Hl]|[v Hl]]].
  - rewrite Hl. exists [l], true. split; [done|]. split; [done|]. split; [|done].
    intros _ s Hs Hst. apply list_elem_of_singleton in Hs. subst.
    unfold shape_at in Hst. by rewrite Hl in Hst.
  - rewrite Hl in *. apply Hpass; [done|]. unfold shape_at. rewrite Hl. simpl. tauto.
  - destruct (v_class v) as [| k | f] eqn:Hcls.
    + rewrite Hl in *. rewrite Hcls. apply Hpass; [done|].
      unfold shape_at. rewrite Hl. simpl. rewrite Hcls. simpl. tauto.
    + rewrite Hl in *. rewrite Hcls. apply Hpass; [done|].
      unfold shape_at. rewrite Hl. simpl. rewrite Hcls. simpl. tauto.
    + clear Hpass. rewrite Hl, Hcls.
      pose proof (wf_obj_ok _ _ _ Hwf Hl) as (Hpl & Hreg & _).
      assert (v_parent v < n) as Hpn by lia.
      destruct (IH (v_parent v) Hwf Hinst Hpn (is_region_element _ Hreg))
        as (ps & b & -> & -> & Hiff).
      destruct (Hinst _ Hreg) as (cur & Hcur & _).
      assert (parent_of (heap w) l = Some (v_parent v)) as Hparent.
      { unfold parent_of. by rewrite Hl. }
      assert (is_state (shape_at (heap w) l)) as Hstate.
      { unfold shape_at. rewrite Hl. simpl. by rewrite Hcls. }
      destruct b.
      * exists (ps ++ [l]), (bool_decide (cur = Some l)).
        split; [done|]. split; [by rewrite Hcur|].
        rewrite bool_decide_eq_true. split.
        -- intros -> s Hs Hst. apply elem_of_app in Hs as [Hs|Hs].
           ++ by apply (proj1 Hiff).
           ++ apply list_elem_of_singleton in Hs. subst. by exists (v_parent v).
        -- intros Hall. destruct (Hall l) as (r & Hr & Hrcur); [|done|].
           ++ apply elem_of_app. right. by apply list_elem_of_singleton.
           ++ rewrite Hparent in Hr. injection Hr as <-. congruence.
      * exists (ps ++ [l]), false. split; [done|]. split; [done|].
        split; [done|]. intros Hall. apply Hiff. intros s Hs. apply Hall.
        apply elem_of_app. by left.
Qed.

Lemma wf_element_lt w e : wf w → is_element (shape_at (heap w) e) → e < next w.
Proof.
  intros Hwf Hel.
  destruct (is_element_lookup _ _ Hel) as [[? Hl]|[[? Hl]|[? Hl]]]; by eapply wf_lt.
Qed.

(** X3: on a well-formed store and an instance that answers for every
    region, [isActive] returns on every element, and it answers [true]
    exactly when each [State] among the element's ancestors, the element
    itself included, is the current state of the region it lies in. *)
Theorem isActive_iff_states_on_path_current w (inst : IInstance) e :
  wf w → instance_ok w inst → is_element (shape_at (heap w) e) →
  ∃ ancestors b,
    getAncestors e w = Some (ancestors, w)
    ∧ isActive e inst w = Some (b, w)
    ∧ (b = true ↔ ∀ s, s ∈ ancestors → is_state (shape_at (heap w) s) →
                    current_in_parent inst w s).
Proof.
  intros Hwf Hinst Hel.
  destruct (isActive_steps_spec inst w (next w) e Hwf Hinst
              (wf_element_lt _ _ Hwf Hel) Hel) as (ancestors & b & Hanc & Hact & Hiff).
  exists ancestors, b. unfold getAncestors, isActive. by rewrite Hanc, Hact.
Qed.

(** X4: when [isActive] answers [true] for a [State], the state is the
    current state of its region, the region is active too, and every
    other [State] of that region is not active: [isActive] answers [false]
    for it. *)
Theorem isActive_one_state_per_region w (inst : IInstance) s :
  is_state (shape_at (heap w) s) →
  isActive s inst w = Some (true, w) →
  ∃ r, parent_of (heap w) s = Some r
    ∧ getCurrent inst r w = Some (Some s)
    ∧ isActive r inst w = Some (true, w)
    ∧ ∀ s', is_state (shape_at (heap w) s') → parent_of (heap w) s' = Some r →
        s' ≠ s → isActive s' inst w = Some (false, w).
Proof.
  intros Hst Hact. apply is_state_inv in Hst as (v & f & Hs & Hcls).
  unfold isActive in *. destruct (next w) as [|n] eqn:Hnext; [done|].
  destruct (isActive_steps (S n) inst w s) as [[]|] eqn:Hrun; try done.
  destruct (isActive_steps_state inst w n s v f Hs Hcls Hrun) as [Hparent Hcur].
  exists (v_parent v). unfold parent_of. rewrite Hs. split; [done|]. split; [done|].
  split.
  - by rewrite (isActive_steps_mono inst w n (S n) _ _ Hparent) by lia.
  - intros s' Hst' Hp' Hne. apply is_state_inv in Hst' as (v' & f' & Hs' & Hcls').
    rewrite Hs' in Hp'. injection Hp' as Hp'.
    simpl. rewrite Hs', Hcls', Hp', Hparent, Hcur. simpl.
    by rewrite bool_decide_eq_false_2 by congruence.
Qed.

(** ** An instance nothing was set on *)

Lemma getCurrent_empty_configuration w i name r :
  heap w !! i = Some (ODictionaryInstance (mkDictionaryInstance name ∅)) →
  is_region (shape_at (heap w) r) →
  getCurrent (DictionaryInstance i : IInstance) r w = Some None.
Proof.
  intros Hi Hr. simpl. rewrite query_getCurrent_unfold, Hi, query_qualifiedName.
  unfold shape_at in Hr. destruct (heap w !! r) as [[]|]; try done.
Qed.

(** X5: a [DictionaryInstance] just constructed on a well-formed store
    answers [undefined] for every region; so no [State] is active for it
    and no region is complete. *)
Theorem new_instance_has_no_active_state w name i w0 :
  wf w → DictionaryInstance_new name w = Some (i, w0) →
  wf w0 ∧ instance_ok w0 (DictionaryInstance i)
  ∧ (∀ r, is_region (shape_at (heap w0) r) →
       getCurrent (DictionaryInstance i : IInstance) r w0 = Some None
       ∧ Region_isComplete r (DictionaryInstance i) w0 = Some (false, w0))
  ∧ (∀ s, is_state (shape_at (heap w0) s) →
       isActive s (DictionaryInstance i) w0 = Some (false, w0)).
Proof.
  intros Hwf [= <- <-].
  set (w0 := mkWorld _ _ _).
  assert (heap w0 !! next w
          = Some (ODictionaryInstance (mkDictionaryInstance name ∅))) as Hi.
  { unfold w0. simpl. by rewrite lookup_insert_eq. }
  assert (wf w0) as Hwf0 by (by apply wf_alloc).
  assert (instance_ok w0 (DictionaryInstance (next w))) as Hinst.
  { eapply DictionaryInstance_ok; [done|]. simpl. apply map_Forall_empty. }
  split; [done|]. split; [done|]. split.
  - intros r Hr.
    pose proof (getCurrent_empty_configuration _ _ _ _ Hi Hr) as Hcur.
    split; [done|].
    unfold shape_at in Hr. destruct (heap w0 !! r) as [[| ro | | |]|] eqn:Hro; try done.
    by rewrite (Region_isComplete_unfold _ _ _ _ Hro), Hcur.
  - intros s Hst.
    assert (is_element (shape_at (heap w0) s)) as Hel.
    { by destruct (shape_at (heap w0) s) as [[| |? []| |]|]. }
    destruct (isActive_steps_spec (DictionaryInstance (next w)) w0 (next w0) s
                Hwf0 Hinst (wf_element_lt _ _ Hwf0 Hel) Hel)
      as (ancestors & b & Hanc & Hact & Hiff).
    unfold isActive. rewrite Hact. destruct b; [|done].
    destruct (getAncestors_steps_spec w0 (next w0) s Hwf0 (wf_element_lt _ _ Hwf0 Hel) Hel)
      as (ancestors' & m & Hanc' & _ & _ & Hlast & _).
    rewrite Hanc in Hanc'. injection Hanc' as <-.
    destruct (proj1 Hiff eq_refl s) as (r & Hr & Hcur); [|done|].
    { apply last_Some in Hlast as [front ->]. apply elem_of_app. right.
      by apply list_elem_of_singleton. }
    assert (is_region (shape_at (heap w0) r)) as Hreg.
    { apply is_state_inv in Hst as (v & f & Hs & _).
      unfold parent_of in Hr. rewrite Hs in Hr. injection Hr as <-.
      by pose proof (wf_obj_ok _ _ _ Hwf0 Hs) as (_ & Hreg & _). }
    rewrite (getCurrent_empty_configuration _ _ _ _ Hi Hreg) in Hcur. done.
Qed.

(** ** What the queries of [State] and [PseudoState] answer after the
    constructors *)

Lemma State_queries w s v f :
  heap w !! s = Some (OVertex v) → v_class v = IsState f →
  State_isSimple s w = Some (bool_decide (length (regions f) = 0), w)
  ∧ State_isComposite s w = Some (0 <? length (regions f), w)
  ∧ State_isOrthogonal s w = Some (1 <? length (regions f), w).
Proof.
  intros Hs Hcls. unfold State_isSimple, State_isComposite, State_isOrthogonal.
  mrun. rewrite Hcls. done.
Qed.

(** X6: a [State] just constructed, under a region or under a state or
    state machine, is simple, not composite, not orthogonal and final, and
    it is complete for every instance. *)
Theorem new_State_is_simple_and_final w name parent :
  wf w →
  is_region (shape_at (heap w) parent) ∨ is_owner (shape_at (heap w) parent) →
  ∃ s w',
    State_new name parent w = Some (s, w')
    ∧ State_isSimple s w' = Some (true, w')
    ∧ State_isComposite s w' = Some (false, w')
    ∧ State_isOrthogonal s w' = Some (false, w')
    ∧ State_isFinal s w' = Some (true, w')
    ∧ ∀ inst : IInstance, State_isComplete s inst w' = Some (true, w').
Proof.
  intros Hwf Hparent.
  destruct (Vertex_init_spec w (IsState (mkStateFields [] None [] [])) name parent
              Hwf eq_refl Hparent)
    as (region & w1 & ro & s & w' & ro' & _ & _ & Hrun & _ & _ & _ & Hs & _).
  exists s, w'. split; [exact Hrun|].
  destruct (State_queries w' s _ _ Hs eq_refl) as (-> & -> & ->).
  rewrite (State_isFinal_spec w' s _ _ Hs eq_refl).
  split_and!; try done.
  intros inst. unfold State_isComplete. by mrun.
Qed.

(** The object of a state after a step that keeps shapes is the object of
    a state. *)
Lemma state_kept h h' s v f o' :
  h !! s = Some (OVertex v) → v_class v = IsState f →
  h' !! s = Some o' → shape o' = shape (OVertex v : Obj) →
  ∃ v' f', o' = OVertex v' ∧ v_class v' = IsState f'.
Proof.
  intros Hs Hcls Hs' Hshape. simpl in Hshape. rewrite Hcls in Hshape.
  destruct o' as [|?|v'| |]; try done. simpl in Hshape.
  destruct (v_class v') as [| |f'] eqn:Hcls'; try done. eauto.
Qed.

(** X7: a [State] is composite as soon as it has a region: after
    [new Region(name, state)], and after a vertex is constructed with the
    state as its parent, which goes into the default region of the state.
    After [new Region] the state is orthogonal exactly when it had a
    region before. *)
Theorem State_composite_after_region_or_child w s v f :
  wf w → heap w !! s = Some (OVertex v) → v_class v = IsState f →
  (∀ name, ∃ r w',
     Region_new name s w = Some (r, w')
     ∧ State_isSimple s w' = Some (false, w')
     ∧ State_isComposite s w' = Some (true, w')
     ∧ State_isOrthogonal s w' = Some (0 <? length (regions f), w'))
  ∧ (∀ cls name, initial_class cls → ∃ c w' r,
       Vertex_init cls name s w = Some (c, w')
       ∧ parent_of (heap w') c = Some r ∧ parent_of (heap w') r = Some s
       ∧ State_isSimple s w' = Some (false, w')
       ∧ State_isComposite s w' = Some (true, w')).
Proof.
  intros Hwf Hs Hcls.
  assert (is_owner (shape_at (heap w) s)) as Hown.
  { unfold shape_at. rewrite Hs. simpl. by rewrite Hcls. }
  split.
  - intros name.
    destruct (Region_new_spec w name s Hwf Hown)
      as (w' & pname & po & po' & Hrun & _ & _ & Hkept & _ & _ & _ & Hpo & Hpo'
          & Hregs & _).
    rewrite Hs in Hpo. injection Hpo as <-.
    assert (shape po' = shape (OVertex v : Obj)) as Hshape.
    { pose proof (Hkept s _ (shape_at_lookup _ _ _ Hs)) as Hk.
      unfold shape_at in Hk. rewrite Hpo' in Hk. by injection Hk. }
    destruct (state_kept _ _ _ _ _ _ Hs Hcls Hpo' Hshape) as (v' & f' & -> & Hcls').
    simpl in Hregs. rewrite Hcls, Hcls' in Hregs.
    exists (next w), w'. split; [exact Hrun|].
    destruct (State_queries w' s _ _ Hpo' Hcls') as (-> & -> & ->).
    rewrite Hregs, length_app. simpl.
    split_and!; f_equal; f_equal.
    + apply bool_decide_eq_false_2. lia.
    + apply Nat.ltb_lt. lia.
    + rewrite Nat.add_1_r. by destruct (length (regions f)).
  - intros cls name Hinit.
    destruct (Vertex_init_spec w cls name s Hwf Hinit (or_intror Hown))
      as (region & w1 & ro & c & w' & ro' & Hcase & Hro & Hrun & _ & _ & _ & Hc & _
          & Hro' & _ & Hparent & Hframe & _).
    destruct Hcase as [(Hreg & _)|(_ & Hget & Hrp)].
    { unfold shape_at in Hreg. rewrite Hs in Hreg. done. }
    destruct (getDefaultRegion_spec w s Hwf Hown)
      as (r & w1' & po & po1 & Hget' & _ & Hkept & Hpo & Hpo1 & _ & Hin & _).
    rewrite Hget in Hget'. injection Hget' as <- <-.
    rewrite Hs in Hpo. injection Hpo as <-.
    assert (shape po1 = shape (OVertex v : Obj)) as Hshape.
    { pose proof (Hkept s _ (shape_at_lookup _ _ _ Hs)) as Hk.
      unfold shape_at in Hk. rewrite Hpo1 in Hk. by injection Hk. }
    destruct (state_kept _ _ _ _ _ _ Hs Hcls Hpo1 Hshape) as (v1 & f1 & -> & Hcls1).
    assert (s ≠ region) as Hne by (intros ->; congruence).
    destruct (Hframe s _ Hpo1 Hne) as (o' & Hs' & Hshape' & Hregs' & _).
    destruct (state_kept _ _ _ _ _ _ Hpo1 Hcls1 Hs' Hshape') as (v' & f' & -> & Hcls').
    simpl in Hregs', Hin. rewrite Hcls1 in Hregs', Hin. rewrite Hcls' in Hregs'.
    exists c, w', region. split; [exact Hrun|].
    unfold parent_of. rewrite Hc, Hro'. simpl. split; [done|].
    split; [by rewrite Hparent, Hrp|].
    destruct (State_queries w' s _ _ Hs' Hcls') as (-> & -> & _).
    rewrite Hregs'. destruct (regions f1); [by apply elem_of_nil in Hin|done].
Qed.

(** X8: [state.to(target, kind)], with or without a target and whatever
    the kind, ends the state's being final; a region whose current state
    it is, for any instance, is not complete then. *)
Theorem transition_ends_final w s v f target kind :
  wf w → heap w !! s = Some (OVertex v) → v_class v = IsState f →
  match target with Some tg => is_vertex (shape_at (heap w) tg) | None => True end →
  ∃ t w',
    Vertex_to s target kind w = Some (t, w')
    ∧ State_isFinal s w' = Some (false, w')
    ∧ ∀ (inst : IInstance) r,
        is_region (shape_at (heap w') r) → getCurrent inst r w' = Some (Some s) →
        Region_isComplete r inst w' = Some (false, w').
Proof.
  intros Hwf Hs Hcls Htarget.
  destruct (Transition_new_spec w s target (Some (default External kind)) v
              Hwf Hs Htarget)
    as (w' & v' & Hrun & _ & _ & _ & _ & _ & Hs' & Hout & Hcls' & _).
  rewrite Hcls in Hcls'.
  assert (State_isFinal s w' = Some (false, w')) as Hfinal.
  { rewrite (State_isFinal_spec w' s _ _ Hs' Hcls'), Hout.
    rewrite bool_decide_eq_false_2; [done|]. by destruct (outgoing v). }
  exists (next w), w'. split; [exact Hrun|]. split; [exact Hfinal|].
  intros inst r Hr Hcur. unfold shape_at in Hr.
  destruct (heap w' !! r) as [[| ro | | |]|] eqn:Hro; try done.
  by rewrite (Region_isComplete_unfold _ _ _ _ Hro), Hcur.
Qed.

(** X9: what a [PseudoState] answers about the kind it was constructed
    with.  It is a history state for the two history kinds only, and
    initial for those and for [Initial], which is also the kind it gets
    when none is given. *)
Theorem PseudoState_kind_queries w name parent kind :
  wf w →
  is_region (shape_at (heap w) parent) ∨ is_owner (shape_at (heap w) parent) →
  ∃ p w' history initial,
    PseudoState_new name parent kind w = Some (p, w')
    ∧ PseudoState_isHistory p w' = Some (history, w')
    ∧ PseudoState_isInitial p w' = Some (initial, w')
    ∧ (history = true ↔ kind = Some DeepHistory ∨ kind = Some ShallowHistory)
    ∧ (initial = true ↔ kind = None ∨ kind = Some Initial ∨ history = true).
Proof.
  intros Hwf Hparent.
  destruct (Vertex_init_spec w (IsPseudoState (default Initial kind)) name parent
              Hwf I Hparent)
    as (region & w1 & ro & p & w' & ro' & _ & _ & Hrun & _ & _ & _ & Hp & _).
  exists p, w'. unfold PseudoState_new. rewrite Hrun.
  unfold PseudoState_isInitial, PseudoState_isHistory. mrun.
  destruct kind as [[]|]; simpl; eexists _, _; (split; [done|]); mrun;
    (split; [done|]); (split; [done|]);
    split; (split; [intros ?|intros ?]);
    repeat match goal with H : _ ∨ _ |- _ => destruct H end;
    first [ congruence | left; congruence | right; left; congruence
          | right; right; congruence | right; congruence ].
Qed.

(** ** Computations that return relate the stores before and after *)

Lemma preserves_ret {A} (R : World → World → Prop) `{!Reflexive R} (a : A) :
  preserves R (ret a).
Proof. intros w a' w' [= _ <-]. reflexivity. Qed.

Lemma preserves_throw {A} (R : World → World → Prop) :
  preserves R (throw : StateErr World A).
Proof. intros w a w' H. discriminate H. Qed.

Lemma preserves_bind {A B} (R : World → World → Prop) `{!Transitive R}
    (c : StateErr World A) (k : A → StateErr World B) :
  preserves R c → (∀ a, preserves R (k a)) → preserves R (bind c k).
Proof.
  intros Hc Hk w b w'. rewrite bind_unfold.
  destruct (c w) as [[a w1]|] eqn:E; [|done]. intros Hrun.
  transitivity w1; [by eapply Hc|by eapply Hk].
Qed.

Lemma preserves_forEach {A} (R : World → World → Prop)
    `{!Reflexive R} `{!Transitive R} (body : A → StateErr World unit) xs :
  (∀ x, x ∈ xs → preserves R (body x)) → preserves R (forEach body xs).
Proof.
  induction xs as [|x xs IH]; intros Hbody; simpl.
  - by apply preserves_ret.
  - apply preserves_bind; [done| |].
    + apply Hbody. by left.
    + intros _. apply IH. intros y Hy. apply Hbody. by right.
Qed.

(** A computation that returns the store it was given. *)
Lemma preserves_pure {A} (R : World → World → Prop) `{!Reflexive R}
    (c : StateErr World A) :
  (∀ w a w', c w = Some (a, w') → w' = w) → preserves R c.
Proof. intros Hpure w a w' Hrun. rewrite (Hpure _ _ _ Hrun). reflexivity. Qed.

Lemma lookup_obj_inv w l o w' :
  lookup_obj l w = Some (o, w') → w' = w ∧ heap w !! l = Some o.
Proof. unfold lookup_obj. destruct (heap w !! l); [|done]. by intros [= <- <-]. Qed.

Ltac lookup_inv :=
  unfold as_StateMachine, as_Region, as_Vertex, as_State, as_Transition,
    as_DictionaryInstance;
  rewrite ?bind_unfold; unfold lookup_obj;
  match goal with
  | |- context [heap ?w !! ?l] => destruct (heap w !! l) as [[]|]
  end; simpl; try done; intros [= <- <-]; done.

Lemma as_StateMachine_inv w l sm w' :
  as_StateMachine l w = Some (sm, w') → w' = w ∧ heap w !! l = Some (OStateMachine sm).
Proof. lookup_inv. Qed.

Lemma as_Region_inv w l r w' :
  as_Region l w = Some (r, w') → w' = w ∧ heap w !! l = Some (ORegion r).
Proof. lookup_inv. Qed.

Lemma as_Vertex_inv w l v w' :
  as_Vertex l w = Some (v, w') → w' = w ∧ heap w !! l = Some (OVertex v).
Proof. lookup_inv. Qed.

Lemma as_Transition_inv w l t w' :
  as_Transition l w = Some (t, w') → w' = w ∧ heap w !! l = Some (OTransition t).
Proof. lookup_inv. Qed.

Lemma as_DictionaryInstance_inv w l d w' :
  as_DictionaryInstance l w = Some (d, w') →
  w' = w ∧ heap w !! l = Some (ODictionaryInstance d).
Proof. lookup_inv. Qed.

Lemma as_State_inv w l v f w' :
  as_State l w = Some ((v, f), w') →
  w' = w ∧ heap w !! l = Some (OVertex v) ∧ v_class v = IsState f.
Proof.
  unfold as_State. rewrite bind_unfold.
  destruct (as_Vertex l w) as [[v0 w0]|] eqn:E; [|done].
  apply as_Vertex_inv in E as [-> Hl].
  destruct (v_class v0) eqn:Hcls; try done. by intros [= <- <- <-].
Qed.

Lemma Element_toString_inv w l s w' :
  Element_toString l w = Some (s, w') → w' = w ∧ is_element (shape_at (heap w) l).
Proof.
  unfold Element_toString, shape_at. rewrite bind_unfold. unfold lookup_obj.
  destruct (heap w !! l) as [[]|]; simpl; try done; by intros [= <- <-].
Qed.

Lemma optional_toString_inv w v s w' : optional_toString v w = Some (s, w') → w' = w.
Proof.
  destruct v as [l|]; simpl.
  - intros H. by apply Element_toString_inv in H as [-> _].
  - by intros [= <- <-].
Qed.

Lemma Transition_toString_inv w t s w' :
  Transition_toString t w = Some (s, w') → w' = w.
Proof.
  unfold Transition_toString. rewrite bind_unfold.
  destruct (as_Transition t w) as [[tr w1]|] eqn:E; [|done].
  apply as_Transition_inv in E as [-> _]. rewrite bind_unfold.
  destruct (Element_toString (source tr) w) as [[s1 w1]|] eqn:E; [|done].
  apply Element_toString_inv in E as [-> _]. rewrite bind_unfold.
  destruct (bool_decide (kind tr = Internal)); simpl.
  - by intros [= <- <-].
  - rewrite bind_unfold.
    destruct (optional_toString (target tr) w) as [[s2 w2]|] eqn:E; [|done].
    apply optional_toString_inv in E as ->. by intros [= <- <-].
Qed.

(** ** The visitor only writes to the console *)

#[local] Instance logs_only_refl : Reflexive logs_only.
Proof. intros w. split; [done|]. split; [done|]. exists []. by rewrite app_nil_r. Qed.

#[local] Instance logs_only_trans : Transitive logs_only.
Proof.
  intros w1 w2 w3 (Hh1 & Hn1 & l1 & Hc1) (Hh2 & Hn2 & l2 & Hc2).
  split; [congruence|]. split; [congruence|].
  exists (l1 ++ l2). by rewrite Hc2, Hc1, app_assoc.
Qed.

Lemma logs_only_log w line : logs_only w (mkWorld (heap w) (next w) (console w ++ [line])).
Proof. split; [done|]. split; [done|]. by exists [line]. Qed.

(** The two visit methods that write a line: the line names the object
    visited. *)
Lemma visitElement_inv w l w' :
  visitElement l w = Some (tt, w') →
  ∃ s, query (Element_toString l) w = Some s
    ∧ w' = mkWorld (heap w) (next w) (console w ++ ["visiting " +:+ s]).
Proof.
  unfold visitElement, query. rewrite bind_unfold.
  destruct (Element_toString l w) as [[s w1]|] eqn:E; [|done].
  apply Element_toString_inv in E as [-> _]. intros [= <-]. by exists s.
Qed.

Lemma visitTransition_inv w l w' :
  visitTransition l w = Some (tt, w') →
  ∃ s, query (Transition_toString l) w = Some s
    ∧ w' = mkWorld (heap w) (next w) (console w ++ ["visiting " +:+ s]).
Proof.
  unfold visitTransition, query. rewrite bind_unfold.
  destruct (Transition_toString l w) as [[s w1]|] eqn:E; [|done].
  apply Transition_toString_inv in E as ->. intros [= <-]. by exists s.
Qed.

Lemma Element_toString_heap w w' l :
  heap w' = heap w → query (Element_toString l) w' = query (Element_toString l) w.
Proof.
  intros Hh. unfold query, Element_toString. rewrite !bind_unfold. unfold lookup_obj.
  rewrite Hh. by destruct (heap w !! l) as [[]|].
Qed.

Lemma optional_toString_heap w w' v :
  heap w' = heap w → query (optional_toString v) w' = query (optional_toString v) w.
Proof. intros Hh. destruct v; [by apply Element_toString_heap|done]. Qed.

Lemma query_Some {A} (c : StateErr World A) w a :
  query c w = Some a ↔ ∃ w', c w = Some (a, w').
Proof.
  unfold query. destruct (c w) as [[a' w']|]; simpl; split.
  - intros [= ->]. eauto.
  - by intros [? [= -> _]].
  - done.
  - by intros [? ?].
Qed.

Lemma Transition_toString_heap w w' l :
  heap w' = heap w →
  query (Transition_toString l) w' = query (Transition_toString l) w.
Proof.
  intros Hh. unfold Transition_toString, query. rewrite !bind_unfold.
  unfold as_Transition. rewrite !bind_unfold. unfold lookup_obj. rewrite Hh.
  destruct (heap w !! l) as [[| | |tr|]|]; try done. simpl. rewrite !bind_unfold.
  pose proof (Element_toString_heap w w' (source tr) Hh) as Hs. unfold query in Hs.
  destruct (Element_toString (source tr) w') as [[s1 w1]|] eqn:E1;
    destruct (Element_toString (source tr) w) as [[s2 w2]|] eqn:E2; try done.
  apply Element_toString_inv in E1 as [-> _]. apply Element_toString_inv in E2 as [-> _].
  simpl in Hs. injection Hs as ->. rewrite !bind_unfold.
  destruct (bool_decide (kind tr = Internal)); [done|]. rewrite !bind_unfold.
  pose proof (optional_toString_heap w w' (target tr) Hh) as Ht. unfold query in Ht.
  destruct (optional_toString (target tr) w') as [[t1 w1]|] eqn:E1;
    destruct (optional_toString (target tr) w) as [[t2 w2]|] eqn:E2; try done.
  simpl in Ht. by injection Ht as ->.
Qed.

Lemma visited_after_logs e w w1 w' :
  logs_only w w1 → visited e w1 w' → visited e w w'.
Proof.
  intros (Hh & Hn & l1 & Hc) (Hh' & Hn' & lines & s & Hc' & Hs).
  split; [congruence|]. split; [congruence|].
  exists (l1 ++ lines), s. split.
  - by rewrite Hc', Hc, !app_assoc.
  - by rewrite <- (Element_toString_heap w w1 e Hh),
               <- (Transition_toString_heap w w1 e Hh).
Qed.

Lemma visited_logs e w w' : visited e w w' → logs_only w w'.
Proof. intros (Hh & Hn & lines & s & Hc & _). split; [done|]. split; [done|]. eauto. Qed.

Lemma visitElement_visited e w w' : visitElement e w = Some (tt, w') → visited e w w'.
Proof.
  intros H. apply visitElement_inv in H as (s & Hs & ->).
  split; [done|]. split; [done|]. exists [], s. simpl. eauto.
Qed.

Lemma visitTransition_visited e w w' :
  visitTransition e w = Some (tt, w') → visited e w w'.
Proof.
  intros H. apply visitTransition_inv in H as (s & Hs & ->).
  split; [done|]. split; [done|]. exists [], s. simpl. eauto.
Qed.

(** A walk through children that only log, followed by the visit of the
    element. *)
Lemma walk_visited (child : loc → StateErr World unit) xs
    (visit : StateErr World unit) e w w' :
  (∀ x, preserves logs_only (child x)) →
  (∀ w1 w2, visit w1 = Some (tt, w2) → visited e w1 w2) →
  (forEach child xs ;; visit) w = Some (tt, w') → visited e w w'.
Proof.
  intros Hchild Hvisit. rewrite bind_unfold.
  destruct (forEach child xs w) as [[[] w1]|] eqn:E; [|done]. intros Hrun.
  apply (visited_after_logs e w w1).
  - eapply (preserves_forEach logs_only); [|exact E]. intros x _. apply Hchild.
  - by apply Hvisit.
Qed.

Lemma visitVertex_visited (child : loc → StateErr World unit) e w w' :
  (∀ x, preserves logs_only (child x)) →
  visitVertex child e w = Some (tt, w') → visited e w w'.
Proof.
  intros Hchild. unfold visitVertex. rewrite bind_unfold.
  destruct (as_Vertex e w) as [[v w1]|] eqn:E; [|done].
  apply as_Vertex_inv in E as [-> _].
  apply walk_visited; [done|]. apply visitElement_visited.
Qed.

Lemma accept_visited : ∀ n e w w',
  accept n e w = Some (tt, w') → visited e w w'.
Proof.
  induction n as [|n IH]; intros e w w'; [done|]. simpl. rewrite bind_unfold.
  assert (∀ x, preserves logs_only (accept n x)) as Hchild.
  { intros x w1 [] w2 H. eapply visited_logs, IH, H. }
  destruct (lookup_obj e w) as [[o w1]|] eqn:E; [|done].
  apply lookup_obj_inv in E as [-> _].
  destruct o as [sm|r|v|t|d]; [| | | |done].
  - unfold visitStateMachine. rewrite bind_unfold.
    destruct (as_StateMachine e w) as [[? w1]|] eqn:E; [|done].
    apply as_StateMachine_inv in E as [-> _].
    apply walk_visited; [done|]. apply visitElement_visited.
  - unfold visitRegion. rewrite bind_unfold.
    destruct (as_Region e w) as [[? w1]|] eqn:E; [|done].
    apply as_Region_inv in E as [-> _].
    apply walk_visited; [done|]. apply visitElement_visited.
  - destruct (v_class v); try by apply visitVertex_visited.
    unfold visitState. rewrite bind_unfold.
    destruct (as_State e w) as [[[? ?] w1]|] eqn:E; [|done].
    apply as_State_inv in E as [-> _].
    apply walk_visited; [done|]. intros w1 w2. by apply visitVertex_visited.
  - apply visitTransition_visited.
Qed.

(** ** What a visit writes *)

Lemma World_eta w : mkWorld (heap w) (next w) (console w) = w.
Proof. by destruct w. Qed.

Lemma Element_toString_run w l s :
  query (Element_toString l) w = Some s →
  ∀ w0, heap w0 = heap w → Element_toString l w0 = Some (s, w0).
Proof.
  intros Hs w0 Hh. rewrite <- (Element_toString_heap w w0 l Hh) in Hs.
  apply query_Some in Hs as [w1 H]. pose proof H as H'.
  apply Element_toString_inv in H' as [-> _]. done.
Qed.

Lemma Transition_toString_run w l s :
  query (Transition_toString l) w = Some s →
  ∀ w0, heap w0 = heap w → Transition_toString l w0 = Some (s, w0).
Proof.
  intros Hs w0 Hh. rewrite <- (Transition_toString_heap w w0 l Hh) in Hs.
  apply query_Some in Hs as [w1 H]. pose proof H as H'.
  apply Transition_toString_inv in H' as ->. done.
Qed.

Lemma visitElement_emits w e s :
  query (Element_toString e) w = Some s →
  emits (visitElement e) w ["visiting " +:+ s].
Proof.
  intros Hs lines. unfold visitElement. rewrite bind_unfold.
  by rewrite (Element_toString_run w e s Hs).
Qed.

Lemma visitTransition_emits w e s :
  query (Transition_toString e) w = Some s →
  emits (visitTransition e) w ["visiting " +:+ s].
Proof.
  intros Hs lines. unfold visitTransition. rewrite bind_unfold.
  by rewrite (Transition_toString_run w e s Hs).
Qed.

Lemma emits_bind (c k : StateErr World unit) w out1 out2 :
  emits c w out1 → emits k w out2 → emits (c ;; k) w (out1 ++ out2).
Proof.
  intros H1 H2 lines. rewrite bind_unfold, H1, H2. by rewrite app_assoc.
Qed.

(** What the visit of a child leaves, seen from the store of the parent:
    the lines [output], whatever the console held, the last of them the
    line of the child. *)
Lemma below_console (child_visit : loc → StateErr World unit) w lines xs outputs :
  Forall2 (λ child output,
     emits (child_visit child) (mkWorld (heap w) (next w) lines) output
     ∧ ∃ sc, last output = Some ("visiting " +:+ sc)
         ∧ (query (Element_toString child) (mkWorld (heap w) (next w) lines) = Some sc
            ∨ query (Transition_toString child) (mkWorld (heap w) (next w) lines)
              = Some sc))
    xs outputs →
  Forall2 (λ child output,
     emits (child_visit child) w output
     ∧ ∃ sc, last output = Some ("visiting " +:+ sc)
         ∧ (query (Element_toString child) w = Some sc
            ∨ query (Transition_toString child) w = Some sc))
    xs outputs.
Proof.
  intros H. eapply Forall2_impl; [exact H|]. clear H.
  intros child output (Hemits & sc & Hlast & Hs).
  split; [exact Hemits|]. exists sc. split; [done|].
  by rewrite <- (Element_toString_heap w (mkWorld (heap w) (next w) lines) child),
             <- (Transition_toString_heap w (mkWorld (heap w) (next w) lines) child).
Qed.

Lemma forEach_below (child_visit : loc → StateErr World unit) :
  (∀ e w w', child_visit e w = Some (tt, w') →
     ∃ output s,
       w' = mkWorld (heap w) (next w) (console w ++ output)
       ∧ last output = Some ("visiting " +:+ s)
       ∧ (query (Element_toString e) w = Some s
          ∨ query (Transition_toString e) w = Some s)
       ∧ emits (child_visit e) w output) →
  ∀ xs w w', forEach child_visit xs w = Some (tt, w') →
    ∃ outputs,
      w' = mkWorld (heap w) (next w) (console w ++ concat outputs)
      ∧ Forall2 (λ child output,
           emits (child_visit child) w output
           ∧ ∃ sc, last output = Some ("visiting " +:+ sc)
               ∧ (query (Element_toString child) w = Some sc
                  ∨ query (Transition_toString child) w = Some sc))
          xs outputs
      ∧ emits (forEach child_visit xs) w (concat outputs).
Proof.
  intros Hchild. induction xs as [|x xs IH]; intros w w'; simpl.
  - intros [= <-]. exists []. simpl. rewrite app_nil_r, World_eta.
    split; [done|]. split; [constructor|]. intros lines. by rewrite app_nil_r.
  - rewrite bind_unfold. destruct (child_visit x w) as [[[] w1]|] eqn:E; [|done].
    intros Hrest. destruct (Hchild x w w1 E) as (output & s & -> & Hlast & Hs & Hemits).
    destruct (IH _ _ Hrest) as (outputs & -> & Hall & Hemits').
    exists (output :: outputs). simpl. rewrite app_assoc. split; [done|]. split.
    + constructor; [|by eapply below_console]. split; [done|]. by exists s.
    + by apply emits_bind.
Qed.

(** A walk through children and then the line of the element. *)
Lemma walk_below (child_visit : loc → StateErr World unit) xs e w w' :
  (∀ e w w', child_visit e w = Some (tt, w') →
     ∃ output s,
       w' = mkWorld (heap w) (next w) (console w ++ output)
       ∧ last output = Some ("visiting " +:+ s)
       ∧ (query (Element_toString e) w = Some s
          ∨ query (Transition_toString e) w = Some s)
       ∧ emits (child_visit e) w output) →
  (forEach child_visit xs ;; visitElement e) w = Some (tt, w') →
  ∃ outputs s,
    w' = mkWorld (heap w) (next w)
           (console w ++ concat outputs ++ ["visiting " +:+ s])
    ∧ query (Element_toString e) w = Some s
    ∧ Forall2 (λ child output,
         emits (child_visit child) w output
         ∧ ∃ sc, last output = Some ("visiting " +:+ sc)
             ∧ (query (Element_toString child) w = Some sc
                ∨ query (Transition_toString child) w = Some sc))
        xs outputs
    ∧ emits (forEach child_visit xs ;; visitElement e) w
        (concat outputs ++ ["visiting " +:+ s]).
Proof.
  intros Hchild. rewrite bind_unfold.
  destruct (forEach child_visit xs w) as [[[] w1]|] eqn:E; [|done]. intros Hrun.
  destruct (forEach_below child_visit Hchild xs w w1 E) as (outputs & -> & Hall & Hemits).
  apply visitElement_inv in Hrun as (s & Hs & ->). simpl.
  rewrite (Element_toString_heap w) in Hs by done.
  exists outputs, s. rewrite app_assoc. split; [done|]. split; [done|].
  split; [done|]. apply emits_bind; [done|]. by apply visitElement_emits.
Qed.

Lemma visitVertex_below (child_visit : loc → StateErr World unit) e v w w' :
  (∀ e w w', child_visit e w = Some (tt, w') →
     ∃ output s,
       w' = mkWorld (heap w) (next w) (console w ++ output)
       ∧ last output = Some ("visiting " +:+ s)
       ∧ (query (Element_toString e) w = Some s
          ∨ query (Transition_toString e) w = Some s)
       ∧ emits (child_visit e) w output) →
  heap w !! e = Some (OVertex v) →
  visitVertex child_visit e w = Some (tt, w') →
  ∃ outputs s,
    w' = mkWorld (heap w) (next w)
           (console w ++ concat outputs ++ ["visiting " +:+ s])
    ∧ query (Element_toString e) w = Some s
    ∧ Forall2 (λ child output,
         emits (child_visit child) w output
         ∧ ∃ sc, last output = Some ("visiting " +:+ sc)
             ∧ (query (Element_toString child) w = Some sc
                ∨ query (Transition_toString child) w = Some sc))
        (outgoing v) outputs
    ∧ emits (visitVertex child_visit e) w (concat outputs ++ ["visiting " +:+ s]).
Proof.
  intros Hchild He. unfold visitVertex. rewrite bind_unfold.
  destruct (as_Vertex e w) as [[v' w1]|] eqn:E; [|done].
  apply as_Vertex_inv in E as [-> He']. rewrite He in He'. injection He' as <-.
  intros Hrun.
  destruct (walk_below _ _ _ _ _ Hchild Hrun) as (outputs & s & -> & Hs & Hall & Hemits).
  exists outputs, s. split; [done|]. split; [done|]. split; [done|].
  intros lines. rewrite bind_unfold. unfold as_Vertex. rewrite bind_unfold.
  unfold lookup_obj. simpl. rewrite He. exact (Hemits lines).
Qed.

Lemma accept_below : ∀ n e w w',
  accept n e w = Some (tt, w') →
  ∃ outputs s,
    w' = mkWorld (heap w) (next w)
           (console w ++ concat outputs ++ ["visiting " +:+ s])
    ∧ (query (Element_toString e) w = Some s
       ∨ query (Transition_toString e) w = Some s)
    ∧ Forall2 (λ child output,
         emits (accept (pred n) child) w output
         ∧ ∃ sc, last output = Some ("visiting " +:+ sc)
             ∧ (query (Element_toString child) w = Some sc
                ∨ query (Transition_toString child) w = Some sc))
        (children_at (heap w) e) outputs
    ∧ emits (accept n e) w (concat outputs ++ ["visiting " +:+ s]).
Proof.
  induction n as [|n IH]; intros e w w'; [done|].
  assert (∀ e w w', accept n e w = Some (tt, w') →
            ∃ output s,
              w' = mkWorld (heap w) (next w) (console w ++ output)
              ∧ last output = Some ("visiting " +:+ s)
              ∧ (query (Element_toString e) w = Some s
                 ∨ query (Transition_toString e) w = Some s)
              ∧ emits (accept n e) w output) as Hchild.
  { intros e0 w0 w0' H. destruct (IH e0 w0 w0' H) as (outputs & s & -> & Hs & _ & He).
    exists (concat outputs ++ ["visiting " +:+ s]), s.
    split; [done|]. split; [by rewrite last_snoc|]. done. }
  simpl. rewrite bind_unfold.
  destruct (lookup_obj e w) as [[o w1]|] eqn:E; [|done].
  apply lookup_obj_inv in E as [-> He].
  destruct o as [sm|r|v|t|d]; [| | | |done].
  - unfold visitStateMachine. rewrite bind_unfold.
    destruct (as_StateMachine e w) as [[sm' w1]|] eqn:E; [|done].
    apply as_StateMachine_inv in E as [-> He']. intros Hrun.
    destruct (walk_below _ _ _ _ _ Hchild Hrun) as (outputs & s & -> & Hs & Hall & Hemits).
    exists outputs, s. split; [done|]. split; [by left|].
    unfold children_at. rewrite He'. split; [exact Hall|].
    intros lines. rewrite bind_unfold. unfold lookup_obj. simpl. rewrite He.
    unfold visitStateMachine. rewrite bind_unfold. unfold as_StateMachine.
    rewrite bind_unfold. unfold lookup_obj. simpl. rewrite He'. exact (Hemits lines).
  - unfold visitRegion. rewrite bind_unfold.
    destruct (as_Region e w) as [[r' w1]|] eqn:E; [|done].
    apply as_Region_inv in E as [-> He']. intros Hrun.
    destruct (walk_below _ _ _ _ _ Hchild Hrun) as (outputs & s & -> & Hs & Hall & Hemits).
    exists outputs, s. split; [done|]. split; [by left|].
    unfold children_at. rewrite He'. split; [exact Hall|].
    intros lines. rewrite bind_unfold. unfold lookup_obj. simpl. rewrite He.
    unfold visitRegion. rewrite bind_unfold. unfold as_Region.
    rewrite bind_unfold. unfold lookup_obj. simpl. rewrite He'. exact (Hemits lines).
  - destruct (v_class v) as [|k|f] eqn:Hcls.
    + intros Hrun.
      destruct (visitVertex_below _ _ _ _ _ Hchild He Hrun)
        as (outputs & s & -> & Hs & Hall & Hemits).
      exists outputs, s. split; [done|]. split; [by left|].
      unfold children_at. rewrite He, Hcls. split; [exact Hall|].
      intros lines. rewrite bind_unfold. unfold lookup_obj. simpl. rewrite He, Hcls.
      exact (Hemits lines).
    + intros Hrun.
      destruct (visitVertex_below _ _ _ _ _ Hchild He Hrun)
        as (outputs & s & -> & Hs & Hall & Hemits).
      exists outputs, s. split; [done|]. split; [by left|].
      unfold children_at. rewrite He, Hcls. split; [exact Hall|].
      intros lines. rewrite bind_unfold. unfold lookup_obj. simpl. rewrite He, Hcls.
      exact (Hemits lines).
    + unfold visitState. rewrite bind_unfold.
      destruct (as_State e w) as [[[v' f'] w1]|] eqn:E; [|done].
      apply as_State_inv in E as (-> & He' & Hcls').
      rewrite He in He'. injection He' as <-.
      rewrite Hcls in Hcls'. injection Hcls' as <-. rewrite bind_unfold.
      destruct (forEach (accept n) (regions f) w) as [[[] w1]|] eqn:E; [|done].
      destruct (forEach_below _ Hchild _ _ _ E) as (outs_r & -> & Hall_r & Hemits_r).
      intros Hrun.
      destruct (visitVertex_below (accept n) e v
                  (mkWorld (heap w) (next w) (console w ++ concat outs_r)) w'
                  Hchild He Hrun)
        as (outs_t & s & -> & Hs & Hall_t & Hemits_t).
      simpl in *. rewrite (Element_toString_heap w) in Hs by done.
      exists (outs_r ++ outs_t), s. rewrite concat_app, <- !app_assoc.
      split; [done|]. split; [by left|].
      unfold children_at. rewrite He, Hcls. split.
      * apply Forall2_app; [done|]. by eapply below_console.
      * intros lines. rewrite bind_unfold. unfold lookup_obj. simpl. rewrite He, Hcls.
        unfold visitState. rewrite bind_unfold. unfold as_State. rewrite bind_unfold.
        unfold as_Vertex. rewrite bind_unfold. unfold lookup_obj. simpl.
        rewrite He. simpl. rewrite Hcls.
        exact (emits_bind _ _ _ _ _ Hemits_r Hemits_t lines).
  - intros Hrun. apply visitTransition_inv in Hrun as (s & Hs & ->).
    exists [], s. split; [done|]. split; [by right|].
    unfold children_at. rewrite He. split; [constructor|].
    intros lines. rewrite bind_unfold. unfold lookup_obj. simpl. rewrite He.
    exact (visitTransition_emits w e s Hs lines).
Qed.

(** X10: a visit that returns has changed nothing but the console: the
    objects and the next location are as before.  To the console it has
    added, for each object it walks through at the element and in the
    order of the walk (the regions of a state machine; the vertices of a
    region; the regions of a state and then its outgoing transitions; the
    outgoing transitions of any other vertex), the lines that the visit of
    that object writes, which end with the line of that object; and then,
    last, the line of the element itself. *)
Theorem accept_only_logs_element_last n e w w' :
  accept n e w = Some (tt, w') →
  heap w' = heap w ∧ next w' = next w
  ∧ ∃ outputs s,
      console w' = console w ++ concat outputs ++ ["visiting " +:+ s]
      ∧ (query (Element_toString e) w = Some s
         ∨ query (Transition_toString e) w = Some s)
      ∧ Forall2 (λ child output,
           emits (accept (pred n) child) w output
           ∧ ∃ sc, last output = Some ("visiting " +:+ sc)
               ∧ (query (Element_toString child) w = Some sc
                  ∨ query (Transition_toString child) w = Some sc))
          (children_at (heap w) e) outputs.
Proof.
  intros Hrun. destruct (accept_below n e w w' Hrun) as (outputs & s & -> & Hs & Hall & _).
  split; [done|]. split; [done|]. by exists outputs, s.
Qed.

(** ** Laws of [setCurrent] on a [DictionaryInstance] *)

Lemma qualifiedName_after_setCurrent w i d d' c l :
  heap w !! i = Some (ODictionaryInstance d) →
  query (qualifiedName l)
    (mkWorld (<[i := ODictionaryInstance d']> (heap w)) (next w) c)
  = query (qualifiedName l) w.
Proof.
  intros Hi. rewrite !query_qualifiedName. simpl.
  destruct (decide (i = l)) as [->|Hne].
  - by rewrite lookup_insert_eq, Hi.
  - by rewrite lookup_insert_ne.
Qed.

(** Two calls in a row, in closed form. *)
Lemma setCurrent_twice w i d r1 r2 s1 s2 qn1 qn2 :
  heap w !! i = Some (ODictionaryInstance d) →
  query (qualifiedName r1) w = Some qn1 → query (qualifiedName r2) w = Some qn2 →
  (DictionaryInstance_setCurrent i r1 s1 ;; DictionaryInstance_setCurrent i r2 s2) w
  = Some (tt, mkWorld
                (<[i := ODictionaryInstance
                          (mkDictionaryInstance (di_name d)
                             (<[qn2 := s2]> (<[qn1 := s1]> (activeStateConfiguration d))))]>
                   (heap w))
                (next w) (console w)).
Proof.
  intros Hi Hq1 Hq2. rewrite bind_unfold.
  rewrite (setCurrent_spec w i d r1 s1 qn1 Hi Hq1).
  erewrite setCurrent_spec;
    [| simpl; apply lookup_insert_eq
     | by rewrite (qualifiedName_after_setCurrent w i d _ _ r2 Hi) ].
  simpl. by rewrite insert_insert_eq.
Qed.

(** X12: on one instance, a second [setCurrent] for a region of the same
    qualified name replaces the first, calls for regions of different
    qualified names can be swapped, and setting the state that is current
    already changes nothing. *)
Theorem setCurrent_last_write_wins w i d r1 r2 s1 s2 qn1 qn2 :
  heap w !! i = Some (ODictionaryInstance d) →
  query (qualifiedName r1) w = Some qn1 → query (qualifiedName r2) w = Some qn2 →
  (qn1 = qn2 →
     (setCurrent (DictionaryInstance i) r1 s1 ;;
      setCurrent (DictionaryInstance i) r2 s2) w
     = setCurrent (DictionaryInstance i) r2 s2 w)
  ∧ (qn1 ≠ qn2 →
       (setCurrent (DictionaryInstance i) r1 s1 ;;
        setCurrent (DictionaryInstance i) r2 s2) w
       = (setCurrent (DictionaryInstance i) r2 s2 ;;
          setCurrent (DictionaryInstance i) r1 s1) w)
  ∧ (getCurrent (DictionaryInstance i) r1 w = Some (Some s1) →
       setCurrent (DictionaryInstance i) r1 s1 w = Some (tt, w)).
Proof.
  intros Hi Hq1 Hq2. simpl. split; [|split].
  - intros <-. rewrite (setCurrent_twice w i d r1 r2 s1 s2 qn1 qn1 Hi Hq1 Hq2).
    rewrite (setCurrent_spec w i d r2 s2 qn1 Hi Hq2). by rewrite insert_insert_eq.
  - intros Hne. rewrite (setCurrent_twice w i d r1 r2 s1 s2 qn1 qn2 Hi Hq1 Hq2).
    rewrite (setCurrent_twice w i d r2 r1 s2 s1 qn2 qn1 Hi Hq2 Hq1).
    by rewrite insert_insert_ne.
  - rewrite (query_getCurrent w i d r1 qn1 Hi Hq1). intros [= Hcur].
    rewrite (setCurrent_spec w i d r1 s1 qn1 Hi Hq1).
    rewrite (insert_id (activeStateConfiguration d)) by done.
    destruct d, w. simpl in *. by rewrite insert_id.
Qed.

(** X13: [setCurrent] on a [DictionaryInstance] never throws for a region,
    takes any location as the state without looking at it, and leaves the
    model alone: every other object, the well-formedness of the store, the
    console, and the [clean] flag that every element reads stay as they
    were. *)
Theorem setCurrent_leaves_model w i d region state :
  wf w → heap w !! i = Some (ODictionaryInstance d) →
  is_region (shape_at (heap w) region) →
  ∃ w', setCurrent (DictionaryInstance i) region state w = Some (tt, w')
    ∧ wf w' ∧ next w' = next w ∧ console w' = console w
    ∧ (∀ x, x ≠ i → heap w' !! x = heap w !! x)
    ∧ (∀ e, query (read_clean e) w' = query (read_clean e) w).
Proof.
  intros Hwf Hi Hreg.
  assert (∃ qn, query (qualifiedName region) w = Some qn) as [qn Hqn].
  { rewrite query_qualifiedName. unfold shape_at in Hreg.
    destruct (heap w !! region) as [[]|]; try done. eauto. }
  eexists. simpl. split; [exact (setCurrent_spec w i d region state qn Hi Hqn)|].
  split; [|split; [done|split; [done|split]]].
  - by eapply wf_overwrite.
  - intros x Hx. simpl. by rewrite lookup_insert_ne.
  - intros e. by eapply read_clean_overwrite.
Qed.

(** ** Objects only grow *)

#[local] Instance class_extends_refl : Reflexive (@class_extends Behavior).
Proof. intros [| k | f]; simpl; done. Qed.

#[local] Instance class_extends_trans : Transitive (@class_extends Behavior).
Proof.
  intros [| k1 | f1] [| k2 | f2] [| k3 | f3]; simpl; try done.
  - congruence.
  - intros (? & ? & ?) (? & ? & ?). split_and!; by etrans.
Qed.

#[local] Instance extends_refl : Reflexive (@extends Behavior Action UserGuard).
Proof. intros [m|r|v|t|d]; simpl; done. Qed.

#[local] Instance extends_trans : Transitive (@extends Behavior Action UserGuard).
Proof.
  intros [m1|r1|v1|t1|d1] [m2|r2|v2|t2|d2] [m3|r3|v3|t3|d3]; simpl; try done.
  - intros (? & ? & ?) (? & ? & ?). split_and!; by etrans.
  - intros (? & ? & ? & ?) (? & ? & ? & ?). split_and!; by etrans.
  - intros (? & ? & ? & ? & ? & ?) (? & ? & ? & ? & ? & ?). split_and!; by etrans.
  - intros (? & ? & ?) (? & ? & ?). split_and!; by etrans.
  - congruence.
Qed.

#[local] Instance updates_refl : Reflexive updates.
Proof. intros w. split; [done|]. intros x. by destruct (heap w !! x); constructor. Qed.

#[local] Instance updates_trans : Transitive updates.
Proof.
  intros w1 w2 w3 [Hn1 H1] [Hn2 H2]. split; [congruence|]. intros x.
  specialize (H1 x). specialize (H2 x).
  destruct H1; inversion H2; subst; constructor. by etrans.
Qed.

#[local] Instance grows_refl : Reflexive grows.
Proof.
  intros w Hf. split; [done|]. split; [done|]. intros x _.
  by destruct (heap w !! x); constructor.
Qed.

#[local] Instance grows_trans : Transitive grows.
Proof.
  intros w1 w2 w3 H1 H2 Hf. destruct (H1 Hf) as (Hf2 & Hn1 & Hx1).
  destruct (H2 Hf2) as (Hf3 & Hn2 & Hx2). split; [done|]. split; [lia|].
  intros x Hx. specialize (Hx1 x Hx). specialize (Hx2 x ltac:(lia)).
  destruct Hx1; inversion Hx2; subst; constructor. by etrans.
Qed.

Lemma updates_grows w w' : updates w w' → grows w w'.
Proof.
  intros [Hn Hx] Hf. split; [|split; [lia|by intros x _]].
  intros x Hle. specialize (Hx x). rewrite Hf in Hx by lia. by inversion Hx.
Qed.

Lemma preserves_weaken {A} (R R' : World → World → Prop) (c : StateErr World A) :
  (∀ w w', R w w' → R' w w') → preserves R c → preserves R' c.
Proof. intros Himp Hc w a w' Hrun. eapply Himp, Hc, Hrun. Qed.

Lemma preserves_grows {A} (c : StateErr World A) :
  preserves updates c → preserves grows c.
Proof. apply preserves_weaken, updates_grows. Qed.

Lemma updates_console w c : updates w (mkWorld (heap w) (next w) c).
Proof. split; [done|]. intros x. simpl. by destruct (heap w !! x); constructor. Qed.

Lemma updates_store w l o o' c :
  heap w !! l = Some o → extends o o' →
  updates w (mkWorld (<[l := o']> (heap w)) (next w) c).
Proof.
  intros Hl Hext. split; [done|]. intros x. simpl.
  destruct (decide (l = x)) as [<-|Hne].
  - rewrite lookup_insert_eq, Hl. by constructor.
  - rewrite lookup_insert_ne by done. by destruct (heap w !! x); constructor.
Qed.

Lemma grows_alloc w o c :
  grows w (mkWorld (<[next w := o]> (heap w)) (S (next w)) c).
Proof.
  intros Hf. simpl. split; [|split; [lia|]].
  - intros x Hx. simpl in *. rewrite lookup_insert_ne by lia. apply Hf. lia.
  - intros x Hx. rewrite lookup_insert_ne by lia.
    by destruct (heap w !! x); constructor.
Qed.

Lemma preserves_alloc (mk : loc → Obj) : preserves grows (alloc mk).
Proof. intros w a w' [= <- <-]. apply grows_alloc. Qed.

Lemma preserves_log (R : World → World → Prop) line :
  (∀ w c, R w (mkWorld (heap w) (next w) c)) → preserves R (log line).
Proof. intros HR w a w' [= <- <-]. apply HR. Qed.

Lemma preserves_Element_toString (R : World → World → Prop) `{!Reflexive R} l :
  preserves R (Element_toString l).
Proof.
  apply preserves_pure; [done|]. intros w s w' H.
  by apply Element_toString_inv in H as [-> _].
Qed.

Lemma preserves_lookup_obj (R : World → World → Prop) `{!Reflexive R} l :
  preserves R (lookup_obj l).
Proof.
  apply preserves_pure; [done|]. intros w s w' H. by apply lookup_obj_inv in H as [-> _].
Qed.

Lemma getRoot_inv w l m w' : getRoot l w = Some (m, w') → w' = w.
Proof. unfold getRoot. destruct (getRoot_steps _ _ _); [|done]. by intros [= <- <-]. Qed.

Lemma preserves_write_clean root b : preserves updates (write_clean root b).
Proof.
  intros w a w'. unfold write_clean. rewrite bind_unfold.
  destruct (as_StateMachine root w) as [[m w1]|] eqn:E; [|done].
  apply as_StateMachine_inv in E as [-> Hm]. intros [= <- <-].
  by eapply updates_store.
Qed.

Lemma preserves_invalidate l : preserves updates (invalidate l).
Proof.
  apply preserves_bind; [apply _| |intros m; apply preserves_write_clean].
  apply preserves_pure; [apply _|]. intros w m w'. apply getRoot_inv.
Qed.

Lemma preserves_NamedElement_init name parent :
  preserves updates (NamedElement_init name parent).
Proof.
  apply preserves_bind; [apply _|by apply preserves_Element_toString|]. intros p.
  apply preserves_bind; [apply _| |intros _; by apply preserves_ret].
  apply preserves_log. apply updates_console.
Qed.

Lemma preserves_push_region parent r : preserves updates (push_region parent r).
Proof.
  intros w a w'. unfold push_region. rewrite bind_unfold.
  destruct (lookup_obj parent w) as [[o w1]|] eqn:E; [|done].
  apply lookup_obj_inv in E as [-> Hp].
  destruct o as [m| |v| |]; try done.
  - intros [= <- <-]. eapply updates_store; [done|]. simpl.
    split_and!; [done|by apply prefix_app_r|done].
  - destruct (v_class v) as [| |f] eqn:Hcls; try done.
    intros [= <- <-]. eapply updates_store; [done|]. simpl. rewrite Hcls. simpl.
    split_and!; try done. by apply prefix_app_r.
Qed.

Lemma preserves_push_vertex region v : preserves updates (push_vertex region v).
Proof.
  intros w a w'. unfold push_vertex. rewrite bind_unfold.
  destruct (as_Region region w) as [[r w1]|] eqn:E; [|done].
  apply as_Region_inv in E as [-> Hr]. intros [= <- <-].
  eapply updates_store; [done|]. simpl. split_and!; try done. by apply prefix_app_r.
Qed.

Lemma preserves_push_outgoing vertex t : preserves updates (push_outgoing vertex t).
Proof.
  intros w a w'. unfold push_outgoing. rewrite bind_unfold.
  destruct (as_Vertex vertex w) as [[v w1]|] eqn:E; [|done].
  apply as_Vertex_inv in E as [-> Hv]. intros [= <- <-].
  eapply updates_store; [done|]. simpl. split_and!; try done. by apply prefix_app_r.
Qed.

Lemma preserves_push_incoming vertex t : preserves updates (push_incoming vertex t).
Proof.
  intros w a w'. unfold push_incoming. rewrite bind_unfold.
  destruct (as_Vertex vertex w) as [[v w1]|] eqn:E; [|done].
  apply as_Vertex_inv in E as [-> Hv]. intros [= <- <-].
  eapply updates_store; [done|]. simpl. split_and!; try done. by apply prefix_app_r.
Qed.

(** ** The builder only appends *)

Lemma preserves_Region_new name parent : preserves grows (Region_new name parent).
Proof.
  unfold Region_new.
  apply preserves_bind; [apply _| |intros qn].
  { apply preserves_grows, preserves_NamedElement_init. }
  apply preserves_bind; [apply _|apply preserves_alloc|intros this].
  apply preserves_bind; [apply _| |intros _].
  { apply preserves_grows, preserves_push_region. }
  apply preserves_bind; [apply _| |intros _; by apply preserves_ret].
  apply preserves_grows, preserves_invalidate.
Qed.

(** The end of [getDefaultRegion]: the field is written. *)
Lemma updates_set_sm_defaultRegion w this sm r c :
  heap w !! this = Some (OStateMachine sm) →
  updates w (mkWorld (<[this := OStateMachine (set_sm_defaultRegion r sm)]> (heap w))
               (next w) c).
Proof. intros Hm. by eapply updates_store. Qed.

Lemma updates_set_defaultRegion w this v f r c :
  heap w !! this = Some (OVertex v) → v_class v = IsState f →
  updates w (mkWorld (<[this := OVertex (set_v_class
                                           (IsState (set_defaultRegion r f)) v)]>
                        (heap w))
               (next w) c).
Proof.
  intros Hv Hcls. eapply updates_store; [done|]. simpl. by rewrite Hcls.
Qed.

Lemma preserves_getDefaultRegion this : preserves grows (getDefaultRegion this).
Proof.
  unfold getDefaultRegion.
  apply preserves_bind; [apply _|by apply preserves_lookup_obj|intros o].
  destruct o as [m| |v| |]; try apply preserves_throw.
  - destruct (sm_defaultRegion m); [by apply preserves_ret|].
    apply preserves_bind; [apply _|apply preserves_Region_new|intros r].
    apply preserves_grows. intros w a w'. rewrite bind_unfold.
    destruct (as_StateMachine this w) as [[m' w1]|] eqn:E; [|done].
    apply as_StateMachine_inv in E as [-> Hm]. intros [= <- <-].
    by apply updates_set_sm_defaultRegion.
  - destruct (v_class v) as [| |f]; try apply preserves_throw.
    destruct (defaultRegion f); [by apply preserves_ret|].
    apply preserves_bind; [apply _|apply preserves_Region_new|intros r].
    apply preserves_grows. intros w a w'. rewrite bind_unfold.
    destruct (as_State this w) as [[[v' f'] w1]|] eqn:E; [|done].
    apply as_State_inv in E as (-> & Hv & Hcls). intros [= <- <-].
    by apply updates_set_defaultRegion.
Qed.

Lemma preserves_Vertex_super cls name region :
  preserves grows (Vertex_super cls name region).
Proof.
  unfold Vertex_super.
  apply preserves_bind; [apply _| |intros qn].
  { apply preserves_grows, preserves_NamedElement_init. }
  apply preserves_bind; [apply _|apply preserves_alloc|intros this].
  apply preserves_bind; [apply _| |intros _].
  { apply preserves_grows, preserves_push_vertex. }
  apply preserves_bind; [apply _| |intros _; by apply preserves_ret].
  apply preserves_grows, preserves_invalidate.
Qed.

Lemma preserves_Vertex_init cls name parent :
  preserves grows (Vertex_init cls name parent).
Proof.
  unfold Vertex_init, instanceof_Region.
  apply preserves_bind; [apply _| |intros is_region].
  { apply preserves_bind; [apply _|by apply preserves_lookup_obj|].
    intros o. by apply preserves_ret. }
  apply preserves_bind; [apply _| |intros region; apply preserves_Vertex_super].
  destruct is_region; [by apply preserves_ret|apply preserves_getDefaultRegion].
Qed.

Lemma preserves_State_exit this action : preserves updates (State_exit this action).
Proof.
  intros w a w'. unfold State_exit. rewrite bind_unfold.
  destruct (as_State this w) as [[[v f] w1]|] eqn:E; [|done].
  apply as_State_inv in E as (-> & Hv & Hcls). rewrite bind_unfold. simpl.
  assert (preserves updates (invalidate this ;; ret this)) as Htail.
  { apply preserves_bind; [apply _|apply preserves_invalidate|].
    intros _. by apply preserves_ret. }
  intros Hrun. etrans; [|exact (Htail _ _ _ Hrun)].
  eapply updates_store; [done|]. simpl. rewrite Hcls. simpl.
  split_and!; try done. by apply prefix_app_r.
Qed.

Lemma preserves_State_enter this action : preserves updates (State_enter this action).
Proof. apply preserves_State_exit. Qed.

Lemma preserves_Transition_guard this (g : @Guard UserGuard) :
  preserves updates
    (let* t := as_Transition this in
     store_obj this (OTransition (set_guard g t)) ;; ret this).
Proof.
  intros w a w'. rewrite bind_unfold.
  destruct (as_Transition this w) as [[t w1]|] eqn:E; [|done].
  apply as_Transition_inv in E as [-> Ht]. intros [= <- <-].
  by eapply updates_store.
Qed.

Lemma preserves_Transition_effect this action :
  preserves updates (Transition_effect this action).
Proof.
  intros w a w'. unfold Transition_effect. rewrite bind_unfold.
  destruct (as_Transition this w) as [[t w1]|] eqn:E; [|done].
  apply as_Transition_inv in E as [-> Ht]. rewrite bind_unfold. simpl.
  assert (preserves updates (invalidate (source t) ;; ret this)) as Htail.
  { apply preserves_bind; [apply _|apply preserves_invalidate|].
    intros _. by apply preserves_ret. }
  intros Hrun. etrans; [|exact (Htail _ _ _ Hrun)].
  eapply updates_store; [done|]. simpl. split_and!; try done. by apply prefix_app_r.
Qed.

Lemma preserves_Transition_new src target kind :
  preserves grows (Transition_new src target kind).
Proof.
  unfold Transition_new, instanceof_PseudoState.
  apply preserves_bind; [apply _| |intros is_pseudo].
  { apply preserves_bind; [apply _|by apply preserves_lookup_obj|].
    intros o. by apply preserves_ret. }
  apply preserves_bind; [apply _|apply preserves_alloc|intros this].
  apply preserves_bind; [apply _| |intros _].
  { apply preserves_grows, preserves_push_outgoing. }
  apply preserves_bind; [apply _| |intros _].
  { apply preserves_grows, preserves_invalidate. }
  apply preserves_bind; [apply _| |intros _].
  { apply preserves_grows. destruct target as [tg|].
    - apply preserves_push_incoming.
    - intros w a w'. rewrite bind_unfold.
      destruct (as_Transition this w) as [[t w1]|] eqn:E; [|done].
      apply as_Transition_inv in E as [-> Ht]. intros [= <- <-].
      by eapply updates_store. }
  apply preserves_bind; [apply _|by apply preserves_Element_toString|intros s].
  apply preserves_bind; [apply _| |intros tg].
  { apply preserves_pure; [apply _|]. intros w a w'. apply optional_toString_inv. }
  apply preserves_bind; [apply _| |intros _; by apply preserves_ret].
  apply preserves_log. intros w c. apply updates_grows, updates_console.
Qed.

Lemma preserves_run (c : @Command Behavior UserGuard) : preserves grows (run c).
Proof.
  destruct c; simpl;
    (apply preserves_bind; [apply _| |intros _; by apply preserves_ret]).
  - apply preserves_Region_new.
  - apply preserves_Vertex_init.
  - apply preserves_Transition_new.
  - apply preserves_grows, preserves_State_enter.
  - apply preserves_grows, preserves_State_exit.
  - apply preserves_grows, preserves_Transition_effect.
  - apply preserves_grows, preserves_Transition_guard.
  - apply preserves_grows, preserves_Transition_guard.
Qed.

Lemma preserves_run_all (cs : list (@Command Behavior UserGuard)) :
  preserves grows (run_all cs).
Proof. apply preserves_forEach; try apply _. intros c _. apply preserves_run. Qed.

Lemma wf_is_fresh w : wf w → fresh w.
Proof. intros Hwf x Hx. by apply wf_fresh. Qed.

Lemma grows_lookup w w' x o :
  fresh w → grows w w' → heap w !! x = Some o →
  ∃ o', heap w' !! x = Some o' ∧ extends o o'.
Proof.
  intros Hf Hg Hx. destruct (Hg Hf) as (_ & _ & Hall).
  assert (x < next w) as Hlt.
  { destruct (decide (x < next w)); [done|]. rewrite Hf in Hx by lia. done. }
  specialize (Hall x Hlt). rewrite Hx in Hall. inversion Hall; subst. eauto.
Qed.

(** X14: a run of builder calls that returns has taken nothing away.
    Every object is still there with its class, name, qualified name and
    parent, source and target; the arrays of regions, vertices, outgoing
    and incoming transitions and of behaviour have their old entries in
    front; the instances are as they were. *)
Theorem builder_only_appends w cs w' :
  wf w → run_all cs w = Some (tt, w') →
  next w ≤ next w'
  ∧ ∀ x o, heap w !! x = Some o → ∃ o', heap w' !! x = Some o' ∧ extends o o'.
Proof.
  intros Hwf Hrun. pose proof (preserves_run_all cs w tt w' Hrun) as Hg.
  split.
  - by destruct (Hg (wf_is_fresh _ Hwf)) as (_ & ? & _).
  - intros x o. by apply grows_lookup; [apply wf_is_fresh|].
Qed.

(** ** What building more cannot undo *)

Lemma State_isFinal_inv w s b w' :
  State_isFinal s w = Some (b, w') →
  ∃ v f, w' = w ∧ heap w !! s = Some (OVertex v) ∧ v_class v = IsState f
    ∧ b = bool_decide (length (outgoing v) = 0).
Proof.
  unfold State_isFinal. rewrite bind_unfold.
  destruct (as_State s w) as [[[v f] w1]|] eqn:E; [|done].
  apply as_State_inv in E as (-> & Hv & Hcls). intros [= <- <-]. eauto 10.
Qed.

(** Inverts a query on a state that has returned. *)
Ltac state_query_inv H v f Hs Hcls Hb :=
  unfold State_isSimple, State_isComposite, State_isOrthogonal in H;
  rewrite bind_unfold in H;
  let E := fresh "E" in
  destruct (as_State _ _) as [[[v f] ?]|] eqn:E in H; [|discriminate H];
  apply as_State_inv in E as (-> & Hs & Hcls);
  injection H as Hb.

Lemma state_extends (v : VertexObj) f o' :
  v_class v = IsState f → extends (OVertex v) o' →
  ∃ v' f', o' = OVertex v' ∧ v_class v' = IsState f'
    ∧ length (outgoing v) ≤ length (outgoing v')
    ∧ length (regions f) ≤ length (regions f').
Proof.
  intros Hcls Hext. destruct o' as [| |v'| |]; try done.
  destruct Hext as (_ & _ & _ & Hout & _ & Hc). rewrite Hcls in Hc.
  destruct (v_class v') as [| |f'] eqn:Hcls'; try done. destruct Hc as (Hregs & _).
  exists v', f'. split_and!; try done; by apply prefix_length.
Qed.

(** X15: no run of builder calls brings back what a state has lost or
    takes away what it has got: a state that is not final stays so, a
    composite state stays composite (and not simple), an orthogonal state
    stays orthogonal. *)
Theorem builder_keeps_not_final_and_composite w cs w' s :
  wf w → run_all cs w = Some (tt, w') →
  (State_isFinal s w = Some (false, w) → State_isFinal s w' = Some (false, w'))
  ∧ (State_isSimple s w = Some (false, w) → State_isSimple s w' = Some (false, w'))
  ∧ (State_isComposite s w = Some (true, w) → State_isComposite s w' = Some (true, w'))
  ∧ (State_isOrthogonal s w = Some (true, w) →
       State_isOrthogonal s w' = Some (true, w')).
Proof.
  intros Hwf Hrun. pose proof (preserves_run_all cs w tt w' Hrun) as Hg.
  pose proof (wf_is_fresh _ Hwf) as Hf.
  assert (∀ v f, heap w !! s = Some (OVertex v) → v_class v = IsState f →
            ∃ v' f', heap w' !! s = Some (OVertex v') ∧ v_class v' = IsState f'
              ∧ length (outgoing v) ≤ length (outgoing v')
              ∧ length (regions f) ≤ length (regions f')) as Hlater.
  { intros v f Hs Hcls. destruct (grows_lookup _ _ _ _ Hf Hg Hs) as (o' & Hs' & Hext).
    destruct (state_extends v f o' Hcls Hext) as (v' & f' & -> & ? & ? & ?). eauto 10. }
  split_and!.
  - intros H. apply State_isFinal_inv in H as (v & f & _ & Hs & Hcls & Hb).
    destruct (Hlater v f Hs Hcls) as (v' & f' & Hs' & Hcls' & Hout & _).
    rewrite (State_isFinal_spec w' s v' f' Hs' Hcls'). f_equal. f_equal.
    symmetry in Hb. apply bool_decide_eq_false in Hb.
    apply bool_decide_eq_false. destruct (outgoing v'); [simpl in *; lia|done].
  - intros H. state_query_inv H v f Hs Hcls Hb.
    destruct (Hlater v f Hs Hcls) as (v' & f' & Hs' & Hcls' & _ & Hregs).
    destruct (State_queries w' s v' f' Hs' Hcls') as (-> & _ & _). f_equal. f_equal.
    apply bool_decide_eq_false in Hb.
    apply bool_decide_eq_false. lia.
  - intros H. state_query_inv H v f Hs Hcls Hb.
    destruct (Hlater v f Hs Hcls) as (v' & f' & Hs' & Hcls' & _ & Hregs).
    destruct (State_queries w' s v' f' Hs' Hcls') as (_ & -> & _). f_equal. f_equal.
    apply Nat.ltb_lt in Hb. apply Nat.ltb_lt. lia.
  - intros H. state_query_inv H v f Hs Hcls Hb.
    destruct (Hlater v f Hs Hcls) as (v' & f' & Hs' & Hcls' & _ & Hregs).
    destruct (State_queries w' s v' f' Hs' Hcls') as (_ & _ & ->). f_equal. f_equal.
    apply Nat.ltb_lt in Hb. apply Nat.ltb_lt. lia.
Qed.


(** ** What building more does not disturb *)

Section Later.

(** Every object of [h] is in [h'], as a later version. *)
Context (h h' : gmap loc Obj).
Hypothesis Hlater : ∀ x o, h !! x = Some o → ∃ o', h' !! x = Some o' ∧ extends o o'.

Lemma later_StateMachine x sm :
  h !! x = Some (OStateMachine sm) →
  ∃ sm', h' !! x = Some (OStateMachine sm') ∧ sm_name sm' = sm_name sm.
Proof.
  intros Hx. destruct (Hlater _ _ Hx) as ([sm'| | | |] & Hx' & Hext); try done.
  destruct Hext as (? & _). eauto.
Qed.

Lemma later_Region x r :
  h !! x = Some (ORegion r) →
  ∃ r', h' !! x = Some (ORegion r') ∧ r_name r' = r_name r
    ∧ r_parent r' = r_parent r ∧ r_qualifiedName r' = r_qualifiedName r.
Proof.
  intros Hx. destruct (Hlater _ _ Hx) as ([|r'| | |] & Hx' & Hext); try done.
  destruct Hext as (? & ? & ? & _). eauto 10.
Qed.

Lemma later_Vertex x v :
  h !! x = Some (OVertex v) →
  ∃ v', h' !! x = Some (OVertex v') ∧ v_name v' = v_name v
    ∧ v_parent v' = v_parent v ∧ v_qualifiedName v' = v_qualifiedName v
    ∧ tag_of (v_class v') = tag_of (v_class v).
Proof.
  intros Hx. destruct (Hlater _ _ Hx) as ([| |v'| |] & Hx' & Hext); try done.
  destruct Hext as (? & ? & ? & _ & _ & Hc). exists v'. split_and!; try done.
  by destruct (v_class v), (v_class v').
Qed.

Lemma later_DictionaryInstance x d :
  h !! x = Some (ODictionaryInstance d) → h' !! x = Some (ODictionaryInstance d).
Proof.
  intros Hx. destruct (Hlater _ _ Hx) as ([| | | |d'] & Hx' & Hext); try done.
  simpl in Hext. by subst.
Qed.

Lemma getRoot_steps_later : ∀ n l m,
  getRoot_steps n h l = Some m → getRoot_steps n h' l = Some m.
Proof.
  induction n as [|n IH]; intros l m; [done|]. simpl.
  destruct (h !! l) as [[sm|r|v| |]|] eqn:Hl; try done.
  - destruct (later_StateMachine _ _ Hl) as (sm' & -> & _). done.
  - destruct (later_Region _ _ Hl) as (r' & -> & _ & -> & _). apply IH.
  - destruct (later_Vertex _ _ Hl) as (v' & -> & _ & -> & _). apply IH.
Qed.

Lemma getAncestors_steps_later : ∀ n l ancestors,
  getAncestors_steps n h l = Some ancestors →
  getAncestors_steps n h' l = Some ancestors.
Proof.
  induction n as [|n IH]; intros l ancestors; [done|]. simpl.
  destruct (h !! l) as [[sm|r|v| |]|] eqn:Hl; try done.
  - destruct (later_StateMachine _ _ Hl) as (sm' & -> & _). done.
  - destruct (later_Region _ _ Hl) as (r' & -> & _ & -> & _).
    destruct (getAncestors_steps n h (r_parent r)) as [ps|] eqn:Hp; [|done].
    by rewrite (IH _ _ Hp).
  - destruct (later_Vertex _ _ Hl) as (v' & -> & _ & -> & _).
    destruct (getAncestors_steps n h (v_parent v)) as [ps|] eqn:Hp; [|done].
    by rewrite (IH _ _ Hp).
Qed.

End Later.

Lemma getAncestors_steps_mono h : ∀ n n' l ancestors,
  getAncestors_steps n h l = Some ancestors → n ≤ n' →
  getAncestors_steps n' h l = Some ancestors.
Proof.
  induction n as [|n IH]; intros n' l ancestors Hrun Hle; [done|].
  destruct n' as [|n']; [lia|]. simpl in *.
  destruct (h !! l) as [[sm|r|v| |]|]; try done.
  - destruct (getAncestors_steps n h (r_parent r)) as [ps|] eqn:Hp; [|done].
    by rewrite (IH n' _ _ Hp) by lia.
  - destruct (getAncestors_steps n h (v_parent v)) as [ps|] eqn:Hp; [|done].
    by rewrite (IH n' _ _ Hp) by lia.
Qed.

Lemma isActive_steps_later (inst inst' : IInstance) w w' :
  (∀ x o, heap w !! x = Some o → ∃ o', heap w' !! x = Some o' ∧ extends o o') →
  (∀ r current, getCurrent inst r w = Some current →
                getCurrent inst' r w' = Some current) →
  ∀ n l b, isActive_steps n inst w l = Some b → isActive_steps n inst' w' l = Some b.
Proof.
  intros Hlater Hcur. induction n as [|n IH]; intros l b; [done|]. simpl.
  destruct (heap w !! l) as [[sm|r|v| |]|] eqn:Hl; try done.
  - destruct (later_StateMachine _ _ Hlater _ _ Hl) as (sm' & -> & _). done.
  - destruct (later_Region _ _ Hlater _ _ Hl) as (r' & -> & _ & -> & _). apply IH.
  - destruct (later_Vertex _ _ Hlater _ _ Hl) as (v' & -> & _ & -> & _ & Htag).
    destruct (v_class v) as [| k | f], (v_class v') as [| k' | f']; try done;
      try apply IH.
    destruct (isActive_steps n inst w (v_parent v)) as [[]|] eqn:Hp; try done.
    + rewrite (IH _ _ Hp).
      destruct (getCurrent inst (v_parent v) w) as [current|] eqn:Hc; [|done].
      by rewrite (Hcur _ _ Hc).
    + by rewrite (IH _ _ Hp).
Qed.

(** X16: what an element answers about itself is not disturbed by a run of
    builder calls that returns: its string, its root and its ancestors
    stay the same, a [DictionaryInstance] answers the same current state
    for it, and [isActive] answers the same. *)
Theorem builder_keeps_names_and_activity w cs w' :
  wf w → run_all cs w = Some (tt, w') →
  (∀ e name, query (Element_toString e) w = Some name →
             query (Element_toString e) w' = Some name)
  ∧ (∀ e m, getRoot e w = Some (m, w) → getRoot e w' = Some (m, w'))
  ∧ (∀ e ancestors, getAncestors e w = Some (ancestors, w) →
                    getAncestors e w' = Some (ancestors, w'))
  ∧ (∀ i r current,
       getCurrent (DictionaryInstance i : IInstance) r w = Some current →
       getCurrent (DictionaryInstance i : IInstance) r w' = Some current)
  ∧ (∀ i e b,
       isActive e (DictionaryInstance i) w = Some (b, w) →
       isActive e (DictionaryInstance i) w' = Some (b, w')).
Proof.
  intros Hwf Hrun. pose proof (preserves_run_all cs w tt w' Hrun) as Hg.
  pose proof (wf_is_fresh _ Hwf) as Hf.
  assert (∀ x o, heap w !! x = Some o → ∃ o', heap w' !! x = Some o' ∧ extends o o')
    as Hlater by (intros x o; by apply grows_lookup).
  assert (next w ≤ next w') as Hnext by (by destruct (Hg Hf) as (_ & ? & _)).
  assert (∀ i r current,
            getCurrent (DictionaryInstance i : IInstance) r w = Some current →
            getCurrent (DictionaryInstance i : IInstance) r w' = Some current)
    as Hcur.
  { intros i r current. simpl. rewrite !query_getCurrent_unfold, !query_qualifiedName.
    destruct (heap w !! i) as [[| | | |d]|] eqn:Hi; try done.
    rewrite (later_DictionaryInstance _ _ Hlater _ _ Hi).
    destruct (heap w !! r) as [[|ro|v| |]|] eqn:Hr; try done.
    - by destruct (later_Region _ _ Hlater _ _ Hr) as (r' & -> & _ & _ & ->).
    - by destruct (later_Vertex _ _ Hlater _ _ Hr) as (v' & -> & _ & _ & -> & _). }
  split_and!.
  - intros e name. unfold query, Element_toString. rewrite !bind_unfold.
    unfold lookup_obj.
    destruct (heap w !! e) as [[sm|r|v| |]|] eqn:He; try done; simpl.
    + by destruct (later_StateMachine _ _ Hlater _ _ He) as (sm' & -> & ->).
    + by destruct (later_Region _ _ Hlater _ _ He) as (r' & -> & _ & _ & ->).
    + by destruct (later_Vertex _ _ Hlater _ _ He) as (v' & -> & _ & _ & -> & _).
  - intros e m. unfold getRoot.
    destruct (getRoot_steps (next w) (heap w) e) as [m'|] eqn:Hroot; [|done].
    intros [= <-].
    by rewrite (getRoot_steps_mono _ (next w') _ _ _
                  (getRoot_steps_later _ _ Hlater _ _ _ Hroot)) by done.
  - intros e ancestors. unfold getAncestors.
    destruct (getAncestors_steps (next w) (heap w) e) as [ps|] eqn:Hanc; [|done].
    intros [= <-].
    by rewrite (getAncestors_steps_mono _ _ (next w') _ _
                  (getAncestors_steps_later _ _ Hlater _ _ _ Hanc)) by done.
  - exact Hcur.
  - intros i e b. unfold isActive.
    destruct (isActive_steps (next w) (DictionaryInstance i) w e) as [b'|] eqn:Hact;
      [|done].
    intros [= <-].
    by rewrite (isActive_steps_mono _ w' _ (next w') _ _
                  (isActive_steps_later _ _ w w' Hlater (Hcur i) _ _ _ Hact)) by done.
Qed.

(** ** A builder call that returns had arguments of the right classes *)

Lemma push_region_inv w parent r w' :
  push_region parent r w = Some (tt, w') → is_owner (shape_at (heap w) parent).
Proof.
  unfold push_region, shape_at. rewrite bind_unfold. unfold lookup_obj.
  destruct (heap w !! parent) as [[| |v| |]|]; simpl; try done.
  by destruct (v_class v).
Qed.

Lemma push_vertex_inv w region v w' :
  push_vertex region v w = Some (tt, w') → is_region (shape_at (heap w) region).
Proof.
  unfold push_vertex, shape_at. rewrite bind_unfold.
  destruct (as_Region region w) as [[r w1]|] eqn:E; [|done].
  apply as_Region_inv in E as [-> ->]. done.
Qed.

Lemma push_outgoing_inv w vertex t w' :
  push_outgoing vertex t w = Some (tt, w') → is_vertex (shape_at (heap w) vertex).
Proof.
  unfold push_outgoing, shape_at. rewrite bind_unfold.
  destruct (as_Vertex vertex w) as [[r w1]|] eqn:E; [|done].
  apply as_Vertex_inv in E as [-> ->]. done.
Qed.

Lemma push_incoming_inv w vertex t w' :
  push_incoming vertex t w = Some (tt, w') → is_vertex (shape_at (heap w) vertex).
Proof.
  unfold push_incoming, shape_at. rewrite bind_unfold.
  destruct (as_Vertex vertex w) as [[r w1]|] eqn:E; [|done].
  apply as_Vertex_inv in E as [-> ->]. done.
Qed.

Lemma NamedElement_init_inv w name parent qn w' :
  NamedElement_init name parent w = Some (qn, w') →
  ∃ p, query (Element_toString parent) w = Some p
    ∧ is_element (shape_at (heap w) parent)
    ∧ qn = p +:+ "." +:+ name
    ∧ w' = mkWorld (heap w) (next w) (console w ++ ["created " +:+ qn]).
Proof.
  unfold NamedElement_init, query. rewrite bind_unfold.
  destruct (Element_toString parent w) as [[p w1]|] eqn:E; [|done].
  apply Element_toString_inv in E as [-> Hel]. intros [= <- <-]. by exists p.
Qed.

(** The shape at an old location after an allocation. *)
Lemma shape_at_alloc w x o (P : option Shape → Prop) :
  fresh w → ¬ P None → P (shape_at (heap w) x) →
  shape_at (<[next w := o]> (heap w)) x = shape_at (heap w) x.
Proof.
  intros Hf Hnone HP. unfold shape_at in *.
  destruct (decide (next w = x)) as [<-|Hne]; [|by rewrite lookup_insert_ne].
  rewrite Hf in HP by lia. done.
Qed.

Lemma Region_new_owner w name parent r w' :
  fresh w → Region_new name parent w = Some (r, w') →
  is_owner (shape_at (heap w) parent).
Proof.
  intros Hf. unfold Region_new. rewrite bind_unfold.
  destruct (NamedElement_init name parent w) as [[qn w0]|] eqn:E; [|done].
  apply NamedElement_init_inv in E as (p & _ & Hel & _ & ->).
  rewrite bind_unfold. simpl. rewrite bind_unfold.
  destruct (push_region _ _ _) as [[[] w1]|] eqn:E; [|done]. intros _.
  apply push_region_inv in E. simpl in E.
  rewrite (shape_at_alloc w parent _ is_element Hf) in E; [done|simpl; tauto|done].
Qed.

Lemma getDefaultRegion_owner w this r w' :
  getDefaultRegion this w = Some (r, w') → is_owner (shape_at (heap w) this).
Proof.
  unfold getDefaultRegion, shape_at. rewrite bind_unfold. unfold lookup_obj.
  destruct (heap w !! this) as [[| |v| |]|]; simpl; try done.
  by destruct (v_class v).
Qed.

Lemma Vertex_init_parent w cls name parent v w' :
  Vertex_init cls name parent w = Some (v, w') →
  is_region (shape_at (heap w) parent) ∨ is_owner (shape_at (heap w) parent).
Proof.
  unfold Vertex_init, instanceof_Region. rewrite !bind_unfold.
  destruct (lookup_obj parent w) as [[o w0]|] eqn:E; [|done].
  apply lookup_obj_inv in E as [-> Hp]. simpl. rewrite bind_unfold.
  destruct o as [| | | |];
    try (destruct (getDefaultRegion parent w) as [[r w1]|] eqn:E; [|done];
         intros _; right; by eapply getDefaultRegion_owner).
  intros _. left. unfold shape_at. by rewrite Hp.
Qed.

(** A later version of an object is of the same class. *)
Lemma extends_shape (o o' : Obj) : extends o o' → shape o' = shape o.
Proof.
  destruct o as [sm|r|v|t|d], o' as [sm'|r'|v'|t'|d']; simpl; try done.
  - by intros (_ & -> & _).
  - intros (_ & -> & _ & _ & _ & Hc). f_equal.
    by destruct (v_class v), (v_class v').
  - by intros (-> & _).
Qed.

Lemma updates_shape_at w w' x : updates w w' → shape_at (heap w') x = shape_at (heap w) x.
Proof.
  intros [_ Hall]. specialize (Hall x). unfold shape_at.
  destruct Hall as [o o' Hext|]; [|done]. simpl. f_equal. by apply extends_shape.
Qed.

Lemma Transition_new_ends w src target kind t w' :
  fresh w → Transition_new src target kind w = Some (t, w') →
  is_vertex (shape_at (heap w) src)
  ∧ match target with
    | Some tg => is_vertex (shape_at (heap w) tg)
    | None => True
    end.
Proof.
  intros Hf. unfold Transition_new, instanceof_PseudoState. rewrite !bind_unfold.
  destruct (lookup_obj src w) as [[o w0]|] eqn:E; [|done].
  apply lookup_obj_inv in E as [-> Hsrc]. simpl. rewrite !bind_unfold.
  unfold alloc. simpl. rewrite bind_unfold.
  match goal with
  | |- context [push_outgoing ?a ?b ?c] =>
      destruct (push_outgoing a b c) as [[[] w1]|] eqn:Hout; [|done]
  end.
  rewrite bind_unfold.
  destruct (invalidate src w1) as [[[] w2]|] eqn:Hinv; [|done].
  pose proof (preserves_push_outgoing _ _ _ _ _ Hout) as Hu1.
  pose proof (preserves_invalidate _ _ _ _ Hinv) as Hu2.
  apply push_outgoing_inv in Hout. simpl in Hout.
  assert (∀ x, is_vertex (shape_at (<[next w := OTransition
            (mkTransition src target (default External kind)
               (default_guard
                  match o with
                  | OVertex v =>
                      match v_class v with IsPseudoState _ => true | _ => false end
                  | _ => false
                  end (next w)) [])]> (heap w)) x) →
               is_vertex (shape_at (heap w) x)) as Hold.
  { intros x. rewrite shape_at_insert. destruct (decide (next w = x)); [|done]. done. }
  intros Hrest. split; [by apply Hold|].
  destruct target as [tg|]; [|done]. rewrite bind_unfold in Hrest.
  match type of Hrest with
  | context [push_incoming ?a ?b ?c] =>
      destruct (push_incoming a b c) as [[[] w3]|] eqn:Hin; [|done]
  end.
  apply push_incoming_inv in Hin.
  rewrite (updates_shape_at _ _ tg Hu2), (updates_shape_at _ _ tg Hu1) in Hin.
  by apply Hold.
Qed.

Lemma run_returns_command_ok w (c : @Command Behavior UserGuard) w' :
  fresh w → proper c → run c w = Some (tt, w') → command_ok w c.
Proof.
  intros Hf Hproper. destruct c; simpl in *; rewrite bind_unfold.
  - destruct (Region_new name parent w) as [[r w1]|] eqn:E; [|done]. intros _.
    by eapply Region_new_owner.
  - destruct (Vertex_init cls name parent w) as [[v w1]|] eqn:E; [|done]. intros _.
    split; [done|]. by eapply Vertex_init_parent.
  - destruct (Transition_new src tgt k w) as [[t w1]|] eqn:E; [|done]. intros _.
    by eapply Transition_new_ends.
  - unfold State_enter. rewrite bind_unfold.
    destruct (as_State state w) as [[[v f] w1]|] eqn:E; [|done]. intros _.
    apply as_State_inv in E as (_ & Hs & Hcls). unfold shape_at. rewrite Hs. simpl.
    by rewrite Hcls.
  - unfold State_exit. rewrite bind_unfold.
    destruct (as_State state w) as [[[v f] w1]|] eqn:E; [|done]. intros _.
    apply as_State_inv in E as (_ & Hs & Hcls). unfold shape_at. rewrite Hs. simpl.
    by rewrite Hcls.
  - unfold Transition_effect. rewrite bind_unfold.
    destruct (as_Transition transition w) as [[t w1]|] eqn:E; [|done]. intros _.
    apply as_Transition_inv in E as (_ & Ht). unfold shape_at. by rewrite Ht.
  - unfold Transition_when. rewrite bind_unfold.
    destruct (as_Transition transition w) as [[t w1]|] eqn:E; [|done]. intros _.
    apply as_Transition_inv in E as (_ & Ht). unfold shape_at. by rewrite Ht.
  - unfold Transition_else. rewrite bind_unfold.
    destruct (as_Transition transition w) as [[t w1]|] eqn:E; [|done]. intros _.
    apply as_Transition_inv in E as (_ & Ht). unfold shape_at. by rewrite Ht.
Qed.

(** X17: a run of builder calls that returns, from a well-formed store,
    ends in a well-formed store, and each call in it had arguments of the
    classes its signature asks for: a call with an argument of another
    class throws. *)
Theorem builder_calls_that_return_keep_wf (cs : list (@Command Behavior UserGuard)) :
  ∀ w w', wf w → Forall proper cs → run_all cs w = Some (tt, w') →
          wf w' ∧ commands_ok w cs.
Proof.
  induction cs as [|c cs IH]; intros w w' Hwf Hproper.
  - intros [= <-]. done.
  - apply Forall_cons in Hproper as [Hc Hcs]. unfold run_all. simpl.
    rewrite bind_unfold. destruct (run c w) as [[[] w1]|] eqn:Hrun; [|done].
    intros Hrest.
    pose proof (run_returns_command_ok w c w1 (wf_is_fresh _ Hwf) Hc Hrun) as Hok.
    destruct (run_spec w c Hwf Hok) as (w1' & Hrun' & Hwf1 & _).
    rewrite Hrun in Hrun'. injection Hrun' as <-.
    destruct (IH w1 w' Hwf1 Hcs Hrest) as [Hwf' Hoks].
    split; [done|]. split; [done|].
    by intros w2 [= <-].
Qed.

(** ** Default regions stay *)

#[local] Instance keeps_defaults_refl : Reflexive keeps_defaults.
Proof. intros w Hf. split; [done|]. eauto. Qed.

#[local] Instance keeps_defaults_trans : Transitive keeps_defaults.
Proof.
  intros w1 w2 w3 H1 H2 Hf. destruct (H1 Hf) as [Hf2 Hx1].
  destruct (H2 Hf2) as [Hf3 Hx2]. split; [done|]. intros x o Hx.
  destruct (Hx1 x o Hx) as (o2 & Ho2 & Hd2).
  destruct (Hx2 x o2 Ho2) as (o3 & Ho3 & Hd3). exists o3. split; [done|congruence].
Qed.

#[local] Instance records_defaults_refl : Reflexive records_defaults.
Proof. intros w Hf. split; [done|]. eauto. Qed.

#[local] Instance records_defaults_trans : Transitive records_defaults.
Proof.
  intros w1 w2 w3 H1 H2 Hf. destruct (H1 Hf) as [Hf2 Hx1].
  destruct (H2 Hf2) as [Hf3 Hx2]. split; [done|]. intros x o r Hx Hd.
  destruct (Hx1 x o r Hx Hd) as (o2 & Ho2 & Hd2). by apply (Hx2 x o2 r).
Qed.

Lemma keeps_records_defaults w w' : keeps_defaults w w' → records_defaults w w'.
Proof.
  intros H Hf. destruct (H Hf) as [Hf' Hx]. split; [done|]. intros x o r Ho Hd.
  destruct (Hx x o Ho) as (o' & Ho' & Hd'). exists o'. split; [done|congruence].
Qed.

Lemma keeps_defaults_console w c : keeps_defaults w (mkWorld (heap w) (next w) c).
Proof. intros Hf. split; [done|]. simpl. eauto. Qed.

Lemma keeps_defaults_store w l o o' c :
  heap w !! l = Some o → defaultRegion_of o' = defaultRegion_of o →
  keeps_defaults w (mkWorld (<[l := o']> (heap w)) (next w) c).
Proof.
  intros Hl Hd Hf. split.
  - intros x Hx. simpl in *. rewrite lookup_insert_ne; [by apply Hf|].
    intros <-. rewrite Hf in Hl by done. done.
  - intros x ox Hx. simpl. destruct (decide (l = x)) as [<-|Hne].
    + rewrite lookup_insert_eq. exists o'. split; [done|congruence].
    + rewrite lookup_insert_ne by done. eauto.
Qed.

Lemma keeps_defaults_alloc w o c :
  keeps_defaults w (mkWorld (<[next w := o]> (heap w)) (S (next w)) c).
Proof.
  intros Hf. split.
  - intros x Hx. simpl in *. rewrite lookup_insert_ne by lia. apply Hf. lia.
  - intros x ox Hx. simpl. exists ox. split; [|done].
    rewrite lookup_insert_ne; [done|]. intros <-. rewrite Hf in Hx by done. done.
Qed.

Lemma defaults_alloc (mk : loc → Obj) : preserves keeps_defaults (alloc mk).
Proof. intros w a w' [= <- <-]. apply keeps_defaults_alloc. Qed.

Lemma defaults_write_clean root b : preserves keeps_defaults (write_clean root b).
Proof.
  intros w a w'. unfold write_clean. rewrite bind_unfold.
  destruct (as_StateMachine root w) as [[m w1]|] eqn:E; [|done].
  apply as_StateMachine_inv in E as [-> Hm]. intros [= <- <-].
  by eapply keeps_defaults_store.
Qed.

Lemma defaults_invalidate l : preserves keeps_defaults (invalidate l).
Proof.
  apply preserves_bind; [apply _| |intros m; apply defaults_write_clean].
  apply preserves_pure; [apply _|]. intros w m w'. apply getRoot_inv.
Qed.

Lemma defaults_NamedElement_init name parent :
  preserves keeps_defaults (NamedElement_init name parent).
Proof.
  apply preserves_bind; [apply _|apply preserves_Element_toString; apply _|]. intros p.
  apply preserves_bind; [apply _| |intros _; apply preserves_ret; apply _].
  apply preserves_log. apply keeps_defaults_console.
Qed.

Lemma defaults_push_region parent r : preserves keeps_defaults (push_region parent r).
Proof.
  intros w a w'. unfold push_region. rewrite bind_unfold.
  destruct (lookup_obj parent w) as [[o w1]|] eqn:E; [|done].
  apply lookup_obj_inv in E as [-> Hp].
  destruct o as [m| |v| |]; try done.
  - intros [= <- <-]. by eapply keeps_defaults_store.
  - destruct (v_class v) as [| |f] eqn:Hcls; try done.
    intros [= <- <-]. eapply keeps_defaults_store; [done|]. simpl. by rewrite Hcls.
Qed.

Lemma defaults_push_vertex region v : preserves keeps_defaults (push_vertex region v).
Proof.
  intros w a w'. unfold push_vertex. rewrite bind_unfold.
  destruct (as_Region region w) as [[r w1]|] eqn:E; [|done].
  apply as_Region_inv in E as [-> Hr]. intros [= <- <-].
  by eapply keeps_defaults_store.
Qed.

Lemma defaults_push_outgoing vertex t :
  preserves keeps_defaults (push_outgoing vertex t).
Proof.
  intros w a w'. unfold push_outgoing. rewrite bind_unfold.
  destruct (as_Vertex vertex w) as [[v w1]|] eqn:E; [|done].
  apply as_Vertex_inv in E as [-> Hv]. intros [= <- <-].
  by eapply keeps_defaults_store.
Qed.

Lemma defaults_push_incoming vertex t :
  preserves keeps_defaults (push_incoming vertex t).
Proof.
  intros w a w'. unfold push_incoming. rewrite bind_unfold.
  destruct (as_Vertex vertex w) as [[v w1]|] eqn:E; [|done].
  apply as_Vertex_inv in E as [-> Hv]. intros [= <- <-].
  by eapply keeps_defaults_store.
Qed.

Lemma defaults_Region_new name parent :
  preserves keeps_defaults (Region_new name parent).
Proof.
  unfold Region_new.
  apply preserves_bind; [apply _|apply defaults_NamedElement_init|intros qn].
  apply preserves_bind; [apply _|apply defaults_alloc|intros this].
  apply preserves_bind; [apply _|apply defaults_push_region|intros _].
  apply preserves_bind; [apply _|apply defaults_invalidate|].
  intros _. apply preserves_ret; apply _.
Qed.

(** [getDefaultRegion] writes the field only where it holds nothing. *)
Lemma defaults_getDefaultRegion this :
  preserves records_defaults (getDefaultRegion this).
Proof.
  intros w r w'. unfold getDefaultRegion. rewrite bind_unfold.
  destruct (lookup_obj this w) as [[o w0]|] eqn:E; [|done].
  apply lookup_obj_inv in E as [-> Hthis].
  destruct o as [m| |v| |]; try done.
  - destruct (sm_defaultRegion m) as [r0|] eqn:Hd; [by intros [= <- <-]|].
    rewrite bind_unfold.
    destruct (Region_new Region_defaultName this w) as [[r1 w1]|] eqn:Hnew; [|done].
    rewrite bind_unfold.
    destruct (as_StateMachine this w1) as [[m' w2]|] eqn:E; [|done].
    apply as_StateMachine_inv in E as [-> Hm']. intros [= <- <-] Hf.
    destruct (defaults_Region_new _ _ _ _ _ Hnew Hf) as [Hf1 Hx]. split.
    + intros x Hle. simpl in *. rewrite lookup_insert_ne; [by apply Hf1|].
      intros <-. rewrite Hf1 in Hm' by done. done.
    + intros x o r0 Ho Hr0. simpl. destruct (decide (this = x)) as [<-|Hne].
      * rewrite Hthis in Ho. injection Ho as <-. simpl in Hr0. congruence.
      * rewrite lookup_insert_ne by done. destruct (Hx x o Ho) as (o' & Ho' & Hd').
        exists o'. split; [done|congruence].
  - destruct (v_class v) as [| |f] eqn:Hcls; try done.
    destruct (defaultRegion f) as [r0|] eqn:Hd; [by intros [= <- <-]|].
    rewrite bind_unfold.
    destruct (Region_new Region_defaultName this w) as [[r1 w1]|] eqn:Hnew; [|done].
    rewrite bind_unfold.
    destruct (as_State this w1) as [[[v' f'] w2]|] eqn:E; [|done].
    apply as_State_inv in E as (-> & Hv' & Hcls'). intros [= <- <-] Hf.
    destruct (defaults_Region_new _ _ _ _ _ Hnew Hf) as [Hf1 Hx]. split.
    + intros x Hle. simpl in *. rewrite lookup_insert_ne; [by apply Hf1|].
      intros <-. rewrite Hf1 in Hv' by done. done.
    + intros x o r0 Ho Hr0. simpl. destruct (decide (this = x)) as [<-|Hne].
      * rewrite Hthis in Ho. injection Ho as <-. simpl in Hr0.
        rewrite Hcls in Hr0. congruence.
      * rewrite lookup_insert_ne by done. destruct (Hx x o Ho) as (o' & Ho' & Hd').
        exists o'. split; [done|congruence].
Qed.

Lemma defaults_Vertex_super cls name region :
  preserves keeps_defaults (Vertex_super cls name region).
Proof.
  unfold Vertex_super.
  apply preserves_bind; [apply _|apply defaults_NamedElement_init|intros qn].
  apply preserves_bind; [apply _|apply defaults_alloc|intros this].
  apply preserves_bind; [apply _|apply defaults_push_vertex|intros _].
  apply preserves_bind; [apply _|apply defaults_invalidate|].
  intros _. apply preserves_ret; apply _.
Qed.

Lemma defaults_Vertex_init cls name parent :
  preserves records_defaults (Vertex_init cls name parent).
Proof.
  unfold Vertex_init, instanceof_Region.
  apply preserves_bind; [apply _| |intros is_region].
  { apply preserves_bind; [apply _|apply preserves_lookup_obj; apply _|].
    intros o. apply preserves_ret; apply _. }
  apply preserves_bind; [apply _| |intros region].
  - destruct is_region; [apply preserves_ret; apply _|apply defaults_getDefaultRegion].
  - eapply preserves_weaken; [apply keeps_records_defaults|].
    apply defaults_Vertex_super.
Qed.

Lemma defaults_State_exit this action :
  preserves keeps_defaults (State_exit this action).
Proof.
  intros w a w'. unfold State_exit. rewrite bind_unfold.
  destruct (as_State this w) as [[[v f] w1]|] eqn:E; [|done].
  apply as_State_inv in E as (-> & Hv & Hcls). rewrite bind_unfold. simpl.
  assert (preserves keeps_defaults (invalidate this ;; ret this)) as Htail.
  { apply preserves_bind; [apply _|apply defaults_invalidate|].
    intros _. apply preserves_ret; apply _. }
  intros Hrun. etrans; [|exact (Htail _ _ _ Hrun)].
  eapply keeps_defaults_store; [done|]. simpl. by rewrite Hcls.
Qed.

Lemma defaults_Transition_guard this (g : @Guard UserGuard) :
  preserves keeps_defaults
    (let* t := as_Transition this in
     store_obj this (OTransition (set_guard g t)) ;; ret this).
Proof.
  intros w a w'. rewrite bind_unfold.
  destruct (as_Transition this w) as [[t w1]|] eqn:E; [|done].
  apply as_Transition_inv in E as [-> Ht]. intros [= <- <-].
  by eapply keeps_defaults_store.
Qed.

Lemma defaults_Transition_effect this action :
  preserves keeps_defaults (Transition_effect this action).
Proof.
  intros w a w'. unfold Transition_effect. rewrite bind_unfold.
  destruct (as_Transition this w) as [[t w1]|] eqn:E; [|done].
  apply as_Transition_inv in E as [-> Ht]. rewrite bind_unfold. simpl.
  assert (preserves keeps_defaults (invalidate (source t) ;; ret this)) as Htail.
  { apply preserves_bind; [apply _|apply defaults_invalidate|].
    intros _. apply preserves_ret; apply _. }
  intros Hrun. etrans; [|exact (Htail _ _ _ Hrun)].
  by eapply keeps_defaults_store.
Qed.

Lemma defaults_Transition_new src target kind :
  preserves keeps_defaults (Transition_new src target kind).
Proof.
  unfold Transition_new, instanceof_PseudoState.
  apply preserves_bind; [apply _| |intros is_pseudo].
  { apply preserves_bind; [apply _|apply preserves_lookup_obj; apply _|].
    intros o. apply preserves_ret; apply _. }
  apply preserves_bind; [apply _|apply defaults_alloc|intros this].
  apply preserves_bind; [apply _|apply defaults_push_outgoing|intros _].
  apply preserves_bind; [apply _|apply defaults_invalidate|intros _].
  apply preserves_bind; [apply _| |intros _].
  { destruct target as [tg|].
    - apply defaults_push_incoming.
    - intros w a w'. rewrite bind_unfold.
      destruct (as_Transition this w) as [[t w1]|] eqn:E; [|done].
      apply as_Transition_inv in E as [-> Ht]. intros [= <- <-].
      by eapply keeps_defaults_store. }
  apply preserves_bind; [apply _|apply preserves_Element_toString; apply _|intros s].
  apply preserves_bind; [apply _| |intros tg].
  { apply preserves_pure; [apply _|]. intros w a w'. apply optional_toString_inv. }
  apply preserves_bind; [apply _| |intros _; apply preserves_ret; apply _].
  apply preserves_log. apply keeps_defaults_console.
Qed.

Lemma defaults_run (c : @Command Behavior UserGuard) : preserves records_defaults (run c).
Proof.
  destruct c; simpl;
    (apply preserves_bind; [apply _| |intros _; apply preserves_ret; apply _]);
    try apply defaults_Vertex_init;
    (eapply preserves_weaken; [apply keeps_records_defaults|]).
  - apply defaults_Region_new.
  - apply defaults_Transition_new.
  - apply defaults_State_exit.
  - apply defaults_State_exit.
  - apply defaults_Transition_effect.
  - apply defaults_Transition_guard.
  - apply defaults_Transition_guard.
Qed.

Lemma defaults_run_all (cs : list (@Command Behavior UserGuard)) :
  preserves records_defaults (run_all cs).
Proof. apply preserves_forEach; try apply _. intros c _. apply defaults_run. Qed.

Lemma run_all_returns_wf (cs : list (@Command Behavior UserGuard)) :
  ∀ w w', wf w → Forall proper cs → run_all cs w = Some (tt, w') → wf w'.
Proof.
  induction cs as [|c cs IH]; intros w w' Hwf Hproper.
  - by intros [= <-].
  - apply Forall_cons in Hproper as [Hc Hcs]. unfold run_all. simpl.
    rewrite bind_unfold. destruct (run c w) as [[[] w1]|] eqn:Hrun; [|done].
    intros Hrest.
    pose proof (run_returns_command_ok w c w1 (wf_is_fresh _ Hwf) Hc Hrun) as Hok.
    destruct (run_spec w c Hwf Hok) as (w1' & Hrun' & Hwf1 & _).
    rewrite Hrun in Hrun'. injection Hrun' as <-. by apply (IH w1 w').
Qed.

(** A default region that is recorded is still the one recorded after a
    run of builder calls, and its owner is still an owner. *)
Lemma run_all_keeps_default (cs : list (@Command Behavior UserGuard)) w w' this po r :
  wf w → run_all cs w = Some (tt, w') →
  heap w !! this = Some po → is_owner (Some (shape po)) →
  defaultRegion_of po = Some r →
  ∃ po', heap w' !! this = Some po' ∧ is_owner (Some (shape po'))
    ∧ defaultRegion_of po' = Some r.
Proof.
  intros Hwf Hrun Hpo Hown Hd. pose proof (wf_is_fresh _ Hwf) as Hf.
  destruct (defaults_run_all cs w tt w' Hrun Hf) as [_ Hx].
  destruct (Hx this po r Hpo Hd) as (po' & Hpo' & Hd').
  destruct (grows_lookup w w' this po Hf (preserves_run_all cs w tt w' Hrun) Hpo)
    as (po2 & Hpo2 & Hext).
  rewrite Hpo' in Hpo2. injection Hpo2 as <-.
  exists po'. split; [done|]. split; [|done]. by rewrite (extends_shape _ _ Hext).
Qed.

(** C10: [getDefaultRegion] on a State or a StateMachine.  The call
    succeeds and the region it answers is recorded in [defaultRegion] and
    is a child region of [this].  When no default region was recorded
    before, the region is a new object named "default", pushed onto
    [regions], and the [clean] flag of the root is [false] afterwards.
    When one was recorded, in whatever way the store was built, the call
    answers that region and changes nothing.  Asking again answers the
    same region and changes nothing, right away and after every run of
    builder calls.  A vertex constructed with [this] as its parent gets
    that region as its parent and is pushed onto the region's [vertices],
    whether it is constructed in place of the call, or after the call or
    the construction of such a vertex and any run of builder calls. *)
Theorem getDefaultRegion_lazy_idempotent w this :
  wf w → is_owner (shape_at (heap w) this) →
  ∃ r w1 po po1,
    getDefaultRegion this w = Some (r, w1)
    ∧ heap w !! this = Some po ∧ heap w1 !! this = Some po1
    ∧ defaultRegion_of po1 = Some r ∧ r ∈ regions_of po1
    ∧ shape_at (heap w1) r = Some (ShRegion this)
    ∧ (defaultRegion_of po = None →
         heap w !! r = None
         ∧ (∃ qn, heap w1 !! r
                  = Some (ORegion (mkRegion "default" this qn [])))
         ∧ regions_of po1 = regions_of po ++ [r]
         ∧ query (read_clean this) w1 = Some false)
    ∧ (∀ r0, defaultRegion_of po = Some r0 → r = r0 ∧ w1 = w)
    ∧ getDefaultRegion this w1 = Some (r, w1)
    ∧ (∀ cs w3, Forall proper cs → run_all cs w1 = Some (tt, w3) →
         getDefaultRegion this w3 = Some (r, w3)
         ∧ ∀ cls name, initial_class cls →
             ∃ v w4 vo ro,
               Vertex_init cls name this w3 = Some (v, w4)
               ∧ heap w4 !! v = Some (OVertex vo) ∧ v_parent vo = r
               ∧ heap w4 !! r = Some (ORegion ro) ∧ v ∈ vertices ro
               ∧ getDefaultRegion this w4 = Some (r, w4))
    ∧ (∀ cls name, initial_class cls →
         ∃ v w2 vo ro,
           Vertex_init cls name this w = Some (v, w2)
           ∧ heap w2 !! v = Some (OVertex vo) ∧ v_parent vo = r
           ∧ heap w2 !! r = Some (ORegion ro) ∧ v ∈ vertices ro
           ∧ getDefaultRegion this w2 = Some (r, w2)
           ∧ ∀ cs w3, Forall proper cs → run_all cs w2 = Some (tt, w3) →
               getDefaultRegion this w3 = Some (r, w3)
               ∧ ∀ cls' name', initial_class cls' →
                   ∃ v' w4 vo' ro',
                     Vertex_init cls' name' this w3 = Some (v', w4)
                     ∧ heap w4 !! v' = Some (OVertex vo') ∧ v_parent vo' = r
                     ∧ heap w4 !! r = Some (ORegion ro') ∧ v' ∈ vertices ro'
                     ∧ getDefaultRegion this w4 = Some (r, w4)).
Proof.
  intros Hwf Hown.
  destruct (getDefaultRegion_spec w this Hwf Hown)
    as (r & w1 & po & po1 & Hget & Hwf1 & Hkept & Hpo & Hpo1 & Hdef & Hin & Hr & Hcase & _).
  assert (is_owner (Some (shape po1))) as Hown1.
  { unfold shape_at in Hown. rewrite Hpo in Hown. simpl in Hown.
    pose proof (Hkept this _ (shape_at_lookup _ _ _ Hpo)) as H.
    rewrite (shape_at_lookup _ _ _ Hpo1) in H. by rewrite H. }
  assert (this ≠ r) as Hne.
  { intros <-. rewrite (shape_at_lookup _ _ _ Hpo1) in Hr.
    injection Hr as Hr. rewrite Hr in Hown1. done. }
  (* Where [r] is recorded, a new vertex lands in it and [r] stays recorded. *)
  assert (∀ w0 p0, wf w0 → heap w0 !! this = Some p0 → is_owner (Some (shape p0)) →
            defaultRegion_of p0 = Some r →
            ∀ cls name, initial_class cls →
              ∃ v w2 vo ro,
                Vertex_init cls name this w0 = Some (v, w2)
                ∧ heap w2 !! v = Some (OVertex vo) ∧ v_parent vo = r
                ∧ heap w2 !! r = Some (ORegion ro) ∧ v ∈ vertices ro
                ∧ getDefaultRegion this w2 = Some (r, w2)) as Hvertex.
  { intros w0 p0 Hwf0 Hp0 Hown0 Hd0 cls name Hcls.
    pose proof (getDefaultRegion_recorded w0 this p0 r Hp0 Hown0 Hd0) as Hget0.
    assert (is_owner (shape_at (heap w0) this)) as Hown0'.
    { by rewrite (shape_at_lookup _ _ _ Hp0). }
    destruct (Vertex_init_spec w0 cls name this Hwf0 Hcls (or_intror Hown0'))
      as (r' & w1' & ro & v & w2 & ro' & Hres & Hro & Hrun & Hv & Hwf2 & _ & Hvo & _
          & Hro' & Hvs & _ & Hframe & _).
    destruct Hres as [(Hreg & _)|(_ & Hget' & _)].
    { rewrite (shape_at_lookup _ _ _ Hp0) in Hreg. simpl in Hreg, Hown0.
      by destruct (shape p0). }
    rewrite Hget0 in Hget'. injection Hget' as <- <-.
    eexists v, w2, _, ro'. split_and!; [done|exact Hvo|done|done|..].
    - rewrite Hvs. apply elem_of_app. right. by apply list_elem_of_singleton.
    - destruct (Hframe this p0 Hp0 Hne) as (p2 & Hp2 & Hsh2 & _ & Hdef2 & _).
      eapply getDefaultRegion_recorded; [done| |congruence].
      by rewrite Hsh2. }
  (* Where [r] is recorded, it is still the one recorded after a run. *)
  assert (∀ w0 p0, wf w0 → heap w0 !! this = Some p0 → is_owner (Some (shape p0)) →
            defaultRegion_of p0 = Some r →
            ∀ cs w3, Forall proper cs → run_all cs w0 = Some (tt, w3) →
              getDefaultRegion this w3 = Some (r, w3)
              ∧ ∀ cls name, initial_class cls →
                  ∃ v w4 vo ro,
                    Vertex_init cls name this w3 = Some (v, w4)
                    ∧ heap w4 !! v = Some (OVertex vo) ∧ v_parent vo = r
                    ∧ heap w4 !! r = Some (ORegion ro) ∧ v ∈ vertices ro
                    ∧ getDefaultRegion this w4 = Some (r, w4)) as Hlater.
  { intros w0 p0 Hwf0 Hp0 Hown0 Hd0 cs w3 Hproper Hrun.
    pose proof (run_all_returns_wf cs w0 w3 Hwf0 Hproper Hrun) as Hwf3.
    destruct (run_all_keeps_default cs w0 w3 this p0 r Hwf0 Hrun Hp0 Hown0 Hd0)
      as (p3 & Hp3 & Hown3 & Hdef3).
    split; [by eapply getDefaultRegion_recorded|].
    by apply (Hvertex w3 p3). }
  exists r, w1, po, po1. split_and!; try done.
  - intros Hnone. destruct Hcase as [[Hsome _]|(_ & -> & Hn & Hobj & Hregs & Hclean)].
    { congruence. }
    split_and!; try done; [by apply wf_fresh|].
    destruct Hobj as [qn Hobj].
    by apply (read_clean_parent w1 (next w) _ Hobj).
  - intros r0 Hr0. destruct Hcase as [[Hsome ->]|(Hnone & _)]; [|congruence].
    split; [congruence|done].
  - by eapply getDefaultRegion_recorded.
  - by apply (Hlater w1 po1).
  - intros cls name Hcls.
    destruct (Vertex_init_spec w cls name this Hwf Hcls (or_intror Hown))
      as (r' & w1' & ro & v & w2 & ro' & Hres & Hro & Hrun & Hv & Hwf2 & _ & Hvo & _
          & Hro' & Hvs & _ & Hframe & _).
    destruct Hres as [(Hreg & _)|(_ & Hget' & _)].
    { unfold shape_at in Hreg, Hown. rewrite Hpo in Hreg, Hown.
      by destruct po as [| |? | |]. }
    rewrite Hget in Hget'. injection Hget' as <- <-.
    destruct (Hframe this po1 Hpo1 Hne) as (po2 & Hpo2 & Hsh2 & _ & Hdef2 & _).
    assert (is_owner (Some (shape po2))) as Hown2 by by rewrite Hsh2.
    assert (defaultRegion_of po2 = Some r) as Hd2 by congruence.
    eexists v, w2, _, ro'. split_and!; [done|exact Hvo|done|done|..].
    + rewrite Hvs. apply elem_of_app. right. by apply list_elem_of_singleton.
    + by eapply getDefaultRegion_recorded.
    + by apply (Hlater w2 po2).
Qed.

(** ** Qualified names *)

Lemma query_Element_toString w l :
  query (Element_toString l) w = toString_of (heap w) l.
Proof.
  unfold query, Element_toString, toString_of. rewrite bind_unfold. unfold lookup_obj.
  by destruct (heap w !! l) as [[]|].
Qed.

Lemma toString_of_updates w w' x :
  updates w w' → toString_of (heap w') x = toString_of (heap w) x.
Proof.
  intros [_ Hall]. specialize (Hall x). unfold toString_of.
  destruct Hall as [o o' Hext|]; [|done].
  destruct o as [sm|r|v|t|d], o' as [sm'|r'|v'|t'|d']; simpl in Hext; try done.
  - by destruct Hext as (-> & _).
  - by destruct Hext as (_ & _ & -> & _).
  - by destruct Hext as (_ & _ & -> & _).
Qed.

Lemma named_extends h h' (o o' : Obj) :
  (∀ x, toString_of h' x = toString_of h x) → extends o o' → named h o → named h' o'.
Proof.
  intros Hsame Hext.
  destruct o as [sm|r|v|t|d], o' as [sm'|r'|v'|t'|d']; simpl in *; try done.
  - destruct Hext as (-> & -> & -> & _). by rewrite Hsame.
  - destruct Hext as (-> & -> & -> & _). by rewrite Hsame.
Qed.

Lemma names_ok_updates w w' : updates w w' → names_ok w → names_ok w'.
Proof.
  intros Hu Hn x o' Hx'. pose proof (proj2 Hu x) as Hall. rewrite Hx' in Hall.
  inversion Hall as [o ? Hext Hx|]; subst. symmetry in Hx.
  eapply named_extends; [|done|by eapply Hn].
  intros y. by apply toString_of_updates.
Qed.

Lemma toString_of_insert_fresh h n (o : Obj) x s :
  h !! n = None → toString_of h x = Some s → toString_of (<[n := o]> h) x = Some s.
Proof.
  intros Hn. unfold toString_of. destruct (decide (n = x)) as [->|Hne].
  - by rewrite Hn.
  - by rewrite lookup_insert_ne.
Qed.

Lemma named_insert_fresh h n (o o' : Obj) :
  h !! n = None → named h o → named (<[n := o']> h) o.
Proof.
  intros Hn. destruct o as [sm|r|v|t|d]; simpl; try done.
  - destruct (toString_of h (r_parent r)) as [p|] eqn:Hp; [|done].
    by rewrite (toString_of_insert_fresh h n o' _ p Hn Hp).
  - destruct (toString_of h (v_parent v)) as [p|] eqn:Hp; [|done].
    by rewrite (toString_of_insert_fresh h n o' _ p Hn Hp).
Qed.

Lemma names_alloc w (o : Obj) c :
  fresh w → names_ok w → named (heap w) o →
  keeps_names w (mkWorld (<[next w := o]> (heap w)) (S (next w)) c).
Proof.
  intros Hf Hn Ho _.
  assert (heap w !! next w = None) as Hnone by (by apply Hf).
  split.
  - intros x Hx. simpl in *. rewrite lookup_insert_ne by lia. apply Hf. lia.
  - intros x ox. simpl. destruct (decide (next w = x)) as [<-|Hne].
    + rewrite lookup_insert_eq. intros [= <-]. by apply named_insert_fresh.
    + rewrite lookup_insert_ne by done. intros Hx.
      apply named_insert_fresh; [done|]. by eapply Hn.
Qed.

#[local] Instance keeps_names_refl : Reflexive keeps_names.
Proof. by intros w H. Qed.

#[local] Instance keeps_names_trans : Transitive keeps_names.
Proof. intros w1 w2 w3 H1 H2 H. by apply H2, H1. Qed.

Lemma updates_keeps_names w w' : updates w w' → keeps_names w w'.
Proof.
  intros Hu [Hf Hn]. split.
  - by destruct (updates_grows _ _ Hu Hf) as (? & _).
  - by eapply names_ok_updates.
Qed.

Lemma preserves_keeps_names {A} (c : StateErr World A) :
  preserves updates c → preserves keeps_names c.
Proof. apply preserves_weaken, updates_keeps_names. Qed.

Lemma names_Region_new name parent : preserves keeps_names (Region_new name parent).
Proof.
  intros w r w' Hrun [Hf Hn]. unfold Region_new in Hrun. rewrite bind_unfold in Hrun.
  destruct (NamedElement_init name parent w) as [[qn w0]|] eqn:E; [|done].
  apply NamedElement_init_inv in E as (p & Hp & _ & -> & ->).
  rewrite bind_unfold in Hrun. unfold alloc in Hrun. simpl in Hrun.
  assert (preserves updates
            (push_region parent (next w) ;; invalidate (next w) ;; ret (next w)))
    as Htail.
  { apply preserves_bind; [apply _|apply preserves_push_region|intros _].
    apply preserves_bind; [apply _|apply preserves_invalidate|intros _].
    by apply preserves_ret. }
  apply (updates_keeps_names _ _ (Htail _ _ _ Hrun)).
  apply (names_alloc w); try done.
  simpl. by rewrite <- query_Element_toString, Hp.
Qed.

Lemma names_Vertex_super cls name region :
  preserves keeps_names (Vertex_super cls name region).
Proof.
  intros w r w' Hrun [Hf Hn]. unfold Vertex_super in Hrun. rewrite bind_unfold in Hrun.
  destruct (NamedElement_init name region w) as [[qn w0]|] eqn:E; [|done].
  apply NamedElement_init_inv in E as (p & Hp & _ & -> & ->).
  rewrite bind_unfold in Hrun. unfold alloc in Hrun. simpl in Hrun.
  assert (preserves updates
            (push_vertex region (next w) ;; invalidate (next w) ;; ret (next w)))
    as Htail.
  { apply preserves_bind; [apply _|apply preserves_push_vertex|intros _].
    apply preserves_bind; [apply _|apply preserves_invalidate|intros _].
    by apply preserves_ret. }
  apply (updates_keeps_names _ _ (Htail _ _ _ Hrun)).
  apply (names_alloc w); try done.
  simpl. by rewrite <- query_Element_toString, Hp.
Qed.

Lemma names_getDefaultRegion this : preserves keeps_names (getDefaultRegion this).
Proof.
  unfold getDefaultRegion.
  apply preserves_bind; [apply _|apply (preserves_lookup_obj keeps_names)|intros o].
  destruct o as [m| |v| |]; try apply preserves_throw.
  - destruct (sm_defaultRegion m); [apply (preserves_ret keeps_names)|].
    apply preserves_bind; [apply _|apply names_Region_new|intros r].
    apply preserves_keeps_names. intros w a w'. rewrite bind_unfold.
    destruct (as_StateMachine this w) as [[m' w1]|] eqn:E; [|done].
    apply as_StateMachine_inv in E as [-> Hm]. intros [= <- <-].
    by apply updates_set_sm_defaultRegion.
  - destruct (v_class v) as [| |f]; try apply preserves_throw.
    destruct (defaultRegion f); [apply (preserves_ret keeps_names)|].
    apply preserves_bind; [apply _|apply names_Region_new|intros r].
    apply preserves_keeps_names. intros w a w'. rewrite bind_unfold.
    destruct (as_State this w) as [[[v' f'] w1]|] eqn:E; [|done].
    apply as_State_inv in E as (-> & Hv & Hcls). intros [= <- <-].
    by apply updates_set_defaultRegion.
Qed.

Lemma names_Vertex_init cls name parent :
  preserves keeps_names (Vertex_init cls name parent).
Proof.
  unfold Vertex_init, instanceof_Region.
  apply preserves_bind; [apply _| |intros is_region].
  { apply preserves_bind; [apply _|apply (preserves_lookup_obj keeps_names)|].
    intros o. apply (preserves_ret keeps_names). }
  apply preserves_bind; [apply _| |intros region; apply names_Vertex_super].
  destruct is_region; [apply (preserves_ret keeps_names)|apply names_getDefaultRegion].
Qed.

Lemma names_alloc_unnamed (mk : loc → Obj) :
  (∀ l, match mk l with ORegion _ | OVertex _ => False | _ => True end) →
  preserves keeps_names (alloc mk).
Proof.
  intros Hmk w a w' [= <- <-] [Hf Hn]. apply (names_alloc w); try done.
  specialize (Hmk (next w)). by destruct (mk (next w)).
Qed.

Lemma names_Transition_new src target kind :
  preserves keeps_names (Transition_new src target kind).
Proof.
  unfold Transition_new, instanceof_PseudoState.
  apply preserves_bind; [apply _| |intros is_pseudo].
  { apply preserves_bind; [apply _|apply (preserves_lookup_obj keeps_names)|].
    intros o. apply (preserves_ret keeps_names). }
  apply preserves_bind; [apply _|by apply names_alloc_unnamed|intros this].
  apply preserves_keeps_names.
  apply preserves_bind; [apply _|apply preserves_push_outgoing|intros _].
  apply preserves_bind; [apply _|apply preserves_invalidate|intros _].
  apply preserves_bind; [apply _| |intros _].
  { destruct target as [tg|].
    - apply preserves_push_incoming.
    - intros w a w'. rewrite bind_unfold.
      destruct (as_Transition this w) as [[t w1]|] eqn:E; [|done].
      apply as_Transition_inv in E as [-> Ht]. intros [= <- <-].
      by eapply updates_store. }
  apply preserves_bind; [apply _|by apply preserves_Element_toString|intros s].
  apply preserves_bind; [apply _| |intros tg].
  { apply preserves_pure; [apply _|]. intros w a w'. apply optional_toString_inv. }
  apply preserves_bind; [apply _| |intros _; by apply preserves_ret].
  apply preserves_log. intros w c. apply updates_console.
Qed.

Lemma names_run (c : @Command Behavior UserGuard) : preserves keeps_names (run c).
Proof.
  destruct c; simpl;
    (apply preserves_bind; [apply _| |intros _; apply (preserves_ret keeps_names)]).
  - apply names_Region_new.
  - apply names_Vertex_init.
  - apply names_Transition_new.
  - apply preserves_keeps_names, preserves_State_enter.
  - apply preserves_keeps_names, preserves_State_exit.
  - apply preserves_keeps_names, preserves_Transition_effect.
  - apply preserves_keeps_names, preserves_Transition_guard.
  - apply preserves_keeps_names, preserves_Transition_guard.
Qed.

Lemma names_run_all (cs : list (@Command Behavior UserGuard)) :
  preserves keeps_names (run_all cs).
Proof. apply preserves_forEach; try apply _. intros c _. apply names_run. Qed.

(** X18: the constructors and every builder call keep the rule of
    [NamedElement]: the qualified name of a region or vertex is the string
    of its parent, a dot, and its own name.  It holds in the empty store,
    and [new StateMachine], [new DictionaryInstance] and every run of
    builder calls that returns lead from a store where it holds to one
    where it holds. *)
Theorem qualified_names_kept :
  names_ok (@empty_world Behavior Action UserGuard)
  ∧ ∀ w, wf w → names_ok w →
      (∀ name m w', StateMachine_new name w = Some (m, w') → names_ok w')
      ∧ (∀ name i w', DictionaryInstance_new name w = Some (i, w') → names_ok w')
      ∧ (∀ cs w', run_all cs w = Some (tt, w') → names_ok w').
Proof.
  split.
  - intros x o. unfold empty_world. simpl. by rewrite lookup_empty.
  - intros w Hwf Hn. pose proof (wf_is_fresh _ Hwf) as Hf. split_and!.
    + intros name m w' Hrun.
      by eapply (names_alloc_unnamed
                   (λ _, OStateMachine (mkStateMachine name [] None false []))
                   (λ _, I) w m w' Hrun).
    + intros name i w' Hrun.
      by eapply (names_alloc_unnamed
                   (λ _, ODictionaryInstance (mkDictionaryInstance name ∅))
                   (λ _, I) w i w' Hrun).
    + intros cs w' Hrun. by eapply (names_run_all cs w tt w' Hrun).
Qed.

Lemma append_assoc (s1 s2 s3 : string) : (s1 +:+ s2) +:+ s3 = s1 +:+ (s2 +:+ s3).
Proof.
  induction s1 as [|a s1 IH]; [done|].
  change (String a ((s1 +:+ s2) +:+ s3) = String a (s1 +:+ (s2 +:+ s3))).
  by rewrite IH.
Qed.

Lemma concat_snoc sep (names : list string) name :
  names ≠ [] →
  String.concat sep (names ++ [name]) = String.concat sep names +:+ sep +:+ name.
Proof.
  induction names as [|x names IH]; [done|]. intros _.
  destruct names as [|y names]; [done|].
  change (x +:+ sep +:+ String.concat sep ((y :: names) ++ [name])
          = (x +:+ sep +:+ String.concat sep (y :: names)) +:+ sep +:+ name).
  rewrite IH by done. by rewrite !append_assoc.
Qed.

Lemma dotted_path_steps w : ∀ n l,
  wf w → names_ok w → l < n → is_element (shape_at (heap w) l) →
  ∃ ancestors names,
    getAncestors_steps n (heap w) l = Some ancestors
    ∧ Forall2 (λ a name, name_of (heap w) a = Some name) ancestors names
    ∧ names ≠ []
    ∧ toString_of (heap w) l = Some (String.concat "." names).
Proof.
  induction n as [|n IH]; intros l Hwf Hn Hlt Hel; [lia|].
  assert (∀ p name qn, parent_of (heap w) l = Some p →
            name_of (heap w) l = Some name →
            (λ s, s +:+ namespaceSeparator +:+ name) <$> toString_of (heap w) p = Some qn →
            ∃ ancestors names,
              ((λ ancestors, ancestors ++ [l]) <$> getAncestors_steps n (heap w) p)
              = Some ancestors
              ∧ Forall2 (λ a name, name_of (heap w) a = Some name) ancestors names
              ∧ names ≠ []
              ∧ Some qn = Some (String.concat "." names)) as Hstep.
  { intros p name qn Hp Hname Hqn.
    destruct (parent_of_older _ _ _ Hwf Hp) as [Hpl Hpel].
    assert (p < n) as Hpn by lia.
    destruct (IH p Hwf Hn Hpn Hpel) as (ps & pnames & -> & Hall & Hne & Hps).
    rewrite Hps in Hqn. simpl in Hqn. injection Hqn as <-.
    exists (ps ++ [l]), (pnames ++ [name]). split; [done|]. split.
    - apply Forall2_app; [done|]. by constructor.
    - split; [by destruct pnames|]. by rewrite concat_snoc. }
  simpl. unfold parent_of, name_of in Hstep. unfold toString_of.
  destruct (is_element_lookup _ _ Hel) as [[sm Hl]|[[r Hl]|[v Hl]]].
  - rewrite Hl. exists [l], [sm_name sm]. split; [done|]. split; [|done].
    constructor; [|done]. unfold name_of. by rewrite Hl.
  - pose proof (Hn _ _ Hl) as Hnamed. simpl in Hnamed. rewrite Hl in *.
    by eapply Hstep.
  - pose proof (Hn _ _ Hl) as Hnamed. simpl in Hnamed. rewrite Hl in *.
    by eapply Hstep.
Qed.

(** X19: where the rule of [NamedElement] holds, the string of an element
    is the names along its ancestors, from the state machine down to the
    element, joined by dots. *)
Theorem qualified_name_is_dotted_path w e :
  wf w → names_ok w → is_element (shape_at (heap w) e) →
  ∃ ancestors names,
    getAncestors e w = Some (ancestors, w)
    ∧ mapM (name_of (heap w)) ancestors = Some names
    ∧ Element_toString e w = Some (String.concat "." names, w).
Proof.
  intros Hwf Hn Hel.
  destruct (dotted_path_steps w (next w) e Hwf Hn (wf_element_lt _ _ Hwf Hel) Hel)
    as (ancestors & names & Hanc & Hall & _ & Hstr).
  exists ancestors, names. unfold getAncestors. rewrite Hanc.
  split; [done|]. split; [by apply mapM_Some|].
  rewrite <- query_Element_toString in Hstr. apply query_Some in Hstr as [w' Hstr].
  by pose proof (Element_toString_inv _ _ _ _ Hstr) as [-> _].
Qed.

(** ** Names are not checked for uniqueness *)

Lemma Region_new_named w name parent r w' :
  fresh w → Region_new name parent w = Some (r, w') →
  r = next w ∧ fresh w' ∧ next w < next w'
  ∧ ∃ p ro,
      toString_of (heap w) parent = Some p
      ∧ toString_of (heap w') parent = Some p
      ∧ heap w' !! r = Some (ORegion ro)
      ∧ r_qualifiedName ro = p +:+ "." +:+ name
      ∧ r_parent ro = parent.
Proof.
  intros Hf Hrun. unfold Region_new in Hrun. rewrite bind_unfold in Hrun.
  destruct (NamedElement_init name parent w) as [[qn w0]|] eqn:E; [|done].
  apply NamedElement_init_inv in E as (p & Hp & _ & -> & ->).
  rewrite query_Element_toString in Hp.
  rewrite bind_unfold in Hrun. unfold alloc in Hrun. simpl in Hrun.
  set (wa := mkWorld _ _ _) in Hrun.
  assert (preserves updates
            (push_region parent (next w) ;; invalidate (next w) ;; ret (next w)))
    as Htail.
  { apply preserves_bind; [apply _|apply preserves_push_region|intros _].
    apply preserves_bind; [apply _|apply preserves_invalidate|intros _].
    by apply preserves_ret. }
  pose proof (Htail _ _ _ Hrun) as Hu.
  assert (r = next w) as ->.
  { rewrite bind_unfold in Hrun.
    destruct (push_region parent (next w) wa) as [[[] w1]|]; [|done].
    rewrite bind_unfold in Hrun.
    destruct (invalidate (next w) w1) as [[[] w2]|]; [|done].
    by injection Hrun as <- _. }
  assert (fresh wa) as Hfa.
  { intros x Hx. unfold wa in *. simpl in *. rewrite lookup_insert_ne by lia.
    apply Hf. lia. }
  split; [done|]. split; [by destruct (updates_grows _ _ Hu Hfa) as (? & _)|].
  split; [rewrite (proj1 Hu); simpl; lia|].
  pose proof (proj2 Hu (next w)) as Hnew. unfold wa in Hnew at 1. simpl in Hnew.
  rewrite lookup_insert_eq in Hnew.
  inversion Hnew as [? o' Hext Heq Hx|]; subst.
  destruct o' as [|ro| | |]; try done. destruct Hext as (_ & Hparent & Hqn & _).
  exists p, ro. split; [done|]. split.
  - rewrite (toString_of_updates _ _ parent Hu). unfold wa. simpl.
    apply toString_of_insert_fresh; [by apply Hf|done].
  - by split_and!.
Qed.

(** X20: the constructor of [Region] does not look at the names that are
    taken.  Two regions constructed with the same name under the same
    parent are two objects with one qualified name, and so they share
    their entry in every [DictionaryInstance]: the current state set for
    one is the current state of the other. *)
Theorem regions_named_alike_share_an_entry w name parent r1 w1 r2 w2 :
  wf w →
  Region_new name parent w = Some (r1, w1) →
  Region_new name parent w1 = Some (r2, w2) →
  r1 ≠ r2
  ∧ (∃ qn, query (qualifiedName r1) w2 = Some qn
           ∧ query (qualifiedName r2) w2 = Some qn)
  ∧ ∀ i d state, heap w2 !! i = Some (ODictionaryInstance d) →
      ∃ w3, setCurrent (DictionaryInstance i) r1 state w2 = Some (tt, w3)
        ∧ getCurrent (DictionaryInstance i : IInstance) r1 w3 = Some (Some state)
        ∧ getCurrent (DictionaryInstance i : IInstance) r2 w3 = Some (Some state).
Proof.
  intros Hwf Hrun1 Hrun2. pose proof (wf_is_fresh _ Hwf) as Hf.
  destruct (Region_new_named _ _ _ _ _ Hf Hrun1)
    as (-> & Hf1 & Hlt1 & p & ro1 & Hp & Hp1 & Hr1 & Hqn1 & _).
  destruct (Region_new_named _ _ _ _ _ Hf1 Hrun2)
    as (-> & Hf2 & Hlt2 & p' & ro2 & Hp' & _ & Hr2 & Hqn2 & _).
  rewrite Hp1 in Hp'. injection Hp' as <-.
  destruct (grows_lookup _ _ _ _ Hf1 (preserves_Region_new _ _ _ _ _ Hrun2) Hr1)
    as (o1 & Hr1' & Hext).
  destruct o1 as [|ro1'| | |]; try done. destruct Hext as (_ & _ & Hqn1' & _).
  assert (query (qualifiedName (next w)) w2 = Some (p +:+ "." +:+ name)) as Hq1.
  { rewrite query_qualifiedName, Hr1'. congruence. }
  assert (query (qualifiedName (next w1)) w2 = Some (p +:+ "." +:+ name)) as Hq2.
  { rewrite query_qualifiedName, Hr2. congruence. }
  split; [lia|]. split; [eauto|].
  intros i d state Hi. eexists. simpl.
  split; [exact (setCurrent_spec w2 i d _ state _ Hi Hq1)|].
  split.
  - erewrite query_getCurrent;
      [| simpl; apply lookup_insert_eq
       | by rewrite (qualifiedName_after_setCurrent w2 i d _ _ _ Hi) ].
    simpl. by rewrite lookup_insert_eq.
  - erewrite query_getCurrent;
      [| simpl; apply lookup_insert_eq
       | by rewrite (qualifiedName_after_setCurrent w2 i d _ _ _ Hi) ].
    simpl. by rewrite lookup_insert_eq.
Qed.

(** ** Every object is in the arrays of its parent, source and target *)

Section LaterArrays.

Context (h h' : gmap loc Obj).
Hypothesis Hlater : ∀ x o, h !! x = Some o → ∃ o', h' !! x = Some o' ∧ extends o o'.

Lemma regions_at_later x l : x ∈ regions_at h l → x ∈ regions_at h' l.
Proof.
  unfold regions_at. destruct (h !! l) as [o|] eqn:Hl; simpl; [|by intros ?%elem_of_nil].
  destruct (Hlater _ _ Hl) as (o' & -> & Hext). simpl.
  destruct o as [sm| |v| |], o' as [sm'| |v'| |]; simpl in *;
    try done; try by intros ?%elem_of_nil.
  - destruct Hext as (_ & Hpre & _). intros Hx. by eapply elem_of_prefix.
  - destruct Hext as (_ & _ & _ & _ & _ & Hc).
    destruct (v_class v), (v_class v'); simpl in *;
      try done; try by intros ?%elem_of_nil.
    destruct Hc as (Hpre & _). intros Hx. by eapply elem_of_prefix.
Qed.

Lemma vertices_at_later x l : x ∈ vertices_at h l → x ∈ vertices_at h' l.
Proof.
  unfold vertices_at. destruct (h !! l) as [o|] eqn:Hl; [|by intros ?%elem_of_nil].
  destruct (Hlater _ _ Hl) as (o' & -> & Hext).
  destruct o as [|r| | |], o' as [|r'| | |]; simpl in *;
    try done; try by intros ?%elem_of_nil.
  destruct Hext as (_ & _ & _ & Hpre). intros Hx. by eapply elem_of_prefix.
Qed.

Lemma outgoing_at_later x l : x ∈ outgoing_at h l → x ∈ outgoing_at h' l.
Proof.
  unfold outgoing_at. destruct (h !! l) as [o|] eqn:Hl; [|by intros ?%elem_of_nil].
  destruct (Hlater _ _ Hl) as (o' & -> & Hext).
  destruct o as [| |v| |], o' as [| |v'| |]; simpl in *;
    try done; try by intros ?%elem_of_nil.
  destruct Hext as (_ & _ & _ & Hpre & _). intros Hx. by eapply elem_of_prefix.
Qed.

Lemma incoming_at_later x l : x ∈ incoming_at h l → x ∈ incoming_at h' l.
Proof.
  unfold incoming_at. destruct (h !! l) as [o|] eqn:Hl; [|by intros ?%elem_of_nil].
  destruct (Hlater _ _ Hl) as (o' & -> & Hext).
  destruct o as [| |v| |], o' as [| |v'| |]; simpl in *;
    try done; try by intros ?%elem_of_nil.
  destruct Hext as (_ & _ & _ & _ & Hpre & _). intros Hx. by eapply elem_of_prefix.
Qed.

Lemma listed_later l (o o' : Obj) : extends o o' → listed h l o → listed h' l o'.
Proof.
  intros Hext.
  destruct o as [sm|r|v|t|d], o' as [sm'|r'|v'|t'|d']; simpl in *; try done.
  - destruct Hext as (_ & -> & _). apply regions_at_later.
  - destruct Hext as (_ & -> & _). apply vertices_at_later.
  - destruct Hext as (-> & -> & _). intros [Hout Hin]. split.
    + by apply outgoing_at_later.
    + destruct (target t); [|done]. by apply incoming_at_later.
Qed.

End LaterArrays.

Lemma updates_later w w' :
  updates w w' →
  ∀ x o, heap w !! x = Some o → ∃ o', heap w' !! x = Some o' ∧ extends o o'.
Proof.
  intros [_ Hall] x o Hx. specialize (Hall x). rewrite Hx in Hall.
  inversion Hall; subst. eauto.
Qed.

Lemma all_listed_updates w w' : updates w w' → all_listed w → all_listed w'.
Proof.
  intros Hu Hl x o' Hx'. pose proof (proj2 Hu x) as Hall. rewrite Hx' in Hall.
  inversion Hall as [o ? Hext Hx|]; subst. symmetry in Hx.
  eapply listed_later; [by apply updates_later|done|by eapply Hl].
Qed.

(** After a step that has allocated one object, all are listed if the new
    one is. *)
Lemma all_listed_one_more w w' :
  fresh w → all_listed w → grows w w' → next w' = S (next w) →
  (∀ o', heap w' !! next w = Some o' → listed (heap w') (next w) o') →
  all_listed w'.
Proof.
  intros Hf Hl Hg Hnext Hnew x o' Hx'.
  destruct (Hg Hf) as (Hf' & _ & Hold).
  destruct (decide (x < next w)) as [Hlt|Hge].
  - specialize (Hold x Hlt). rewrite Hx' in Hold.
    inversion Hold as [o ? Hext Hx|]; subst. symmetry in Hx.
    eapply listed_later; [|done|by eapply Hl].
    intros y oy. by apply grows_lookup.
  - destruct (decide (x = next w)) as [->|Hne]; [by apply Hnew|].
    rewrite Hf' in Hx' by lia. done.
Qed.

#[local] Instance keeps_listed_refl : Reflexive keeps_listed.
Proof. by intros w H. Qed.

#[local] Instance keeps_listed_trans : Transitive keeps_listed.
Proof. intros w1 w2 w3 H1 H2 H. by apply H2, H1. Qed.

Lemma updates_keeps_listed w w' : updates w w' → keeps_listed w w'.
Proof.
  intros Hu [Hf Hl]. split.
  - by destruct (updates_grows _ _ Hu Hf) as (? & _).
  - by eapply all_listed_updates.
Qed.

Lemma preserves_keeps_listed {A} (c : StateErr World A) :
  preserves updates c → preserves keeps_listed c.
Proof. apply preserves_weaken, updates_keeps_listed. Qed.

(** What the four pushes leave in the array. *)
Lemma push_region_listed w parent r w' :
  push_region parent r w = Some (tt, w') → r ∈ regions_at (heap w') parent.
Proof.
  unfold push_region, regions_at. rewrite bind_unfold. unfold lookup_obj.
  destruct (heap w !! parent) as [[m| |v| |]|]; simpl; try done.
  - intros [= <-]. simpl. rewrite lookup_insert_eq. simpl.
    apply elem_of_app. right. by apply list_elem_of_singleton.
  - destruct (v_class v) as [| |f] eqn:Hcls; try done.
    intros [= <-]. simpl. rewrite lookup_insert_eq. simpl.
    apply elem_of_app. right. by apply list_elem_of_singleton.
Qed.

Lemma push_vertex_listed w region v w' :
  push_vertex region v w = Some (tt, w') → v ∈ vertices_at (heap w') region.
Proof.
  unfold push_vertex, vertices_at. rewrite bind_unfold.
  destruct (as_Region region w) as [[r w1]|] eqn:E; [|done].
  apply as_Region_inv in E as [-> Hr]. intros [= <-]. simpl.
  rewrite lookup_insert_eq. simpl. apply elem_of_app. right.
  by apply list_elem_of_singleton.
Qed.

Lemma push_outgoing_listed w vertex t w' :
  push_outgoing vertex t w = Some (tt, w') → t ∈ outgoing_at (heap w') vertex.
Proof.
  unfold push_outgoing, outgoing_at. rewrite bind_unfold.
  destruct (as_Vertex vertex w) as [[v w1]|] eqn:E; [|done].
  apply as_Vertex_inv in E as [-> Hv]. intros [= <-]. simpl.
  rewrite lookup_insert_eq. simpl. apply elem_of_app. right.
  by apply list_elem_of_singleton.
Qed.

Lemma push_incoming_listed w vertex t w' :
  push_incoming vertex t w = Some (tt, w') → t ∈ incoming_at (heap w') vertex.
Proof.
  unfold push_incoming, incoming_at. rewrite bind_unfold.
  destruct (as_Vertex vertex w) as [[v w1]|] eqn:E; [|done].
  apply as_Vertex_inv in E as [-> Hv]. intros [= <-]. simpl.
  rewrite lookup_insert_eq. simpl. apply elem_of_app. right.
  by apply list_elem_of_singleton.
Qed.

Lemma listed_Region_new name parent : preserves keeps_listed (Region_new name parent).
Proof.
  intros w r w' Hrun [Hf Hl].
  pose proof (preserves_Region_new _ _ _ _ _ Hrun) as Hg.
  unfold Region_new in Hrun. rewrite bind_unfold in Hrun.
  destruct (NamedElement_init name parent w) as [[qn w0]|] eqn:E; [|done].
  apply NamedElement_init_inv in E as (p & _ & _ & -> & ->).
  rewrite bind_unfold in Hrun. unfold alloc in Hrun. simpl in Hrun.
  set (wa := mkWorld _ _ _) in Hrun. rewrite bind_unfold in Hrun.
  destruct (push_region parent (next w) wa) as [[[] wb]|] eqn:Hpush; [|done].
  rewrite bind_unfold in Hrun.
  destruct (invalidate (next w) wb) as [[[] wc]|] eqn:Hinv; [|done].
  injection Hrun as _ <-.
  pose proof (preserves_push_region _ _ _ _ _ Hpush) as Hu1.
  pose proof (preserves_invalidate _ _ _ _ Hinv) as Hu2.
  assert (updates wa wc) as Hu by (by etrans).
  split; [by destruct (Hg Hf) as (? & _)|].
  apply (all_listed_one_more w); try done.
  { by rewrite (proj1 Hu). }
  intros o' Ho'. pose proof (proj2 Hu (next w)) as Hnew.
  unfold wa in Hnew at 1. simpl in Hnew. rewrite lookup_insert_eq, Ho' in Hnew.
  inversion Hnew as [? ? Hext|]; subst.
  destruct o' as [|ro| | |]; try done. destruct Hext as (_ & Hparent & _).
  simpl in *. rewrite Hparent.
  apply (regions_at_later _ _ (updates_later _ _ Hu2)).
  by eapply push_region_listed.
Qed.

Lemma listed_Vertex_super cls name region :
  preserves keeps_listed (Vertex_super cls name region).
Proof.
  intros w r w' Hrun [Hf Hl].
  pose proof (preserves_Vertex_super _ _ _ _ _ _ Hrun) as Hg.
  unfold Vertex_super in Hrun. rewrite bind_unfold in Hrun.
  destruct (NamedElement_init name region w) as [[qn w0]|] eqn:E; [|done].
  apply NamedElement_init_inv in E as (p & _ & _ & -> & ->).
  rewrite bind_unfold in Hrun. unfold alloc in Hrun. simpl in Hrun.
  set (wa := mkWorld _ _ _) in Hrun. rewrite bind_unfold in Hrun.
  destruct (push_vertex region (next w) wa) as [[[] wb]|] eqn:Hpush; [|done].
  rewrite bind_unfold in Hrun.
  destruct (invalidate (next w) wb) as [[[] wc]|] eqn:Hinv; [|done].
  injection Hrun as _ <-.
  pose proof (preserves_push_vertex _ _ _ _ _ Hpush) as Hu1.
  pose proof (preserves_invalidate _ _ _ _ Hinv) as Hu2.
  assert (updates wa wc) as Hu by (by etrans).
  split; [by destruct (Hg Hf) as (? & _)|].
  apply (all_listed_one_more w); try done.
  { by rewrite (proj1 Hu). }
  intros o' Ho'. pose proof (proj2 Hu (next w)) as Hnew.
  unfold wa in Hnew at 1. simpl in Hnew. rewrite lookup_insert_eq, Ho' in Hnew.
  inversion Hnew as [? ? Hext|]; subst.
  destruct o' as [| |vo| |]; try done. destruct Hext as (_ & Hparent & _).
  simpl in *. rewrite Hparent.
  apply (vertices_at_later _ _ (updates_later _ _ Hu2)).
  by eapply push_vertex_listed.
Qed.

Lemma listed_Transition_new src target kind :
  preserves keeps_listed (Transition_new src target kind).
Proof.
  intros w r w' Hrun [Hf Hl].
  pose proof (preserves_Transition_new _ _ _ _ _ _ Hrun) as Hg.
  unfold Transition_new, instanceof_PseudoState in Hrun. rewrite !bind_unfold in Hrun.
  destruct (lookup_obj src w) as [[o w0]|] eqn:E; [|done].
  apply lookup_obj_inv in E as [-> Hsrc]. simpl in Hrun.
  rewrite bind_unfold in Hrun. unfold alloc in Hrun. simpl in Hrun.
  set (wa := mkWorld _ _ _) in Hrun. rewrite bind_unfold in Hrun.
  destruct (push_outgoing src (next w) wa) as [[[] wb]|] eqn:Hout; [|done].
  rewrite bind_unfold in Hrun.
  destruct (invalidate src wb) as [[[] wc]|] eqn:Hinv; [|done].
  rewrite bind_unfold in Hrun.
  pose proof (preserves_push_outgoing _ _ _ _ _ Hout) as Hu1.
  pose proof (preserves_invalidate _ _ _ _ Hinv) as Hu2.
  assert (∃ wd, updates wc wd ∧ updates wd w'
                ∧ match target with
                  | Some tg => next w ∈ incoming_at (heap wd) tg
                  | None => True
                  end) as (wd & Hu3 & Hu4 & Hin).
  { assert (preserves updates
              (let* s := Element_toString src in
               let* tg := optional_toString target in
               log ("created transition from " +:+ s +:+ " to " +:+ tg) ;;
               ret (next w))) as Htail.
    { apply preserves_bind; [apply _|by apply preserves_Element_toString|intros s].
      apply preserves_bind; [apply _| |intros tg].
      { apply preserves_pure; [apply _|]. intros w1 a w2. apply optional_toString_inv. }
      apply preserves_bind; [apply _| |intros _; by apply preserves_ret].
      apply preserves_log. apply updates_console. }
    destruct target as [tg|].
    - destruct (push_incoming tg (next w) wc) as [[[] wd]|] eqn:Hpush; [|done].
      exists wd. split; [by eapply preserves_push_incoming|].
      split; [exact (Htail _ _ _ Hrun)|]. by eapply push_incoming_listed.
    - rewrite bind_unfold in Hrun.
      destruct (as_Transition (next w) wc) as [[t w1]|] eqn:E; [|done].
      apply as_Transition_inv in E as [-> Ht]. simpl in Hrun.
      exists (mkWorld (<[next w := OTransition (set_kind Internal t)]> (heap wc))
                (next wc) (console wc)).
      split; [by eapply updates_store|].
      split; [exact (Htail _ _ _ Hrun)|done]. }
  assert (updates wa w') as Hu by (etrans; [|etrans; [|etrans]]; done).
  split; [by destruct (Hg Hf) as (? & _)|].
  apply (all_listed_one_more w); try done.
  { by rewrite (proj1 Hu). }
  intros o' Ho'. pose proof (proj2 Hu (next w)) as Hnew.
  unfold wa in Hnew at 1. simpl in Hnew. rewrite lookup_insert_eq, Ho' in Hnew.
  inversion Hnew as [? ? Hext|]; subst.
  destruct o' as [| | |t'|]; try done. destruct Hext as (Hs & Ht & _).
  simpl in *. rewrite Hs, Ht. split.
  - apply (outgoing_at_later (heap wb)); [|by eapply push_outgoing_listed].
    apply updates_later. etrans; [|etrans]; done.
  - destruct target as [tg|]; [|done].
    by apply (incoming_at_later _ _ (updates_later _ _ Hu4)).
Qed.

Lemma listed_getDefaultRegion this : preserves keeps_listed (getDefaultRegion this).
Proof.
  unfold getDefaultRegion.
  apply preserves_bind; [apply _|apply (preserves_lookup_obj keeps_listed)|intros o].
  destruct o as [m| |v| |]; try apply preserves_throw.
  - destruct (sm_defaultRegion m); [apply (preserves_ret keeps_listed)|].
    apply preserves_bind; [apply _|apply listed_Region_new|intros r].
    apply preserves_keeps_listed. intros w a w'. rewrite bind_unfold.
    destruct (as_StateMachine this w) as [[m' w1]|] eqn:E; [|done].
    apply as_StateMachine_inv in E as [-> Hm]. intros [= <- <-].
    by apply updates_set_sm_defaultRegion.
  - destruct (v_class v) as [| |f]; try apply preserves_throw.
    destruct (defaultRegion f); [apply (preserves_ret keeps_listed)|].
    apply preserves_bind; [apply _|apply listed_Region_new|intros r].
    apply preserves_keeps_listed. intros w a w'. rewrite bind_unfold.
    destruct (as_State this w) as [[[v' f'] w1]|] eqn:E; [|done].
    apply as_State_inv in E as (-> & Hv & Hcls). intros [= <- <-].
    by apply updates_set_defaultRegion.
Qed.

Lemma listed_Vertex_init cls name parent :
  preserves keeps_listed (Vertex_init cls name parent).
Proof.
  unfold Vertex_init, instanceof_Region.
  apply preserves_bind; [apply _| |intros is_region].
  { apply preserves_bind; [apply _|apply (preserves_lookup_obj keeps_listed)|].
    intros o. apply (preserves_ret keeps_listed). }
  apply preserves_bind; [apply _| |intros region; apply listed_Vertex_super].
  destruct is_region; [apply (preserves_ret keeps_listed)|apply listed_getDefaultRegion].
Qed.

Lemma listed_run (c : @Command Behavior UserGuard) : preserves keeps_listed (run c).
Proof.
  destruct c; simpl;
    (apply preserves_bind;
     [apply _| |intros _; apply (preserves_ret keeps_listed)]).
  - apply listed_Region_new.
  - apply listed_Vertex_init.
  - apply listed_Transition_new.
  - apply preserves_keeps_listed, preserves_State_enter.
  - apply preserves_keeps_listed, preserves_State_exit.
  - apply preserves_keeps_listed, preserves_Transition_effect.
  - apply preserves_keeps_listed, preserves_Transition_guard.
  - apply preserves_keeps_listed, preserves_Transition_guard.
Qed.

Lemma listed_run_all (cs : list (@Command Behavior UserGuard)) :
  preserves keeps_listed (run_all cs).
Proof. apply preserves_forEach; try apply _. intros c _. apply listed_run. Qed.

Lemma listed_alloc_root (mk : loc → Obj) :
  (∀ l, match mk l with OStateMachine _ | ODictionaryInstance _ => True | _ => False end) →
  preserves keeps_listed (alloc mk).
Proof.
  intros Hmk w a w' Hrun [Hf Hl]. pose proof (preserves_alloc mk _ _ _ Hrun) as Hg.
  injection Hrun as <- <-.
  split; [by destruct (Hg Hf) as (? & _)|].
  apply (all_listed_one_more w); try done.
  simpl. rewrite lookup_insert_eq. intros o' [= <-].
  specialize (Hmk (next w)). by destruct (mk (next w)).
Qed.

(** X21: the constructors register what they construct.  In the empty
    store, and after [new StateMachine], [new DictionaryInstance] and any
    run of builder calls that returns from a store where it was so, every
    region is in the [regions] of its parent, every vertex in the
    [vertices] of its region, every transition in the [outgoing] of its
    source and, when it has a target, in the [incoming] of the target. *)
Theorem constructed_objects_are_listed :
  all_listed (@empty_world Behavior Action UserGuard)
  ∧ ∀ w, wf w → all_listed w →
      (∀ name m w', StateMachine_new name w = Some (m, w') → all_listed w')
      ∧ (∀ name i w', DictionaryInstance_new name w = Some (i, w') → all_listed w')
      ∧ (∀ cs w', run_all cs w = Some (tt, w') → all_listed w').
Proof.
  split.
  - intros x o. unfold empty_world. simpl. by rewrite lookup_empty.
  - intros w Hwf Hn. pose proof (wf_is_fresh _ Hwf) as Hf. split_and!.
    + intros name m w' Hrun.
      by eapply (listed_alloc_root
                   (λ _, OStateMachine (mkStateMachine name [] None false []))
                   (λ _, I) w m w' Hrun).
    + intros name i w' Hrun.
      by eapply (listed_alloc_root
                   (λ _, ODictionaryInstance (mkDictionaryInstance name ∅))
                   (λ _, I) w i w' Hrun).
    + intros cs w' Hrun. by eapply (listed_run_all cs w tt w' Hrun).
Qed.

(** ** The visit reaches every element *)

Lemma forEach_each (body : loc → StateErr World unit) xs :
  (∀ x, preserves logs_only (body x)) →
  ∀ w w', forEach body xs w = Some (tt, w') →
  ∀ x, x ∈ xs →
    ∃ w1 w2, logs_only w w1 ∧ body x w1 = Some (tt, w2) ∧ logs_only w2 w'.
Proof.
  intros Hbody. induction xs as [|y xs IH]; intros w w' Hrun x Hx.
  { by apply elem_of_nil in Hx. }
  simpl in Hrun. rewrite bind_unfold in Hrun.
  destruct (body y w) as [[[] wy]|] eqn:Hy; [|done].
  apply elem_of_cons in Hx as [->|Hx].
  - exists w, wy. split; [done|]. split; [done|].
    eapply (preserves_forEach logs_only); [|exact Hrun]. intros z _. apply Hbody.
  - destruct (IH _ _ Hrun x Hx) as (w1 & w2 & Hpre & Hx' & Hpost).
    exists w1, w2. split; [|done]. etrans; [|exact Hpre]. by eapply Hbody.
Qed.

Lemma accept_logs n x : preserves logs_only (accept n x).
Proof. intros w [] w' H. by eapply visited_logs, accept_visited. Qed.

Lemma visitElement_logs x : preserves logs_only (visitElement x).
Proof. intros w [] w' H. by eapply visited_logs, visitElement_visited. Qed.

(** The walk of [visitVertex] through the outgoing transitions. *)
Lemma visitVertex_each n e v w w' :
  heap w !! e = Some (OVertex v) →
  visitVertex (accept n) e w = Some (tt, w') →
  ∀ c, c ∈ outgoing v →
    ∃ w1 w2, logs_only w w1 ∧ accept n c w1 = Some (tt, w2) ∧ logs_only w2 w'.
Proof.
  intros He Hrun c Hc. unfold visitVertex in Hrun. rewrite bind_unfold in Hrun.
  destruct (as_Vertex e w) as [[v' w0]|] eqn:E; [|done].
  apply as_Vertex_inv in E as [-> He']. rewrite He in He'. injection He' as <-.
  rewrite bind_unfold in Hrun.
  destruct (forEach (accept n) (outgoing v) w) as [[[] wa]|] eqn:Hloop; [|done].
  destruct (forEach_each _ _ (accept_logs n) _ _ Hloop c Hc)
    as (w1 & w2 & Hpre & Hx & Hpost).
  exists w1, w2. split; [done|]. split; [done|].
  etrans; [exact Hpost|]. by eapply visitElement_logs.
Qed.

Lemma accept_children n e w w' :
  accept (S n) e w = Some (tt, w') →
  ∀ c, c ∈ children_at (heap w) e →
    ∃ w1 w2, logs_only w w1 ∧ accept n c w1 = Some (tt, w2) ∧ logs_only w2 w'.
Proof.
  simpl. rewrite bind_unfold. unfold children_at.
  destruct (lookup_obj e w) as [[o w0]|] eqn:E; [|done].
  apply lookup_obj_inv in E as [-> He]. rewrite He.
  destruct o as [sm|r|v|t|d]; try (intros _ c Hc; by apply elem_of_nil in Hc).
  - unfold visitStateMachine. rewrite bind_unfold.
    destruct (as_StateMachine e w) as [[sm' w0]|] eqn:E; [|done].
    apply as_StateMachine_inv in E as [-> He']. rewrite He in He'. injection He' as <-.
    rewrite bind_unfold.
    destruct (forEach (accept n) (sm_regions sm) w) as [[[] wa]|] eqn:Hloop; [|done].
    intros Hrun c Hc.
    destruct (forEach_each _ _ (accept_logs n) _ _ Hloop c Hc)
      as (w1 & w2 & Hpre & Hx & Hpost).
    exists w1, w2. split; [done|]. split; [done|].
    etrans; [exact Hpost|]. by eapply visitElement_logs.
  - unfold visitRegion. rewrite bind_unfold.
    destruct (as_Region e w) as [[r' w0]|] eqn:E; [|done].
    apply as_Region_inv in E as [-> He']. rewrite He in He'. injection He' as <-.
    rewrite bind_unfold.
    destruct (forEach (accept n) (vertices r) w) as [[[] wa]|] eqn:Hloop; [|done].
    intros Hrun c Hc.
    destruct (forEach_each _ _ (accept_logs n) _ _ Hloop c Hc)
      as (w1 & w2 & Hpre & Hx & Hpost).
    exists w1, w2. split; [done|]. split; [done|].
    etrans; [exact Hpost|]. by eapply visitElement_logs.
  - destruct (v_class v) as [| k | f] eqn:Hcls; try by apply visitVertex_each.
    unfold visitState. rewrite bind_unfold.
    destruct (as_State e w) as [[[v' f'] w0]|] eqn:E; [|done].
    apply as_State_inv in E as (-> & He' & Hcls').
    rewrite He in He'. injection He' as <-.
    rewrite Hcls in Hcls'. injection Hcls' as <-.
    rewrite bind_unfold.
    destruct (forEach (accept n) (regions f) w) as [[[] wa]|] eqn:Hloop; [|done].
    intros Hrun c Hc.
    pose proof (preserves_forEach logs_only _ _ (λ x _, accept_logs n x) _ _ _ Hloop)
      as Hwa.
    apply elem_of_app in Hc as [Hc|Hc].
    + destruct (forEach_each _ _ (accept_logs n) _ _ Hloop c Hc)
        as (w1 & w2 & Hpre & Hx & Hpost).
      exists w1, w2. split; [done|]. split; [done|].
      etrans; [exact Hpost|]. eapply visited_logs, visitVertex_visited; [|exact Hrun].
      apply accept_logs.
    + assert (heap wa !! e = Some (OVertex v)) as Hea by (by rewrite (proj1 Hwa)).
      destruct (visitVertex_each n e v wa w' Hea Hrun c Hc)
        as (w1 & w2 & Hpre & Hx & Hpost).
      exists w1, w2. split; [by etrans|]. done.
Qed.

(** A visit of [m] comes to every object at the end of a path from [m]
    through the arrays. *)
Lemma accept_path : ∀ path n m w w' e,
  accept n m w = Some (tt, w') →
  last (m :: path) = Some e →
  (∀ i a b, (m :: path) !! i = Some a → (m :: path) !! S i = Some b →
     b ∈ children_at (heap w) a) →
  ∃ k w1 w2, logs_only w w1 ∧ accept k e w1 = Some (tt, w2) ∧ logs_only w2 w'.
Proof.
  induction path as [|c path IH]; intros n m w w' e Hrun Hlast Hchain.
  - injection Hlast as <-. by exists n, w, w'.
  - destruct n as [|n]; [done|].
    destruct (accept_children n m w w' Hrun c (Hchain 0 m c eq_refl eq_refl))
      as (w1 & w2 & Hpre & Hc & Hpost).
    destruct (IH n c w1 w2 e Hc) as (k & w3 & w4 & Hpre' & He & Hpost').
    + by rewrite last_cons_cons in Hlast.
    + intros i a b Ha Hb. rewrite (proj1 Hpre). by apply (Hchain (S i)).
    + exists k, w3, w4. split; [by etrans|]. split; [done|]. by etrans.
Qed.

(** The line of a visit in the middle of a longer one. *)
Lemma visited_line_in w w1 w2 w' e lines :
  logs_only w w1 → visited e w1 w2 → logs_only w2 w' →
  console w' = console w ++ lines →
  ∃ s, (query (Element_toString e) w = Some s
        ∨ query (Transition_toString e) w = Some s)
       ∧ "visiting " +:+ s ∈ lines.
Proof.
  intros (Hh1 & _ & pre & Hpre) (_ & _ & ls & s & Hls & Hs) (_ & _ & post & Hpost) Hw'.
  exists s. split.
  - by rewrite <- (Element_toString_heap w w1 e Hh1),
               <- (Transition_toString_heap w w1 e Hh1).
  - rewrite Hpost, Hls, Hpre, <- !app_assoc in Hw'. apply app_inv_head in Hw'.
    rewrite <- Hw'. rewrite !elem_of_app. right. right. left.
    by apply list_elem_of_singleton.
Qed.

Lemma listed_child w a b :
  all_listed w → parent_of (heap w) b = Some a → b ∈ children_at (heap w) a.
Proof.
  intros Hl. unfold parent_of.
  destruct (heap w !! b) as [[|r|v| |]|] eqn:Hb; try done; intros [= <-];
    pose proof (Hl _ _ Hb) as Hin; simpl in Hin.
  - unfold regions_at in Hin. unfold children_at.
    destruct (heap w !! r_parent r) as [[sm| |p| |]|]; simpl in Hin;
      try by apply elem_of_nil in Hin.
    + done.
    + destruct (v_class p); try by apply elem_of_nil in Hin.
      apply elem_of_app. by left.
  - unfold vertices_at in Hin. unfold children_at.
    destruct (heap w !! v_parent v) as [[| | | |]|]; try by apply elem_of_nil in Hin.
    done.
Qed.

Lemma chain_snoc (P : loc → loc → Prop) (xs : list loc) x y :
  last xs = Some x →
  (∀ i a b, xs !! i = Some a → xs !! S i = Some b → P a b) →
  P x y →
  ∀ i a b, (xs ++ [y]) !! i = Some a → (xs ++ [y]) !! S i = Some b → P a b.
Proof.
  intros Hlast Hchain Hxy i a b Ha Hb.
  destruct (decide (S i < length xs)) as [Hin|Hout].
  - rewrite lookup_app_l in Ha by lia. rewrite lookup_app_l in Hb by lia. eauto.
  - apply lookup_lt_Some in Hb as Hlen. rewrite length_app in Hlen. simpl in Hlen.
    assert (S i = length xs) as Hi by lia.
    rewrite lookup_app_r in Hb by lia. rewrite Hi, Nat.sub_diag in Hb.
    injection Hb as <-.
    rewrite lookup_app_l in Ha by lia.
    rewrite last_lookup in Hlast.
    assert (i = pred (length xs)) as -> by lia.
    rewrite Hlast in Ha. by injection Ha as <-.
Qed.

Lemma Transition_toString_element w e :
  is_element (shape_at (heap w) e) → query (Transition_toString e) w = None.
Proof.
  intros Hel. unfold query, Transition_toString. rewrite bind_unfold.
  unfold as_Transition. rewrite bind_unfold. unfold lookup_obj.
  destruct (is_element_lookup _ _ Hel) as [[? ->]|[[? ->]|[? ->]]]; done.
Qed.

Lemma Element_toString_transition w t tr :
  heap w !! t = Some (OTransition tr) → query (Element_toString t) w = None.
Proof. intros Ht. rewrite query_Element_toString. unfold toString_of. by rewrite Ht. Qed.

(** The path from the root to an element through the arrays. *)
Lemma path_to_element w e m :
  wf w → all_listed w → getRoot e w = Some (m, w) →
  ∃ path, last (m :: path) = Some e
    ∧ ∀ i a b, (m :: path) !! i = Some a → (m :: path) !! S i = Some b →
        b ∈ children_at (heap w) a.
Proof.
  intros Hwf Hl Hroot. unfold getRoot in Hroot.
  destruct (getRoot_steps (next w) (heap w) e) as [m'|] eqn:Hsteps; [|done].
  injection Hroot as ->.
  pose proof (getRoot_steps_element _ _ _ _ Hsteps) as Hel.
  destruct (getAncestors_steps_spec w (next w) e Hwf (wf_element_lt _ _ Hwf Hel) Hel)
    as (ancestors & m' & _ & Hroot & Hhead & Hlast & Hchain).
  rewrite Hsteps in Hroot. injection Hroot as <-.
  destruct ancestors as [|x path]; [done|]. injection Hhead as ->.
  exists path. split; [done|]. intros i a b Ha Hb.
  apply listed_child; [done|]. by destruct (Hchain i a b Ha Hb).
Qed.

(** ** The default region in the names *)

Lemma getDefaultRegion_first_named w parent po r w1 p :
  fresh w → heap w !! parent = Some po → defaultRegion_of po = None →
  toString_of (heap w) parent = Some p →
  getDefaultRegion parent w = Some (r, w1) →
  ∃ ro, heap w1 !! r = Some (ORegion ro)
    ∧ r_qualifiedName ro = p +:+ "." +:+ "default"
    ∧ r_parent ro = parent.
Proof.
  intros Hf Hpo Hnone Hp. unfold getDefaultRegion. rewrite bind_unfold.
  unfold lookup_obj. rewrite Hpo.
  destruct po as [sm| |v| |]; simpl in Hnone |- *; try done.
  - rewrite Hnone, bind_unfold.
    destruct (Region_new Region_defaultName parent w) as [[r0 wr]|] eqn:Hnew; [|done].
    destruct (Region_new_named _ _ _ _ _ Hf Hnew)
      as (-> & _ & _ & p' & ro & Hp' & _ & Hr & Hqn & Hparent).
    rewrite Hp in Hp'. injection Hp' as <-. rewrite bind_unfold.
    destruct (as_StateMachine parent wr) as [[sm' w0]|] eqn:E; [|done].
    apply as_StateMachine_inv in E as [-> Hm]. intros [= <- <-].
    exists ro. simpl. rewrite lookup_insert_ne by congruence. done.
  - destruct (v_class v) as [| |f] eqn:Hcls; try done. rewrite Hnone, bind_unfold.
    destruct (Region_new Region_defaultName parent w) as [[r0 wr]|] eqn:Hnew; [|done].
    destruct (Region_new_named _ _ _ _ _ Hf Hnew)
      as (-> & _ & _ & p' & ro & Hp' & _ & Hr & Hqn & Hparent).
    rewrite Hp in Hp'. injection Hp' as <-. rewrite bind_unfold.
    destruct (as_State parent wr) as [[[v' f'] w0]|] eqn:E; [|done].
    apply as_State_inv in E as (-> & Hv & _). intros [= <- <-].
    exists ro. simpl. rewrite lookup_insert_ne by congruence. done.
Qed.

(** X25: the first vertex constructed with a state or state machine as its
    parent goes into a region named [default] that is made for it, and
    that name shows in the qualified names: the region is called
    [<parent>.default] and the vertex [<parent>.default.<name>]. *)
Theorem first_vertex_named_through_default_region w cls name parent po p :
  wf w → initial_class cls → is_owner (shape_at (heap w) parent) →
  heap w !! parent = Some po → defaultRegion_of po = None →
  toString_of (heap w) parent = Some p →
  ∃ v w' r,
    Vertex_init cls name parent w = Some (v, w')
    ∧ parent_of (heap w') v = Some r ∧ parent_of (heap w') r = Some parent
    ∧ toString_of (heap w') r = Some (p +:+ "." +:+ "default")
    ∧ toString_of (heap w') v = Some ((p +:+ "." +:+ "default") +:+ "." +:+ name).
Proof.
  intros Hwf Hinit Hown Hpo Hnone Hp. pose proof (wf_is_fresh _ Hwf) as Hf.
  destruct (Vertex_init_spec w cls name parent Hwf Hinit (or_intror Hown))
    as (region & w1 & ro & v & w' & ro' & Hcase & Hro & Hrun & _ & _ & _ & Hv & _
        & Hro' & _ & Hparent & _).
  destruct Hcase as [(Hreg & _)|(_ & Hget & Hrp)].
  { unfold shape_at in *. rewrite Hpo in *. by destruct po as [| |? | |]. }
  destruct (getDefaultRegion_first_named w parent po region w1 p Hf Hpo Hnone Hp Hget)
    as (ro1 & Hro1 & Hqn & _).
  rewrite Hro in Hro1. injection Hro1 as <-.
  assert (Vertex_super cls name region w1 = Some (v, w')) as Hsuper.
  { unfold Vertex_init, instanceof_Region in Hrun. rewrite !bind_unfold in Hrun.
    unfold lookup_obj in Hrun. rewrite Hpo in Hrun. simpl in Hrun.
    destruct po as [| | | |]; simpl in Hrun; rewrite ?bind_unfold in Hrun;
      try (by rewrite Hget in Hrun).
    unfold shape_at in Hown. rewrite Hpo in Hown. done. }
  pose proof (preserves_getDefaultRegion _ _ _ _ Hget Hf) as (Hf1 & _).
  destruct (grows_lookup _ _ _ _ Hf1 (preserves_Vertex_super _ _ _ _ _ _ Hsuper) Hro)
    as (o' & Hro'' & Hext).
  rewrite Hro' in Hro''. injection Hro'' as <-. destruct Hext as (_ & _ & Hqn' & _).
  exists v, w', region. split; [exact Hrun|].
  unfold parent_of, toString_of. rewrite Hv, Hro'. simpl.
  split; [done|]. split; [by rewrite Hparent, Hrp|].
  split; [by rewrite Hqn', Hqn|]. by rewrite Hqn.
Qed.

(** ** Entering a state *)

Lemma length_append (s1 s2 : string) :
  String.length (s1 +:+ s2) = String.length s1 + String.length s2.
Proof.
  induction s1 as [|a s1 IH]; [done|].
  change (S (String.length (s1 +:+ s2)) = S (String.length s1 + String.length s2)).
  by rewrite IH.
Qed.

(** Where the names are in order, the string of a parent is shorter than
    the string of its child. *)
Lemma parent_string_shorter w e p s :
  names_ok w → parent_of (heap w) e = Some p → toString_of (heap w) e = Some s →
  ∃ sp, toString_of (heap w) p = Some sp ∧ String.length sp < String.length s.
Proof.
  intros Hn. unfold parent_of. unfold toString_of at 1.
  destruct (heap w !! e) as [[|r|v| |]|] eqn:He; try done;
    intros [= <-] [= <-]; pose proof (Hn _ _ He) as Hnamed; simpl in Hnamed.
  - destruct (toString_of (heap w) (r_parent r)) as [sp|]; [|done].
    injection Hnamed as <-. exists sp. split; [done|]. rewrite !length_append. simpl. lia.
  - destruct (toString_of (heap w) (v_parent v)) as [sp|]; [|done].
    injection Hnamed as <-. exists sp. split; [done|]. rewrite !length_append. simpl. lia.
Qed.

(** What [getCurrent] answers after [setCurrent], by the qualified names. *)
Lemma getCurrent_after_setCurrent w i d qn state c r :
  heap w !! i = Some (ODictionaryInstance d) →
  getCurrent (DictionaryInstance i : IInstance) r
    (mkWorld (<[i := ODictionaryInstance
                       (set_activeStateConfiguration
                          (<[qn := state]> (activeStateConfiguration d)) d)]> (heap w))
       (next w) c)
  = match query (qualifiedName r) w with
    | Some qr => if decide (qn = qr) then Some (Some state)
                 else getCurrent (DictionaryInstance i : IInstance) r w
    | None => None
    end.
Proof.
  intros Hi. simpl. rewrite !query_getCurrent_unfold. simpl.
  rewrite lookup_insert_eq, Hi.
  rewrite (qualifiedName_after_setCurrent w i d _ c r Hi).
  destruct (query (qualifiedName r) w) as [qr|]; [|done]. simpl.
  destruct (decide (qn = qr)) as [->|Hne].
  - by rewrite lookup_insert_eq.
  - by rewrite lookup_insert_ne.
Qed.

Lemma isActive_steps_after_setCurrent w i d qn state c :
  wf w → names_ok w → heap w !! i = Some (ODictionaryInstance d) →
  let w' := mkWorld (<[i := ODictionaryInstance
                             (set_activeStateConfiguration
                                (<[qn := state]> (activeStateConfiguration d)) d)]>
                       (heap w))
              (next w) c in
  ∀ n e s, toString_of (heap w) e = Some s → String.length s ≤ String.length qn →
    isActive_steps n (DictionaryInstance i) w' e
    = isActive_steps n (DictionaryInstance i) w e.
Proof.
  intros Hwf Hn Hi w'. induction n as [|n IH]; intros e s Hs Hlen; [done|].
  assert (e ≠ i) as Hne.
  { intros ->. unfold toString_of in Hs. by rewrite Hi in Hs. }
  assert (∀ p, parent_of (heap w) e = Some p →
            isActive_steps n (DictionaryInstance i) w' p
            = isActive_steps n (DictionaryInstance i) w p) as Hparent.
  { intros p Hp. destruct (parent_string_shorter w e p s Hn Hp Hs) as (sp & Hsp & Hlt).
    apply (IH p sp Hsp). lia. }
  cbn [isActive_steps]. unfold w' at 1. cbn [heap].
  rewrite lookup_insert_ne by done. unfold parent_of in Hparent.
  destruct (heap w !! e) as [[sm|r|v| |]|] eqn:He; try done.
  - by apply Hparent.
  - destruct (v_class v) as [| k | f]; try by apply Hparent.
    rewrite (Hparent _ eq_refl).
    destruct (isActive_steps n (DictionaryInstance i) w (v_parent v)) as [[]|];
      try done.
    unfold w'. rewrite (getCurrent_after_setCurrent w i d qn state c _ Hi).
    assert (parent_of (heap w) e = Some (v_parent v)) as Hp.
    { unfold parent_of. by rewrite He. }
    destruct (parent_string_shorter w e _ s Hn Hp Hs) as (sp & Hsp & Hlt).
    assert (query (qualifiedName (v_parent v)) w = Some sp) as Hq.
    { rewrite query_qualifiedName. unfold toString_of in Hsp.
      pose proof (wf_obj_ok _ _ _ Hwf He) as (_ & Hreg & _). unfold shape_at in Hreg.
      destruct (heap w !! v_parent v) as [[]|]; try done. }
    rewrite Hq. destruct (decide (qn = sp)) as [->|Hne']; [lia|]. done.
Qed.

(** One step of [isActive]. *)
Lemma isActive_steps_S (inst : IInstance) w n l :
  isActive_steps (S n) inst w l
  = match heap w !! l with
    | Some (OStateMachine _) => Some true
    | Some (ORegion r) => isActive_steps n inst w (r_parent r)
    | Some (OVertex v) =>
        match v_class v with
        | IsState _ =>
            match isActive_steps n inst w (v_parent v) with
            | Some true =>
                (λ current, bool_decide (current = Some l))
                  <$> getCurrent inst (v_parent v) w
            | Some false => Some false
            | None => None
            end
        | _ => isActive_steps n inst w (v_parent v)
        end
    | _ => None
    end.
Proof. done. Qed.

(** With fuel beyond the location of the element, one step more changes
    nothing. *)
Lemma isActive_steps_enough (inst : IInstance) w :
  wf w → ∀ n l, l < n →
  isActive_steps (S n) inst w l = isActive_steps n inst w l.
Proof.
  intros Hwf. induction n as [|n IH]; intros l Hlt; [lia|].
  assert (∀ p, parent_of (heap w) l = Some p →
            isActive_steps (S n) inst w p = isActive_steps n inst w p) as Hparent.
  { intros p Hp. destruct (parent_of_older _ _ _ Hwf Hp) as [Hpl _]. apply IH. lia. }
  unfold parent_of in Hparent.
  rewrite (isActive_steps_S inst w (S n)), (isActive_steps_S inst w n).
  destruct (heap w !! l) as [[sm|r|v| |]|]; try done.
  - by apply Hparent.
  - destruct (v_class v); try by apply Hparent. by rewrite (Hparent _ eq_refl).
Qed.

(** X26: entering a state.  Where the names are in order, after
    [instance.setCurrent(region, state)] for a state of that region, the
    region answers [isActive] as before and the state answers the same:
    it is active exactly when its region is. *)
Theorem setCurrent_activates_state_of_active_region w i d s r b :
  wf w → names_ok w → heap w !! i = Some (ODictionaryInstance d) →
  is_state (shape_at (heap w) s) → parent_of (heap w) s = Some r →
  isActive r (DictionaryInstance i) w = Some (b, w) →
  ∃ w',
    setCurrent (DictionaryInstance i) r s w = Some (tt, w')
    ∧ isActive r (DictionaryInstance i) w' = Some (b, w')
    ∧ isActive s (DictionaryInstance i) w' = Some (b, w').
Proof.
  intros Hwf Hn Hi Hst Hp Hactive.
  apply is_state_inv in Hst as (v & f & Hs & Hcls).
  unfold parent_of in Hp. rewrite Hs in Hp. injection Hp as <-.
  pose proof (wf_obj_ok _ _ _ Hwf Hs) as (Hlt & Hreg & _).
  assert (s < next w) as Hsn by (by eapply wf_lt).
  assert (∃ qn, query (qualifiedName (v_parent v)) w = Some qn
                ∧ toString_of (heap w) (v_parent v) = Some qn) as (qn & Hq & Hts).
  { rewrite query_qualifiedName. unfold toString_of, shape_at in *.
    destruct (heap w !! v_parent v) as [[]|]; try done. eauto. }
  unfold isActive in Hactive.
  destruct (isActive_steps (next w) (DictionaryInstance i) w (v_parent v))
    as [b'|] eqn:Hact'; [|done].
  injection Hactive as ->.
  destruct (next w) as [|k] eqn:Hnext; [lia|].
  assert (isActive_steps k (DictionaryInstance i) w (v_parent v) = Some b) as Hact.
  { rewrite <- (isActive_steps_enough _ w Hwf k) by lia. exact Hact'. }
  eexists. simpl.
  split; [exact (setCurrent_spec w i d (v_parent v) s qn Hi Hq)|].
  unfold isActive. simpl. rewrite Hnext.
  pose proof (isActive_steps_after_setCurrent w i d qn s (console w) Hwf Hn Hi) as Hsame.
  simpl in Hsame. rewrite Hnext in Hsame.
  split.
  - rewrite (Hsame (S k) (v_parent v) qn Hts) by lia. by rewrite Hact'.
  - rewrite isActive_steps_S. simpl. rewrite lookup_insert_ne by congruence.
    rewrite Hs, Hcls.
    rewrite (Hsame k (v_parent v) qn Hts) by lia. rewrite Hact.
    destruct b; [|done].
    pose proof (getCurrent_after_setCurrent w i d qn s (console w) (v_parent v) Hi)
      as Hcur.
    simpl in Hcur. rewrite Hnext in Hcur. simpl. rewrite Hcur, Hq.
    rewrite decide_True by done. simpl. by rewrite bool_decide_eq_true_2.
Qed.

(** ** Initialising an instance *)

Variable runAction :
  Action → Value → IInstance → bool → StateErr World unit.

(** X11: [initialise(instance)] on a model that is not clean.  With
    [autoInitialiseModel] left out or [true] the model is initialised
    first, which sets its flag, and the line for the instance and the
    actions of [onInitialise] follow on that store.  With
    [autoInitialiseModel = false] the model is left as it is: the line and
    the actions run on the store as given. *)
Theorem initialise_instance_compiles_unclean_model w this sm i d :
  wf w → heap w !! this = Some (OStateMachine sm) → clean sm = false →
  heap w !! i = Some (ODictionaryInstance d) →
  ∃ w1,
    initialise_model this w = Some (tt, w1)
    ∧ query (read_clean this) w1 = Some true
    ∧ (∀ auto, auto ≠ Some false →
         StateMachine_initialise runAction this (Some (DictionaryInstance i)) auto w
         = (log ("initialise " +:+ di_name d) ;;
            invoke runAction (onInitialise sm) VUndefined (DictionaryInstance i) false)
             w1)
    ∧ StateMachine_initialise runAction this (Some (DictionaryInstance i)) (Some false) w
      = (log ("initialise " +:+ di_name d) ;;
         invoke runAction (onInitialise sm) VUndefined (DictionaryInstance i) false) w.
Proof.
  intros Hwf Hthis Hclean Hi.
  destruct (initialise_model_spec w this sm Hwf Hthis) as [c' Hmodel].
  eexists. split; [exact Hmodel|].
  assert (this ≠ i) as Hne by congruence.
  assert (this < next w) as Hlt by (by eapply wf_lt).
  split; [|split].
  - rewrite query_read_clean. simpl. destruct (next w) as [|k]; [lia|]. simpl.
    rewrite lookup_insert_eq. simpl. by rewrite lookup_insert_eq.
  - intros auto Hauto. unfold StateMachine_initialise. mrun. rewrite Hclean.
    assert (default true auto = true) as -> by (by destruct auto as [[]|]).
    simpl. rewrite Hmodel. mrun.
    unfold query, DictionaryInstance_toString. mrun.
    rewrite lookup_insert_ne by done. rewrite Hi. simpl. mrun.
    by rewrite lookup_insert_eq.
  - unfold StateMachine_initialise. mrun.
    unfold query, DictionaryInstance_toString. mrun. done.
Qed.

(** X22: [initialise()] on a state machine, where every object is listed
    in the arrays of its parent and source, visits all there is below the
    machine: after the line for the machine itself, the console gets a
    line ["visiting ..."] for every element whose root is the machine and
    for every transition from a vertex whose root it is. *)
Theorem initialise_visits_every_element w this w' :
  wf w → all_listed w →
  StateMachine_initialise runAction this None None w = Some (tt, w') →
  ∃ name lines,
    query (Element_toString this) w = Some name
    ∧ console w' = console w ++ ("initialise " +:+ name) :: lines
    ∧ (∀ e s, getRoot e w = Some (this, w) → query (Element_toString e) w = Some s →
              "visiting " +:+ s ∈ lines)
    ∧ (∀ t tr s, heap w !! t = Some (OTransition tr) →
                 getRoot (source tr) w = Some (this, w) →
                 query (Transition_toString t) w = Some s →
                 "visiting " +:+ s ∈ lines).
Proof.
  intros Hwf Hl Hrun. simpl in Hrun. unfold initialise_model in Hrun.
  rewrite bind_unfold in Hrun.
  destruct (Element_toString this w) as [[name w0]|] eqn:Hname; [|done].
  pose proof (Element_toString_inv _ _ _ _ Hname) as [-> _].
  rewrite bind_unfold in Hrun. simpl in Hrun. rewrite bind_unfold in Hrun.
  set (w0 := mkWorld (heap w) (next w) (console w ++ ["initialise " +:+ name])) in Hrun.
  change (next w0) with (next w) in Hrun.
  destruct (accept (next w) this w0) as [[[] wv]|] eqn:Hvisit; [|done].
  rewrite bind_unfold in Hrun.
  destruct (as_StateMachine this wv) as [[sm w1]|] eqn:E; [|done].
  apply as_StateMachine_inv in E as [-> _]. injection Hrun as <-.
  pose proof (accept_visited _ _ _ _ Hvisit) as Hv.
  destruct (visited_logs _ _ _ Hv) as (Hheap & _ & lines & Hlines).
  assert (wf w0) as Hwf0 by exact (wf_ext w w0 eq_refl eq_refl Hwf).
  assert (all_listed w0) as Hl0 by exact Hl.
  exists name, lines. split; [by apply query_Some; eauto|].
  split; [simpl; rewrite Hlines; unfold w0; simpl; by rewrite <- app_assoc|].
  split.
  - intros e s Hroot Hs.
    assert (getRoot e w0 = Some (this, w0)) as Hroot0.
    { unfold getRoot in *. simpl.
      destruct (getRoot_steps (next w) (heap w) e); [|done]. by injection Hroot as ->. }
    destruct (path_to_element w0 e this Hwf0 Hl0 Hroot0) as (path & Hlast & Hchain).
    destruct (accept_path path _ _ _ _ e Hvisit Hlast Hchain)
      as (k & w1 & w2 & Hpre & He & Hpost).
    destruct (visited_line_in w0 w1 w2 wv e lines Hpre (accept_visited _ _ _ _ He)
                Hpost Hlines) as (s' & Hs' & Hin).
    assert (is_element (shape_at (heap w0) e)) as Hel.
    { unfold getRoot in Hroot0.
      destruct (getRoot_steps (next w0) (heap w0) e) eqn:Hsteps; [|done].
      by eapply getRoot_steps_element. }
    rewrite (Transition_toString_element _ _ Hel) in Hs'.
    rewrite (Element_toString_heap w w0 e eq_refl), Hs in Hs'.
    destruct Hs' as [[= <-]|?]; done.
  - intros t tr s Ht Hroot Hs.
    assert (getRoot (source tr) w0 = Some (this, w0)) as Hroot0.
    { unfold getRoot in *. simpl.
      destruct (getRoot_steps (next w) (heap w) (source tr)); [|done].
      by injection Hroot as ->. }
    destruct (path_to_element w0 (source tr) this Hwf0 Hl0 Hroot0)
      as (path & Hlast & Hchain).
    assert (t ∈ children_at (heap w0) (source tr)) as Hchild.
    { pose proof (Hl _ _ Ht) as [Hout _]. simpl. unfold outgoing_at in Hout.
      unfold children_at.
      destruct (heap w !! source tr) as [[| |v| |]|]; try by apply elem_of_nil in Hout.
      destruct (v_class v); try done. apply elem_of_app. by right. }
    destruct (accept_path (path ++ [t]) _ _ _ _ t Hvisit) as (k & w1 & w2 & Hpre & He & Hpost).
    + by rewrite app_comm_cons, last_snoc.
    + rewrite app_comm_cons. by eapply chain_snoc.
    + destruct (visited_line_in w0 w1 w2 wv t lines Hpre (accept_visited _ _ _ _ He)
                  Hpost Hlines) as (s' & Hs' & Hin).
      rewrite (Element_toString_transition w0 t tr Ht) in Hs'.
      rewrite (Transition_toString_heap w w0 t eq_refl), Hs in Hs'.
      destruct Hs' as [?|[= <-]]; done.
Qed.

End MoreModelFacts.


(** * The claims on the two small models *)

Section Instances.

Import Model.

(** Decides a closed proposition by evaluation. *)
Ltac by_evaluation :=
  match goal with
  | |- ?P => refine (@bool_decide_unpack P _ _); vm_compute; exact I
  end.

(** Checks [commands_ok] on a concrete run, evaluating the store after each
    command. *)
Ltac run_commands :=
  repeat (cbn [commands_ok command_ok];
          match goal with
          | |- True => exact I
          | |- _ ∧ (∀ w', _ → _) =>
              split;
              [ first [ by_evaluation
                      | split; [reflexivity
                               | first [left; by_evaluation | right; by_evaluation]]
                      | split; by_evaluation ]
              | let w' := fresh "w" in
                let H := fresh "H" in
                intros w' H; vm_compute in H; injection H as <- ]
          end).

(** C1: what [enter] does on the state [a] of the small model, whose two
    lists are empty: the action ends up in [exitBehavior], and
    [entryBehavior] stays empty.  [exit] does the same. *)
Theorem enter_pushes_onto_exitBehavior :
  ∃ w' v,
    State_enter Demo.a "onEnter" Demo.built = Some (Demo.a, w')
    ∧ heap w' !! Demo.a = Some (OVertex v)
    ∧ v_class v = IsState (mkStateFields [] None [] ["onEnter"])
    ∧ State_exit Demo.a "onEnter" Demo.built = Some (Demo.a, w').
Proof. vm_compute. eexists _, _. split_and!; reflexivity. Qed.

(** C2 on the small model: a region under the state [a], a state in the
    default region, a transition from [b] to [a], and behaviour on [a]. *)
Lemma structural_mutation_clears_clean_witness :
  wf Demo.built
  ∧ (∃ r w', Region_new "inner" Demo.a Demo.built = Some (r, w')
       ∧ wf w' ∧ query (read_clean r) w' = Some false)
  ∧ (∃ v w', State_new "c" Demo.region Demo.built = Some (v, w')
       ∧ wf w' ∧ query (read_clean v) w' = Some false)
  ∧ (∃ t w', Transition_new Demo.b (Some Demo.a) None Demo.built = Some (t, w')
       ∧ wf w' ∧ query (read_clean Demo.b) w' = Some false)
  ∧ (∃ w', State_enter Demo.a "onEnter" Demo.built = Some (Demo.a, w')
       ∧ wf w' ∧ query (read_clean Demo.a) w' = Some false)
  ∧ (∃ w', State_exit Demo.a "onExit" Demo.built = Some (Demo.a, w')
       ∧ wf w' ∧ query (read_clean Demo.a) w' = Some false)
  ∧ (∃ w', Transition_effect Demo.a_to_b "log" Demo.built = Some (Demo.a_to_b, w')
       ∧ wf w' ∧ query (read_clean Demo.a) w' = Some false)
  ∧ commands_ok Demo.built Demo.more
  ∧ (∃ w', run_all Demo.more Demo.built = Some (tt, w')
       ∧ wf w' ∧ query (read_clean Demo.m) w' = Some false).
Proof.
  assert (wf Demo.built) as Hwf by by_evaluation.
  assert (is_owner (shape_at (heap Demo.built) Demo.a)) as Hown by by_evaluation.
  assert (is_region (shape_at (heap Demo.built) Demo.region)) as Hreg by by_evaluation.
  assert (is_vertex (shape_at (heap Demo.built) Demo.a)) as Ha by by_evaluation.
  assert (is_vertex (shape_at (heap Demo.built) Demo.b)) as Hb by by_evaluation.
  assert (is_state (shape_at (heap Demo.built) Demo.a)) as Hstate by by_evaluation.
  assert (heap Demo.built !! Demo.a_to_b
          = Some (OTransition (mkTransition Demo.a (Some Demo.b) External
                                 (GIsSource Demo.a_to_b) []))) as Htr.
  { clear. vm_compute. reflexivity. }
  assert (commands_ok Demo.built Demo.more) as Hmore.
  { clear. unfold Demo.more. run_commands. }
  destruct (structural_mutation_clears_clean Demo.built Hwf)
    as (Hregion & Hvertex & Htransition & Henter & Hexit & Heffect & Hruns).
  split; [exact Hwf|].
  split; [exact (Hregion "inner" Demo.a Hown)|].
  split; [exact (Hvertex (IsState (mkStateFields [] None [] [])) "c" Demo.region
                   eq_refl (or_introl Hreg))|].
  split; [exact (Htransition Demo.b (Some Demo.a) None Hb Ha)|].
  split; [exact (Henter Demo.a "onEnter" Hstate)|].
  split; [exact (Hexit Demo.a "onExit" Hstate)|].
  split; [exact (Heffect Demo.a_to_b "log" _ Htr)|].
  split; [exact Hmore|].
  exact (Hruns _ _ Demo.m Hmore eq_refl eq_refl).
Defined.

(** C3 on the small model: a transition from the pseudo state [initial]
    and one from the state [b]. *)
Lemma default_guard_of_new_transition_witness :
  let instance : Demo.IInstance := DictionaryInstance Demo.i in
  wf Demo.built
  ∧ (∃ t w' tr,
       Transition_new Demo.initial (Some Demo.b) None Demo.built = Some (t, w')
       ∧ heap w' !! t = Some (OTransition tr)
       ∧ Guard_call Demo.callUserGuard (guard tr) (VString "anything") instance w'
         = Some true
       ∧ Guard_call Demo.callUserGuard (guard tr) (VObject Demo.initial) instance w'
         = Some true)
  ∧ (∃ t w' tr,
       Transition_new Demo.b (Some Demo.a) None Demo.built = Some (t, w')
       ∧ heap w' !! t = Some (OTransition tr)
       ∧ Guard_call Demo.callUserGuard (guard tr) (VObject Demo.b) instance w'
         = Some true
       ∧ Guard_call Demo.callUserGuard (guard tr) (VObject Demo.a) instance w'
         = Some false
       ∧ Guard_call Demo.callUserGuard (guard tr) (VString "anything") instance w'
         = Some false).
Proof.
  intros instance.
  assert (wf Demo.built) as Hwf by by_evaluation.
  assert (is_vertex (shape_at (heap Demo.built) Demo.a)) as Ha by by_evaluation.
  assert (is_vertex (shape_at (heap Demo.built) Demo.b)) as Hb by by_evaluation.
  split; [exact Hwf|]. split.
  - assert (∃ sv, heap Demo.built !! Demo.initial = Some (OVertex sv)
              ∧ v_class sv = IsPseudoState Initial) as (sv & Hsv & Hcls).
    { clear. eexists. split; vm_compute; reflexivity. }
    destruct (default_guard_of_new_transition Demo.callUserGuard Demo.built
                Demo.initial (Some Demo.b) None sv Hwf Hsv Hb)
      as (t & w' & tr & Hrun & Ht & Hpseudo & _).
    exists t, w', tr.
    split; [exact Hrun|]. split; [exact Ht|].
    split; exact (Hpseudo _ Hcls _ _).
  - assert (∃ sv f, heap Demo.built !! Demo.b = Some (OVertex sv)
              ∧ v_class sv = IsState f) as (sv & f & Hsv & Hcls).
    { clear. eexists _, _. split; vm_compute; reflexivity. }
    destruct (default_guard_of_new_transition Demo.callUserGuard Demo.built
                Demo.b (Some Demo.a) None sv Hwf Hsv Ha)
      as (t & w' & tr & Hrun & Ht & _ & Hstate).
    exists t, w', tr.
    split; [exact Hrun|]. split; [exact Ht|].
    split; [|split].
    + exact (proj1 (Hstate f Hcls (VObject Demo.b) instance)).
    + exact (proj1 (Hstate f Hcls (VObject Demo.a) instance)).
    + exact (proj1 (Hstate f Hcls (VString "anything") instance)).
Defined.

(** C4 on the small model: a transition from [b] without a target, asked
    to be external, and a local one from [b] to [a]. *)
Lemma transition_kind_and_incoming_witness :
  wf Demo.built
  ∧ (∃ t w' tr,
       Transition_new Demo.b None (Some External) Demo.built = Some (t, w')
       ∧ heap w' !! t = Some (OTransition tr)
       ∧ Model.target tr = None ∧ Model.kind tr = Internal)
  ∧ (∃ t w' tr tv tv',
       Transition_new Demo.b (Some Demo.a) (Some Local) Demo.built = Some (t, w')
       ∧ heap w' !! t = Some (OTransition tr)
       ∧ Model.kind tr = Local
       ∧ heap Demo.built !! Demo.a = Some (OVertex tv)
       ∧ heap w' !! Demo.a = Some (OVertex tv')
       ∧ incoming tv' = incoming tv ++ [t]).
Proof.
  assert (wf Demo.built) as Hwf by by_evaluation.
  assert (is_vertex (shape_at (heap Demo.built) Demo.a)) as Ha by by_evaluation.
  assert (∃ sv, heap Demo.built !! Demo.b = Some (OVertex sv)) as (sv & Hsv).
  { clear. eexists. vm_compute. reflexivity. }
  split; [exact Hwf|]. split.
  - destruct (transition_kind_and_incoming Demo.built Demo.b None (Some External)
                sv Hwf Hsv I)
      as (t & w' & tr & Hrun & Ht & _ & Htg & Hkind).
    exists t, w', tr. exact (conj Hrun (conj Ht (conj Htg Hkind))).
  - destruct (transition_kind_and_incoming Demo.built Demo.b (Some Demo.a) (Some Local)
                sv Hwf Hsv Ha)
      as (t & w' & tr & Hrun & Ht & _ & _ & Hkind & tv & tv' & Htv & Htv' & Hinc).
    exists t, w', tr, tv, tv'.
    exact (conj Hrun (conj Ht (conj Hkind (conj Htv (conj Htv' Hinc))))).
Defined.

(** C5 on the small model with [b], which has no outgoing transition, as
    the current state of the default region. *)
Lemma completeness_of_regions_states_machines_witness :
  let w := Demo.configured in
  let instance : Demo.IInstance := DictionaryInstance Demo.i in
  wf w ∧ instance_ok w instance
  ∧ Region_isComplete Demo.region instance w = Some (true, w)
  ∧ StateMachine_isComplete Demo.m instance w = Some (true, w)
  ∧ State_isComplete Demo.a instance w = Some (true, w).
Proof.
  intros w instance.
  assert (wf w) as Hwf by by_evaluation.
  assert (instance_ok w instance) as Hinst.
  { clear. eapply DictionaryInstance_ok; [vm_compute; reflexivity|]. by_evaluation. }
  destruct (completeness_of_regions_states_machines w instance)
    as (Hfinal & Hregion & Hstate & Hmachine & Htotal).
  assert (∃ ro, heap w !! Demo.region = Some (ORegion ro)) as (ro & Hro).
  { clear. eexists. vm_compute. reflexivity. }
  assert (∃ v f, heap w !! Demo.b = Some (OVertex v) ∧ v_class v = IsState f
                 ∧ outgoing v = []) as (vb & fb & Hvb & Hclsb & Hout).
  { clear. eexists _, _. split; [|split]; vm_compute; reflexivity. }
  assert (getCurrent instance Demo.region w = Some (Some Demo.b)) as Hcur.
  { clear. vm_compute. reflexivity. }
  assert (Region_isComplete Demo.region instance w = Some (true, w)) as Hcomplete.
  { apply (proj2 (Hregion _ _ Hro)). exists Demo.b. split; [exact Hcur|].
    rewrite (Hfinal _ _ _ Hvb Hclsb), Hout. reflexivity. }
  split; [exact Hwf|]. split; [exact Hinst|]. split; [exact Hcomplete|]. split.
  - assert (∃ sm, heap w !! Demo.m = Some (OStateMachine sm)
                  ∧ sm_regions sm = [Demo.region]) as (sm & Hsm & Hregs).
    { clear. eexists. split; vm_compute; reflexivity. }
    apply (proj2 (Hmachine _ _ Hsm)). rewrite Hregs. intros r Hr.
    apply list_elem_of_singleton in Hr. rewrite Hr. exact Hcomplete.
  - assert (∃ v f, heap w !! Demo.a = Some (OVertex v) ∧ v_class v = IsState f
                   ∧ regions f = []) as (v & f & Hv & Hcls & Hregs).
    { clear. eexists _, _. split; [|split]; vm_compute; reflexivity. }
    exact (proj2 (Hstate _ _ _ Hv Hcls) Hregs).
Defined.

(** C6 on the small model. *)
Lemma initialise_model_idempotent_witness :
  wf Demo.built
  ∧ ∃ sm w1 w2,
      heap Demo.built !! Demo.m = Some (OStateMachine sm)
      ∧ StateMachine_initialise Demo.runAction Demo.m None None Demo.built
        = Some (tt, w1)
      ∧ query (read_clean Demo.m) w1 = Some true
      ∧ StateMachine_initialise Demo.runAction Demo.m None None w1 = Some (tt, w2)
      ∧ heap w2 = heap w1 ∧ next w2 = next w1.
Proof.
  assert (wf Demo.built) as Hwf by by_evaluation.
  assert (∃ sm, heap Demo.built !! Demo.m = Some (OStateMachine sm)) as (sm & Hsm).
  { clear. eexists. vm_compute. reflexivity. }
  split; [exact Hwf|].
  destruct (initialise_model_idempotent Demo.runAction Demo.built Demo.m sm Hwf Hsm)
    as (w1 & w2 & Hfirst & _ & _ & Hclean & Hsecond & Hheap & Hnext & _).
  exists sm, w1, w2.
  exact (conj Hsm (conj Hfirst (conj Hclean (conj Hsecond (conj Hheap Hnext))))).
Defined.

(** C7 on the two machines: the regions [1] and [4] have the qualified
    name ["m.r"]. *)
Lemma dictionary_keyed_by_qualified_name_witness :
  let instance : Demo.IInstance := DictionaryInstance 7 in
  ∃ d w',
    heap Demo.twins !! 7 = Some (ODictionaryInstance d)
    ∧ setCurrent instance 1 2 Demo.twins = Some (tt, w')
    ∧ getCurrent instance 1 w' = Some (Some 2)
    ∧ getCurrent instance 4 w' = Some (Some 2)
    ∧ getCurrent (DictionaryInstance 8) 1 w'
      = getCurrent (DictionaryInstance 8) 1 Demo.twins.
Proof.
  intros instance.
  assert (∃ d, heap Demo.twins !! 7 = Some (ODictionaryInstance d)) as (d & Hd).
  { clear. eexists. vm_compute. reflexivity. }
  assert (query (qualifiedName 1) Demo.twins = Some "m.r") as Hq1.
  { clear. vm_compute. reflexivity. }
  assert (query (qualifiedName 4) Demo.twins = Some "m.r") as Hq4.
  { clear. vm_compute. reflexivity. }
  destruct (dictionary_keyed_by_qualified_name Demo.twins 7 d Hd) as [Hset _].
  destruct (Hset 1 2 "m.r" Hq1) as (w' & Hrun & _ & Hsame & _ & Hother).
  exists d, w'.
  refine (conj Hd (conj Hrun (conj (Hsame 1 Hq1) (conj (Hsame 4 Hq4) _)))).
  apply Hother. clear. discriminate.
Defined.

(** C7, the last clause as the claim has it: two machines of different
    structure, named alike, with regions named alike.  The region [4] of
    the second machine has no current state; after [setCurrent] for the
    region [1] of the first machine its current state is the state [2] of
    the first machine. *)
Lemma distinct_models_share_an_entry :
  let instance : Demo.IInstance := DictionaryInstance 7 in
  query (getRoot 1) Demo.twins = Some 0
  ∧ query (getRoot 4) Demo.twins = Some 3
  ∧ query (getRoot 2) Demo.twins = Some 0
  ∧ (vertices <$> query (as_Region 1) Demo.twins) = Some [2]
  ∧ (vertices <$> query (as_Region 4) Demo.twins) = Some [5; 6]
  ∧ getCurrent instance 4 Demo.twins = Some None
  ∧ ∃ w', setCurrent instance 1 2 Demo.twins = Some (tt, w')
      ∧ getCurrent instance 4 w' = Some (Some 2)
      ∧ getCurrent instance 4 w' ≠ getCurrent instance 4 Demo.twins.
Proof.
  intros instance.
  repeat (split; [vm_compute; reflexivity|]).
  eexists. split; [vm_compute; reflexivity|].
  split; [vm_compute; reflexivity|]. vm_compute. discriminate.
Qed.

(** C8 on a vertex whose [select] finds a transition for the message
    ["go"] only. *)
Lemma evaluate_runs_selected_transition_witness :
  Fsm.evaluate FsmDemo.select FsmDemo.traverse FsmDemo.call 0 (VString "stay") tt []
  = Some (false, [])
  ∧ Fsm.traverse_stable FsmDemo.traverse FsmDemo.call 0 (VString "go") tt
  ∧ Fsm.evaluate FsmDemo.select FsmDemo.traverse FsmDemo.call 0 (VString "go") tt []
    = Some (true, ["exit"; "enter"]).
Proof.
  destruct (evaluate_runs_selected_transition FsmDemo.select FsmDemo.traverse
              FsmDemo.call 0 (VString "stay") tt []) as (Hnone & _ & _).
  destruct (evaluate_runs_selected_transition FsmDemo.select FsmDemo.traverse
              FsmDemo.call 0 (VString "go") tt []) as (_ & Hsome & _).
  assert (Fsm.traverse_stable FsmDemo.traverse FsmDemo.call 0 (VString "go") tt)
    as Hstable by (intros ? ? ? _; reflexivity).
  split; [exact (Hnone [] eq_refl)|]. split; [exact Hstable|].
  exact (Hsome 0 [] eq_refl Hstable).
Defined.

(** C9 on the transition from [a] to [b] of the small model once it is
    compiled: the flag of the machine reads [true] there. *)
Lemma guard_setters_keep_clean_effect_clears_witness :
  wf Demo.compiled
  ∧ query (read_clean Demo.m) Demo.compiled = Some true
  ∧ ∃ tr,
      heap Demo.compiled !! Demo.a_to_b = Some (OTransition tr)
      ∧ (∃ w' tr',
           Transition_when Demo.a_to_b "isEvent" Demo.compiled = Some (Demo.a_to_b, w')
           ∧ heap w' !! Demo.a_to_b = Some (OTransition tr')
           ∧ guard tr' = GUser "isEvent"
           ∧ effectBehavior tr' = effectBehavior tr
           ∧ query (read_clean Demo.m) w' = query (read_clean Demo.m) Demo.compiled)
      ∧ (∃ w' tr',
           Transition_else Demo.a_to_b Demo.compiled = Some (Demo.a_to_b, w')
           ∧ heap w' !! Demo.a_to_b = Some (OTransition tr')
           ∧ guard tr' = GFalse
           ∧ Guard_call Demo.callUserGuard (guard tr') (VObject Demo.a)
               (DictionaryInstance Demo.i) w' = Some false
           ∧ query (read_clean Demo.m) w' = query (read_clean Demo.m) Demo.compiled)
      ∧ (∃ w' tr',
           Transition_effect Demo.a_to_b "log" Demo.compiled = Some (Demo.a_to_b, w')
           ∧ heap w' !! Demo.a_to_b = Some (OTransition tr')
           ∧ effectBehavior tr' = effectBehavior tr ++ ["log"]
           ∧ guard tr' = guard tr
           ∧ query (read_clean (source tr)) w' = Some false).
Proof.
  assert (wf Demo.compiled) as Hwf by by_evaluation.
  assert (query (read_clean Demo.m) Demo.compiled = Some true) as Hflag.
  { clear. vm_compute. reflexivity. }
  assert (∃ tr, heap Demo.compiled !! Demo.a_to_b = Some (OTransition tr)) as (tr & Htr).
  { clear. eexists. vm_compute. reflexivity. }
  split; [exact Hwf|]. split; [exact Hflag|]. exists tr. split; [exact Htr|].
  destruct (guard_setters_keep_clean_effect_clears Demo.callUserGuard
              Demo.compiled Demo.a_to_b tr Hwf Htr)
    as (Hwhen & Helse & Heffect).
  split; [|split].
  - destruct (Hwhen "isEvent")
      as (w' & tr' & Hrun & Hobj & Hguard & _ & _ & _ & _ & Heff & _ & Hclean).
    exists w', tr'.
    exact (conj Hrun (conj Hobj (conj Hguard (conj Heff (Hclean Demo.m))))).
  - destruct Helse
      as (w' & tr' & Hrun & Hobj & Hguard & Hcall & _ & _ & _ & _ & _ & Hclean).
    exists w', tr'.
    exact (conj Hrun (conj Hobj (conj Hguard
             (conj (Hcall (VObject Demo.a) (DictionaryInstance Demo.i))
                (Hclean Demo.m))))).
  - destruct (Heffect "log")
      as (w' & tr' & Hrun & Hobj & Heff & Hguard & _ & _ & _ & _ & Hclean).
    exists w', tr'.
    exact (conj Hrun (conj Hobj (conj Heff (conj Hguard Hclean)))).
Defined.

(** C10 on the small model: on the state [a], which has no region yet,
    with the run [more] after the first call; and on the machine, whose
    default region is recorded. *)
Lemma getDefaultRegion_lazy_idempotent_witness :
  wf Demo.built ∧ is_owner (shape_at (heap Demo.built) Demo.a)
  ∧ is_owner (shape_at (heap Demo.built) Demo.m)
  ∧ (∃ r w1 po po1,
      getDefaultRegion Demo.a Demo.built = Some (r, w1)
      ∧ heap Demo.built !! Demo.a = Some po ∧ defaultRegion_of po = None
      ∧ heap w1 !! Demo.a = Some po1
      ∧ defaultRegion_of po1 = Some r ∧ regions_of po1 = regions_of po ++ [r]
      ∧ query (read_clean Demo.a) w1 = Some false
      ∧ getDefaultRegion Demo.a w1 = Some (r, w1)
      ∧ (∃ v w2 vo ro,
          State_new "inner" Demo.a Demo.built = Some (v, w2)
          ∧ heap w2 !! v = Some (OVertex vo) ∧ v_parent vo = r
          ∧ heap w2 !! r = Some (ORegion ro) ∧ v ∈ vertices ro)
      ∧ ∃ w3 v w4 vo ro,
          run_all Demo.more w1 = Some (tt, w3)
          ∧ getDefaultRegion Demo.a w3 = Some (r, w3)
          ∧ State_new "inner" Demo.a w3 = Some (v, w4)
          ∧ heap w4 !! v = Some (OVertex vo) ∧ v_parent vo = r
          ∧ heap w4 !! r = Some (ORegion ro) ∧ v ∈ vertices ro)
  ∧ ∃ r w1 po,
      getDefaultRegion Demo.m Demo.built = Some (r, w1)
      ∧ heap Demo.built !! Demo.m = Some po
      ∧ defaultRegion_of po = Some Demo.region
      ∧ r = Demo.region ∧ w1 = Demo.built.
Proof.
  assert (wf Demo.built) as Hwf by by_evaluation.
  assert (is_owner (shape_at (heap Demo.built) Demo.a)) as Hown by by_evaluation.
  assert (is_owner (shape_at (heap Demo.built) Demo.m)) as Hownm by by_evaluation.
  assert (Forall Frame.proper Demo.more) as Hproper.
  { clear. repeat constructor. }
  split; [exact Hwf|]. split; [exact Hown|]. split; [exact Hownm|]. split.
  - destruct (getDefaultRegion_lazy_idempotent Demo.built Demo.a Hwf Hown)
      as (r & w1 & po & po1 & Hget & Hpo & Hpo1 & Hdef & _ & _ & Hfirst & _ & Hagain
          & Hlater & Hvertex).
    assert (defaultRegion_of po = None) as Hnone.
    { clear - Hpo. revert Hpo. vm_compute. intros [= <-]. reflexivity. }
    assert (∃ w3, ∀ r' w1', getDefaultRegion Demo.a Demo.built = Some (r', w1') →
                            run_all Demo.more w1' = Some (tt, w3)) as (w3 & Hrun3).
    { clear. eexists. intros r' w1' H. vm_compute in H. injection H as <- <-.
      vm_compute. reflexivity. }
    destruct (Hfirst Hnone) as (_ & _ & Hregs & Hclean).
    destruct (Hvertex (IsState (mkStateFields [] None [] [])) "inner" eq_refl)
      as (v & w2 & vo & ro & Hnew & Hvo & Hparent & Hro & Hin & _).
    destruct (Hlater Demo.more w3 Hproper (Hrun3 r w1 Hget)) as [Hget3 Hvertex3].
    destruct (Hvertex3 (IsState (mkStateFields [] None [] [])) "inner" eq_refl)
      as (v3 & w4 & vo3 & ro3 & Hnew3 & Hvo3 & Hparent3 & Hro3 & Hin3 & _).
    exists r, w1, po, po1.
    refine (conj Hget (conj Hpo (conj Hnone (conj Hpo1 (conj Hdef (conj Hregs
              (conj Hclean (conj Hagain (conj _ _))))))))).
    + exists v, w2, vo, ro.
      exact (conj Hnew (conj Hvo (conj Hparent (conj Hro Hin)))).
    + exists w3, v3, w4, vo3, ro3.
      exact (conj (Hrun3 r w1 Hget) (conj Hget3 (conj Hnew3 (conj Hvo3
               (conj Hparent3 (conj Hro3 Hin3)))))).
  - destruct (getDefaultRegion_lazy_idempotent Demo.built Demo.m Hwf Hownm)
      as (r & w1 & po & po1 & Hget & Hpo & _ & _ & _ & _ & _ & Hrecorded & _).
    assert (defaultRegion_of po = Some Demo.region) as Hsome.
    { clear - Hpo. revert Hpo. vm_compute. intros [= <-]. reflexivity. }
    exists r, w1, po.
    exact (conj Hget (conj Hpo (conj Hsome (Hrecorded Demo.region Hsome)))).
Defined.


(** ** Further facts on the small models *)

Import Hierarchy Frame.

(** X1 on the state [c] of the grown model, which lies in the region
    [inner] of the state [b]. *)
Lemma getAncestors_from_root_to_element_witness :
  wf DemoNested.built
  ∧ is_element (shape_at (heap DemoNested.built) DemoNested.c)
  ∧ getAncestors DemoNested.c DemoNested.built
    = Some ([Demo.m; Demo.region; Demo.b; DemoNested.inner; DemoNested.c],
            DemoNested.built)
  ∧ ∃ ancestors m,
      getAncestors DemoNested.c DemoNested.built = Some (ancestors, DemoNested.built)
      ∧ getRoot DemoNested.c DemoNested.built = Some (m, DemoNested.built)
      ∧ head ancestors = Some m ∧ last ancestors = Some DemoNested.c.
Proof.
  assert (wf DemoNested.built) as Hwf by by_evaluation.
  assert (is_element (shape_at (heap DemoNested.built) DemoNested.c)) as Hel
    by by_evaluation.
  split; [exact Hwf|]. split; [exact Hel|].
  split; [clear; vm_compute; reflexivity|].
  destruct (getAncestors_from_root_to_element DemoNested.built DemoNested.c Hwf Hel)
    as (ancestors & m & Hanc & Hroot & Hhead & Hlast & _).
  exists ancestors, m. exact (conj Hanc (conj Hroot (conj Hhead Hlast))).
Defined.

(** X2 on the same state. *)
Lemma getRoot_shared_with_parent_witness :
  wf DemoNested.built
  ∧ is_element (shape_at (heap DemoNested.built) DemoNested.c)
  ∧ parent_of (heap DemoNested.built) DemoNested.c = Some DemoNested.inner
  ∧ ∃ m sm,
      getRoot DemoNested.c DemoNested.built = Some (m, DemoNested.built)
      ∧ heap DemoNested.built !! m = Some (OStateMachine sm)
      ∧ getRoot m DemoNested.built = Some (m, DemoNested.built)
      ∧ getRoot DemoNested.inner DemoNested.built = Some (m, DemoNested.built).
Proof.
  assert (wf DemoNested.built) as Hwf by by_evaluation.
  assert (is_element (shape_at (heap DemoNested.built) DemoNested.c)) as Hel
    by by_evaluation.
  assert (parent_of (heap DemoNested.built) DemoNested.c = Some DemoNested.inner)
    as Hparent by (clear; vm_compute; reflexivity).
  split; [exact Hwf|]. split; [exact Hel|]. split; [exact Hparent|].
  destruct (getRoot_shared_with_parent DemoNested.built DemoNested.c Hwf Hel)
    as (m & sm & Hroot & Hsm & _ & Hself & Hshared).
  exists m, sm. exact (conj Hroot (conj Hsm (conj Hself (Hshared _ Hparent)))).
Defined.

(** X3 on the same state: [b] and [c] are the current states of their
    regions, so [c] is active. *)
Lemma isActive_iff_states_on_path_current_witness :
  let w := DemoNested.built in
  let instance : Demo.IInstance := DictionaryInstance Demo.i in
  wf w ∧ instance_ok w instance ∧ is_element (shape_at (heap w) DemoNested.c)
  ∧ isActive DemoNested.c instance w = Some (true, w)
  ∧ ∃ ancestors b,
      getAncestors DemoNested.c w = Some (ancestors, w)
      ∧ isActive DemoNested.c instance w = Some (b, w)
      ∧ (b = true ↔ ∀ s, s ∈ ancestors → is_state (shape_at (heap w) s) →
                      current_in_parent instance w s).
Proof.
  intros w instance.
  assert (wf w) as Hwf by by_evaluation.
  assert (instance_ok w instance) as Hinst.
  { clear. eapply DictionaryInstance_ok; [vm_compute; reflexivity|]. by_evaluation. }
  assert (is_element (shape_at (heap w) DemoNested.c)) as Hel by by_evaluation.
  split; [exact Hwf|]. split; [exact Hinst|]. split; [exact Hel|].
  split; [clear; vm_compute; reflexivity|].
  exact (isActive_iff_states_on_path_current w instance DemoNested.c Hwf Hinst Hel).
Defined.

(** X4 on the first region of the grown model: [b] is its current state
    and active, [a] is not active. *)
Lemma isActive_one_state_per_region_witness :
  let w := DemoNested.built in
  let instance : Demo.IInstance := DictionaryInstance Demo.i in
  is_state (shape_at (heap w) Demo.b)
  ∧ isActive Demo.b instance w = Some (true, w)
  ∧ ∃ r, parent_of (heap w) Demo.b = Some r
      ∧ getCurrent instance r w = Some (Some Demo.b)
      ∧ isActive r instance w = Some (true, w)
      ∧ (parent_of (heap w) Demo.a = Some r →
         isActive Demo.a instance w = Some (false, w)).
Proof.
  intros w instance.
  assert (is_state (shape_at (heap w) Demo.b)) as Hb by by_evaluation.
  assert (is_state (shape_at (heap w) Demo.a)) as Ha by by_evaluation.
  assert (isActive Demo.b instance w = Some (true, w)) as Hact
    by (clear; vm_compute; reflexivity).
  split; [exact Hb|]. split; [exact Hact|].
  destruct (isActive_one_state_per_region w instance Demo.b Hb Hact)
    as (r & Hr & Hcur & Hregion & Hothers).
  exists r. refine (conj Hr (conj Hcur (conj Hregion _))).
  intros Hpa. apply (Hothers Demo.a Ha Hpa). clear. discriminate.
Defined.

(** X5 on the first model: a second instance. *)
Lemma new_instance_has_no_active_state_witness :
  wf Demo.built
  ∧ ∃ i w0,
      DictionaryInstance_new "j" Demo.built = Some (i, w0)
      ∧ wf w0 ∧ instance_ok w0 (DictionaryInstance i)
      ∧ (∀ r, is_region (shape_at (heap w0) r) →
           Region_isComplete r (DictionaryInstance i) w0 = Some (false, w0))
      ∧ (∀ s, is_state (shape_at (heap w0) s) →
           isActive s (DictionaryInstance i) w0 = Some (false, w0)).
Proof.
  assert (wf Demo.built) as Hwf by by_evaluation.
  assert (∃ i w0, DictionaryInstance_new "j" Demo.built = Some (i, w0))
    as (i & w0 & Hnew).
  { clear. eexists _, _. vm_compute. reflexivity. }
  split; [exact Hwf|]. exists i, w0.
  destruct (new_instance_has_no_active_state Demo.built "j" i w0 Hwf Hnew)
    as (Hwf0 & Hinst & Hregions & Hstates).
  refine (conj Hnew (conj Hwf0 (conj Hinst (conj _ Hstates)))).
  intros r Hr. exact (proj2 (Hregions r Hr)).
Defined.

(** X6 on the first model: a state [c] under the machine. *)
Lemma new_State_is_simple_and_final_witness :
  wf Demo.built ∧ is_owner (shape_at (heap Demo.built) Demo.m)
  ∧ ∃ s w',
      State_new "c" Demo.m Demo.built = Some (s, w')
      ∧ State_isSimple s w' = Some (true, w')
      ∧ State_isComposite s w' = Some (false, w')
      ∧ State_isFinal s w' = Some (true, w').
Proof.
  assert (wf Demo.built) as Hwf by by_evaluation.
  assert (is_owner (shape_at (heap Demo.built) Demo.m)) as Hown by by_evaluation.
  split; [exact Hwf|]. split; [exact Hown|].
  destruct (new_State_is_simple_and_final Demo.built "c" Demo.m Hwf (or_intror Hown))
    as (s & w' & Hrun & Hsimple & Hcomposite & _ & Hfinal & _).
  exists s, w'. exact (conj Hrun (conj Hsimple (conj Hcomposite Hfinal))).
Defined.

(** X7 on the state [a] of the first model, which has no region. *)
Lemma State_composite_after_region_or_child_witness :
  wf Demo.built
  ∧ ∃ v f,
      heap Demo.built !! Demo.a = Some (OVertex v) ∧ v_class v = IsState f
      ∧ regions f = []
      ∧ (∃ r w', Region_new "inner" Demo.a Demo.built = Some (r, w')
           ∧ State_isComposite Demo.a w' = Some (true, w')
           ∧ State_isOrthogonal Demo.a w' = Some (0 <? length (regions f), w'))
      ∧ (∃ c w' r, State_new "child" Demo.a Demo.built = Some (c, w')
           ∧ parent_of (heap w') c = Some r ∧ parent_of (heap w') r = Some Demo.a
           ∧ State_isComposite Demo.a w' = Some (true, w')).
Proof.
  assert (wf Demo.built) as Hwf by by_evaluation.
  assert (∃ v f, heap Demo.built !! Demo.a = Some (OVertex v) ∧ v_class v = IsState f
                 ∧ regions f = []) as (v & f & Hv & Hcls & Hregs).
  { clear. eexists _, _. split; [|split]; vm_compute; reflexivity. }
  split; [exact Hwf|]. exists v, f.
  destruct (State_composite_after_region_or_child Demo.built Demo.a v f Hwf Hv Hcls)
    as (Hregion & Hchild).
  refine (conj Hv (conj Hcls (conj Hregs (conj _ _)))).
  - destruct (Hregion "inner") as (r & w' & Hrun & _ & Hcomposite & Horthogonal).
    exists r, w'. exact (conj Hrun (conj Hcomposite Horthogonal)).
  - destruct (Hchild (IsState (mkStateFields [] None [] [])) "child" eq_refl)
      as (c & w' & r & Hrun & Hpc & Hpr & _ & Hcomposite).
    exists c, w', r. exact (conj Hrun (conj Hpc (conj Hpr Hcomposite))).
Defined.

(** X8 on the state [b] of the first model, which is final there. *)
Lemma transition_ends_final_witness :
  wf Demo.built
  ∧ State_isFinal Demo.b Demo.built = Some (true, Demo.built)
  ∧ ∃ t w',
      Vertex_to Demo.b (Some Demo.a) None Demo.built = Some (t, w')
      ∧ State_isFinal Demo.b w' = Some (false, w').
Proof.
  assert (wf Demo.built) as Hwf by by_evaluation.
  assert (is_vertex (shape_at (heap Demo.built) Demo.a)) as Ha by by_evaluation.
  assert (∃ v f, heap Demo.built !! Demo.b = Some (OVertex v) ∧ v_class v = IsState f)
    as (v & f & Hv & Hcls).
  { clear. eexists _, _. split; vm_compute; reflexivity. }
  split; [exact Hwf|]. split; [clear; vm_compute; reflexivity|].
  destruct (transition_ends_final Demo.built Demo.b v f (Some Demo.a) None
              Hwf Hv Hcls Ha) as (t & w' & Hrun & Hfinal & _).
  exists t, w'. exact (conj Hrun Hfinal).
Defined.

(** X9 on the first model: a deep history state and a pseudo state of no
    given kind under the machine. *)
Lemma PseudoState_kind_queries_witness :
  wf Demo.built ∧ is_owner (shape_at (heap Demo.built) Demo.m)
  ∧ (∃ p w', PseudoState_new "h" Demo.m (Some DeepHistory) Demo.built = Some (p, w')
       ∧ PseudoState_isHistory p w' = Some (true, w')
       ∧ PseudoState_isInitial p w' = Some (true, w'))
  ∧ (∃ p w' history, PseudoState_new "p" Demo.m None Demo.built = Some (p, w')
       ∧ PseudoState_isHistory p w' = Some (history, w')
       ∧ history ≠ true
       ∧ PseudoState_isInitial p w' = Some (true, w')).
Proof.
  assert (wf Demo.built) as Hwf by by_evaluation.
  assert (is_owner (shape_at (heap Demo.built) Demo.m)) as Hown by by_evaluation.
  split; [exact Hwf|]. split; [exact Hown|]. split.
  - destruct (PseudoState_kind_queries Demo.built "h" Demo.m (Some DeepHistory)
                Hwf (or_intror Hown))
      as (p & w' & history & initial & Hrun & Hh & Hi & Hhistory & Hinitial).
    assert (history = true) as Hht by exact (proj2 Hhistory (or_introl eq_refl)).
    assert (initial = true) as Hit
      by exact (proj2 Hinitial (or_intror (or_intror Hht))).
    exists p, w'. rewrite Hht in Hh. rewrite Hit in Hi.
    exact (conj Hrun (conj Hh Hi)).
  - destruct (PseudoState_kind_queries Demo.built "p" Demo.m None
                Hwf (or_intror Hown))
      as (p & w' & history & initial & Hrun & Hh & Hi & Hhistory & Hinitial).
    assert (initial = true) as Hit by exact (proj2 Hinitial (or_introl eq_refl)).
    exists p, w', history. rewrite Hit in Hi.
    refine (conj Hrun (conj Hh (conj _ Hi))).
    intros Hht. destruct (proj1 Hhistory Hht) as [H|H]; discriminate H.
Defined.

(** X10 on the first model: a visit of the machine, which walks through
    its one region. *)
Lemma accept_only_logs_element_last_witness :
  children_at (heap Demo.built) Demo.m = [Demo.region]
  ∧ ∃ w', accept 9 Demo.m Demo.built = Some (tt, w')
    ∧ heap w' = heap Demo.built ∧ next w' = next Demo.built
    ∧ ∃ outputs s,
        console w' = console Demo.built ++ concat outputs ++ ["visiting " +:+ s]
        ∧ (query (Element_toString Demo.m) Demo.built = Some s
           ∨ query (Transition_toString Demo.m) Demo.built = Some s)
        ∧ Forall2 (λ child output,
             emits (accept (pred 9) child) Demo.built output
             ∧ ∃ sc, last output = Some ("visiting " +:+ sc)
                 ∧ (query (Element_toString child) Demo.built = Some sc
                    ∨ query (Transition_toString child) Demo.built = Some sc))
            (children_at (heap Demo.built) Demo.m) outputs.
Proof.
  assert (∃ w', accept 9 Demo.m Demo.built = Some (tt, w')) as (w' & Hrun).
  { clear. eexists. vm_compute. reflexivity. }
  split; [clear; vm_compute; reflexivity|].
  exists w'. split; [exact Hrun|].
  exact (accept_only_logs_element_last 9 Demo.m Demo.built w' Hrun).
Defined.

(** X11 on the first model, which is not clean, and its instance. *)
Lemma initialise_instance_compiles_unclean_model_witness :
  let instance : Demo.IInstance := DictionaryInstance Demo.i in
  wf Demo.built
  ∧ ∃ sm d w1,
      heap Demo.built !! Demo.m = Some (OStateMachine sm) ∧ clean sm = false
      ∧ heap Demo.built !! Demo.i = Some (ODictionaryInstance d)
      ∧ initialise_model Demo.m Demo.built = Some (tt, w1)
      ∧ query (read_clean Demo.m) w1 = Some true
      ∧ StateMachine_initialise Demo.runAction Demo.m (Some instance) None Demo.built
        = (log ("initialise " +:+ di_name d) ;;
           invoke Demo.runAction (onInitialise sm) VUndefined instance false) w1
      ∧ StateMachine_initialise Demo.runAction Demo.m (Some instance) (Some false)
          Demo.built
        = (log ("initialise " +:+ di_name d) ;;
           invoke Demo.runAction (onInitialise sm) VUndefined instance false)
            Demo.built.
Proof.
  intros instance.
  assert (wf Demo.built) as Hwf by by_evaluation.
  assert (∃ sm, heap Demo.built !! Demo.m = Some (OStateMachine sm)
                ∧ clean sm = false) as (sm & Hsm & Hclean).
  { clear. eexists. split; vm_compute; reflexivity. }
  assert (∃ d, heap Demo.built !! Demo.i = Some (ODictionaryInstance d)) as (d & Hd).
  { clear. eexists. vm_compute. reflexivity. }
  split; [exact Hwf|].
  destruct (initialise_instance_compiles_unclean_model Demo.runAction Demo.built
              Demo.m sm Demo.i d Hwf Hsm Hclean Hd)
    as (w1 & Hmodel & Hflag & Hauto & Hmanual).
  exists sm, d, w1.
  refine (conj Hsm (conj Hclean (conj Hd (conj Hmodel (conj Hflag
            (conj (Hauto None _) Hmanual)))))).
  clear. discriminate.
Defined.

(** X12 on the grown model: the regions [1] and [9] have different
    qualified names. *)
Lemma setCurrent_last_write_wins_witness :
  let w := DemoNested.built in
  let instance : Demo.IInstance := DictionaryInstance Demo.i in
  query (qualifiedName Demo.region) w = Some "m.default"
  ∧ query (qualifiedName DemoNested.inner) w = Some "m.default.b.inner"
  ∧ (setCurrent instance Demo.region Demo.a ;;
     setCurrent instance Demo.region Demo.b) w
    = setCurrent instance Demo.region Demo.b w
  ∧ (setCurrent instance Demo.region Demo.a ;;
     setCurrent instance DemoNested.inner DemoNested.c) w
    = (setCurrent instance DemoNested.inner DemoNested.c ;;
       setCurrent instance Demo.region Demo.a) w
  ∧ setCurrent instance Demo.region Demo.b w = Some (tt, w).
Proof.
  intros w instance.
  assert (∃ d, heap w !! Demo.i = Some (ODictionaryInstance d)) as (d & Hd).
  { clear. eexists. vm_compute. reflexivity. }
  assert (query (qualifiedName Demo.region) w = Some "m.default") as Hq1
    by (clear; vm_compute; reflexivity).
  assert (query (qualifiedName DemoNested.inner) w = Some "m.default.b.inner") as Hq2
    by (clear; vm_compute; reflexivity).
  assert (getCurrent instance Demo.region w = Some (Some Demo.b)) as Hcur
    by (clear; vm_compute; reflexivity).
  split; [exact Hq1|]. split; [exact Hq2|].
  destruct (setCurrent_last_write_wins w Demo.i d Demo.region Demo.region
              Demo.a Demo.b _ _ Hd Hq1 Hq1) as (Hsame & _ & _).
  destruct (setCurrent_last_write_wins w Demo.i d Demo.region DemoNested.inner
              Demo.a DemoNested.c _ _ Hd Hq1 Hq2) as (_ & Hswap & _).
  destruct (setCurrent_last_write_wins w Demo.i d Demo.region Demo.region
              Demo.b Demo.b _ _ Hd Hq1 Hq1) as (_ & _ & Hagain).
  refine (conj (Hsame eq_refl) (conj (Hswap _) (Hagain Hcur))).
  clear. discriminate.
Defined.

(** X13 on the first model. *)
Lemma setCurrent_leaves_model_witness :
  let instance : Demo.IInstance := DictionaryInstance Demo.i in
  wf Demo.built ∧ is_region (shape_at (heap Demo.built) Demo.region)
  ∧ ∃ w', setCurrent instance Demo.region Demo.b Demo.built = Some (tt, w')
      ∧ wf w' ∧ console w' = console Demo.built
      ∧ heap w' !! Demo.b = heap Demo.built !! Demo.b
      ∧ query (read_clean Demo.b) w' = query (read_clean Demo.b) Demo.built.
Proof.
  intros instance.
  assert (wf Demo.built) as Hwf by by_evaluation.
  assert (is_region (shape_at (heap Demo.built) Demo.region)) as Hreg by by_evaluation.
  assert (∃ d, heap Demo.built !! Demo.i = Some (ODictionaryInstance d)) as (d & Hd).
  { clear. eexists. vm_compute. reflexivity. }
  split; [exact Hwf|]. split; [exact Hreg|].
  destruct (setCurrent_leaves_model Demo.built Demo.i d Demo.region Demo.b Hwf Hd Hreg)
    as (w' & Hrun & Hwf' & _ & Hconsole & Hothers & Hflags).
  exists w'.
  refine (conj Hrun (conj Hwf' (conj Hconsole (conj (Hothers Demo.b _)
            (Hflags Demo.b))))).
  clear. discriminate.
Defined.

(** X14 on the first model and the run [more]: the state [b] after it. *)
Lemma builder_only_appends_witness :
  wf Demo.built
  ∧ ∃ w' o o',
      run_all Demo.more Demo.built = Some (tt, w')
      ∧ heap Demo.built !! Demo.b = Some o
      ∧ heap w' !! Demo.b = Some o' ∧ extends o o'.
Proof.
  assert (wf Demo.built) as Hwf by by_evaluation.
  assert (∃ w', run_all Demo.more Demo.built = Some (tt, w')) as (w' & Hrun).
  { clear. eexists. vm_compute. reflexivity. }
  assert (∃ o, heap Demo.built !! Demo.b = Some o) as (o & Ho).
  { clear. eexists. vm_compute. reflexivity. }
  split; [exact Hwf|].
  destruct (builder_only_appends Demo.built Demo.more w' Hwf Hrun) as (_ & Hlater).
  destruct (Hlater Demo.b o Ho) as (o' & Ho' & Hext).
  exists w', o, o'. exact (conj Hrun (conj Ho (conj Ho' Hext))).
Defined.

(** X15 on the first model and the run [more]: the state [a] has outgoing
    transitions. *)
Lemma builder_keeps_not_final_and_composite_witness :
  wf Demo.built
  ∧ State_isFinal Demo.a Demo.built = Some (false, Demo.built)
  ∧ ∃ w', run_all Demo.more Demo.built = Some (tt, w')
      ∧ State_isFinal Demo.a w' = Some (false, w').
Proof.
  assert (wf Demo.built) as Hwf by by_evaluation.
  assert (∃ w', run_all Demo.more Demo.built = Some (tt, w')) as (w' & Hrun).
  { clear. eexists. vm_compute. reflexivity. }
  assert (State_isFinal Demo.a Demo.built = Some (false, Demo.built)) as Hfinal
    by (clear; vm_compute; reflexivity).
  split; [exact Hwf|]. split; [exact Hfinal|]. exists w'.
  destruct (builder_keeps_not_final_and_composite Demo.built Demo.more w' Demo.a
              Hwf Hrun) as (Hkeeps & _).
  exact (conj Hrun (Hkeeps Hfinal)).
Defined.

(** X16 on the grown model and the run [more]: the state [c] of the
    region [inner] stays active. *)
Lemma builder_keeps_names_and_activity_witness :
  let w := DemoNested.built in
  let instance : Demo.IInstance := DictionaryInstance Demo.i in
  wf w
  ∧ isActive DemoNested.c instance w = Some (true, w)
  ∧ ∃ w', run_all Demo.more w = Some (tt, w')
      ∧ query (Element_toString DemoNested.c) w' = Some "m.default.b.inner.c"
      ∧ getRoot DemoNested.c w' = Some (Demo.m, w')
      ∧ getCurrent instance DemoNested.inner w' = Some (Some DemoNested.c)
      ∧ isActive DemoNested.c instance w' = Some (true, w').
Proof.
  intros w instance.
  assert (wf w) as Hwf by by_evaluation.
  assert (∃ w', run_all Demo.more w = Some (tt, w')) as (w' & Hrun).
  { clear. eexists. vm_compute. reflexivity. }
  assert (isActive DemoNested.c instance w = Some (true, w)) as Hact
    by (clear; vm_compute; reflexivity).
  assert (query (Element_toString DemoNested.c) w = Some "m.default.b.inner.c") as Hs
    by (clear; vm_compute; reflexivity).
  assert (getRoot DemoNested.c w = Some (Demo.m, w)) as Hroot
    by (clear; vm_compute; reflexivity).
  assert (getCurrent instance DemoNested.inner w = Some (Some DemoNested.c)) as Hcur
    by (clear; vm_compute; reflexivity).
  split; [exact Hwf|]. split; [exact Hact|]. exists w'.
  destruct (builder_keeps_names_and_activity w Demo.more w' Hwf Hrun)
    as (Hnames & Hroots & _ & Hcurrent & Hactive).
  exact (conj Hrun (conj (Hnames _ _ Hs) (conj (Hroots _ _ Hroot)
           (conj (Hcurrent _ _ _ Hcur) (Hactive _ _ _ Hact))))).
Defined.

(** X17 on the first model and the run [more]. *)
Lemma builder_calls_that_return_keep_wf_witness :
  wf Demo.built ∧ Forall proper Demo.more
  ∧ ∃ w', run_all Demo.more Demo.built = Some (tt, w')
      ∧ wf w' ∧ commands_ok Demo.built Demo.more.
Proof.
  assert (wf Demo.built) as Hwf by by_evaluation.
  assert (Forall proper Demo.more) as Hproper.
  { clear. unfold Demo.more. repeat constructor. }
  assert (∃ w', run_all Demo.more Demo.built = Some (tt, w')) as (w' & Hrun).
  { clear. eexists. vm_compute. reflexivity. }
  split; [exact Hwf|]. split; [exact Hproper|]. exists w'.
  exact (conj Hrun
           (builder_calls_that_return_keep_wf Demo.more Demo.built w' Hwf Hproper Hrun)).
Defined.

(** X18 on the first model and the run [more]. *)
Lemma qualified_names_kept_witness :
  wf Demo.built ∧ names_ok Demo.built
  ∧ ∃ w', run_all Demo.more Demo.built = Some (tt, w') ∧ names_ok w'.
Proof.
  assert (wf Demo.built) as Hwf by by_evaluation.
  assert (names_ok Demo.built) as Hnames by by_evaluation.
  assert (∃ w', run_all Demo.more Demo.built = Some (tt, w')) as (w' & Hrun).
  { clear. eexists. vm_compute. reflexivity. }
  split; [exact Hwf|]. split; [exact Hnames|]. exists w'.
  destruct (@qualified_names_kept string string string) as (_ & Hkept).
  destruct (Hkept Demo.built Hwf Hnames) as (_ & _ & Hruns).
  exact (conj Hrun (Hruns Demo.more w' Hrun)).
Defined.

(** X19 on the state [c] of the grown model. *)
Lemma qualified_name_is_dotted_path_witness :
  let w := DemoNested.built in
  wf w ∧ names_ok w ∧ is_element (shape_at (heap w) DemoNested.c)
  ∧ mapM (name_of (heap w))
      [Demo.m; Demo.region; Demo.b; DemoNested.inner; DemoNested.c]
    = Some ["m"; "default"; "b"; "inner"; "c"]
  ∧ ∃ ancestors names,
      getAncestors DemoNested.c w = Some (ancestors, w)
      ∧ mapM (name_of (heap w)) ancestors = Some names
      ∧ Element_toString DemoNested.c w = Some (String.concat "." names, w).
Proof.
  intros w.
  assert (wf w) as Hwf by by_evaluation.
  assert (names_ok w) as Hnames by by_evaluation.
  assert (is_element (shape_at (heap w) DemoNested.c)) as Hel by by_evaluation.
  split; [exact Hwf|]. split; [exact Hnames|]. split; [exact Hel|].
  split; [clear; vm_compute; reflexivity|].
  exact (qualified_name_is_dotted_path w DemoNested.c Hwf Hnames Hel).
Defined.

(** X20 on the state [a] of the first model: two regions named [r]. *)
Lemma regions_named_alike_share_an_entry_witness :
  let instance : Demo.IInstance := DictionaryInstance Demo.i in
  wf Demo.built
  ∧ ∃ r1 w1 r2 w2,
      Region_new "r" Demo.a Demo.built = Some (r1, w1)
      ∧ Region_new "r" Demo.a w1 = Some (r2, w2)
      ∧ r1 ≠ r2
      ∧ ∃ w3, setCurrent instance r1 Demo.b w2 = Some (tt, w3)
          ∧ getCurrent instance r2 w3 = Some (Some Demo.b).
Proof.
  intros instance.
  assert (wf Demo.built) as Hwf by by_evaluation.
  assert (∃ r1 w1 r2 w2,
            Region_new "r" Demo.a Demo.built = Some (r1, w1)
            ∧ Region_new "r" Demo.a w1 = Some (r2, w2)
            ∧ ∃ d, heap w2 !! Demo.i = Some (ODictionaryInstance d))
    as (r1 & w1 & r2 & w2 & Hrun1 & Hrun2 & d & Hd).
  { clear. eexists _, _, _, _. split; [vm_compute; reflexivity|].
    split; [vm_compute; reflexivity|]. eexists. vm_compute. reflexivity. }
  split; [exact Hwf|]. exists r1, w1, r2, w2.
  destruct (regions_named_alike_share_an_entry Demo.built "r" Demo.a r1 w1 r2 w2
              Hwf Hrun1 Hrun2) as (Hne & _ & Hshare).
  destruct (Hshare Demo.i d Demo.b Hd) as (w3 & Hset & _ & Hget).
  refine (conj Hrun1 (conj Hrun2 (conj Hne _))).
  exists w3. exact (conj Hset Hget).
Defined.

(** X21 on the first model and the run [more]. *)
Lemma constructed_objects_are_listed_witness :
  wf Demo.built ∧ all_listed Demo.built
  ∧ ∃ w', run_all Demo.more Demo.built = Some (tt, w') ∧ all_listed w'.
Proof.
  assert (wf Demo.built) as Hwf by by_evaluation.
  assert (all_listed Demo.built) as Hlisted by by_evaluation.
  assert (∃ w', run_all Demo.more Demo.built = Some (tt, w')) as (w' & Hrun).
  { clear. eexists. vm_compute. reflexivity. }
  split; [exact Hwf|]. split; [exact Hlisted|]. exists w'.
  destruct (@constructed_objects_are_listed string string string) as (_ & Hkept).
  destruct (Hkept Demo.built Hwf Hlisted) as (_ & _ & Hruns).
  exact (conj Hrun (Hruns Demo.more w' Hrun)).
Defined.

(** X22 on the first model: the lines for the state [b] and for the
    transition from [a] to [b]. *)
Lemma initialise_visits_every_element_witness :
  wf Demo.built ∧ all_listed Demo.built
  ∧ ∃ w' name lines,
      StateMachine_initialise Demo.runAction Demo.m None None Demo.built
      = Some (tt, w')
      ∧ console w' = console Demo.built ++ ("initialise " +:+ name) :: lines
      ∧ "visiting m.default.b" ∈ lines
      ∧ "visiting External(m.default.a -> m.default.b)" ∈ lines.
Proof.
  assert (wf Demo.built) as Hwf by by_evaluation.
  assert (all_listed Demo.built) as Hlisted by by_evaluation.
  assert (∃ w', StateMachine_initialise Demo.runAction Demo.m None None Demo.built
                = Some (tt, w')) as (w' & Hrun).
  { clear. eexists. vm_compute. reflexivity. }
  assert (getRoot Demo.b Demo.built = Some (Demo.m, Demo.built)) as Hrb
    by (clear; vm_compute; reflexivity).
  assert (query (Element_toString Demo.b) Demo.built = Some "m.default.b") as Hsb
    by (clear; vm_compute; reflexivity).
  assert (∃ tr, heap Demo.built !! Demo.a_to_b = Some (OTransition tr)
                ∧ getRoot (source tr) Demo.built = Some (Demo.m, Demo.built))
    as (tr & Htr & Hrt).
  { clear. eexists. split; vm_compute; reflexivity. }
  assert (query (Transition_toString Demo.a_to_b) Demo.built
          = Some "External(m.default.a -> m.default.b)") as Hst
    by (clear; vm_compute; reflexivity).
  split; [exact Hwf|]. split; [exact Hlisted|].
  destruct (initialise_visits_every_element Demo.runAction Demo.built Demo.m w'
              Hwf Hlisted Hrun) as (name & lines & _ & Hconsole & Helements & Htransitions).
  exists w', name, lines.
  exact (conj Hrun (conj Hconsole (conj (Helements _ _ Hrb Hsb)
           (Htransitions _ _ _ Htr Hrt Hst)))).
Defined.

(** X23 on a transition whose two actions each append an action to the
    array: the two are run, the appended ones are not. *)
Lemma evaluate_runs_actions_present_at_start_witness :
  Fsm.evaluate FsmArrayDemo.select FsmArrayDemo.traverse FsmArrayDemo.call_appending
    0 VUndefined tt (["exit"; "enter"], [])
  = Some (true, (["exit"; "enter"; "late"; "late"], ["exit"; "enter"])).
Proof.
  rewrite (evaluate_runs_actions_present_at_start FsmArrayDemo.select
             FsmArrayDemo.traverse FsmArrayDemo.call_appending
             0 VUndefined tt (["exit"; "enter"], []) 0 (["exit"; "enter"], [])
             eq_refl).
  - reflexivity.
  - intros a w w' [= <-]. exists ["late"]. reflexivity.
Defined.

(** X24 on a transition whose first action empties the array. *)
Lemma evaluate_throws_when_array_shrinks_witness :
  Fsm.evaluate FsmArrayDemo.select FsmArrayDemo.traverse FsmArrayDemo.call_clearing
    0 VUndefined tt (["exit"; "enter"], [])
  = None.
Proof.
  apply (evaluate_throws_when_array_shrinks FsmArrayDemo.select
           FsmArrayDemo.traverse FsmArrayDemo.call_clearing
           0 VUndefined tt (["exit"; "enter"], []) 0 (["exit"; "enter"], [])
           "exit" ([], ["exit"]));
    [reflexivity|reflexivity|simpl; lia|reflexivity|reflexivity].
Defined.

(** X25 on the state [a] of the first model, which has no region yet. *)
Lemma first_vertex_named_through_default_region_witness :
  wf Demo.built ∧ is_owner (shape_at (heap Demo.built) Demo.a)
  ∧ toString_of (heap Demo.built) Demo.a = Some "m.default.a"
  ∧ ∃ v w' r,
      State_new "child" Demo.a Demo.built = Some (v, w')
      ∧ parent_of (heap w') v = Some r ∧ parent_of (heap w') r = Some Demo.a
      ∧ toString_of (heap w') r = Some ("m.default.a" +:+ "." +:+ "default")
      ∧ toString_of (heap w') v
        = Some (("m.default.a" +:+ "." +:+ "default") +:+ "." +:+ "child").
Proof.
  assert (wf Demo.built) as Hwf by by_evaluation.
  assert (is_owner (shape_at (heap Demo.built) Demo.a)) as Hown by by_evaluation.
  assert (∃ po, heap Demo.built !! Demo.a = Some po ∧ defaultRegion_of po = None)
    as (po & Hpo & Hnone).
  { clear. eexists. split; vm_compute; reflexivity. }
  assert (toString_of (heap Demo.built) Demo.a = Some "m.default.a") as Hp
    by (clear; vm_compute; reflexivity).
  split; [exact Hwf|]. split; [exact Hown|]. split; [exact Hp|].
  exact (first_vertex_named_through_default_region Demo.built
           (IsState (mkStateFields [] None [] [])) "child" Demo.a po "m.default.a"
           Hwf eq_refl Hown Hpo Hnone Hp).
Defined.

(** X26 on the grown model: the state [a] of the first region, whose
    current state is [b]. *)
Lemma setCurrent_activates_state_of_active_region_witness :
  wf DemoNested.built ∧ names_ok DemoNested.built
  ∧ isActive Demo.a (DictionaryInstance Demo.i) DemoNested.built
    = Some (false, DemoNested.built)
  ∧ isActive Demo.region (DictionaryInstance Demo.i) DemoNested.built
    = Some (true, DemoNested.built)
  ∧ ∃ w', setCurrent (DictionaryInstance Demo.i) Demo.region Demo.a DemoNested.built
          = Some (tt, w')
      ∧ isActive Demo.region (DictionaryInstance Demo.i) w' = Some (true, w')
      ∧ isActive Demo.a (DictionaryInstance Demo.i) w' = Some (true, w').
Proof.
  assert (wf DemoNested.built) as Hwf by by_evaluation.
  assert (names_ok DemoNested.built) as Hnames by by_evaluation.
  assert (∃ d, heap DemoNested.built !! Demo.i = Some (ODictionaryInstance d))
    as (d & Hd).
  { clear. eexists. vm_compute. reflexivity. }
  assert (is_state (shape_at (heap DemoNested.built) Demo.a)) as Ha by by_evaluation.
  assert (parent_of (heap DemoNested.built) Demo.a = Some Demo.region) as Hparent
    by (clear; vm_compute; reflexivity).
  assert (isActive Demo.a (DictionaryInstance Demo.i) DemoNested.built
          = Some (false, DemoNested.built)) as Hbefore
    by (clear; vm_compute; reflexivity).
  assert (isActive Demo.region (DictionaryInstance Demo.i) DemoNested.built
          = Some (true, DemoNested.built)) as Hregion
    by (clear; vm_compute; reflexivity).
  split; [exact Hwf|]. split; [exact Hnames|].
  split; [exact Hbefore|]. split; [exact Hregion|].
  exact (setCurrent_activates_state_of_active_region DemoNested.built Demo.i d
           Demo.a Demo.region true Hwf Hnames Hd Ha Hparent Hregion).
Defined.

End Instances.
